(** * meeting_brain: the processing pipeline (transcription, analysis, linking)

    A shallow embedding of the three Supabase edge functions and the
    properties the specification states about them:
    - [TranscribeMeeting]: packages/supabase/functions/transcribe-meeting/index.ts
      (the copy with the File API branch; the repository holds a second,
      older copy without that branch, which is not modelled);
    - [AnalyzeMeeting]: supabase/functions/analyze-meeting/index.ts;
    - [LinkMeeting]: the link-meeting handler (the [Deno.serve] callback that
      declares [SIMILARITY_THRESHOLD] and [MAX_RELATED]).

    Conventions.
    - A JavaScript string is the list of its UTF-16 code units ([jsstring]).
    - Every handler is a function of the incoming request, of the replies of
      its external collaborators (the [env] record: store faults, storage,
      Gemini) and of the world (the database tables and the log of the
      external requests issued so far).
    - [throw]/[try ... catch] are an error monad over the world; an exception
      does not roll back what was written before it.
    - A number that is not an integer (similarity, strength) is a JavaScript
      double. It is carried as the rational it denotes, and an operation on
      doubles is the exact operation followed by the rounding of binary64
      to the nearest double, ties to even ([Binary64]); overflow, infinities
      and NaN are not modelled.
    - The diagnostic [steps] array, the CORS headers and the text of the
      prompts are not modelled; a Gemini request is recorded by the values
      its prompt is built from. *)

From Stdlib Require Import String Ascii DecimalString.
From Stdlib Require Import List NArith ZArith QArith Qround Qabs Qpower.
From Stdlib Require Import Bool Lia Lqa Arith Floats.
Import ListNotations.

(** ** JavaScript strings *)

Module Js.

Definition jsstring := list N.

Definition str (s : string) : jsstring :=
  map N_of_ascii (list_ascii_of_string s).

(** Line feed, the separator of [split("\n")]. *)
Definition LF : N := 10%N.

Fixpoint eqb (a b : jsstring) : bool :=
  match a, b with
  | [], [] => true
  | x :: a', y :: b' => N.eqb x y && eqb a' b'
  | _, _ => false
  end.

(** A string is truthy when it is not empty. *)
Definition truthy (s : jsstring) : bool :=
  match s with [] => false | _ :: _ => true end.

(** [String(n)] for a non-negative integer. *)
Definition of_N (n : N) : jsstring :=
  str (NilEmpty.string_of_uint (N.to_uint n)).

(** WhiteSpace and LineTerminator code units: what [trim] strips and what
    [\s] matches. *)
Definition isWhiteSpace (c : N) : bool :=
  ((c =? 9) || (c =? 10) || (c =? 11) || (c =? 12) || (c =? 13) || (c =? 32)
   || (c =? 160) || (c =? 5760) || ((8192 <=? c) && (c <=? 8202))
   || (c =? 8232) || (c =? 8233) || (c =? 8239) || (c =? 8287)
   || (c =? 12288) || (c =? 65279))%N.

(** [\d] *)
Definition isDigit (c : N) : bool := ((48 <=? c) && (c <=? 57))%N.

(** Canonicalisation of the [i] flag without the [u] flag: only the ASCII
    letters fold onto one another when the pattern letter is ASCII. *)
Definition fold_case (c : N) : N :=
  if ((97 <=? c) && (c <=? 122))%N then (c - 32)%N else c.

Definition char_eqb (ignore_case : bool) (p c : N) : bool :=
  if ignore_case then (fold_case p =? fold_case c)%N else (p =? c)%N.

Fixpoint trimStart (s : jsstring) : jsstring :=
  match s with
  | c :: r => if isWhiteSpace c then trimStart r else s
  | [] => []
  end.

Definition trimEnd (s : jsstring) : jsstring := rev (trimStart (rev s)).

Definition trim (s : jsstring) : jsstring := trimEnd (trimStart s).

(** [s.split(sep)] for a one-unit separator. *)
Fixpoint split (sep : N) (s : jsstring) : list jsstring :=
  match s with
  | [] => [[]]
  | c :: r =>
      if (c =? sep)%N then [] :: split sep r
      else match split sep r with
           | h :: t => (c :: h) :: t
           | [] => [[c]]
           end
  end.

(** [parts.join(sep)] *)
Fixpoint join (sep : jsstring) (parts : list jsstring) : jsstring :=
  match parts with
  | [] => []
  | [p] => p
  | p :: rest => p ++ sep ++ join sep rest
  end.

(** The literal [pat] read at the start of [s], with or without the [i] flag;
    the units it consumed and what follows them. *)
Fixpoint literal (ignore_case : bool) (pat s : jsstring)
  : option (jsstring * jsstring) :=
  match pat with
  | [] => Some ([], s)
  | p :: pat' =>
      match s with
      | c :: s' =>
          if char_eqb ignore_case p c then
            match literal ignore_case pat' s' with
            | Some (m, r) => Some (c :: m, r)
            | None => None
            end
          else None
      | [] => None
      end
  end.

Definition startsWith (s pat : jsstring) : bool :=
  match literal false pat s with Some _ => true | None => false end.

Definition endsWith (s pat : jsstring) : bool :=
  startsWith (rev s) (rev pat).

(** A greedy character-class star: the longest prefix in the class and the
    rest. *)
Fixpoint span (p : N -> bool) (s : jsstring) : jsstring * jsstring :=
  match s with
  | c :: r => if p c then let (a, b) := span p r in (c :: a, b) else ([], s)
  | [] => ([], [])
  end.

(** [s.replace(pat, repl)] with a string pattern: the first occurrence only.
    ([repl] holds no [$] here.) *)
Fixpoint replace (pat repl s : jsstring) : jsstring :=
  if startsWith s pat then repl ++ skipn (length pat) s
  else match s with
       | [] => []
       | c :: r => c :: replace pat repl r
       end.

(** [s.replace(/<lit>\s*/g, "")], with the [i] flag when [ignore_case]:
    every match is dropped, the scan resumes after it. [fuel] bounds the
    number of scan positions. *)
Fixpoint remove_all_from (fuel : nat) (ignore_case : bool) (lit s : jsstring)
  : jsstring :=
  match fuel with
  | O => s
  | S fuel' =>
      match s with
      | [] => []
      | c :: r =>
          match lit, literal ignore_case lit s with
          | _ :: _, Some (_, after) =>
              remove_all_from fuel' ignore_case lit (snd (span isWhiteSpace after))
          | _, _ => c :: remove_all_from fuel' ignore_case lit r
          end
      end
  end.

Definition remove_all (ignore_case : bool) (lit s : jsstring) : jsstring :=
  remove_all_from (length s) ignore_case lit s.

End Js.

Import Js.

(** ** Data model: the tables of schema.sql *)

Inductive meeting_status :=
  recording | processing | analyzing | linking | done | failed.

Inductive node_type := meeting | note | action | decision.

Inductive edge_relation := continues | references | contradicts | resolves.

(** An embedding vector; [null] is [None]. *)
Definition embedding := list Q.

Module Meeting.
Record row := {
  id : jsstring;
  user_id : jsstring;
  title : jsstring;
  language_code : jsstring;
  status : meeting_status;
  audio_path : option jsstring
}.
End Meeting.

Module Transcript.
Record row := {
  meeting_id : jsstring;
  speaker_label : option jsstring;
  text : jsstring;
  start_seconds : Z;
  end_seconds : Z;
  confidence : option Q;
  language : jsstring
}.
End Transcript.

(** The object the analysis prompt asks for, as the handler types it; a
    field the model left out is [None]. *)
Module Analysis.
Record item := {
  task : jsstring;
  owner : option jsstring;
  priority : jsstring;
  deadline : option jsstring
}.
Record t := {
  summary : option jsstring;
  action_items : option (list item);
  decisions : option (list jsstring);
  open_questions : option (list jsstring)
}.
End Analysis.

Module MeetingNote.
Record row := {
  meeting_id : jsstring;
  summary : jsstring;
  decisions : list jsstring;
  open_questions : list jsstring;
  raw_analysis : Analysis.t;
  model_version : jsstring
}.
End MeetingNote.

Module ActionItem.
Record row := {
  meeting_id : jsstring;
  task : jsstring;
  owner : option jsstring;
  priority : jsstring;
  deadline : option jsstring;
  status : jsstring
}.
End ActionItem.

Module Node.
(** An element of [nodesToInsert]. *)
Record fields := {
  user_id : jsstring;
  node_type : node_type;
  title : jsstring;
  content : jsstring;
  embedding : option embedding;
  source_meeting_id : option jsstring
}.
(** A stored node: the store assigns [id]. *)
Record row := { id : jsstring; data : fields }.
End Node.

(** A row of the [search_nodes] result. *)
Module Match.
Record row := {
  id : jsstring;
  node_type : node_type;
  similarity : Q
}.
End Match.

Module Edge.
Record row := {
  from_node : jsstring;
  to_node : jsstring;
  relation : edge_relation;
  strength : Q
}.
End Edge.

Record database := {
  meetings : list Meeting.row;
  transcripts : list Transcript.row;
  meeting_notes : list MeetingNote.row;
  action_items : list ActionItem.row;
  nodes : list Node.row;
  edges : list Edge.row
}.

(** ** Transcript parsing (transcribe-meeting, step 5) *)

(** The result of [line.match(/^(Speaker\s*\d+)\s*:\s*/i)]: the whole match
    [spk[0]] and the group [spk[1]]. *)
Record speaker_match := { spk0 : jsstring; spk1 : jsstring }.

Definition COLON : N := 58%N.

Definition match_speaker_with (ignore_case : bool) (line : jsstring)
  : option speaker_match :=
  match literal ignore_case (str "Speaker") line with
  | None => None
  | Some (kw, r0) =>
      let (ws1, r1) := span isWhiteSpace r0 in
      let (ds, r2) := span isDigit r1 in
      match ds with
      | [] => None
      | _ :: _ =>
          let (ws2, r3) := span isWhiteSpace r2 in
          match r3 with
          | c :: r4 =>
              if (c =? COLON)%N then
                let (ws3, _) := span isWhiteSpace r4 in
                Some {| spk0 := kw ++ ws1 ++ ds ++ ws2 ++ [COLON] ++ ws3;
                        spk1 := kw ++ ws1 ++ ds |}
              else None
          | [] => None
          end
      end
  end.

(** The handler's pattern carries the [i] flag. *)
Definition match_speaker : jsstring -> option speaker_match :=
  match_speaker_with true.

Definition no_speech : jsstring := str "[No speech detected in this recording]".

Definition new_segment (meetingId language_code : jsstring)
    (label : option jsstring) (txt : jsstring) : Transcript.row :=
  {| Transcript.meeting_id := meetingId;
     Transcript.speaker_label := label;
     Transcript.text := txt;
     Transcript.start_seconds := 0; Transcript.end_seconds := 0;
     Transcript.confidence := None;
     Transcript.language := language_code |}.

(** One turn of the [for (li ...)] loop: [continue] on a blank line, else
    [segments.push]. *)
Definition parse_line (meetingId language_code : jsstring)
    (segments : list Transcript.row) (raw : jsstring) : list Transcript.row :=
  let line := trim raw in
  if negb (truthy line) then segments
  else
    let spk := match_speaker line in
    segments ++
      [ new_segment meetingId language_code
          (match spk with Some m => Some (spk1 m) | None => None end)
          (match spk with
           | Some m => trim (replace (spk0 m) [] line)
           | None => line
           end) ].

Definition parse_transcript (meetingId language_code transcript : jsstring)
  : list Transcript.row :=
  let segments :=
    if truthy (trim transcript)
       && negb (Js.eqb (trim transcript) (str "[inaudible]"))
    then fold_left (parse_line meetingId language_code)
                   (split LF (trim transcript)) []
    else [] in
  if (length segments =? 0)%nat
  then segments ++ [new_segment meetingId language_code None no_speech]
  else segments.

(** ** The external collaborators *)

(** How the audio reaches Gemini: [{ inlineData }] or [{ fileData }]. *)
Inductive audio_part :=
| InlineData (mimeType : jsstring) (data : option jsstring)
| FileData (mimeType : jsstring) (fileUri : jsstring).

(** Every request a handler sends out, in the order of the log. *)
Inductive request :=
| SelectMeeting (id : jsstring)
| DownloadAudio (path : jsstring)
| FileApiStart (content_length : N) (content_type displayName : jsstring)
| FileApiUpload (uploadUrl : jsstring) (content_length : N)
| FileApiPoll (fileName : jsstring)
| FileApiDelete (fileName : jsstring)
| GenerateTranscription (audioPart : audio_part) (lang language_code : jsstring)
| InsertTranscripts (segments : list Transcript.row)
| UpdateMeetingStatus (id : jsstring) (st : meeting_status)
| SelectTranscripts (meeting_id : jsstring)
| GenerateAnalysis (langName fullTranscript : jsstring)
| UpsertMeetingNote (r : MeetingNote.row)
| InsertActionItems (actionItems : list ActionItem.row)
| SelectMeetingNote (meeting_id : jsstring)
| SelectActionItems (meeting_id : jsstring)
| SelectOldNodes (meeting_id : jsstring)
| DeleteEdgesFrom (oldIds : list jsstring)
| DeleteEdgesTo (oldIds : list jsstring)
| DeleteNodes (meeting_id : jsstring)
| EmbedContent (trimmed : jsstring)
| InsertNodes (nodesToInsert : list Node.fields)
| SearchNodes (query_embedding : embedding) (match_user_id : jsstring)
    (match_count : nat) (match_threshold : Q)
| InsertEdges (edgesToInsert : list Edge.row).

(** A supabase-js call resolves to [{ data, error }]. *)
Inductive reply (A : Type) :=
| Data (data : A)
| Error (message : jsstring).
Arguments Data {A} data.
Arguments Error {A} message.

(** What the store can do to a call instead of serving it: resolve with an
    error, or reject the promise. *)
Inductive fault :=
| Rejected (message : jsstring)
| Thrown (message : jsstring).

(** The outcome of a [fetch]: the promise is rejected, or a response comes
    back with its [ok] flag, status, body text and what the handler reads
    from the body or the headers. *)
Inductive fetched (A : Type) :=
| FetchThrown (message : jsstring)
| Fetched (ok : bool) (status : N) (body_text : jsstring) (content : A).
Arguments FetchThrown {A} message.
Arguments Fetched {A} ok status body_text content.

(** [await uploadRes.json()]: it throws, or gives [file.uri], [file.name]
    and the text [JSON.stringify] makes of it. *)
Inductive upload_info :=
| UploadJsonThrown (message : jsstring)
| UploadInfo (uri name : option jsstring) (stringified : jsstring).

(** [JSON.parse] of a Gemini body followed by
    [candidates[0].content.parts[0].text || ""]: it throws, or gives the text. *)
Inductive candidate_text :=
| CandidateThrown (message : jsstring)
| CandidateText (text : jsstring).

(** [JSON.parse(jsonStr)] in analyze-meeting: a syntax error, [null], or an
    object. *)
Inductive parsed :=
| SyntaxError (message : jsstring)
| ParsedNull
| Parsed (analysis : Analysis.t).

(** [await checkRes.json()] while polling: it throws, or gives [state]. *)
Inductive poll_info :=
| PollJsonThrown (message : jsstring)
| PollState (state : option jsstring).

Record env := {
  (** decided by the store for the [n]-th request of the run *)
  db_fault : nat -> request -> option fault;
  (** the message of [.single()] when the row count is not one *)
  single_error : jsstring;
  gen_random_uuid : nat -> jsstring;
  storage_object : jsstring -> reply (list Byte.byte);
  file_api_start : N -> jsstring -> fetched (option jsstring);
  file_api_upload : jsstring -> list Byte.byte -> fetched upload_info;
  file_api_poll : jsstring -> nat -> fetched poll_info;
  generate_transcription : audio_part -> jsstring -> jsstring -> fetched candidate_text;
  generate_analysis : jsstring -> jsstring -> fetched candidate_text;
  (** [embed]'s fetch with every failure already turned into [null] *)
  embed_content : jsstring -> option embedding;
  search_nodes : embedding -> jsstring -> nat -> Q -> list Match.row;
  (** built-ins that are not modelled *)
  btoa : list Byte.byte -> jsstring;
  JSON_parse : jsstring -> parsed
}.

(** ** The world and the handler monad *)

Record world := { db : database; log : list request }.

(** A computation runs on the world and ends in a value or in a thrown
    message ([err.message]). *)
Definition M (A : Type) : Type := world -> (jsstring + A) * world.

Definition ret {A} (a : A) : M A := fun w => (inr a, w).

Definition throw {A} (message : jsstring) : M A := fun w => (inl message, w).

Definition bind {A B} (m : M A) (k : A -> M B) : M B :=
  fun w =>
    match m w with
    | (inr a, w') => k a w'
    | (inl e, w') => (inl e, w')
    end.

Notation "x <- m ;; k" := (bind m (fun x => k))
  (at level 61, m at next level, right associativity).
Notation "m ;;; k" := (bind m (fun _ => k))
  (at level 61, right associativity).

(** [try { m } catch (_) {}] *)
Definition attempt {A} (m : M A) : M unit :=
  fun w => (inr tt, snd (m w)).

(** [try { m } catch (err) { handler(err.message) }] *)
Definition try_catch {A} (m : M A) (handler : jsstring -> M A) : M A :=
  fun w =>
    match m w with
    | (inr a, w') => (inr a, w')
    | (inl e, w') => handler e w'
    end.

Definition emit (r : request) : M unit :=
  fun w => (inr tt, {| db := db w; log := log w ++ [r] |}).

Section Collaborators.

Variable E : env.

(** A call on the store. The request is logged; the store then serves it
    ([op] reads and writes the tables) unless it faults. *)
Definition call {A} (r : request) (op : database -> reply A * database)
  : M (reply A) :=
  fun w =>
    let w1 := {| db := db w; log := log w ++ [r] |} in
    match db_fault E (length (log w)) r with
    | Some (Thrown message) => (inl message, w1)
    | Some (Rejected message) => (inr (Error message), w1)
    | None =>
        let (res, d) := op (db w) in
        (inr res, {| db := d; log := log w1 |})
    end.

(** A [fetch]: logged, then answered by the collaborator. *)
Definition fetch {A} (r : request) (answer : fetched A) : M (fetched A) :=
  emit r ;;; ret answer.

Definition set_meetings (f : list Meeting.row -> list Meeting.row)
    (d : database) : database :=
  {| meetings := f (meetings d); transcripts := transcripts d;
     meeting_notes := meeting_notes d; action_items := action_items d;
     nodes := nodes d; edges := edges d |}.

(** [update({ status }).eq("id", meetingId)] *)
Definition set_status (meetingId : jsstring) (st : meeting_status)
    (ms : list Meeting.row) : list Meeting.row :=
  map (fun m =>
         if Js.eqb (Meeting.id m) meetingId
         then {| Meeting.id := Meeting.id m; Meeting.user_id := Meeting.user_id m;
                 Meeting.title := Meeting.title m;
                 Meeting.language_code := Meeting.language_code m;
                 Meeting.status := st;
                 Meeting.audio_path := Meeting.audio_path m |}
         else m) ms.

Definition update_status (meetingId : jsstring) (st : meeting_status)
  : M (reply unit) :=
  call (UpdateMeetingStatus meetingId st)
       (fun d => (Data tt, set_meetings (set_status meetingId st) d)).

(** [select(...).eq("id", meetingId).single()] *)
Definition select_meeting (meetingId : jsstring) : M (reply Meeting.row) :=
  call (SelectMeeting meetingId)
       (fun d =>
          (match filter (fun m => Js.eqb (Meeting.id m) meetingId) (meetings d) with
           | [m] => Data m
           | _ => Error (single_error E)
           end, d)).

(** The request that reaches a handler: its method and what
    [(await req.json()).meeting_id] gives ([None] when the body is not JSON
    or has no such field). *)
Record http_request := {
  method : jsstring;
  body_meeting_id : option jsstring
}.

Inductive response_body :=
| BodyText (t : jsstring)
| BodyError (error : jsstring)
| BodyTranscribed (segments_count : nat)
| BodyAnalyzed (summary_length action_items_count decisions_count : nat)
| BodyLinked (nodes_count edges_count : nat).

Record response := { status : N; body : response_body }.

(** The part every handler starts with: the CORS preflight and the
    [meeting_id] check. *)
Definition serve (stage : jsstring -> world -> response * world)
    (req : http_request) (w : world) : response * world :=
  if Js.eqb (method req) (str "OPTIONS")
  then ({| status := 200; body := BodyText (str "ok") |}, w)
  else
    match body_meeting_id req with
    | Some meetingId =>
        if truthy meetingId then stage meetingId w
        else ({| status := 400; body := BodyError (str "meeting_id required") |}, w)
    | None =>
        ({| status := 400; body := BodyError (str "meeting_id required") |}, w)
    end.

(** The shape all three handlers share: the body under [try], and a
    [catch] that writes a status best-effort and answers 500. *)
Definition guarded (meetingId : jsstring) (on_error : meeting_status)
    (stage_body : M response) (w : world) : response * world :=
  match stage_body w with
  | (inr r, w') => (r, w')
  | (inl msg, w') =>
      ({| status := 500; body := BodyError msg |},
       snd (attempt (update_status meetingId on_error) w'))
  end.

End Collaborators.

(** ** transcribe-meeting *)

Module TranscribeMeeting.
Section Stage.

Variable E : env.

Definition mime_of (audio_path : jsstring) : jsstring :=
  if endsWith audio_path (str ".wav") then str "audio/wav" else str "audio/mp4".

Definition lang_of (language_code : jsstring) : jsstring :=
  if Js.eqb language_code (str "my-MM") then str "Burmese"
  else if Js.eqb language_code (str "en-US") then str "English"
  else language_code.

(** The inline threshold, [4 * 1024 * 1024] bytes. *)
Definition INLINE_LIMIT : N := 4 * 1024 * 1024.

(** [audioBytes.length] *)
Definition byteLength (audioBytes : list Byte.byte) : N :=
  N.of_nat (length audioBytes).

(** Step 3 of the File API path: up to 30 polls until the file is ACTIVE. *)
Fixpoint wait_active (fileName : jsstring) (i remaining : nat) : M unit :=
  match remaining with
  | O => ret tt
  | S remaining' =>
      checkRes <- fetch (FileApiPoll fileName) (file_api_poll E fileName i) ;;
      match checkRes with
      | FetchThrown message => throw message
      | Fetched true _ _ (PollJsonThrown message) => throw message
      | Fetched true _ _ (PollState state) =>
          match state with
          | Some s =>
              if Js.eqb s (str "ACTIVE") then ret tt
              else wait_active fileName (S i) remaining'
          | None => wait_active fileName (S i) remaining'
          end
      | Fetched false _ _ _ => wait_active fileName (S i) remaining'
      end
  end.

(** The File API path: start the resumable upload, send the bytes, wait for
    ACTIVE. It gives [fileUri]. *)
Definition upload_file (meetingId mime : jsstring) (audioBytes : list Byte.byte)
  : M jsstring :=
  let displayName :=
    meetingId ++ (if Js.eqb mime (str "audio/wav") then str ".wav" else str ".m4a") in
  startRes <- fetch (FileApiStart (byteLength audioBytes) mime displayName)
                    (file_api_start E (byteLength audioBytes) mime) ;;
  uploadUrl <-
    match startRes with
    | FetchThrown message => throw message
    | Fetched false st errText _ =>
        throw (str "File API start failed (" ++ of_N st ++ str "): " ++ errText)
    | Fetched true _ _ (Some u) =>
        if truthy u then ret u else throw (str "No upload URL returned")
    | Fetched true _ _ None => throw (str "No upload URL returned")
    end ;;
  uploadRes <- fetch (FileApiUpload uploadUrl (byteLength audioBytes))
                     (file_api_upload E uploadUrl audioBytes) ;;
  fileInfo <-
    match uploadRes with
    | FetchThrown message => throw message
    | Fetched false st errText _ =>
        throw (str "File upload failed (" ++ of_N st ++ str "): " ++ errText)
    | Fetched true _ _ (UploadJsonThrown message) => throw message
    | Fetched true _ _ (UploadInfo uri name stringified) =>
        match uri with
        | Some u =>
            if truthy u then ret (u, name)
            else throw (str "No file URI: " ++ stringified)
        | None => throw (str "No file URI: " ++ stringified)
        end
    end ;;
  let (fileUri, fileName) := fileInfo in
  match fileName with
  | Some n => if truthy n then wait_active n 0 30 else ret tt
  | None => ret tt
  end ;;;
  ret fileUri.

(** Step 3: the two variables [fileUri] and [audioBase64], one of them set
    according to the size of the payload. *)
Definition transfer_audio (meetingId mime : jsstring) (audioBytes : list Byte.byte)
  : M (option jsstring * option jsstring) :=
  if (INLINE_LIMIT <? byteLength audioBytes)%N then
    fileUri <- upload_file meetingId mime audioBytes ;;
    ret (Some fileUri, None)
  else
    ret (None, Some (btoa E audioBytes)).

Definition audio_part_of (mime : jsstring) (fileUri audioBase64 : option jsstring)
  : audio_part :=
  match fileUri with
  | Some u => if truthy u then FileData mime u else InlineData mime audioBase64
  | None => InlineData mime audioBase64
  end.

(** Step 6: the batch insert. *)
Definition insert_segments (segments : list Transcript.row) : M (reply unit) :=
  call E (InsertTranscripts segments)
       (fun d =>
          (Data tt,
           {| meetings := meetings d; transcripts := transcripts d ++ segments;
              meeting_notes := meeting_notes d; action_items := action_items d;
              nodes := nodes d; edges := edges d |})).

(** [fileUri.split("/").pop()] *)
Definition last_path_segment (fileUri : jsstring) : jsstring :=
  last (split 47%N fileUri) [].

(** Steps 1 to 4: the meeting, the [fileUri] of the File API path when it
    was taken, and the transcript Gemini gave. *)
Definition obtain_transcript (meetingId : jsstring)
  : M (Meeting.row * option jsstring * jsstring) :=
  (* 1. Fetching meeting *)
  r <- select_meeting E meetingId ;;
  meeting <- match r with
             | Error message => throw (str "Not found: " ++ message)
             | Data m => ret m
             end ;;
  audio_path <- match Meeting.audio_path meeting with
                | Some p => if truthy p then ret p
                            else throw (str "No audio uploaded")
                | None => throw (str "No audio uploaded")
                end ;;
  (* 2. Downloading audio from storage *)
  dl <- call E (DownloadAudio audio_path) (fun d => (storage_object E audio_path, d)) ;;
  audioBytes <- match dl with
                | Error message => throw (str "Download failed: " ++ message)
                | Data bytes => ret bytes
                end ;;
  let mime := mime_of audio_path in
  let lang := lang_of (Meeting.language_code meeting) in
  (* 3. File API for files > 4MB, inline for smaller *)
  tr <- transfer_audio meetingId mime audioBytes ;;
  let (fileUri, audioBase64) := tr in
  (* 4. Calling Gemini for transcription *)
  let audioPart := audio_part_of mime fileUri audioBase64 in
  res <- fetch (GenerateTranscription audioPart lang (Meeting.language_code meeting))
               (generate_transcription E audioPart lang (Meeting.language_code meeting)) ;;
  transcript <-
    match res with
    | FetchThrown message => throw message
    | Fetched false st resText _ =>
        throw (str "Gemini failed (" ++ of_N st ++ str "): " ++ resText)
    | Fetched true _ _ (CandidateThrown message) => throw message
    | Fetched true _ _ (CandidateText t) => ret t
    end ;;
  ret (meeting, fileUri, transcript).

(** Steps 5 to 7 and the cleanup: parse, save, advance the status. *)
Definition save_transcript (meetingId : jsstring) (meeting : Meeting.row)
    (fileUri : option jsstring) (transcript : jsstring) : M response :=
  (* 5. Parsing *)
  let segments := parse_transcript meetingId (Meeting.language_code meeting) transcript in
  (* 6. Saving *)
  insertRes <- insert_segments segments ;;
  match insertRes with
  | Error message => throw (str "Insert failed: " ++ message)
  | Data _ => ret tt
  end ;;;
  (* 7. Setting status to analyzing *)
  update_status E meetingId analyzing ;;;
  (* cleanup, best effort *)
  match fileUri with
  | Some u =>
      if truthy u
      then attempt (emit (FileApiDelete (last_path_segment u)))
      else ret tt
  | None => ret tt
  end ;;;
  ret {| status := 200; body := BodyTranscribed (length segments) |}.

Definition stage_body (meetingId : jsstring) : M response :=
  got <- obtain_transcript meetingId ;;
  let '(m, fileUri, transcript) := got in
  save_transcript meetingId m fileUri transcript.

Definition stage (meetingId : jsstring) : world -> response * world :=
  guarded E meetingId failed (stage_body meetingId).

Definition handler : http_request -> world -> response * world := serve stage.

End Stage.
End TranscribeMeeting.

(** ** analyze-meeting *)

Module AnalyzeMeeting.
Section Stage.

Variable E : env.

Definition transcript_line (t : Transcript.row) : jsstring :=
  match Transcript.speaker_label t with
  | Some l => if truthy l then l ++ str ": " ++ Transcript.text t
              else Transcript.text t
  | None => Transcript.text t
  end.

Definition langName_of (language : jsstring) : jsstring :=
  if Js.eqb language (str "my-MM") then str "Burmese"
  else if Js.eqb language (str "en-US") then str "English"
  else language.

(** [rawText.replace(/```json\s*/gi, "").replace(/```\s*/g, "").trim()] *)
Definition jsonStr (rawText : jsstring) : jsstring :=
  trim (remove_all false (str "```") (remove_all true (str "```json") rawText)).

(** The object built in the [catch (parseErr)] branch. *)
Definition fallback_analysis (rawText : jsstring) : Analysis.t :=
  {| Analysis.summary := Some (firstn 500 rawText);
     Analysis.action_items := Some [];
     Analysis.decisions := Some [];
     Analysis.open_questions := Some [] |}.

(** Step 3: [JSON.parse] under its own [try]; [None] is the value [null]. *)
Definition parse_analysis (rawText : jsstring) : option Analysis.t :=
  match JSON_parse E (jsonStr rawText) with
  | SyntaxError _ => Some (fallback_analysis rawText)
  | ParsedNull => None
  | Parsed analysis => Some analysis
  end.

(** [x || dflt] on a string that may be missing *)
Definition or_string (x : option jsstring) (dflt : jsstring) : jsstring :=
  match x with
  | Some s => if truthy s then s else dflt
  | None => dflt
  end.

(** [x || []] *)
Definition or_empty {A} (x : option (list A)) : list A :=
  match x with Some l => l | None => [] end.

Definition note_of (meetingId : jsstring) (analysis : Analysis.t) : MeetingNote.row :=
  {| MeetingNote.meeting_id := meetingId;
     MeetingNote.summary :=
       or_string (Analysis.summary analysis) (str "No summary generated");
     MeetingNote.decisions := or_empty (Analysis.decisions analysis);
     MeetingNote.open_questions := or_empty (Analysis.open_questions analysis);
     MeetingNote.raw_analysis := analysis;
     MeetingNote.model_version := str "gemini-2.5-flash" |}.

(** [upsert(row, { onConflict: "meeting_id" })]: the row of that meeting is
    replaced, or the row is added. *)
Fixpoint upsert (r : MeetingNote.row) (rows : list MeetingNote.row)
  : list MeetingNote.row :=
  match rows with
  | [] => [r]
  | x :: rest =>
      if Js.eqb (MeetingNote.meeting_id x) (MeetingNote.meeting_id r)
      then r :: rest
      else x :: upsert r rest
  end.

Definition upsert_note (r : MeetingNote.row) : M (reply unit) :=
  call E (UpsertMeetingNote r)
       (fun d =>
          (Data tt,
           {| meetings := meetings d; transcripts := transcripts d;
              meeting_notes := upsert r (meeting_notes d);
              action_items := action_items d;
              nodes := nodes d; edges := edges d |})).

Definition is_priority (p : jsstring) : bool :=
  Js.eqb p (str "high") || Js.eqb p (str "medium") || Js.eqb p (str "low").

Definition action_item_of (meetingId : jsstring) (item : Analysis.item)
  : ActionItem.row :=
  {| ActionItem.meeting_id := meetingId;
     ActionItem.task := Analysis.task item;
     ActionItem.owner := Analysis.owner item;
     ActionItem.priority :=
       if is_priority (Analysis.priority item) then Analysis.priority item
       else str "medium";
     ActionItem.deadline :=
       match Analysis.deadline item with
       | Some dl => if truthy dl then Some dl else None
       | None => None
       end;
     ActionItem.status := str "open" |}.

Definition insert_action_items (actionItems : list ActionItem.row) : M (reply unit) :=
  call E (InsertActionItems actionItems)
       (fun d =>
          (Data tt,
           {| meetings := meetings d; transcripts := transcripts d;
              meeting_notes := meeting_notes d;
              action_items := action_items d ++ actionItems;
              nodes := nodes d; edges := edges d |})).

(** Steps 4 to 6: what is done with the analysis once it is parsed. *)
Definition persist (meetingId : jsstring) (analysis : Analysis.t) : M response :=
  (* 4. Saving meeting note *)
  noteRes <- upsert_note (note_of meetingId analysis) ;;
  match noteRes with
  | Error message => throw (str "Save note failed: " ++ message)
  | Data _ => ret tt
  end ;;;
  (* 5. Saving action items *)
  let actionItems :=
    map (action_item_of meetingId) (or_empty (Analysis.action_items analysis)) in
  match actionItems with
  | [] => ret tt
  | _ :: _ =>
      aiRes <- insert_action_items actionItems ;;
      match aiRes with
      | Error message => throw (str "Save action items failed: " ++ message)
      | Data _ => ret tt
      end
  end ;;;
  (* 6. Updating meeting status to linking *)
  update_status E meetingId linking ;;;
  ret {| status := 200;
         body := BodyAnalyzed
                   (length (or_string (Analysis.summary analysis) []))
                   (length actionItems)
                   (length (or_empty (Analysis.decisions analysis))) |}.

Definition stage_body (meetingId : jsstring) : M response :=
  (* 1. Fetching transcripts *)
  r <- call E (SelectTranscripts meetingId)
         (fun d =>
            (Data (filter (fun t => Js.eqb (Transcript.meeting_id t) meetingId)
                          (transcripts d)), d)) ;;
  rows <- match r with
          | Error message => throw (str "Transcript fetch failed: " ++ message)
          | Data [] => throw (str "No transcripts found for this meeting")
          | Data (t :: ts) => ret (t, t :: ts)
          end ;;
  let (first, transcripts) := rows in
  let fullTranscript := join [LF] (map transcript_line transcripts) in
  let language := or_string (Some (Transcript.language first)) (str "en-US") in
  let langName := langName_of language in
  (* 2. Calling Gemini for analysis *)
  res <- fetch (GenerateAnalysis langName fullTranscript)
               (generate_analysis E langName fullTranscript) ;;
  rawText <-
    match res with
    | FetchThrown message => throw message
    | Fetched false st resText _ =>
        throw (str "Gemini failed (" ++ of_N st ++ str "): " ++ resText)
    | Fetched true _ _ (CandidateThrown message) => throw message
    | Fetched true _ _ (CandidateText t) => ret t
    end ;;
  (* 3. Parsing analysis *)
  match parse_analysis rawText with
  | None => throw (str "Cannot read properties of null (reading 'summary')")
  | Some analysis => persist meetingId analysis
  end.

Definition stage (meetingId : jsstring) : world -> response * world :=
  guarded E meetingId failed (stage_body meetingId).

Definition handler : http_request -> world -> response * world := serve stage.

End Stage.
End AnalyzeMeeting.

(** ** Doubles *)

Module Binary64.

(** The integer nearest to [q]; a half goes to the even neighbour. *)
Definition nearest_even (q : Q) : Z :=
  let f := Qfloor q in
  match Qcompare (q - inject_Z f) (1 # 2) with
  | Lt => f
  | Gt => (f + 1)%Z
  | Eq => if Z.even f then f else (f + 1)%Z
  end.

(** [floor (log2 x)] of a positive rational. *)
Definition floor_log2 (x : Q) : Z :=
  let d := (Z.log2 (Qnum x) - Z.log2 (Zpos (Qden x)))%Z in
  if Qle_bool (2 ^ d) x then d else (d - 1)%Z.

(** The exponent of the last place of the doubles around [x]: 52 below the
    leading bit, and never below that of the subnormal numbers. *)
Definition last_place (x : Q) : Z :=
  Z.max (floor_log2 (Qabs x) - 52) (-1074).

(** The double nearest to [x], ties to even. *)
Definition round (x : Q) : Q :=
  let u := 2 ^ last_place x in
  inject_Z (nearest_even (x / u)) * u.


(** [x * y] and [x / y] on doubles. *)
Definition mul (x y : Q) : Q := round (x * y).
Definition div (x y : Q) : Q := round (x / y).

(** The rational a finite float of the kernel denotes. *)
Definition of_float (f : float) : Q :=
  match Prim2SF f with
  | S754_finite s m e => (if s then -1 else 1) * inject_Z (Zpos m) * 2 ^ e
  | _ => 0
  end.

End Binary64.

(** ** link-meeting *)

Module LinkMeeting.

Definition SIMILARITY_THRESHOLD : Q := 65 # 100.
Definition MAX_RELATED : nat := 5.

Definition node_type_eqb (a b : node_type) : bool :=
  match a, b with
  | meeting, meeting | note, note | action, action | decision, decision => true
  | _, _ => false
  end.

(** [Math.round(x)] of a double [x]: the integer [floor(x + 1/2)], halves
    upwards, taken of the value of [x] itself (ECMAScript 21.3.2.28: no
    rounding of [x + 1/2] is involved); an integer of this size is a
    double. *)
Definition Math_round (x : Q) : Z := Qfloor (x + (1 # 2)).

(** [Math.round(match.similarity * 100) / 100]: the product is a double,
    [Math.round] takes it to an integer, the quotient is a double again. *)
Definition strength_of (similarity : Q) : Q :=
  Binary64.div
    (inject_Z (Math_round (Binary64.mul similarity (100 # 1)))) (100 # 1).

(** [a > b] on numbers. In [similarity > 0.85] the literal is the double
    just below 85/100; no double lies between the two, so on doubles the
    comparison is the one with 85/100 (lemma [above_085]). *)
Definition gt (a b : Q) : bool := negb (Qle_bool a b).

Definition relation_of (node_ty match_ty : node_type) (similarity : Q)
  : edge_relation :=
  if node_type_eqb node_ty meeting && node_type_eqb match_ty meeting
  then continues
  else if node_type_eqb node_ty decision && node_type_eqb match_ty decision
  then (if gt similarity (85 # 100) then resolves else references)
  else references.

Definition alreadyHasEdge (edgesToInsert : list Edge.row)
    (node_id match_id : jsstring) : bool :=
  existsb
    (fun e =>
       (Js.eqb (Edge.from_node e) node_id && Js.eqb (Edge.to_node e) match_id)
       || (Js.eqb (Edge.from_node e) match_id && Js.eqb (Edge.to_node e) node_id))
    edgesToInsert.

Definition new_edge (node : Node.row) (m : Match.row) : Edge.row :=
  {| Edge.from_node := Node.id node;
     Edge.to_node := Match.id m;
     Edge.relation :=
       relation_of (Node.node_type (Node.data node)) (Match.node_type m)
                   (Match.similarity m);
     Edge.strength := strength_of (Match.similarity m) |}.

(** The inner loop, [for (const match of similar || [])]; [cap] is
    [MAX_RELATED * nodesToInsert.length]. Its [break] leaves this loop only. *)
Fixpoint link_matches (cap : nat) (node : Node.row) (similar : list Match.row)
    (edgesToInsert : list Edge.row) : list Edge.row :=
  match similar with
  | [] => edgesToInsert
  | m :: rest =>
      if Js.eqb (Match.id m) (Node.id node)
      then link_matches cap node rest edgesToInsert
      else if alreadyHasEdge edgesToInsert (Node.id node) (Match.id m)
      then link_matches cap node rest edgesToInsert
      else
        let edgesToInsert' := edgesToInsert ++ [new_edge node m] in
        if (cap <=? length edgesToInsert')%nat then edgesToInsert'
        else link_matches cap node rest edgesToInsert'
  end.

Section Stage.

Variable E : env.

(** [embed(text, geminiKey)]: every failure is [null]. *)
Definition embed (text : jsstring) : M (option embedding) :=
  let trimmed := firstn 4000 text in
  emit (EmbedContent trimmed) ;;; ret (embed_content E trimmed).

(** The outer loop, [for (const node of insertedNodes || [])]. *)
Fixpoint link_nodes (user_id : jsstring) (cap : nat) (insertedNodes : list Node.row)
    (edgesToInsert : list Edge.row) : M (list Edge.row) :=
  match insertedNodes with
  | [] => ret edgesToInsert
  | node :: rest =>
      match Node.embedding (Node.data node) with
      | None => link_nodes user_id cap rest edgesToInsert
      | Some emb =>
          r <- call E (SearchNodes emb user_id (MAX_RELATED + 5) SIMILARITY_THRESHOLD)
                 (fun d =>
                    (Data (search_nodes E emb user_id (MAX_RELATED + 5)
                             SIMILARITY_THRESHOLD), d)) ;;
          let similar := match r with Data l => l | Error _ => [] end in
          link_nodes user_id cap rest (link_matches cap node similar edgesToInsert)
      end
  end.

Definition truncate_title (s : jsstring) : jsstring :=
  if (80 <? length s)%nat then firstn 80 s ++ str "..." else s.

(** [for (const dec of decisions)] *)
Fixpoint decision_nodes (meetingId user_id : jsstring) (decisions : list jsstring)
    (nodesToInsert : list Node.fields) : M (list Node.fields) :=
  match decisions with
  | [] => ret nodesToInsert
  | dec :: rest =>
      decEmbed <- embed dec ;;
      decision_nodes meetingId user_id rest
        (nodesToInsert ++
           [ {| Node.user_id := user_id; Node.node_type := decision;
                Node.title := truncate_title dec; Node.content := dec;
                Node.embedding := decEmbed;
                Node.source_meeting_id := Some meetingId |} ])
  end.

Definition action_text (a : ActionItem.row) : jsstring :=
  ActionItem.task a ++ str " (owner: "
    ++ match ActionItem.owner a with
       | Some o => if truthy o then o else str "unassigned"
       | None => str "unassigned"
       end
    ++ str ", priority: " ++ ActionItem.priority a ++ str ")".

(** [for (const action of actions || [])] *)
Fixpoint action_nodes (meetingId user_id : jsstring) (actions : list ActionItem.row)
    (nodesToInsert : list Node.fields) : M (list Node.fields) :=
  match actions with
  | [] => ret nodesToInsert
  | a :: rest =>
      let actText := action_text a in
      actEmbed <- embed actText ;;
      action_nodes meetingId user_id rest
        (nodesToInsert ++
           [ {| Node.user_id := user_id; Node.node_type := action;
                Node.title := truncate_title (ActionItem.task a);
                Node.content := actText;
                Node.embedding := actEmbed;
                Node.source_meeting_id := Some meetingId |} ])
  end.

Definition mem (x : jsstring) (l : list jsstring) : bool :=
  existsb (Js.eqb x) l.

Definition from_meeting (meetingId : jsstring) (n : Node.row) : bool :=
  match Node.source_meeting_id (Node.data n) with
  | Some s => Js.eqb s meetingId
  | None => false
  end.

Definition set_edges (f : list Edge.row -> list Edge.row) (d : database)
  : database :=
  {| meetings := meetings d; transcripts := transcripts d;
     meeting_notes := meeting_notes d; action_items := action_items d;
     nodes := nodes d; edges := f (edges d) |}.

Definition set_nodes (f : list Node.row -> list Node.row) (d : database)
  : database :=
  {| meetings := meetings d; transcripts := transcripts d;
     meeting_notes := meeting_notes d; action_items := action_items d;
     nodes := f (nodes d); edges := edges d |}.

(** Step 2: the nodes of an earlier run and the edges that touch them go. *)
Definition remove_old (meetingId : jsstring) : M unit :=
  oldRes <- call E (SelectOldNodes meetingId)
              (fun d => (Data (filter (from_meeting meetingId) (nodes d)), d)) ;;
  match oldRes with
  | Data (n :: ns) =>
      let oldIds := map Node.id (n :: ns) in
      call E (DeleteEdgesFrom oldIds)
        (fun d => (Data tt,
           set_edges (filter (fun e => negb (mem (Edge.from_node e) oldIds))) d)) ;;;
      call E (DeleteEdgesTo oldIds)
        (fun d => (Data tt,
           set_edges (filter (fun e => negb (mem (Edge.to_node e) oldIds))) d)) ;;;
      call E (DeleteNodes meetingId)
        (fun d => (Data tt,
           set_nodes (filter (fun x => negb (from_meeting meetingId x))) d)) ;;;
      ret tt
  | _ => ret tt
  end.

(** The store numbers the rows it inserts from [start]. *)
Fixpoint assign_ids (start : nat) (l : list Node.fields) : list Node.row :=
  match l with
  | [] => []
  | f :: rest =>
      {| Node.id := gen_random_uuid E start; Node.data := f |}
        :: assign_ids (S start) rest
  end.

Definition insert_nodes (nodesToInsert : list Node.fields)
  : M (reply (list Node.row)) :=
  call E (InsertNodes nodesToInsert)
    (fun d =>
       let rows := assign_ids (length (nodes d)) nodesToInsert in
       (Data rows, set_nodes (fun l => l ++ rows) d)).

Definition insert_edges (edgesToInsert : list Edge.row) : M (reply unit) :=
  call E (InsertEdges edgesToInsert)
    (fun d => (Data tt, set_edges (fun l => l ++ edgesToInsert) d)).

(** [note?.summary] when it is truthy *)
Definition summary_of (n : option MeetingNote.row) : option jsstring :=
  match n with
  | Some x => if truthy (MeetingNote.summary x) then Some (MeetingNote.summary x)
              else None
  | None => None
  end.

Definition stage_body (meetingId : jsstring) : M response :=
  (* 1. Fetching meeting data *)
  r <- select_meeting E meetingId ;;
  m <- match r with
       | Error message => throw (str "Meeting not found: " ++ message)
       | Data m => ret m
       end ;;
  noteRes <- call E (SelectMeetingNote meetingId)
               (fun d =>
                  (match filter (fun n => Js.eqb (MeetingNote.meeting_id n) meetingId)
                                (meeting_notes d) with
                   | [] => Data None
                   | [n] => Data (Some n)
                   | _ => Error (single_error E)
                   end, d)) ;;
  let n := match noteRes with Data n => n | Error _ => None end in
  actionsRes <- call E (SelectActionItems meetingId)
                  (fun d =>
                     (Data (filter (fun a => Js.eqb (ActionItem.meeting_id a) meetingId)
                                   (action_items d)), d)) ;;
  let actions := match actionsRes with Data l => l | Error _ => [] end in
  transcriptsRes <- call E (SelectTranscripts meetingId)
                      (fun d =>
                         (Data (filter (fun t => Js.eqb (Transcript.meeting_id t) meetingId)
                                       (transcripts d)), d)) ;;
  let transcripts := match transcriptsRes with Data l => l | Error _ => [] end in
  (* 2. Removing old nodes/edges for this meeting *)
  remove_old meetingId ;;;
  (* 3. Creating nodes + embeddings *)
  let fullText := join (str " ") (map Transcript.text transcripts) in
  let meetingContent :=
    match summary_of n with
    | Some s => s ++ [LF; LF] ++ firstn 2000 fullText
    | None => firstn 3000 fullText
    end in
  meetingEmbed <- embed (Meeting.title m ++ str ": " ++ meetingContent) ;;
  let nodes0 :=
    [ {| Node.user_id := Meeting.user_id m; Node.node_type := meeting;
         Node.title := Meeting.title m; Node.content := meetingContent;
         Node.embedding := meetingEmbed;
         Node.source_meeting_id := Some meetingId |} ] in
  nodes1 <- match summary_of n with
            | Some s =>
                noteEmbed <- embed s ;;
                ret (nodes0 ++
                       [ {| Node.user_id := Meeting.user_id m; Node.node_type := note;
                            Node.title := str "Summary: " ++ Meeting.title m;
                            Node.content := s;
                            Node.embedding := noteEmbed;
                            Node.source_meeting_id := Some meetingId |} ])
            | None => ret nodes0
            end ;;
  let decisions := match n with Some x => MeetingNote.decisions x | None => [] end in
  nodes2 <- decision_nodes meetingId (Meeting.user_id m) decisions nodes1 ;;
  nodesToInsert <- action_nodes meetingId (Meeting.user_id m) actions nodes2 ;;
  (* 4. Saving nodes *)
  insRes <- insert_nodes nodesToInsert ;;
  insertedNodes <- match insRes with
                   | Error message => throw (str "Insert nodes failed: " ++ message)
                   | Data l => ret l
                   end ;;
  (* 5. Finding related nodes *)
  edgesToInsert <- link_nodes (Meeting.user_id m)
                     (MAX_RELATED * length nodesToInsert) insertedNodes [] ;;
  (* 6. Saving edges *)
  match edgesToInsert with
  | [] => ret tt
  | _ :: _ =>
      eRes <- insert_edges edgesToInsert ;;
      match eRes with
      | Error message => throw (str "Insert edges failed: " ++ message)
      | Data _ => ret tt
      end
  end ;;;
  (* 7. Updating status to done *)
  update_status E meetingId done ;;;
  ret {| status := 200;
         body := BodyLinked (length insertedNodes) (length edgesToInsert) |}.

(** The [catch] of this handler writes [done], not [failed]: linking is
    best-effort. *)
Definition stage (meetingId : jsstring) : world -> response * world :=
  guarded E meetingId done (stage_body meetingId).

Definition handler : http_request -> world -> response * world := serve stage.

End Stage.
End LinkMeeting.

(** ** The mobile client: triggering the stages

    The storage service of the app (the copy in which the three triggers
    share [callEdgeFunction]) calls an edge function with up to three
    attempts and, when none is answered with an [ok] status, writes a status
    itself. The status write runs under the session of the user: the
    meeting is taken to be the caller's, so that the policy of schema.sql
    on [meetings] lets the write through. *)

Module Client.

(** [res.ok]: a status from 200 to 299. *)
Definition ok (r : response) : bool :=
  ((200 <=? status r) && (status r <=? 299))%N.

(** [fetch(url, { method: "POST", body: JSON.stringify({ meeting_id }) })] *)
Definition invocation (meetingId : jsstring) : http_request :=
  {| method := str "POST"; body_meeting_id := Some meetingId |}.

(** What becomes of one [fetch] of the client and of the [res.text()] that
    follows it. [Unreached]: the request does not reach the function, which
    has not run; the promise is rejected, or something before the function
    answers in its place with a status that is not [ok]. [Lost]: the
    function runs, to its end, but its answer is lost on the way back, and
    the promise of [fetch] or of [res.text()] is rejected all the same.
    [Answered]: the function runs and its answer is read. *)
Inductive delivery := Unreached | Lost | Answered.

Section Triggers.

Variable E : env.

(** The edge function deployed behind the URL. *)
Variable fn : http_request -> world -> response * world.

(** What becomes of the [fetch] of an attempt. *)
Variable delivers : nat -> delivery.

(** [for (let attempt = 1; attempt <= maxRetries; attempt++)], with
    [remaining] the attempts left; the waits between attempts take no part.
    Under [try]: an answer that is read ends the loop when it is [ok]; a
    rejected promise, be it that the request never reached the function or
    that the function ran and its answer was lost, is caught and the loop
    goes on. *)
Fixpoint attempts (meetingId : jsstring) (attempt remaining : nat) (w : world)
  : bool * world :=
  match remaining with
  | O => (false, w)
  | S remaining' =>
      match delivers attempt with
      | Unreached => attempts meetingId (S attempt) remaining' w
      | Lost =>
          let (_, w') := fn (invocation meetingId) w in
          attempts meetingId (S attempt) remaining' w'
      | Answered =>
          let (res, w') := fn (invocation meetingId) w in
          if ok res then (true, w')
          else attempts meetingId (S attempt) remaining' w'
      end
  end.

Definition callEdgeFunction (meetingId : jsstring) (maxRetries : nat) (w : world)
  : bool * world :=
  attempts meetingId 1 maxRetries w.

(** meetingService: [update({ status }).eq("id", id).select().single()],
    which throws the error of the call. *)
Definition updateMeetingStatus (id : jsstring) (st : meeting_status)
  : M Meeting.row :=
  r <- call E (UpdateMeetingStatus id st)
         (fun d =>
            (match filter (fun m => Js.eqb (Meeting.id m) id)
                          (set_status id st (meetings d)) with
             | [m] => Data m
             | _ => Error (single_error E)
             end,
             set_meetings (set_status id st) d)) ;;
  match r with
  | Error message => throw message
  | Data m => ret m
  end.

(** The shape of the three triggers: the call with its default of three
    attempts, and the status written when it gives [false]. *)
Definition trigger (meetingId : jsstring) (on_failure : meeting_status) : M unit :=
  fun w =>
    let (succeeded, w1) := callEdgeFunction meetingId 3 w in
    if succeeded then (inr tt, w1)
    else (updateMeetingStatus meetingId on_failure ;;; ret tt) w1.

End Triggers.

Definition triggerTranscription (E : env) (delivers : nat -> delivery)
    (meetingId : jsstring) : M unit :=
  trigger E (TranscribeMeeting.handler E) delivers meetingId failed.


(** The client names the linking function [link-to-graph]; [link] is the
    function deployed under that name. *)
Definition triggerLinking (E : env)
    (link : http_request -> world -> response * world)
    (delivers : nat -> delivery) (meetingId : jsstring) : M unit :=
  trigger E link delivers meetingId done.

End Client.

(** ** The mobile client: the meetings related to a meeting

    [getRelatedMeetings] of the search service walks the graph by four
    selects: the nodes of the meeting, the edges that touch them, the nodes
    at their other ends, the meetings those come from. The selects run
    under the session of the user: the tables it is given are the rows the
    policies of schema.sql show to the caller. *)

Module GraphService.

(** [rows.order(key, { ascending: false })]: a stable insertion sort. *)
Fixpoint insert_desc {A} (key : A -> Q) (x : A) (l : list A) : list A :=
  match l with
  | [] => [x]
  | y :: rest =>
      if Qle_bool (key y) (key x) then x :: l
      else y :: insert_desc key x rest
  end.

Definition order_desc {A} (key : A -> Q) (l : list A) : list A :=
  fold_right (insert_desc key) [] l.

(** [set.add(x)] on a [Set] of strings, in insertion order. *)
Definition add (x : jsstring) (s : list jsstring) : list jsstring :=
  if LinkMeeting.mem x s then s else s ++ [x].

(** One turn of [for (const edge of edges)]: the ends that are not nodes
    of the meeting join [relatedNodeIds]. *)
Definition far_ends (nodeIds relatedNodeIds : list jsstring) (edge : Edge.row)
  : list jsstring :=
  let s1 := if negb (LinkMeeting.mem (Edge.from_node edge) nodeIds)
            then add (Edge.from_node edge) relatedNodeIds else relatedNodeIds in
  if negb (LinkMeeting.mem (Edge.to_node edge) nodeIds)
  then add (Edge.to_node edge) s1 else s1.

(** One turn of [for (const node of relatedNodes || [])]. *)
Definition sources (meetingId : jsstring) (relatedMeetingIds : list jsstring)
    (node : Node.row) : list jsstring :=
  match Node.source_meeting_id (Node.data node) with
  | Some src =>
      if truthy src && negb (Js.eqb src meetingId)
      then add src relatedMeetingIds else relatedMeetingIds
  | None => relatedMeetingIds
  end.

Section Reads.

(** Whether the [k]-th select of the call gives its rows; [data] is null
    when it does not. *)
Variable served : nat -> bool.

(** The column [created_at] of the meeting with this id. *)
Variable created_at : jsstring -> Q.

Definition getRelatedMeetings (d : database) (meetingId : jsstring)
  : list Meeting.row :=
  match (if served 0
         then Some (filter (LinkMeeting.from_meeting meetingId) (nodes d))
         else None) with
  | None | Some [] => []
  | Some (n :: ns) =>
      let nodeIds := map Node.id (n :: ns) in
      match (if served 1
             then Some (order_desc Edge.strength
                          (filter (fun e => LinkMeeting.mem (Edge.from_node e) nodeIds
                                            || LinkMeeting.mem (Edge.to_node e) nodeIds)
                                  (edges d)))
             else None) with
      | None | Some [] => []
      | Some (e :: es) =>
          let relatedNodeIds :=
            fold_left (far_ends nodeIds) (e :: es) [] in
          match relatedNodeIds with
          | [] => []
          | _ :: _ =>
              let relatedNodes :=
                if served 2
                then filter (fun x => LinkMeeting.mem (Node.id x) relatedNodeIds)
                            (nodes d)
                else [] in
              let relatedMeetingIds :=
                fold_left (sources meetingId) relatedNodes [] in
              match relatedMeetingIds with
              | [] => []
              | _ :: _ =>
                  if served 3
                  then order_desc (fun m => created_at (Meeting.id m))
                         (filter (fun m => LinkMeeting.mem (Meeting.id m)
                                             relatedMeetingIds)
                                 (meetings d))
                  else []
              end
          end
      end
  end.

End Reads.
End GraphService.

(** ** The mobile client: uploading a recording

    [uploadMeetingAudio] of the storage service. The app works under the
    session of a user, so the row level policies of schema.sql apply: a
    user updates the meetings of its own only. The storage bucket is not
    part of the world (the handlers read it through [storage_object]); the
    upload is modelled by what it writes to the store, and the column
    [ended_at] is not among the modelled ones. *)

Module StorageService.

(** [`${userId}/${meetingId}.m4a`] *)
Definition storagePath (userId meetingId : jsstring) : jsstring :=
  userId ++ str "/" ++ meetingId ++ str ".m4a".

(** The [contentType] the object is stored with. *)
Definition contentType : jsstring := str "audio/mp4".

Section Upload.

(** [auth.uid()], the user of the session. *)
Variable caller : jsstring.

(** The error of each awaited call, when it has one: reading the local
    file (0), the upload to the bucket (1), the update of the row (2). *)
Variable failure : nat -> option jsstring.

(** The message of [.single()] when the row count is not one. *)
Variable single_error : jsstring.

(** The rows [.eq("id", id)] reaches under the policy
    [auth.uid() = user_id]. *)
Definition reached (id : jsstring) (m : Meeting.row) : bool :=
  Js.eqb (Meeting.id m) id && Js.eqb (Meeting.user_id m) caller.

(** [update({ status: "processing", audio_path, ended_at }).eq("id", id)] *)
Definition set_uploaded (id audio_path : jsstring) (ms : list Meeting.row)
  : list Meeting.row :=
  map (fun m =>
         if reached id m
         then {| Meeting.id := Meeting.id m; Meeting.user_id := Meeting.user_id m;
                 Meeting.title := Meeting.title m;
                 Meeting.language_code := Meeting.language_code m;
                 Meeting.status := processing;
                 Meeting.audio_path := Some audio_path |}
         else m) ms.

(** The path it returns, or the error it throws. *)
Definition uploadMeetingAudio (userId meetingId : jsstring) (d : database)
  : (jsstring + jsstring) * database :=
  let path := storagePath userId meetingId in
  match failure 0 with
  | Some message => (inl message, d)
  | None =>
      match failure 1 with
      | Some message => (inl message, d)
      | None =>
          match failure 2 with
          | Some message => (inl message, d)
          | None =>
              let d' := set_meetings (set_uploaded meetingId path) d in
              match filter (reached meetingId) (meetings d') with
              | [_] => (inr path, d')
              | _ => (inl single_error, d')
              end
          end
      end
  end.

End Upload.
End StorageService.

(** ** The mobile client: deleting a meeting

    [deleteMeeting] of the meeting service. Its calls go to the store
    directly, under the session of a user, and are not among the logged
    requests of the handlers. Two parts of schema.sql act on them.
    - The row level policies: a statement reaches the meetings and the nodes
      of the caller, and the edges that start at a node of the caller; the
      other rows are passed over without an error.
    - The foreign keys, which no policy restrains: an edge goes with either
      of its nodes ([on delete cascade]); the transcripts, the note and the
      action items go with their meeting; a node that outlives its meeting
      loses its [source_meeting_id] ([on delete set null]).
    The bucket is not part of the world, so the [remove] of the recording
    only counts as a call that can fail. *)

Module MeetingService.

(** [delete from nodes where gone], with the cascade to [edges]. *)
Definition delete_nodes (gone : Node.row -> bool) (d : database) : database :=
  let ids := map Node.id (filter gone (nodes d)) in
  LinkMeeting.set_edges
    (filter (fun e => negb (LinkMeeting.mem (Edge.from_node e) ids
                            || LinkMeeting.mem (Edge.to_node e) ids)))
    (LinkMeeting.set_nodes (filter (fun x => negb (gone x))) d).

(** [on delete set null] on [nodes.source_meeting_id]. *)
Definition orphan (id : jsstring) (n : Node.row) : Node.row :=
  if LinkMeeting.from_meeting id n
  then {| Node.id := Node.id n;
          Node.data :=
            {| Node.user_id := Node.user_id (Node.data n);
               Node.node_type := Node.node_type (Node.data n);
               Node.title := Node.title (Node.data n);
               Node.content := Node.content (Node.data n);
               Node.embedding := Node.embedding (Node.data n);
               Node.source_meeting_id := None |} |}
  else n.

(** [delete from meetings where gone], for rows of the key [id]: the rules
    fire when a row goes. *)
Definition delete_meeting (gone : Meeting.row -> bool) (id : jsstring)
    (d : database) : database :=
  if existsb gone (meetings d)
  then {| meetings := filter (fun m => negb (gone m)) (meetings d);
          transcripts :=
            filter (fun t => negb (Js.eqb (Transcript.meeting_id t) id))
                   (transcripts d);
          meeting_notes :=
            filter (fun n => negb (Js.eqb (MeetingNote.meeting_id n) id))
                   (meeting_notes d);
          action_items :=
            filter (fun a => negb (Js.eqb (ActionItem.meeting_id a) id))
                   (action_items d);
          nodes := map (orphan id) (nodes d);
          edges := edges d |}
  else d.

Section Calls.

(** [auth.uid()], the user of the session. *)
Variable caller : jsstring.

(** What happens to the [k]-th call of [deleteMeeting] instead of being
    served: its [error] is set and its [data] is null, or the call
    throws. *)
Variable failure : nat -> option fault.

(** The policies: [auth.uid() = user_id] on [meetings] and [nodes],
    [from_node in (select id from nodes where user_id = auth.uid())] on
    [edges]. *)
Definition own_meeting (m : Meeting.row) : bool :=
  Js.eqb (Meeting.user_id m) caller.

Definition own_node (x : Node.row) : bool :=
  Js.eqb (Node.user_id (Node.data x)) caller.

Definition own_edge (d : database) (e : Edge.row) : bool :=
  LinkMeeting.mem (Edge.from_node e) (map Node.id (filter own_node (nodes d))).

(** One awaited call: [op] reads and writes the tables. *)
Definition ask {A} (k : nat) (op : database -> A * database) : M (reply A) :=
  fun w =>
    match failure k with
    | Some (Thrown message) => (inl message, w)
    | Some (Rejected message) => (inr (Error message), w)
    | None =>
        let (res, d) := op (db w) in
        (inr (Data res), {| db := d; log := log w |})
    end.

(** The nodes of the meeting and the edges that touch them; no error is
    looked at. *)
Definition remove_graph (id : jsstring) : M unit :=
  nodes <- ask 1 (fun d =>
             (filter (fun x => LinkMeeting.from_meeting id x && own_node x) (nodes d),
              d)) ;;
  match nodes with
  | Data (n :: ns) =>
      let nodeIds := map Node.id (n :: ns) in
      ask 2 (fun d =>
        (tt, LinkMeeting.set_edges
               (filter (fun e => negb (LinkMeeting.mem (Edge.from_node e) nodeIds
                                       && own_edge d e))) d)) ;;;
      ask 3 (fun d =>
        (tt, LinkMeeting.set_edges
               (filter (fun e => negb (LinkMeeting.mem (Edge.to_node e) nodeIds
                                       && own_edge d e))) d)) ;;;
      ask 4 (fun d =>
        (tt, delete_nodes (fun x => LinkMeeting.from_meeting id x && own_node x) d)) ;;;
      ret tt
  | _ => ret tt
  end.

(** [if (meeting?.audio_path)]: the recording leaves the bucket. *)
Definition remove_recording (meeting : reply (option Meeting.row)) : M unit :=
  match meeting with
  | Data (Some m) =>
      match Meeting.audio_path m with
      | Some p => if truthy p then ask 5 (fun d => (tt, d)) ;;; ret tt else ret tt
      | None => ret tt
      end
  | _ => ret tt
  end.

Definition deleteMeeting (id : jsstring) : M unit :=
  meeting <- ask 0 (fun d =>
               (match filter (fun m => Js.eqb (Meeting.id m) id && own_meeting m)
                             (meetings d) with
                | [m] => Some m
                | _ => None
                end, d)) ;;
  remove_graph id ;;;
  remove_recording meeting ;;;
  gone <- ask 6 (fun d =>
            (tt, delete_meeting (fun m => Js.eqb (Meeting.id m) id && own_meeting m)
                                id d)) ;;
  match gone with
  | Error message => throw message
  | Data _ => ret tt
  end.

End Calls.
End MeetingService.

(** * Properties *)

(** ** Strings *)

Lemma eqb_eq (a b : jsstring) : Js.eqb a b = true <-> a = b.
Proof.
  revert b; induction a as [|x a IH]; intros [|y b]; simpl; split;
    try congruence; try reflexivity.
  - intros H. apply andb_true_iff in H as [H1 H2].
    apply N.eqb_eq in H1. apply IH in H2. congruence.
  - intros H. injection H as -> ->. rewrite N.eqb_refl. simpl. now apply IH.
Qed.

Lemma eqb_refl (a : jsstring) : Js.eqb a a = true.
Proof. now apply eqb_eq. Qed.

Lemma eqb_neq (a b : jsstring) : Js.eqb a b = false <-> a <> b.
Proof.
  split.
  - intros H Heq. apply eqb_eq in Heq. congruence.
  - intros H. destruct (Js.eqb a b) eqn:Hab; trivial.
    apply eqb_eq in Hab. contradiction.
Qed.

(** [s] does not begin with a unit of the class [p]. *)
Definition no_leading (p : N -> bool) (s : jsstring) : Prop :=
  match s with
  | c :: _ => p c = false
  | [] => True
  end.

Definition all (p : N -> bool) (s : jsstring) : Prop :=
  Forall (fun c => p c = true) s.

Lemma span_spec (p : N -> bool) (s : jsstring) :
  s = fst (span p s) ++ snd (span p s)
  /\ all p (fst (span p s)) /\ no_leading p (snd (span p s)).
Proof.
  induction s as [|c s IH]; simpl.
  - repeat split. constructor.
  - destruct (p c) eqn:Hc.
    + destruct (span p s) as [a b]. simpl in *.
      destruct IH as (H1 & H2 & H3). repeat split; trivial.
      * now f_equal.
      * now constructor.
    + simpl. repeat split; trivial. constructor.
Qed.

Lemma span_app (p : N -> bool) (a b : jsstring) :
  all p a -> no_leading p b -> span p (a ++ b) = (a, b).
Proof.
  intros Ha Hb. induction Ha as [|c a Hc Ha IH]; simpl.
  - destruct b as [|c b]; trivial. simpl in *. now rewrite Hb.
  - rewrite Hc, IH. reflexivity.
Qed.

(** The units of [m] are those of the pattern, up to case when
    [ignore_case]. *)
Definition spells (ignore_case : bool) (pat m : jsstring) : Prop :=
  Forall2 (fun p c => char_eqb ignore_case p c = true) pat m.

Lemma literal_spec (ic : bool) (pat s m r : jsstring) :
  literal ic pat s = Some (m, r) <-> s = m ++ r /\ spells ic pat m.
Proof.
  revert s m r. induction pat as [|p pat IH]; intros s m r; simpl.
  - split.
    + intros H. injection H as <- <-. split; trivial. constructor.
    + intros [-> H]. inversion H. reflexivity.
  - destruct s as [|c s].
    + split; [discriminate|]. intros [H1 H2]. inversion H2; subst. discriminate.
    + destruct (char_eqb ic p c) eqn:Hc.
      * destruct (literal ic pat s) as [[m' r']|] eqn:Hl.
        -- apply IH in Hl as [-> Hs]. split.
           ++ intros H. injection H as <- <-. split; trivial. now constructor.
           ++ intros [H1 H2]. inversion H2 as [|? c' ? m'' ? Hs' ]; subst.
              simpl in H1. injection H1 as <- H1.
              assert (Hx : literal ic pat (m' ++ r') = Some (m'', r))
                by (apply IH; split; trivial).
              assert (Hy : literal ic pat (m' ++ r') = Some (m', r'))
                by (apply IH; split; trivial).
              rewrite Hx in Hy. injection Hy as -> ->. reflexivity.
        -- split; [discriminate|]. intros [H1 H2].
           inversion H2 as [|? c' ? m'' ? Hs' ]; subst.
           simpl in H1. injection H1 as <- H1.
           assert (Hx : literal ic pat s = Some (m'', r))
             by (apply IH; split; trivial).
           congruence.
      * split; [discriminate|]. intros [H1 H2].
        inversion H2 as [|? c' ? m'' Hc' Hs' ]; subst.
        simpl in H1. injection H1 as <- H1. congruence.
Qed.

Lemma spells_exact (pat m : jsstring) : spells false pat m <-> m = pat.
Proof.
  unfold spells, char_eqb. split.
  - induction 1 as [|p c pat m H _ IH]; trivial.
    apply N.eqb_eq in H. congruence.
  - intros ->. induction pat; constructor; trivial. apply N.eqb_refl.
Qed.

Lemma replace_prefix (m r : jsstring) : replace m [] (m ++ r) = r.
Proof.
  assert (H : startsWith (m ++ r) m = true).
  { unfold startsWith.
    assert (Hl : literal false m (m ++ r) = Some (m, r))
      by (apply literal_spec; split; trivial; now apply spells_exact).
    now rewrite Hl. }
  destruct (m ++ r) as [|c s] eqn:Hs; simpl; rewrite H; simpl.
  - destruct m; [|discriminate]. destruct r; [|discriminate].
    reflexivity.
  - rewrite <- Hs. clear. induction m; simpl; trivial.
Qed.

Lemma trimStart_no_leading (s : jsstring) : no_leading isWhiteSpace (trimStart s).
Proof.
  induction s as [|c s IH]; simpl; trivial.
  destruct (isWhiteSpace c) eqn:Hc; trivial.
Qed.

Lemma trimStart_id (s : jsstring) : no_leading isWhiteSpace s -> trimStart s = s.
Proof. destruct s as [|c s]; simpl; trivial. now intros ->. Qed.

(** [s] does not end with white space. *)
Definition no_trailing_ws (s : jsstring) : Prop := no_leading isWhiteSpace (rev s).

Lemma trim_no_trailing (s : jsstring) : no_trailing_ws (trim s).
Proof.
  unfold no_trailing_ws, trim, trimEnd. rewrite rev_involutive.
  apply trimStart_no_leading.
Qed.

Lemma trim_id (s : jsstring) :
  no_leading isWhiteSpace s -> no_trailing_ws s -> trim s = s.
Proof.
  intros H1 H2. unfold trim, trimEnd. rewrite (trimStart_id _ H1).
  rewrite (trimStart_id _ H2). apply rev_involutive.
Qed.

Lemma no_trailing_suffix (a b : jsstring) :
  no_trailing_ws (a ++ b) -> no_trailing_ws b.
Proof.
  unfold no_trailing_ws. rewrite rev_app_distr.
  destruct (rev b) as [|c r]; simpl; trivial.
Qed.

Lemma trimStart_snoc (s : jsstring) (c : N) :
  isWhiteSpace c = false -> trimStart (s ++ [c]) <> [].
Proof.
  intros Hc. induction s as [|x s IH]; simpl.
  - now rewrite Hc.
  - destruct (isWhiteSpace x); [assumption|discriminate].
Qed.

Lemma trim_cons_nonempty (c : N) (s : jsstring) :
  isWhiteSpace c = false -> trim (c :: s) <> [].
Proof.
  intros Hc. unfold trim, trimEnd. simpl trimStart at 2. rewrite Hc.
  intros H. apply (f_equal (@rev N)) in H. rewrite rev_involutive in H.
  simpl in H. revert H. now apply trimStart_snoc.
Qed.

(** ** The speaker pattern *)

(** [line] matches [^(Speaker\s*\d+)\s*:\s*], with the [i] flag when
    [ignore_case]: [label] is the group and [rest] what follows the match.
    The stars are greedy, so [rest] starts with no white space. *)
Inductive speaker_line (ignore_case : bool) (line label rest : jsstring) : Prop :=
| SpeakerLine (kw ws1 ds ws2 ws3 : jsstring) :
    line = kw ++ ws1 ++ ds ++ ws2 ++ [COLON] ++ ws3 ++ rest ->
    spells ignore_case (str "Speaker") kw ->
    all isWhiteSpace ws1 ->
    ds <> [] -> all isDigit ds ->
    all isWhiteSpace ws2 ->
    all isWhiteSpace ws3 ->
    no_leading isWhiteSpace rest ->
    label = kw ++ ws1 ++ ds ->
    speaker_line ignore_case line label rest.

Lemma digit_not_space (c : N) : isDigit c = true -> isWhiteSpace c = false.
Proof.
  unfold isDigit, isWhiteSpace. intros H.
  apply andb_true_iff in H as [H1 H2].
  apply N.leb_le in H1. apply N.leb_le in H2.
  repeat match goal with
         | |- context [(c =? ?k)%N] =>
             replace (c =? k)%N with false by (symmetry; apply N.eqb_neq; lia)
         end.
  replace (8192 <=? c)%N with false by (symmetry; apply N.leb_gt; lia).
  reflexivity.
Qed.

Lemma space_not_digit (c : N) : isWhiteSpace c = true -> isDigit c = false.
Proof.
  intros H. destruct (isDigit c) eqn:Hd; trivial.
  apply digit_not_space in Hd. congruence.
Qed.

Lemma colon_not_space : isWhiteSpace COLON = false.
Proof. reflexivity. Qed.

Lemma colon_not_digit : isDigit COLON = false.
Proof. reflexivity. Qed.

Lemma no_leading_app (p : N -> bool) (a b : jsstring) :
  a <> [] -> no_leading p a -> no_leading p (a ++ b).
Proof. destruct a; simpl; trivial. congruence. Qed.

(** The head of [ws ++ [COLON] ++ r] is white space or the colon: not a
    digit. *)
Lemma no_digit_before_colon (ws r : jsstring) :
  all isWhiteSpace ws -> no_leading isDigit (ws ++ [COLON] ++ r).
Proof.
  intros H. destruct H as [|c ws' Hc _]; simpl.
  - apply colon_not_digit.
  - now apply space_not_digit.
Qed.

Lemma all_digit_head (ds r : jsstring) :
  ds <> [] -> all isDigit ds -> no_leading isWhiteSpace (ds ++ r).
Proof.
  intros Hne H. destruct H as [|c ds' Hc _]; [congruence|].
  simpl. now apply digit_not_space.
Qed.

(** What the matcher finds is a match of the pattern, and the line is the
    match followed by [rest]. *)
Lemma match_speaker_sound (ic : bool) (line : jsstring) (m : speaker_match) :
  match_speaker_with ic line = Some m ->
  exists rest, line = spk0 m ++ rest /\ speaker_line ic line (spk1 m) rest.
Proof.
  unfold match_speaker_with.
  destruct (literal ic (str "Speaker") line) as [[kw r0]|] eqn:Hl; [|discriminate].
  apply literal_spec in Hl as [-> Hkw].
  pose proof (span_spec isWhiteSpace r0) as (E1 & A1 & _).
  destruct (span isWhiteSpace r0) as [ws1 r1]. simpl in *.
  pose proof (span_spec isDigit r1) as (E2 & A2 & _).
  destruct (span isDigit r1) as [ds r2]. simpl in *.
  destruct ds as [|d ds]; [discriminate|].
  pose proof (span_spec isWhiteSpace r2) as (E3 & A3 & _).
  destruct (span isWhiteSpace r2) as [ws2 r3]. simpl in *.
  destruct r3 as [|c r4]; [discriminate|].
  destruct (c =? COLON)%N eqn:Hc; [|discriminate].
  apply N.eqb_eq in Hc. subst c.
  pose proof (span_spec isWhiteSpace r4) as (E4 & A4 & L4).
  destruct (span isWhiteSpace r4) as [ws3 rest]. simpl in *.
  intros H. injection H as <-. simpl.
  exists rest. subst r0 r1 r2. split.
  - rewrite E4 at 1. now repeat (rewrite <- ?app_assoc; simpl).
  - apply SpeakerLine with (kw := kw) (ws1 := ws1) (ds := d :: ds)
                           (ws2 := ws2) (ws3 := ws3); trivial.
    + rewrite E4 at 1. reflexivity.
    + discriminate.
Qed.

(** Every match of the pattern is the one the matcher finds. *)
Lemma match_speaker_complete (ic : bool) (line label rest : jsstring) :
  speaker_line ic line label rest ->
  exists m, match_speaker_with ic line = Some m
            /\ spk1 m = label /\ line = spk0 m ++ rest.
Proof.
  intros [kw ws1 ds ws2 ws3 -> Hkw A1 Hne A2 A3 A4 L ->].
  unfold match_speaker_with.
  assert (Hl : literal ic (str "Speaker")
                 (kw ++ ws1 ++ ds ++ ws2 ++ [COLON] ++ ws3 ++ rest)
               = Some (kw, ws1 ++ ds ++ ws2 ++ [COLON] ++ ws3 ++ rest))
    by (apply literal_spec; split; trivial).
  rewrite Hl.
  rewrite (span_app isWhiteSpace ws1 (ds ++ ws2 ++ [COLON] ++ ws3 ++ rest) A1
             (all_digit_head _ _ Hne A2)).
  rewrite (span_app isDigit ds (ws2 ++ [COLON] ++ ws3 ++ rest) A2
             (no_digit_before_colon _ _ A3)).
  destruct ds as [|d ds]; [congruence|].
  rewrite (span_app isWhiteSpace ws2 ([COLON] ++ ws3 ++ rest) A3 colon_not_space).
  cbn [app]. rewrite N.eqb_refl.
  rewrite (span_app isWhiteSpace ws3 rest A4 L).
  eexists. split; [reflexivity|]. simpl. split; trivial.
  now repeat (rewrite <- ?app_assoc; simpl).
Qed.

Lemma match_speaker_none (ic : bool) (line : jsstring) :
  match_speaker_with ic line = None ->
  forall label rest, ~ speaker_line ic line label rest.
Proof.
  intros H label rest Hs.
  apply match_speaker_complete in Hs as (m & Hm & _). congruence.
Qed.

(** ** Transcript parsing *)

(** What one line of the transcript contributes, by the rule of the
    specification read with the pattern's [i] flag set or not. *)
Inductive line_yields (ignore_case : bool) (meetingId language_code raw : jsstring)
  : list Transcript.row -> Prop :=
| BlankLine :
    trim raw = [] ->
    line_yields ignore_case meetingId language_code raw []
| SpeakerTurn (label rest : jsstring) :
    speaker_line ignore_case (trim raw) label rest ->
    line_yields ignore_case meetingId language_code raw
      [new_segment meetingId language_code (Some label) rest]
| PlainLine :
    trim raw <> [] ->
    (forall label rest, ~ speaker_line ignore_case (trim raw) label rest) ->
    line_yields ignore_case meetingId language_code raw
      [new_segment meetingId language_code None (trim raw)].

(** The segments are those of the lines, in order. *)
Definition lines_yield (ignore_case : bool) (meetingId language_code : jsstring)
    (lines : list jsstring) (segments : list Transcript.row) : Prop :=
  exists per_line,
    Forall2 (line_yields ignore_case meetingId language_code) lines per_line
    /\ segments = concat per_line.

Lemma truthy_false (s : jsstring) : truthy s = false <-> s = [].
Proof. destruct s; simpl; split; congruence. Qed.

Lemma truthy_true (s : jsstring) : truthy s = true <-> s <> [].
Proof. destruct s; simpl; split; congruence. Qed.

Lemma parse_line_yields (meetingId language_code raw : jsstring) :
  line_yields true meetingId language_code raw
    (parse_line meetingId language_code [] raw).
Proof.
  unfold parse_line.
  destruct (truthy (trim raw)) eqn:Ht; simpl.
  - apply truthy_true in Ht.
    unfold match_speaker.
    destruct (match_speaker_with true (trim raw)) as [m|] eqn:Hm.
    + destruct (match_speaker_sound _ _ _ Hm) as (rest & Hline & Hs).
      assert (Hrest : trim (replace (spk0 m) [] (trim raw)) = rest).
      { rewrite Hline. rewrite replace_prefix.
        apply trim_id.
        - now destruct Hs.
        - apply (no_trailing_suffix (spk0 m)). rewrite <- Hline.
          apply trim_no_trailing. }
      rewrite Hrest. now apply SpeakerTurn.
    + apply PlainLine; trivial. now apply match_speaker_none.
  - apply truthy_false in Ht. now apply BlankLine.
Qed.

Lemma parse_line_app (meetingId language_code raw : jsstring)
    (segments : list Transcript.row) :
  parse_line meetingId language_code segments raw
  = segments ++ parse_line meetingId language_code [] raw.
Proof.
  unfold parse_line. destruct (truthy (trim raw)); simpl; trivial.
  now rewrite app_nil_r.
Qed.

Lemma fold_parse_line (meetingId language_code : jsstring)
    (lines : list jsstring) (segments : list Transcript.row) :
  fold_left (parse_line meetingId language_code) lines segments
  = segments ++ concat (map (parse_line meetingId language_code []) lines).
Proof.
  revert segments. induction lines as [|l lines IH]; intros segments; simpl.
  - now rewrite app_nil_r.
  - rewrite IH, parse_line_app. now rewrite app_assoc.
Qed.

Lemma trimStart_snoc_shape (s : jsstring) (c : N) :
  isWhiteSpace c = false -> exists l, trimStart (s ++ [c]) = l ++ [c].
Proof.
  intros Hc. induction s as [|x s IH]; simpl.
  - rewrite Hc. now exists [].
  - destruct (isWhiteSpace x); trivial. now exists (x :: s).
Qed.

Lemma trim_no_leading (s : jsstring) : no_leading isWhiteSpace (trim s).
Proof.
  unfold trim, trimEnd.
  pose proof (trimStart_no_leading s) as H.
  destruct (trimStart s) as [|c x]; simpl; trivial.
  simpl in H. destruct (trimStart_snoc_shape (rev x) c H) as [l Hl].
  rewrite Hl, rev_app_distr. simpl. exact H.
Qed.

Lemma split_cons (sep : N) (s : jsstring) :
  exists h t, split sep s = h :: t.
Proof.
  induction s as [|c s (h & t & IH)]; simpl.
  - now exists [], [].
  - destruct (c =? sep)%N.
    + now exists [], (split sep s).
    + rewrite IH. now exists (c :: h), t.
Qed.

(** A transcript that is not blank has a first line that is not blank, so
    it gives a segment. *)
Lemma first_line_segment (meetingId language_code s : jsstring) :
  s <> [] -> no_leading isWhiteSpace s ->
  concat (map (parse_line meetingId language_code []) (split LF s)) <> [].
Proof.
  destruct s as [|c s]; [congruence|]. intros _ Hc. simpl in Hc.
  simpl split.
  destruct (c =? LF)%N eqn:Hlf.
  - apply N.eqb_eq in Hlf. subst c. discriminate.
  - destruct (split_cons LF s) as (h & t & ->). simpl.
    unfold parse_line at 1.
    pose proof (trim_cons_nonempty c h Hc) as Hne.
    apply truthy_true in Hne. rewrite Hne. simpl. discriminate.
Qed.

Lemma parse_transcript_lines (meetingId language_code transcript : jsstring) :
  trim transcript <> [] -> trim transcript <> str "[inaudible]" ->
  parse_transcript meetingId language_code transcript
  = concat (map (parse_line meetingId language_code [])
                (split LF (trim transcript))).
Proof.
  intros H1 H2. unfold parse_transcript.
  apply truthy_true in H1 as H1'. apply eqb_neq in H2. rewrite H1', H2. simpl.
  rewrite fold_parse_line. simpl.
  pose proof (first_line_segment meetingId language_code (trim transcript) H1
                (trim_no_leading transcript)) as Hne.
  destruct (concat _) as [|x l]; [congruence|]. reflexivity.
Qed.

Lemma parse_transcript_silent (meetingId language_code transcript : jsstring) :
  trim transcript = [] \/ trim transcript = str "[inaudible]" ->
  parse_transcript meetingId language_code transcript
  = [new_segment meetingId language_code None no_speech].
Proof.
  unfold parse_transcript. intros [H|H]; rewrite H; reflexivity.
Qed.

(** C6 (amended). Transcript parsing goes line by line over the trimmed
    text: a trimmed line that matches [^Speaker\s*\d+\s*:\s*] read without
    regard to case (the handler's pattern carries the [i] flag) gives a
    segment whose speaker label is the matched [Speaker <N>] text and whose
    text is the rest of the line; a line that is not blank and does not
    match gives a segment with a null label and the trimmed line as text;
    blank lines are skipped. The transcript ["Speaker 1: Hello\nHello back"]
    gives exactly the two segments of the specification. *)
Theorem C6_transcript_parsed_line_by_line :
  (forall meetingId language_code transcript : jsstring,
      trim transcript <> [] -> trim transcript <> str "[inaudible]" ->
      lines_yield true meetingId language_code (split LF (trim transcript))
        (parse_transcript meetingId language_code transcript))
  /\ (forall meetingId language_code : jsstring,
        parse_transcript meetingId language_code
          (str "Speaker 1: Hello" ++ [LF] ++ str "Hello back")
        = [ new_segment meetingId language_code (Some (str "Speaker 1")) (str "Hello");
            new_segment meetingId language_code None (str "Hello back") ]).
Proof.
  split.
  - intros meetingId language_code transcript H1 H2.
    rewrite (parse_transcript_lines _ _ _ H1 H2).
    exists (map (parse_line meetingId language_code []) (split LF (trim transcript))).
    split; trivial.
    induction (split LF (trim transcript)) as [|l ls IH]; simpl; constructor; trivial.
    apply parse_line_yields.
  - intros meetingId language_code. reflexivity.
Qed.

Lemma C6_transcript_parsed_witness :
  lines_yield true (str "m1") (str "en-US")
    (split LF (trim (str "Speaker 1: Hello" ++ [LF] ++ str "Hello back")))
    (parse_transcript (str "m1") (str "en-US")
       (str "Speaker 1: Hello" ++ [LF] ++ str "Hello back")).
Proof.
  apply (proj1 C6_transcript_parsed_line_by_line); vm_compute; discriminate.
Defined.

(** C6 as the specification words it, with the pattern read as written
    (case matters), fails on a line that starts with a lower-case
    [speaker]: the handler labels it, the specification's rule does not. *)
Lemma C6_case_sensitive_rule_refuted :
  ~ (forall meetingId language_code transcript : jsstring,
        trim transcript <> [] -> trim transcript <> str "[inaudible]" ->
        lines_yield false meetingId language_code (split LF (trim transcript))
          (parse_transcript meetingId language_code transcript)).
Proof.
  intros H.
  specialize (H [] [] (str "speaker 1: Hello")).
  destruct H as (per_line & HF & Hc); try (vm_compute; discriminate).
  change (split LF (trim (str "speaker 1: Hello")))
    with [str "speaker 1: Hello"] in HF.
  inversion HF as [|l x ls xs Hl Hnil]; subst. inversion Hnil; subst. clear HF Hnil.
  rewrite app_nil_r in Hc || simpl in Hc.
  inversion Hl as [Hb | label rest Hs | Hne Hno]; subst.
  - vm_compute in Hb. discriminate.
  - destruct Hs as [kw ws1 ds ws2 ws3 Hline Hkw _ _ _ _ _ _ _].
    apply spells_exact in Hkw. subst kw. vm_compute in Hline. discriminate.
  - vm_compute in Hc. discriminate.
Qed.

(** ** Invariants of a run *)

(** A property of the tables together with a property of every request the
    run has issued since the world [w0]. *)
Section Invariants.

Variable E : env.
Variable on_db : database -> Prop.
Variable on_req : request -> Prop.

Definition holds (w0 w : world) : Prop :=
  on_db (db w)
  /\ exists issued, log w = log w0 ++ issued /\ Forall on_req issued.

Definition preserves {A} (m : M A) : Prop :=
  forall w0 w, holds w0 w -> holds w0 (snd (m w)).

Lemma holds_refl (w : world) : on_db (db w) -> holds w w.
Proof.
  intros H. split; trivial. exists []. split; [now rewrite app_nil_r|constructor].
Qed.

Lemma holds_log (w0 w : world) (r : request) :
  on_req r -> holds w0 w -> holds w0 {| db := db w; log := log w ++ [r] |}.
Proof.
  intros Hr (Hd & issued & Hl & Hi). split; trivial.
  exists (issued ++ [r]). simpl. split.
  - rewrite Hl. now rewrite app_assoc.
  - apply Forall_app. split; trivial. now constructor.
Qed.

Lemma preserves_ret {A} (a : A) : preserves (ret a).
Proof. intros w0 w H. exact H. Qed.

Lemma preserves_throw {A} (message : jsstring) : preserves (@throw A message).
Proof. intros w0 w H. exact H. Qed.

Lemma preserves_bind {A B} (m : M A) (k : A -> M B) :
  preserves m -> (forall a, preserves (k a)) -> preserves (bind m k).
Proof.
  intros Hm Hk w0 w H. unfold bind.
  specialize (Hm w0 w H). destruct (m w) as [[e|a] w']; simpl in *; trivial.
  now apply Hk.
Qed.

Lemma preserves_attempt {A} (m : M A) : preserves m -> preserves (attempt m).
Proof. intros Hm w0 w H. unfold attempt. simpl. now apply Hm. Qed.

Lemma preserves_emit (r : request) : on_req r -> preserves (emit r).
Proof. intros Hr w0 w H. unfold emit. simpl. now apply holds_log. Qed.

Lemma preserves_fetch {A} (r : request) (answer : fetched A) :
  on_req r -> preserves (fetch r answer).
Proof.
  intros Hr. unfold fetch. apply preserves_bind.
  - now apply preserves_emit.
  - intros _. apply preserves_ret.
Qed.

Lemma preserves_call {A} (r : request) (op : database -> reply A * database) :
  on_req r -> (forall d, on_db d -> on_db (snd (op d))) ->
  preserves (call E r op).
Proof.
  intros Hr Hop w0 w H. unfold call.
  pose proof (holds_log w0 w r Hr H) as H1.
  destruct (db_fault E (length (log w)) r) as [[message|message]|]; simpl; trivial.
  destruct (op (db w)) as [res d] eqn:Hd. simpl.
  destruct H1 as (_ & issued & Hl & Hi). split.
  - destruct H as (Hdb & _). specialize (Hop (db w) Hdb). now rewrite Hd in Hop.
  - exists issued. now split.
Qed.

(** A handler under [guarded]: when the body keeps the invariant and so does
    the status write of the [catch], the whole stage does. *)
Lemma guarded_holds (meetingId : jsstring) (on_error : meeting_status)
    (stage_body : M response) (w : world) :
  preserves stage_body ->
  preserves (update_status E meetingId on_error) ->
  on_db (db w) ->
  holds w (snd (guarded E meetingId on_error stage_body w)).
Proof.
  intros Hb Hu Hw. unfold guarded.
  specialize (Hb w w (holds_refl w Hw)).
  destruct (stage_body w) as [[e|a] w']; simpl in *; trivial.
  now apply Hu.
Qed.

End Invariants.

(** A POST whose body names a meeting reaches the stage. *)
Lemma serve_accepted (stage : jsstring -> world -> response * world)
    (req : http_request) (meetingId : jsstring) (w : world) :
  method req <> str "OPTIONS" -> body_meeting_id req = Some meetingId ->
  meetingId <> [] ->
  serve stage req w = stage meetingId w.
Proof.
  intros Hm Hb Hid. unfold serve.
  apply eqb_neq in Hm. rewrite Hm, Hb.
  apply truthy_true in Hid. now rewrite Hid.
Qed.

(** ** The status field under a stage *)

Lemma set_status_idem (meetingId : jsstring) (st : meeting_status)
    (ms : list Meeting.row) :
  set_status meetingId st (set_status meetingId st ms) = set_status meetingId st ms.
Proof.
  unfold set_status. rewrite map_map. apply map_ext. intros m.
  destruct (Js.eqb (Meeting.id m) meetingId) eqn:Hm; simpl; rewrite Hm; reflexivity.
Qed.

Lemma set_status_sets (meetingId : jsstring) (st : meeting_status)
    (ms : list Meeting.row) (m : Meeting.row) :
  In m (set_status meetingId st ms) -> Meeting.id m = meetingId ->
  Meeting.status m = st.
Proof.
  unfold set_status. intros H Hid. apply in_map_iff in H as (x & Hx & _).
  destruct (Js.eqb (Meeting.id x) meetingId) eqn:Hm; subst m; trivial.
  apply eqb_neq in Hm. contradiction.
Qed.

(** A row of the table after [set_status] has the new status, or is a row
    of the table before. *)
Lemma set_status_other (meetingId : jsstring) (st : meeting_status)
    (ms : list Meeting.row) (m : Meeting.row) :
  In m (set_status meetingId st ms) -> Meeting.status m = st \/ In m ms.
Proof.
  unfold set_status. intros H. apply in_map_iff in H as (x & Hx & Hin).
  destruct (Js.eqb (Meeting.id x) meetingId); subst m; auto.
Qed.

Section StatusWrites.

Variable E : env.
Variable meetingId : jsstring.
Variable st : meeting_status.
Variable before : list Meeting.row.

(** The meetings are as they were, or the meeting has the status [st]. *)
Definition status_db (d : database) : Prop :=
  meetings d = before \/ meetings d = set_status meetingId st before.

(** A request that writes a status writes [st] on [meetingId]. *)
Definition status_req (r : request) : Prop :=
  forall id s, r = UpdateMeetingStatus id s -> id = meetingId /\ s = st.

Lemma update_status_preserves :
  preserves status_db status_req (update_status E meetingId st).
Proof.
  apply preserves_call.
  - intros id s H. injection H as <- <-. now split.
  - intros d [H|H]; right; simpl; rewrite H; trivial. apply set_status_idem.
Qed.

End StatusWrites.

(** One step of a frame proof: the computation is taken apart, and a call
    that is not a status write and leaves the meetings alone is discharged. *)
Ltac not_a_status_write :=
  let H := fresh "H" in intros ? ? H; discriminate H.

Ltac meetings_untouched :=
  let d := fresh "d" in let H := fresh "H" in
  intros d H; unfold status_db in *; simpl; exact H.

(** One step of an invariant proof: the computation is taken apart; [req]
    proves the property of a request, [tables] that a call keeps the
    property of the tables. *)
Ltac step_with req tables :=
  lazymatch goal with
  | |- preserves _ _ (ret _) => apply preserves_ret
  | |- preserves _ _ (throw _) => apply preserves_throw
  | |- preserves _ _ (bind _ _) => apply preserves_bind; [| intros ?]
  | |- preserves _ _ (attempt _) => apply preserves_attempt
  | |- preserves _ _ (emit _) => apply preserves_emit; req
  | |- preserves _ _ (fetch _ _) => apply preserves_fetch; req
  | |- preserves _ _ (call _ _ _) => apply preserves_call; [req | tables]
  | |- preserves _ _ (update_status _ _ _) =>
      first [ apply update_status_preserves | unfold update_status ]
  | |- preserves _ _ (match ?x with _ => _ end) => destruct x
  end.

Ltac frame_step := step_with not_a_status_write meetings_untouched.

Ltac frame := repeat frame_step.

Section LinkStatus.

Variable E : env.
Variable meetingId : jsstring.
Variable before : list Meeting.row.

Let inv {A} (m : M A) : Prop :=
  preserves (status_db meetingId done before) (status_req meetingId done) m.

Lemma embed_frame (text : jsstring) : inv (LinkMeeting.embed E text).
Proof. unfold inv, LinkMeeting.embed. frame. Qed.

Lemma decision_nodes_frame (user_id : jsstring) (decisions : list jsstring)
    (nodesToInsert : list Node.fields) :
  inv (LinkMeeting.decision_nodes E meetingId user_id decisions nodesToInsert).
Proof.
  unfold inv. revert nodesToInsert.
  induction decisions as [|dec rest IH]; intros nodesToInsert; simpl.
  - frame.
  - apply preserves_bind; [apply embed_frame|]. intros decEmbed. apply IH.
Qed.

Lemma action_nodes_frame (user_id : jsstring) (actions : list ActionItem.row)
    (nodesToInsert : list Node.fields) :
  inv (LinkMeeting.action_nodes E meetingId user_id actions nodesToInsert).
Proof.
  unfold inv. revert nodesToInsert.
  induction actions as [|a rest IH]; intros nodesToInsert; simpl.
  - frame.
  - apply preserves_bind; [apply embed_frame|]. intros actEmbed. apply IH.
Qed.

Lemma link_nodes_frame (user_id : jsstring) (cap : nat)
    (insertedNodes : list Node.row) (edgesToInsert : list Edge.row) :
  inv (LinkMeeting.link_nodes E user_id cap insertedNodes edgesToInsert).
Proof.
  unfold inv. revert edgesToInsert.
  induction insertedNodes as [|node rest IH]; intros edgesToInsert; simpl.
  - frame.
  - destruct (Node.embedding (Node.data node)); [|apply IH].
    apply preserves_bind; [frame|]. intros r. apply IH.
Qed.

Lemma remove_old_frame : inv (LinkMeeting.remove_old E meetingId).
Proof. unfold inv, LinkMeeting.remove_old. frame. Qed.

Lemma link_body_frame : inv (LinkMeeting.stage_body E meetingId).
Proof.
  unfold inv, LinkMeeting.stage_body, select_meeting.
  apply preserves_bind; [frame|]. intros r.
  apply preserves_bind; [frame|]. intros m.
  apply preserves_bind; [frame|]. intros noteRes.
  apply preserves_bind; [frame|]. intros actionsRes.
  apply preserves_bind; [frame|]. intros transcriptsRes.
  apply preserves_bind; [apply remove_old_frame|]. intros _.
  apply preserves_bind; [apply embed_frame|]. intros meetingEmbed.
  apply preserves_bind.
  { destruct (LinkMeeting.summary_of _); [|frame].
    apply preserves_bind; [apply embed_frame|]. intros; frame. }
  intros nodes1.
  apply preserves_bind; [apply decision_nodes_frame|]. intros nodes2.
  apply preserves_bind; [apply action_nodes_frame|]. intros nodesToInsert.
  apply preserves_bind; [unfold LinkMeeting.insert_nodes; frame|]. intros insRes.
  apply preserves_bind; [frame|]. intros insertedNodes.
  apply preserves_bind; [apply link_nodes_frame|]. intros edgesToInsert.
  unfold LinkMeeting.insert_edges. frame.
Qed.

End LinkStatus.

(** ** Example collaborators *)

(** A store that serves every call, and collaborators that give nothing. *)
Definition quiet : env :=
  {| db_fault := fun _ _ => None;
     single_error := str "JSON object requested, multiple (or no) rows returned";
     gen_random_uuid := fun n => str "node-" ++ of_N (N.of_nat n);
     storage_object := fun _ => Error (str "Object not found");
     file_api_start := fun _ _ => FetchThrown (str "offline");
     file_api_upload := fun _ _ => FetchThrown (str "offline");
     file_api_poll := fun _ _ => FetchThrown (str "offline");
     generate_transcription := fun _ _ _ => FetchThrown (str "offline");
     generate_analysis := fun _ _ => FetchThrown (str "offline");
     embed_content := fun _ => None;
     search_nodes := fun _ _ _ _ => [];
     btoa := fun _ => [];
     JSON_parse := fun _ => SyntaxError (str "Unexpected end of JSON input") |}.

(** [E] with the store's faults replaced. *)
Definition with_faults (f : nat -> request -> option fault) (E : env) : env :=
  {| db_fault := f;
     single_error := single_error E;
     gen_random_uuid := gen_random_uuid E;
     storage_object := storage_object E;
     file_api_start := file_api_start E;
     file_api_upload := file_api_upload E;
     file_api_poll := file_api_poll E;
     generate_transcription := generate_transcription E;
     generate_analysis := generate_analysis E;
     embed_content := embed_content E;
     search_nodes := search_nodes E;
     btoa := btoa E;
     JSON_parse := JSON_parse E |}.

Definition a_meeting (st : meeting_status) (audio : option jsstring) : Meeting.row :=
  {| Meeting.id := str "m1"; Meeting.user_id := str "u1";
     Meeting.title := str "Weekly sync"; Meeting.language_code := str "en-US";
     Meeting.status := st; Meeting.audio_path := audio |}.

Definition post (meetingId : jsstring) : http_request :=
  {| method := str "POST"; body_meeting_id := Some meetingId |}.

Definition world_of (ms : list Meeting.row) : world :=
  {| db := {| meetings := ms; transcripts := []; meeting_notes := [];
              action_items := []; nodes := []; edges := [] |};
     log := [] |}.

(** The store rejects the insert of the nodes. *)
Definition nodes_rejected : env :=
  with_faults
    (fun _ r => match r with
                | InsertNodes _ => Some (Rejected (str "boom"))
                | _ => None
                end) quiet.

(** ** link-meeting: errors and the status *)

(** C1. When an exception is raised inside the linking stage (after the
    [meeting_id] is accepted), the handler still sets the status to [done]:
    its [catch] sends the status write [done] as its last request and
    answers 500; no request of the run writes any other status; the meetings
    are left as they were or with this meeting [done], and it is [done] once
    the store serves that write; no row is [failed] that was not before. *)
Theorem C1_link_failure_still_sets_done :
  forall (E : env) (req : http_request) (meetingId message : jsstring)
         (w w1 : world),
    method req <> str "OPTIONS" -> body_meeting_id req = Some meetingId ->
    meetingId <> [] ->
    LinkMeeting.stage_body E meetingId w = (inl message, w1) ->
    let resp := fst (LinkMeeting.handler E req w) in
    let w' := snd (LinkMeeting.handler E req w) in
    resp = {| status := 500; body := BodyError message |}
    /\ log w' = log w1 ++ [UpdateMeetingStatus meetingId done]
    /\ (exists issued,
          log w' = log w ++ issued
          /\ forall id s, In (UpdateMeetingStatus id s) issued ->
                          id = meetingId /\ s = done)
    /\ (meetings (db w') = meetings (db w)
        \/ meetings (db w') = set_status meetingId done (meetings (db w)))
    /\ (db_fault E (length (log w1)) (UpdateMeetingStatus meetingId done) = None ->
        forall m, In m (meetings (db w')) -> Meeting.id m = meetingId ->
                  Meeting.status m = done)
    /\ (forall m, In m (meetings (db w')) -> Meeting.status m = failed ->
                  In m (meetings (db w))).
Proof.
  intros E req meetingId message w w1 Hm Hb Hne Hbody.
  unfold LinkMeeting.handler.
  rewrite (serve_accepted _ req meetingId w Hm Hb Hne). cbv zeta.
  set (resp := fst (LinkMeeting.stage E meetingId w)).
  set (w' := snd (LinkMeeting.stage E meetingId w)).
  pose proof (guarded_holds E (status_db meetingId done (meetings (db w)))
                (status_req meetingId done) meetingId done
                (LinkMeeting.stage_body E meetingId) w
                (link_body_frame E meetingId (meetings (db w)))
                (update_status_preserves E meetingId done (meetings (db w)))
                (or_introl eq_refl)) as (Hdb & issued & Hlog & Hreq).
  fold (LinkMeeting.stage E meetingId w) in Hdb, Hlog. fold w' in Hdb, Hlog.
  assert (Hstage : LinkMeeting.stage E meetingId w
                   = ({| status := 500; body := BodyError message |},
                      snd (attempt (update_status E meetingId done) w1))).
  { unfold LinkMeeting.stage, guarded. now rewrite Hbody. }
  split; [unfold resp; now rewrite Hstage|].
  split.
  { unfold w'. rewrite Hstage. unfold attempt, update_status, call. simpl.
    destruct (db_fault E _ _) as [[?|?]|]; reflexivity. }
  split.
  { exists issued. split; trivial. intros id s Hin.
    rewrite Forall_forall in Hreq. exact (Hreq _ Hin id s eq_refl). }
  split; [exact Hdb|].
  split.
  - intros Hf m Hin Hid.
    unfold w' in Hin. rewrite Hstage in Hin.
    unfold attempt, update_status, call in Hin. simpl in Hin.
    rewrite Hf in Hin. simpl in Hin.
    now apply (set_status_sets meetingId done (meetings (db w1))).
  - intros m Hin Hfailed. destruct Hdb as [Hdb|Hdb]; rewrite Hdb in Hin; trivial.
    apply set_status_other in Hin as [Hin|Hin]; trivial. congruence.
Qed.

Lemma C1_link_failure_witness :
  fst (LinkMeeting.handler nodes_rejected (post (str "m1"))
         (world_of [a_meeting linking None]))
  = {| status := 500; body := BodyError (str "Insert nodes failed: boom") |}
  /\ meetings (db (snd (LinkMeeting.handler nodes_rejected (post (str "m1"))
                          (world_of [a_meeting linking None]))))
     = [a_meeting done None].
Proof.
  pose proof (C1_link_failure_still_sets_done nodes_rejected (post (str "m1"))
                (str "m1") (str "Insert nodes failed: boom")
                (world_of [a_meeting linking None])
                (snd (LinkMeeting.stage_body nodes_rejected (str "m1")
                        (world_of [a_meeting linking None])))
                ltac:(discriminate) eq_refl ltac:(discriminate)
                ltac:(vm_compute; reflexivity)) as H.
  split; [exact (proj1 H)|].
  vm_compute. reflexivity.
Defined.

(** ** transcribe-meeting: a meeting without audio *)

Lemma filter_single_in {A} (f : A -> bool) (l : list A) (x y : A) :
  In x l -> f x = true -> filter f l = [y] -> y = x.
Proof.
  intros Hin Hf Hy.
  assert (H : In x (filter f l)) by (apply filter_In; now split).
  rewrite Hy in H. destruct H as [H|[]]. exact H.
Qed.

(** What the [try] of transcribe-meeting does for a meeting that has no
    audio: one request, then an exception. *)
Lemma transcribe_body_no_audio (E : env) (meetingId : jsstring) (w : world)
    (m : Meeting.row) :
  In m (meetings (db w)) -> Meeting.id m = meetingId ->
  (Meeting.audio_path m = None \/ Meeting.audio_path m = Some []) ->
  exists message,
    TranscribeMeeting.stage_body E meetingId w
    = (inl message, {| db := db w; log := log w ++ [SelectMeeting meetingId] |}).
Proof.
  intros Hin Hid Haudio.
  unfold TranscribeMeeting.stage_body, TranscribeMeeting.obtain_transcript,
    select_meeting, bind, call.
  destruct (db_fault E (length (log w)) (SelectMeeting meetingId))
    as [[message|message]|]; simpl.
  - eexists. reflexivity.
  - eexists. reflexivity.
  - destruct (filter _ (meetings (db w))) as [|y [|z l]] eqn:Hf; simpl;
      try (eexists; reflexivity).
    assert (y = m).
    { apply (filter_single_in _ _ _ _ Hin) in Hf; trivial.
      apply eqb_eq. exact Hid. }
    subst y. destruct Haudio as [Ha|Ha]; rewrite Ha; simpl; eexists; reflexivity.
Qed.

(** C9. Invoked for a meeting that exists but has no audio reference, the
    transcription stage answers 500 with an error, sends the store two
    requests only (the read of the meeting, then the status write [failed]),
    so it writes no transcript segment and the transcripts are unchanged;
    the meeting is [failed] once the store serves that write. *)
Theorem C9_no_audio_fails_and_writes_no_segment :
  forall (E : env) (req : http_request) (meetingId : jsstring) (w : world)
         (m : Meeting.row),
    method req <> str "OPTIONS" -> body_meeting_id req = Some meetingId ->
    meetingId <> [] ->
    In m (meetings (db w)) -> Meeting.id m = meetingId ->
    (Meeting.audio_path m = None \/ Meeting.audio_path m = Some []) ->
    let resp := fst (TranscribeMeeting.handler E req w) in
    let w' := snd (TranscribeMeeting.handler E req w) in
    status resp = 500%N
    /\ (exists message, body resp = BodyError message)
    /\ log w' = log w ++ [SelectMeeting meetingId;
                          UpdateMeetingStatus meetingId failed]
    /\ transcripts (db w') = transcripts (db w)
    /\ (db_fault E (S (length (log w))) (UpdateMeetingStatus meetingId failed) = None ->
        forall x, In x (meetings (db w')) -> Meeting.id x = meetingId ->
                  Meeting.status x = failed).
Proof.
  intros E req meetingId w m Hm Hb Hne Hin Hid Haudio.
  unfold TranscribeMeeting.handler.
  rewrite (serve_accepted _ req meetingId w Hm Hb Hne). cbv zeta.
  set (resp := fst (TranscribeMeeting.stage E meetingId w)).
  set (w' := snd (TranscribeMeeting.stage E meetingId w)).
  destruct (transcribe_body_no_audio E meetingId w m Hin Hid Haudio)
    as [message Hbody].
  assert (Hstage : TranscribeMeeting.stage E meetingId w
                   = ({| status := 500; body := BodyError message |},
                      snd (attempt (update_status E meetingId failed)
                             {| db := db w; log := log w ++ [SelectMeeting meetingId] |}))).
  { unfold TranscribeMeeting.stage, guarded. now rewrite Hbody. }
  unfold resp, w'. rewrite Hstage. clear resp w' Hstage Hbody.
  unfold attempt, update_status, call. simpl.
  rewrite length_app, Nat.add_comm. simpl.
  split; [reflexivity|]. split; [now exists message|].
  destruct (db_fault E (S (length (log w))) (UpdateMeetingStatus meetingId failed))
    as [[msg|msg]|]; simpl; rewrite <- app_assoc; simpl;
    repeat split; try discriminate.
  intros _ x Hx Hxid.
  now apply (set_status_sets meetingId failed (meetings (db w))).
Qed.

Lemma C9_no_audio_witness :
  status (fst (TranscribeMeeting.handler quiet (post (str "m1"))
                 (world_of [a_meeting processing None]))) = 500%N
  /\ meetings (db (snd (TranscribeMeeting.handler quiet (post (str "m1"))
                          (world_of [a_meeting processing None]))))
     = [a_meeting failed None]
  /\ transcripts (db (snd (TranscribeMeeting.handler quiet (post (str "m1"))
                             (world_of [a_meeting processing None]))))
     = [].
Proof.
  pose proof (C9_no_audio_fails_and_writes_no_segment quiet (post (str "m1"))
                (str "m1") (world_of [a_meeting processing None])
                (a_meeting processing None)
                ltac:(discriminate) eq_refl ltac:(discriminate)
                (or_introl eq_refl) eq_refl (or_introl eq_refl)) as H.
  split; [exact (proj1 H)|].
  split; [vm_compute; reflexivity|].
  exact (proj1 (proj2 (proj2 (proj2 H)))).
Defined.

(** ** transcribe-meeting: the transfer strategy *)

(** The log of a run only grows. *)
Definition grows {A} (m : M A) : Prop :=
  preserves (fun _ => True) (fun _ => True) m.

Ltac grow := repeat step_with ltac:(exact I) ltac:(intros; exact I).

Lemma grows_log {A} (m : M A) (w : world) :
  grows m -> exists issued, log (snd (m w)) = log w ++ issued.
Proof.
  intros H. destruct (H w w (holds_refl _ _ w I)) as (_ & issued & Hl & _).
  now exists issued.
Qed.

Lemma wait_active_grows (E : env) (fileName : jsstring) (i remaining : nat) :
  grows (TranscribeMeeting.wait_active E fileName i remaining).
Proof.
  unfold grows. revert i. induction remaining as [|k IH]; intros i; simpl.
  - grow.
  - apply preserves_bind; [grow|]. intros checkRes.
    destruct checkRes as [message|[] st txt [message|[s|]]]; try apply IH; grow.
    apply IH.
Qed.

Lemma fetch_then_log {A B} (r : request) (answer : fetched A) (k : fetched A -> M B)
    (w : world) :
  grows (k answer) ->
  exists rest, log (snd (bind (fetch r answer) k w)) = log w ++ r :: rest.
Proof.
  intros Hk. unfold bind, fetch, emit, ret. simpl.
  destruct (grows_log (k answer) {| db := db w; log := log w ++ [r] |} Hk)
    as [rest Hrest].
  exists rest. rewrite Hrest. simpl. now rewrite <- app_assoc.
Qed.

(** The File API path opens with the start of the resumable upload, which
    declares the byte length and the content type. *)
Lemma upload_file_starts (E : env) (meetingId mime : jsstring)
    (audioBytes : list Byte.byte) (w : world) :
  exists displayName rest,
    log (snd (TranscribeMeeting.upload_file E meetingId mime audioBytes w))
    = log w ++ FileApiStart (TranscribeMeeting.byteLength audioBytes) mime displayName
               :: rest.
Proof.
  unfold TranscribeMeeting.upload_file. eexists.
  apply fetch_then_log. unfold grows.
  apply preserves_bind; [grow|]. intros uploadUrl.
  apply preserves_bind; [grow|]. intros uploadRes.
  apply preserves_bind; [grow|]. intros [fileUri fileName].
  apply preserves_bind; [|intros; grow].
  destruct fileName as [n|]; [|grow].
  destruct (truthy n); [|grow]. apply wait_active_grows.
Qed.

(** When the File API path succeeds, its [fileUri] is truthy. *)
Lemma upload_file_uri (E : env) (meetingId mime : jsstring)
    (audioBytes : list Byte.byte) (w w' : world) (fileUri : jsstring) :
  TranscribeMeeting.upload_file E meetingId mime audioBytes w = (inr fileUri, w') ->
  truthy fileUri = true.
Proof.
  unfold TranscribeMeeting.upload_file.
  generalize (TranscribeMeeting.wait_active E). intros wait.
  cbv beta iota delta [bind fetch emit ret throw].
  destruct (file_api_start E _ mime) as [m1|[] st1 t1 [u|]]; try discriminate.
  destruct (truthy u); try discriminate.
  destruct (file_api_upload E u audioBytes)
    as [m2|[] st2 t2 [m3|[uri|] name sfy]]; try discriminate.
  destruct (truthy uri) eqn:Huri; try discriminate.
  destruct name as [n|].
  - destruct (truthy n).
    + destruct (wait n 0%nat 30%nat _) as [[e|[]] w2]; try discriminate.
      intros H. injection H as <- _. exact Huri.
    + intros H. injection H as <- _. exact Huri.
  - intros H. injection H as <- _. exact Huri.
Qed.

(** ** transcribe-meeting: the run up to the request to Gemini *)

(** The [j]-th poll finds the file ACTIVE. *)
Definition active (E : env) (fileName : jsstring) (j : nat) : Prop :=
  exists st txt,
    file_api_poll E fileName j
    = Fetched true st txt (PollState (Some (str "ACTIVE"))).

(** The [j]-th poll comes back with a body that can be read. *)
Definition answered (E : env) (fileName : jsstring) (j : nat) : Prop :=
  exists ok st txt state,
    file_api_poll E fileName j = Fetched ok st txt (PollState state).

(** The [j]-th poll throws: the fetch is rejected, or the body of an [ok]
    response is not JSON. *)
Definition poll_throws (E : env) (fileName : jsstring) (j : nat)
    (message : jsstring) : Prop :=
  file_api_poll E fileName j = FetchThrown message
  \/ exists st txt,
       file_api_poll E fileName j = Fetched true st txt (PollJsonThrown message).

(** The wait for an uploaded file sends [k] polls and nothing else, one at
    least and [remaining] at most; no poll before the last found the file
    ACTIVE; it ends because the last poll threw, because it found the file
    ACTIVE, or because the polls allowed are spent. *)
Lemma wait_active_polls (E : env) (fileName : jsstring) (remaining i : nat)
    (w : world) :
  exists k res,
    (k <= remaining)%nat /\ (remaining <> 0%nat -> k <> 0%nat)
    /\ TranscribeMeeting.wait_active E fileName i remaining w
       = (res, {| db := db w; log := log w ++ repeat (FileApiPoll fileName) k |})
    /\ (forall j, (j + 1 < k)%nat -> ~ active E fileName (i + j))
    /\ ((res = inr tt
         /\ ((k < remaining)%nat -> active E fileName (i + k - 1)))
        \/ exists message,
             res = inl message /\ poll_throws E fileName (i + k - 1) message).
Proof.
  revert i w.
  induction remaining as [|n IH]; intros i w; cbn [TranscribeMeeting.wait_active].
  - exists 0%nat, (inr tt). simpl. rewrite app_nil_r.
    repeat split; try lia; [now destruct w|left; split; [trivial|lia]].
  - unfold bind at 1. unfold fetch, bind, emit, ret.
    assert (Hgo : (forall st' txt', file_api_poll E fileName i
                     <> Fetched true st' txt' (PollState (Some (str "ACTIVE")))) ->
              exists k res,
                (k <= S n)%nat /\ (S n <> 0%nat -> k <> 0%nat)
                /\ TranscribeMeeting.wait_active E fileName (S i) n
                     {| db := db w; log := log w ++ [FileApiPoll fileName] |}
                   = (res, {| db := db w;
                              log := log w ++ repeat (FileApiPoll fileName) k |})
                /\ (forall j, (j + 1 < k)%nat -> ~ active E fileName (i + j))
                /\ ((res = inr tt
                     /\ ((k < S n)%nat -> active E fileName (i + k - 1)))
                    \/ exists message,
                         res = inl message
                         /\ poll_throws E fileName (i + k - 1) message)).
    { intros Hnot.
      destruct (IH (S i) {| db := db w; log := log w ++ [FileApiPoll fileName] |})
        as (k & res & Hk & Hk0 & Heq & Hbefore & Hend).
      exists (S k), res. split; [lia|]. split; [lia|]. split.
      { rewrite Heq. cbn [db log]. now rewrite <- app_assoc. }
      split.
      { intros j Hj. destruct j as [|j].
        - rewrite Nat.add_0_r. intros (st' & txt' & Ha). now apply (Hnot st' txt').
        - replace (i + S j)%nat with (S i + j)%nat by lia. apply Hbefore. lia. }
      destruct Hend as [[Hres Hat]|(message & Hres & Hthrow)].
      - left. split; trivial. intros Hlt.
        replace (i + S k - 1)%nat with (S i + k - 1)%nat by lia. apply Hat. lia.
      - right. exists message. split; trivial.
        destruct n as [|n'].
        + exfalso. cbn [TranscribeMeeting.wait_active] in Heq.
          unfold ret in Heq. rewrite Hres in Heq. discriminate.
        + replace (i + S k - 1)%nat with (S i + k - 1)%nat by lia. exact Hthrow. }
    destruct (file_api_poll E fileName i)
      as [message|[] st txt [message|[s|]]] eqn:H0.
    + cbv beta iota. unfold throw.
      exists 1%nat, (inl message). repeat split; try lia.
      right. exists message. split; trivial.
      replace (i + 1 - 1)%nat with i by lia. now left.
    + cbv beta iota. unfold throw.
      exists 1%nat, (inl message). repeat split; try lia.
      right. exists message. split; trivial.
      replace (i + 1 - 1)%nat with i by lia. right. now exists st, txt.
    + cbv beta iota.
      destruct (Js.eqb s (str "ACTIVE")) eqn:Hs.
      * apply eqb_eq in Hs. subst s.
        exists 1%nat, (inr tt). repeat split; try lia.
        left. split; trivial. intros _.
        replace (i + 1 - 1)%nat with i by lia. now exists st, txt.
      * apply Hgo. intros st' txt' Heq. injection Heq as _ _ Hs'.
        subst s. now rewrite eqb_refl in Hs.
    + apply Hgo. intros st' txt' Heq. discriminate.
    + apply Hgo. intros st' txt' Heq. discriminate.
    + apply Hgo. intros st' txt' Heq. discriminate.
    + apply Hgo. intros st' txt' Heq. discriminate.
Qed.

(** Steps 1 and 2 of a run from [w] succeed: the store serves the two
    calls, the meeting [m] is the one of that id, it has an audio path, and
    the storage holds [audioBytes] there. *)
Definition downloads (E : env) (meetingId : jsstring) (w : world)
    (m : Meeting.row) (audio_path : jsstring) (audioBytes : list Byte.byte)
  : Prop :=
  db_fault E (length (log w)) (SelectMeeting meetingId) = None
  /\ filter (fun x => Js.eqb (Meeting.id x) meetingId) (meetings (db w)) = [m]
  /\ Meeting.audio_path m = Some audio_path
  /\ truthy audio_path = true
  /\ db_fault E (S (length (log w))) (DownloadAudio audio_path) = None
  /\ storage_object E audio_path = Data audioBytes.

(** What step 4 makes of the answer of Gemini: the message it throws, or
    the transcript. *)
Definition transcript_of (res : fetched candidate_text) : jsstring + jsstring :=
  match res with
  | FetchThrown message => inl message
  | Fetched false st resText _ =>
      inl (str "Gemini failed (" ++ of_N st ++ str "): " ++ resText)
  | Fetched true _ _ (CandidateThrown message) => inl message
  | Fetched true _ _ (CandidateText t) => inr t
  end.

(** The requests that follow the one to Gemini: the insert of the segments,
    a status write and, after an upload, the removal of the uploaded file. *)
Definition saving_request (uploaded : bool) (r : request) : bool :=
  match r with
  | InsertTranscripts _ | UpdateMeetingStatus _ _ => true
  | FileApiDelete _ => uploaded
  | _ => false
  end.

(** The requests of the File API path. *)
Definition upload_request (r : request) : bool :=
  match r with
  | FileApiStart _ _ _ | FileApiUpload _ _ | FileApiPoll _ => true
  | _ => false
  end.

Definition is_uploaded (fileUri : option jsstring) : bool :=
  match fileUri with Some u => truthy u | None => false end.

Section TranscribeRun.

Variable E : env.
Variable meetingId : jsstring.
Variable m : Meeting.row.
Variable audio_path : jsstring.
Variable audioBytes : list Byte.byte.

Let mime := TranscribeMeeting.mime_of audio_path.
Let lang := TranscribeMeeting.lang_of (Meeting.language_code m).
Let code := Meeting.language_code m.
Let size := TranscribeMeeting.byteLength audioBytes.
Let gemini (part : audio_part) : request := GenerateTranscription part lang code.
Let fail (message : jsstring) (w : world) : response * world :=
  ({| status := 500; body := BodyError message |},
   {| db := db (snd (attempt (update_status E meetingId failed) w));
      log := log w ++ [UpdateMeetingStatus meetingId failed] |}).

Lemma guarded_throw (body : M response) (w w' : world) (message : jsstring) :
  body w = (inl message, w') ->
  guarded E meetingId failed body w = fail message w'.
Proof.
  intros H. unfold guarded, fail. rewrite H. f_equal.
  unfold attempt, update_status, call. cbn [snd].
  destruct (db_fault E _ _) as [[x|x]|]; reflexivity.
Qed.

(** The run of the stage once the audio is downloaded, by what the transfer
    and Gemini give. *)
Lemma stage_run (w : world) :
  downloads E meetingId w m audio_path audioBytes ->
  let w2 := {| db := db w;
               log := log w ++ [SelectMeeting meetingId; DownloadAudio audio_path] |} in
  TranscribeMeeting.stage E meetingId w
  = match TranscribeMeeting.transfer_audio E meetingId mime audioBytes w2 with
    | (inl message, w3) => fail message w3
    | (inr (fileUri, audioBase64), w3) =>
        let part := TranscribeMeeting.audio_part_of mime fileUri audioBase64 in
        let w4 := {| db := db w3; log := log w3 ++ [gemini part] |} in
        match transcript_of (generate_transcription E part lang code) with
        | inl message => fail message w4
        | inr t =>
            guarded E meetingId failed
              (TranscribeMeeting.save_transcript E meetingId m fileUri t) w4
        end
    end.
Proof.
  intros (H1 & H2 & H3 & H4 & H5 & H6) w2.
  assert (Hbody : TranscribeMeeting.stage_body E meetingId w
                  = bind (bind (TranscribeMeeting.transfer_audio E meetingId mime
                                  audioBytes)
                            (fun tr =>
                               let (fileUri, audioBase64) := tr in
                               let part := TranscribeMeeting.audio_part_of mime
                                             fileUri audioBase64 in
                               res <- fetch (gemini part)
                                        (generate_transcription E part lang code) ;;
                               transcript <-
                                 match res with
                                 | FetchThrown message => throw message
                                 | Fetched false st resText _ =>
                                     throw (str "Gemini failed (" ++ of_N st
                                              ++ str "): " ++ resText)
                                 | Fetched true _ _ (CandidateThrown message) =>
                                     throw message
                                 | Fetched true _ _ (CandidateText t) => ret t
                                 end ;;
                               ret (m, fileUri, transcript)))
                      (fun got =>
                         let '(m0, fileUri, transcript) := got in
                         TranscribeMeeting.save_transcript E meetingId m0 fileUri
                           transcript) w2).
  { unfold TranscribeMeeting.stage_body, TranscribeMeeting.obtain_transcript,
      select_meeting.
    unfold bind at 1. unfold bind at 1.
    unfold call at 1. rewrite H1. cbv beta iota zeta. rewrite H2.
    unfold bind at 1. unfold ret at 1. cbv beta iota.
    rewrite H3, H4. unfold bind at 1. unfold ret at 1. cbv beta iota.
    unfold bind at 1. unfold call at 1. cbn [log db].
    rewrite length_app, Nat.add_1_r. cbn [length]. rewrite H5.
    cbv beta iota zeta. rewrite H6.
    unfold bind at 1. unfold ret at 1. cbv beta iota. cbn [log db].
    unfold w2. rewrite <- app_assoc. reflexivity. }
  unfold TranscribeMeeting.stage.
  destruct (TranscribeMeeting.transfer_audio E meetingId mime audioBytes w2)
    as [[message|[fileUri audioBase64]] w3] eqn:Htr.
  - apply guarded_throw. rewrite Hbody. unfold bind. now rewrite Htr.
  - cbv zeta.
    destruct (generate_transcription E _ lang code)
      as [message|[] st resText [message|t]] eqn:Hgen; cbn [transcript_of].
    + apply guarded_throw. rewrite Hbody. unfold bind at 1. unfold bind at 1.
      rewrite Htr. unfold bind, fetch, emit, ret, throw. now rewrite Hgen.
    + apply guarded_throw. rewrite Hbody. unfold bind at 1. unfold bind at 1.
      rewrite Htr. unfold bind, fetch, emit, ret, throw. now rewrite Hgen.
    + unfold guarded. rewrite Hbody. unfold bind at 1. unfold bind at 1.
      rewrite Htr. unfold bind at 1. unfold bind at 1.
      unfold fetch, bind, emit, ret. rewrite Hgen. reflexivity.
    + apply guarded_throw. rewrite Hbody. unfold bind at 1. unfold bind at 1.
      rewrite Htr. unfold bind, fetch, emit, ret, throw. now rewrite Hgen.
    + apply guarded_throw. rewrite Hbody. unfold bind at 1. unfold bind at 1.
      rewrite Htr. unfold bind, fetch, emit, ret, throw. now rewrite Hgen.
Qed.

End TranscribeRun.

Section TransferLog.

Variable E : env.
Variable meetingId : jsstring.

Lemma save_transcript_requests (m : Meeting.row) (fileUri : option jsstring)
    (t : jsstring) :
  preserves (fun _ => True)
    (fun r => saving_request (is_uploaded fileUri) r = true)
    (TranscribeMeeting.save_transcript E meetingId m fileUri t).
Proof.
  unfold TranscribeMeeting.save_transcript, TranscribeMeeting.insert_segments,
    update_status.
  apply preserves_bind.
  { apply preserves_call; [reflexivity|trivial]. }
  intros insertRes.
  apply preserves_bind; [destruct insertRes; [apply preserves_ret|apply preserves_throw]|].
  intros _.
  apply preserves_bind.
  { apply preserves_call; [reflexivity|trivial]. }
  intros _.
  apply preserves_bind; [|intros _; apply preserves_ret].
  destruct fileUri as [u|]; [|apply preserves_ret].
  destruct (truthy u) eqn:Hu; [|apply preserves_ret].
  apply preserves_attempt, preserves_emit. simpl. exact Hu.
Qed.

(** After the request to Gemini the stage only saves. *)
Lemma guarded_save_requests (m : Meeting.row) (fileUri : option jsstring)
    (t : jsstring) (w : world) :
  exists rest,
    log (snd (guarded E meetingId failed
                (TranscribeMeeting.save_transcript E meetingId m fileUri t) w))
    = log w ++ rest
    /\ Forall (fun r => saving_request (is_uploaded fileUri) r = true) rest.
Proof.
  destruct (guarded_holds E (fun _ => True)
              (fun r => saving_request (is_uploaded fileUri) r = true)
              meetingId failed
              (TranscribeMeeting.save_transcript E meetingId m fileUri t) w)
    as (_ & rest & Hlog & Hall); trivial.
  - apply save_transcript_requests.
  - unfold update_status. apply preserves_call; [reflexivity|trivial].
  - now exists rest.
Qed.

Variable mime : jsstring.
Variable audioBytes : list Byte.byte.

Let size := TranscribeMeeting.byteLength audioBytes.
Let displayName :=
  meetingId ++ (if Js.eqb mime (str "audio/wav") then str ".wav" else str ".m4a").

Lemma upload_file_requests :
  preserves (fun _ => True) (fun r => upload_request r = true)
    (TranscribeMeeting.upload_file E meetingId mime audioBytes).
Proof.
  unfold TranscribeMeeting.upload_file.
  apply preserves_bind; [apply preserves_fetch; reflexivity|]. intros startRes.
  apply preserves_bind.
  { destruct startRes as [x|[] st txt [u|]];
      try apply preserves_throw.
    destruct (truthy u); [apply preserves_ret|apply preserves_throw]. }
  intros uploadUrl.
  apply preserves_bind; [apply preserves_fetch; reflexivity|]. intros uploadRes.
  apply preserves_bind.
  { destruct uploadRes as [x|[] st txt [x|[u|] name sfy]];
      try apply preserves_throw.
    destruct (truthy u); [apply preserves_ret|apply preserves_throw]. }
  intros [fileUri fileName].
  apply preserves_bind; [|intros _; apply preserves_ret].
  assert (Hwait : forall n i k,
             preserves (fun _ => True) (fun r => upload_request r = true)
               (TranscribeMeeting.wait_active E n i k)).
  { intros n i k. revert i. induction k as [|k IH]; intros i; simpl.
    - apply preserves_ret.
    - apply preserves_bind; [apply preserves_fetch; reflexivity|].
      intros checkRes.
      destruct checkRes as [x|[] st txt [x|[s|]]];
        try apply preserves_throw; try apply IH.
      destruct (Js.eqb s (str "ACTIVE")); [apply preserves_ret|apply IH]. }
  destruct fileName as [n|]; [|apply preserves_ret].
  destruct (truthy n); [apply Hwait|apply preserves_ret].
Qed.

(** The first request of the File API path, and the second one when the
    start answers with an upload URL. *)
Lemma upload_file_first (w : world) :
  exists rest,
    log (snd (TranscribeMeeting.upload_file E meetingId mime audioBytes w))
    = log w ++ FileApiStart size mime displayName :: rest
    /\ Forall (fun r => upload_request r = true) rest.
Proof.
  destruct (upload_file_requests w w (holds_refl _ _ w I))
    as (_ & issued & Hlog & Hall).
  destruct (upload_file_starts E meetingId mime audioBytes w)
    as (dn & rest & Hfirst).
  assert (Hdn : dn = displayName).
  { revert Hfirst. unfold TranscribeMeeting.upload_file.
    unfold bind at 1. unfold fetch at 1. unfold bind at 1, emit at 1, ret at 1.
    match goal with
    | |- context [bind ?M ?K ?W] =>
        destruct (grows_log (bind M K) W) as [more Hmore]
    end.
    { unfold grows.
      apply preserves_bind.
      { destruct (file_api_start E _ mime) as [x|[] st txt [u|]];
          try apply preserves_throw.
        destruct (truthy u); [apply preserves_ret|apply preserves_throw]. }
      intros uploadUrl.
      apply preserves_bind; [apply preserves_fetch; exact I|]. intros uploadRes.
      apply preserves_bind.
      { destruct uploadRes as [x|[] st txt [x|[u|] name sfy]];
          try apply preserves_throw.
        destruct (truthy u); [apply preserves_ret|apply preserves_throw]. }
      intros [fileUri fileName].
      apply preserves_bind; [|intros _; apply preserves_ret].
      destruct fileName as [n|]; [|apply preserves_ret].
      destruct (truthy n); [apply wait_active_grows|apply preserves_ret]. }
    rewrite Hmore. cbn [log]. rewrite <- app_assoc. intros Heq.
    apply app_inv_head in Heq. simpl in Heq. now injection Heq as <- _. }
  subst dn. exists rest. split; [exact Hfirst|].
  rewrite Hfirst in Hlog. apply app_inv_head in Hlog. subst issued.
  now inversion Hall.
Qed.

Lemma upload_file_second (w : world) (st1 : N) (t1 u : jsstring) :
  file_api_start E size mime = Fetched true st1 t1 (Some u) -> truthy u = true ->
  exists rest,
    log (snd (TranscribeMeeting.upload_file E meetingId mime audioBytes w))
    = log w ++ FileApiStart size mime displayName :: FileApiUpload u size :: rest.
Proof.
  intros Hstart Hu. unfold TranscribeMeeting.upload_file.
  fold size. fold displayName.
  unfold bind at 1. unfold fetch at 1. unfold bind at 1, emit at 1, ret at 1.
  rewrite Hstart. unfold bind at 1. rewrite Hu. unfold ret at 1.
  match goal with
  | |- context [bind (fetch ?R ?A) ?K ?W] =>
      destruct (fetch_then_log R A K W) as [rest Hrest]
  end.
  { unfold grows. apply preserves_bind.
    { destruct (file_api_upload E u audioBytes)
        as [x|[] st txt [x|[uri|] name sfy]]; try apply preserves_throw.
      destruct (truthy uri); [apply preserves_ret|apply preserves_throw]. }
    intros [fileUri fileName].
    apply preserves_bind; [|intros _; apply preserves_ret].
    destruct fileName as [n|]; [|apply preserves_ret].
    destruct (truthy n); [apply wait_active_grows|apply preserves_ret]. }
  exists rest. rewrite Hrest. cbn [log]. now rewrite <- app_assoc.
Qed.

(** The run of the File API path when the start and the upload succeed. *)
Lemma upload_file_run (w : world) (st1 st2 : N) (t1 t2 u uri sfy : jsstring)
    (name : option jsstring) :
  file_api_start E size mime = Fetched true st1 t1 (Some u) -> truthy u = true ->
  file_api_upload E u audioBytes
  = Fetched true st2 t2 (UploadInfo (Some uri) name sfy) ->
  truthy uri = true ->
  TranscribeMeeting.upload_file E meetingId mime audioBytes w
  = bind (match name with
          | Some n => if truthy n then TranscribeMeeting.wait_active E n 0 30
                      else ret tt
          | None => ret tt
          end)
         (fun _ => ret uri)
         {| db := db w;
            log := log w ++ [FileApiStart size mime displayName;
                             FileApiUpload u size] |}.
Proof.
  intros Hstart Hu Hupload Huri. unfold TranscribeMeeting.upload_file.
  fold size. fold displayName.
  generalize (TranscribeMeeting.wait_active E). intros wait.
  unfold bind at 1. unfold fetch at 1. unfold bind at 1, emit at 1, ret at 1.
  rewrite Hstart. unfold bind at 1. rewrite Hu. unfold ret at 1.
  unfold bind at 1. unfold fetch at 1. unfold bind at 1, emit at 1, ret at 1.
  rewrite Hupload. unfold bind at 1. rewrite Huri. unfold ret at 1.
  cbn [log db]. rewrite <- app_assoc. reflexivity.
Qed.

End TransferLog.

Lemma bind_run {A B} (m : M A) (k : A -> M B) (w w' : world)
    (res : jsstring + A) :
  m w = (res, w') ->
  bind m k w = match res with inr a => k a w' | inl e => (inl e, w') end.
Proof. intros H. unfold bind. rewrite H. now destruct res. Qed.

(** The log of the stage once the audio is downloaded: what the transfer
    sent, then the request to Gemini carrying what the transfer gave, then
    the saving; or, when the transfer threw, the status write of the
    [catch]. *)
Lemma stage_log_after_transfer (E : env) (meetingId : jsstring) (m : Meeting.row)
    (audio_path : jsstring) (audioBytes : list Byte.byte) (w : world) :
  downloads E meetingId w m audio_path audioBytes ->
  let mime := TranscribeMeeting.mime_of audio_path in
  let run := TranscribeMeeting.stage E meetingId w in
  let transfer :=
    TranscribeMeeting.transfer_audio E meetingId mime audioBytes
      {| db := db w;
         log := log w ++ [SelectMeeting meetingId; DownloadAudio audio_path] |} in
  match fst transfer with
  | inl message =>
      log (snd run)
      = log (snd transfer) ++ [UpdateMeetingStatus meetingId failed]
      /\ fst run = {| status := 500; body := BodyError message |}
  | inr (fileUri, audioBase64) =>
      exists rest,
        log (snd run)
        = log (snd transfer)
            ++ GenerateTranscription
                 (TranscribeMeeting.audio_part_of mime fileUri audioBase64)
                 (TranscribeMeeting.lang_of (Meeting.language_code m))
                 (Meeting.language_code m) :: rest
        /\ Forall (fun r => saving_request (is_uploaded fileUri) r = true) rest
  end.
Proof.
  intros Hd mime run transfer. unfold run.
  rewrite (stage_run E meetingId m audio_path audioBytes w Hd).
  fold mime. cbv zeta. fold transfer.
  destruct transfer as [[message|[fileUri audioBase64]] w3]; cbn [fst snd].
  - split; reflexivity.
  - destruct (transcript_of _) as [message|t].
    + exists [UpdateMeetingStatus meetingId failed]. cbn [snd log].
      rewrite <- app_assoc. split; [reflexivity|].
      constructor; [reflexivity|constructor].
    + match goal with
      | |- context [guarded E meetingId failed ?B ?W] =>
          destruct (guarded_save_requests E meetingId m fileUri t W)
            as (rest & Hlog & Hall)
      end.
      exists rest. rewrite Hlog. cbn [log]. rewrite <- app_assoc.
      split; [reflexivity|exact Hall].
Qed.

(** C5. Once a run of the handler has downloaded the audio, the size of the
    payload decides how Gemini gets it. At most [4*1024*1024] bytes (the boundary
    included): the next request is the one to Gemini and it carries the
    base64 text inline; what follows only saves, so no request goes to the
    File API. Strictly more: the next request is the start of the resumable
    upload, declaring the byte length and the content type, and no request
    to Gemini of the run carries inline data; when the start answers with an
    upload URL the bytes are sent there; when the upload answers with a file
    URI and a name, the file is polled by that name, once at least and 30
    times at most, no poll before the last finding it ACTIVE; then either
    the last poll threw and the stage fails, or the polls ended (the file
    ACTIVE, or all 30 spent) and the request to Gemini carries the URI of
    the uploaded file. An upload that names no file is not polled. *)
Theorem C5_transfer_by_payload_size :
  forall (E : env) (req : http_request) (meetingId : jsstring) (w : world)
         (m : Meeting.row) (audio_path : jsstring) (audioBytes : list Byte.byte),
    method req <> str "OPTIONS" -> body_meeting_id req = Some meetingId ->
    meetingId <> [] ->
    downloads E meetingId w m audio_path audioBytes ->
    let mime := TranscribeMeeting.mime_of audio_path in
    let lang := TranscribeMeeting.lang_of (Meeting.language_code m) in
    let code := Meeting.language_code m in
    let size := N.of_nat (length audioBytes) in
    let displayName :=
      meetingId
        ++ (if Js.eqb mime (str "audio/wav") then str ".wav" else str ".m4a") in
    let run := TranscribeMeeting.handler E req w in
    let fetched := [SelectMeeting meetingId; DownloadAudio audio_path] in
    ((size <= 4 * 1024 * 1024)%N ->
     exists rest,
       log (snd run)
       = log w ++ fetched
           ++ GenerateTranscription (InlineData mime (Some (btoa E audioBytes)))
                lang code :: rest
       /\ Forall (fun r => saving_request false r = true) rest)
    /\ ((4 * 1024 * 1024 < size)%N ->
        (exists rest,
            log (snd run)
            = log w ++ fetched ++ FileApiStart size mime displayName :: rest
            /\ forall part l c,
                 In (GenerateTranscription part l c) rest ->
                 exists uri, part = FileData mime uri)
        /\ forall st1 t1 u,
             file_api_start E size mime = Fetched true st1 t1 (Some u) ->
             truthy u = true ->
             (exists rest,
                 log (snd run)
                 = log w ++ fetched
                     ++ FileApiStart size mime displayName
                     :: FileApiUpload u size :: rest)
             /\ forall st2 t2 uri name sfy,
                  file_api_upload E u audioBytes
                  = Fetched true st2 t2 (UploadInfo (Some uri) name sfy) ->
                  truthy uri = true ->
                  (forall n,
                      name = Some n -> truthy n = true ->
                      exists k rest,
                        (1 <= k <= 30)%nat
                        /\ log (snd run)
                           = log w ++ fetched
                               ++ FileApiStart size mime displayName
                               :: FileApiUpload u size
                               :: repeat (FileApiPoll n) k ++ rest
                        /\ (forall j, (j + 1 < k)%nat -> ~ active E n j)
                        /\ ((((k < 30)%nat -> active E n (k - 1))
                             /\ exists rest',
                                  rest = GenerateTranscription (FileData mime uri)
                                           lang code :: rest'
                                  /\ Forall (fun r => saving_request true r = true)
                                            rest')
                            \/ exists message,
                                 poll_throws E n (k - 1) message
                                 /\ rest = [UpdateMeetingStatus meetingId failed]
                                 /\ fst run = {| status := 500;
                                                 body := BodyError message |}))
                  /\ ((forall n, name = Some n -> truthy n = false) ->
                      exists rest,
                        log (snd run)
                        = log w ++ fetched
                            ++ FileApiStart size mime displayName
                            :: FileApiUpload u size
                            :: GenerateTranscription (FileData mime uri) lang code
                            :: rest
                        /\ Forall (fun r => saving_request true r = true) rest)).
Proof.
  intros E req meetingId w m audio_path audioBytes Hmethod Hbody Hid Hd mime lang
    code size displayName run fetched.
  change (N.of_nat (length audioBytes))
    with (TranscribeMeeting.byteLength audioBytes) in size.
  unfold run, TranscribeMeeting.handler.
  rewrite (serve_accepted _ _ _ _ Hmethod Hbody Hid).
  clear run. set (run := TranscribeMeeting.stage E meetingId w).
  pose proof (stage_log_after_transfer E meetingId m audio_path audioBytes w Hd)
    as Hlog.
  cbv zeta in Hlog. fold mime lang code run in Hlog.
  set (w2 := {| db := db w; log := log w ++ fetched |}).
  change {| db := db w;
            log := log w ++ [SelectMeeting meetingId; DownloadAudio audio_path] |}
    with w2 in Hlog.
  split.
  - intros Hle.
    assert (Htr : TranscribeMeeting.transfer_audio E meetingId mime audioBytes w2
                  = (inr (None, Some (btoa E audioBytes)), w2)).
    { unfold TranscribeMeeting.transfer_audio.
      replace (TranscribeMeeting.INLINE_LIMIT <? _)%N with false
        by (symmetry; apply N.ltb_ge; exact Hle).
      reflexivity. }
    rewrite Htr in Hlog. cbn [fst snd] in Hlog.
    destruct Hlog as (rest & Hrest & Hall).
    exists rest. split; [|exact Hall].
    rewrite Hrest. unfold w2. cbn [log]. now rewrite <- app_assoc.
  - intros Hgt.
    assert (Htr : TranscribeMeeting.transfer_audio E meetingId mime audioBytes w2
                  = bind (TranscribeMeeting.upload_file E meetingId mime audioBytes)
                         (fun fileUri => ret (Some fileUri, None)) w2).
    { unfold TranscribeMeeting.transfer_audio.
      replace (TranscribeMeeting.INLINE_LIMIT <? _)%N with true
        by (symmetry; apply N.ltb_lt; exact Hgt).
      reflexivity. }
    rewrite Htr in Hlog. unfold bind, ret in Hlog.
    (* what the stage logs after the upload *)
    assert (Hafter :
              forall res w3,
                TranscribeMeeting.upload_file E meetingId mime audioBytes w2
                = (res, w3) ->
                match res with
                | inl message =>
                    log (snd run) = log w3 ++ [UpdateMeetingStatus meetingId failed]
                    /\ fst run = {| status := 500; body := BodyError message |}
                | inr uri =>
                    exists rest,
                      log (snd run)
                      = log w3 ++ GenerateTranscription (FileData mime uri) lang code
                                  :: rest
                      /\ Forall (fun r => saving_request true r = true) rest
                end).
    { intros res w3 Hup. rewrite Hup in Hlog.
      destruct res as [message|uri]; cbn [fst snd] in Hlog; [exact Hlog|].
      pose proof (upload_file_uri _ _ _ _ _ _ _ Hup) as Huri.
      cbn [TranscribeMeeting.audio_part_of is_uploaded] in Hlog.
      rewrite Huri in Hlog. exact Hlog. }
    split.
    { destruct (upload_file_first E meetingId mime audioBytes w2)
        as (rest & Hfirst & Hall).
      destruct (TranscribeMeeting.upload_file E meetingId mime audioBytes w2)
        as [[message|uri] w3] eqn:Hup; cbn [snd] in Hfirst;
        specialize (Hafter _ _ eq_refl).
      - destruct Hafter as [Hl _].
        exists (rest ++ [UpdateMeetingStatus meetingId failed]). split.
        + rewrite Hl, Hfirst. unfold w2. cbn [log].
          rewrite <- !app_assoc. reflexivity.
        + intros part l c Hin. apply in_app_or in Hin as [Hin|[Hin|[]]];
            [|discriminate].
          rewrite Forall_forall in Hall. specialize (Hall _ Hin). discriminate.
      - destruct Hafter as (rest' & Hl & Hsave).
        exists (rest ++ GenerateTranscription (FileData mime uri) lang code :: rest').
        split.
        + rewrite Hl, Hfirst. unfold w2. cbn [log].
          rewrite <- !app_assoc. reflexivity.
        + intros part l c Hin. apply in_app_or in Hin as [Hin|[Hin|Hin]].
          * rewrite Forall_forall in Hall. specialize (Hall _ Hin). discriminate.
          * injection Hin as <- _ _. now exists uri.
          * rewrite Forall_forall in Hsave. specialize (Hsave _ Hin).
            discriminate. }
    intros st1 t1 u Hstart Hu. split.
    { destruct (upload_file_second E meetingId mime audioBytes w2 st1 t1 u
                  Hstart Hu) as (rest & Hsecond).
      destruct (TranscribeMeeting.upload_file E meetingId mime audioBytes w2)
        as [[message|uri] w3] eqn:Hup; cbn [snd] in Hsecond;
        specialize (Hafter _ _ eq_refl).
      - destruct Hafter as [Hl _]. eexists.
        rewrite Hl, Hsecond. unfold w2. cbn [log].
        rewrite <- !app_assoc. reflexivity.
      - destruct Hafter as (rest' & Hl & _). eexists.
        rewrite Hl, Hsecond. unfold w2. cbn [log].
        rewrite <- !app_assoc. reflexivity. }
    intros st2 t2 uri name sfy Hupload Huri.
    pose proof (upload_file_run E meetingId mime audioBytes w2 st1 st2 t1 t2 u uri
                  sfy name Hstart Hu Hupload Huri) as Hrun.
    split.
    + intros n -> Hn. rewrite Hn in Hrun.
      match type of Hrun with
      | _ = bind _ _ ?W =>
          destruct (wait_active_polls E n 30 0 W)
            as (k & res & Hk & Hk0 & Hwait & Hbefore & Hend)
      end.
      pose proof (eq_trans Hrun (bind_run _ _ _ _ _ Hwait)) as Hup.
      destruct Hend as [[-> Hat]|(message & -> & Hthrow)].
      * specialize (Hafter _ _ Hup).
        destruct Hafter as (rest' & Hl & Hsave).
        exists k, (GenerateTranscription (FileData mime uri) lang code :: rest').
        split; [lia|]. split.
        { rewrite Hl. unfold w2. cbn [log]. rewrite <- !app_assoc. reflexivity. }
        split; [exact Hbefore|]. left. split.
        { intros Hlt. exact (Hat Hlt). }
        exists rest'. split; [reflexivity|exact Hsave].
      * specialize (Hafter _ _ Hup). destruct Hafter as [Hl Hfst].
        exists k, [UpdateMeetingStatus meetingId failed].
        split; [lia|]. split.
        { rewrite Hl. unfold w2. cbn [log]. rewrite <- !app_assoc. reflexivity. }
        split; [exact Hbefore|]. right. exists message.
        split; [exact Hthrow|]. split; [reflexivity|exact Hfst].
    + intros Hname.
      assert (Hskip : TranscribeMeeting.upload_file E meetingId mime audioBytes w2
                      = (inr uri,
                         {| db := db w2;
                            log := log w2 ++ [FileApiStart size mime displayName;
                                              FileApiUpload u size] |})).
      { rewrite Hrun. destruct name as [n|]; [|reflexivity].
        now rewrite (Hname n eq_refl). }
      specialize (Hafter _ _ Hskip). destruct Hafter as (rest' & Hl & Hsave).
      exists rest'. split; [|exact Hsave].
      rewrite Hl. unfold w2. cbn [log]. rewrite <- !app_assoc. reflexivity.
Qed.

(** An audio file of [n] bytes. *)
Definition blank_audio (n : N) : list Byte.byte := repeat Byte.x00 (N.to_nat n).

(** The storage holds an audio file of [n] bytes; the File API takes an
    upload and reports the file ACTIVE at the third poll; Gemini answers
    with a transcript. *)
Definition holding (n : N) : env :=
  {| db_fault := db_fault quiet;
     single_error := single_error quiet;
     gen_random_uuid := gen_random_uuid quiet;
     storage_object := fun _ => Data (blank_audio n);
     file_api_start := fun _ _ => Fetched true 200 [] (Some (str "https://upload/1"));
     file_api_upload :=
       fun _ _ => Fetched true 200 []
                    (UploadInfo (Some (str "https://files/a1"))
                                (Some (str "files/a1")) []);
     file_api_poll :=
       fun _ j => Fetched true 200 []
                    (PollState (Some (if (j <? 2)%nat then str "PROCESSING"
                                      else str "ACTIVE")));
     generate_transcription :=
       fun _ _ _ => Fetched true 200 [] (CandidateText (str "Speaker 1: Hello"));
     generate_analysis := generate_analysis quiet;
     embed_content := embed_content quiet;
     search_nodes := search_nodes quiet;
     btoa := btoa quiet;
     JSON_parse := JSON_parse quiet |}.

Lemma blank_audio_size (n : N) : N.of_nat (length (blank_audio n)) = n.
Proof. unfold blank_audio. rewrite repeat_length. apply N2Nat.id. Qed.

Lemma blank_audio_downloads (n : N) :
  downloads (holding n) (str "m1")
    (world_of [a_meeting processing (Some (str "u1/m1.m4a"))])
    (a_meeting processing (Some (str "u1/m1.m4a"))) (str "u1/m1.m4a")
    (blank_audio n).
Proof. repeat split. Qed.

(** Exactly 4 MB goes inline; one byte more is uploaded, polled three times
    and handed to Gemini as a file. *)
Lemma C5_transfer_witness :
  (exists rest,
      log (snd (TranscribeMeeting.handler (holding (4 * 1024 * 1024))
                  (post (str "m1"))
                  (world_of [a_meeting processing (Some (str "u1/m1.m4a"))])))
      = [SelectMeeting (str "m1"); DownloadAudio (str "u1/m1.m4a");
         GenerateTranscription
           (InlineData (str "audio/mp4")
              (Some (btoa (holding (4 * 1024 * 1024))
                          (blank_audio (4 * 1024 * 1024)))))
           (str "English") (str "en-US")] ++ rest)
  /\ (exists rest,
         log (snd (TranscribeMeeting.handler (holding (4 * 1024 * 1024 + 1))
                     (post (str "m1"))
                     (world_of [a_meeting processing (Some (str "u1/m1.m4a"))])))
         = [SelectMeeting (str "m1"); DownloadAudio (str "u1/m1.m4a");
            FileApiStart (4 * 1024 * 1024 + 1) (str "audio/mp4") (str "m1.m4a");
            FileApiUpload (str "https://upload/1") (4 * 1024 * 1024 + 1);
            FileApiPoll (str "files/a1"); FileApiPoll (str "files/a1");
            FileApiPoll (str "files/a1");
            GenerateTranscription
              (FileData (str "audio/mp4") (str "https://files/a1"))
              (str "English") (str "en-US")] ++ rest).
Proof.
  split.
  - destruct (proj1 (C5_transfer_by_payload_size (holding (4 * 1024 * 1024))
                       (post (str "m1")) (str "m1") _ _ _ _
                       ltac:(discriminate) eq_refl ltac:(discriminate)
                       (blank_audio_downloads (4 * 1024 * 1024))))
      as (rest & Hlog & _).
    { rewrite blank_audio_size. apply N.le_refl. }
    exists rest. exact Hlog.
  - destruct (proj2 (C5_transfer_by_payload_size
                       (holding (4 * 1024 * 1024 + 1))
                       (post (str "m1")) (str "m1") _ _ _ _
                       ltac:(discriminate) eq_refl ltac:(discriminate)
                       (blank_audio_downloads (4 * 1024 * 1024 + 1))))
      as (_ & Hpath).
    { rewrite blank_audio_size. reflexivity. }
    destruct (Hpath 200%N [] (str "https://upload/1") eq_refl eq_refl)
      as (_ & Hupload).
    destruct (Hupload 200%N [] (str "https://files/a1") (Some (str "files/a1")) []
                eq_refl eq_refl) as (Hpolled & _).
    destruct (Hpolled (str "files/a1") eq_refl eq_refl)
      as (k & rest & Hk & Hlog & Hbefore & Hend).
    assert (Hactive : active (holding (4 * 1024 * 1024 + 1)) (str "files/a1") 2).
    { exists 200%N, []. reflexivity. }
    assert (Hnot : forall j, (j < 2)%nat ->
                   ~ active (holding (4 * 1024 * 1024 + 1)) (str "files/a1") j).
    { intros j Hj (st & txt & H). cbn [file_api_poll holding] in H.
      destruct j as [|[|j]]; [discriminate H|discriminate H|lia]. }
    destruct Hend as [(Hat & rest' & -> & _)|(message & [H|(st & txt & H)] & _)];
      [|discriminate H|discriminate H].
    assert (Hk3 : k = 3%nat).
    { destruct (Nat.lt_trichotomy k 3) as [Hlt|[Heq|Hgt]]; trivial.
      - exfalso. apply (Hnot (k - 1)%nat); [lia|]. apply Hat. lia.
      - exfalso. apply (Hbefore 2%nat); [lia|exact Hactive]. }
    subst k. rewrite blank_audio_size in Hlog.
    exists rest'. exact Hlog.
Defined.

(** ** transcribe-meeting: the saving steps *)

(** A status write on the meeting, or the removal of an uploaded file. *)
Definition closing_request (meetingId : jsstring) (r : request) : Prop :=
  (exists st, r = UpdateMeetingStatus meetingId st)
  \/ exists name, r = FileApiDelete name.

(** The transfer only talks to the File API: it leaves the tables alone. *)
Lemma transfer_audio_requests (E : env) (meetingId mime : jsstring)
    (audioBytes : list Byte.byte) (d : database) :
  preserves (fun x => x = d) (fun r => upload_request r = true)
    (TranscribeMeeting.transfer_audio E meetingId mime audioBytes).
Proof.
  assert (Hwait : forall n i k,
             preserves (fun x => x = d) (fun r => upload_request r = true)
               (TranscribeMeeting.wait_active E n i k)).
  { intros n i k. revert i. induction k as [|k IH]; intros i; simpl.
    - apply preserves_ret.
    - apply preserves_bind; [apply preserves_fetch; reflexivity|].
      intros checkRes.
      destruct checkRes as [x|[] st txt [x|[s|]]];
        try apply preserves_throw; try apply IH.
      destruct (Js.eqb s (str "ACTIVE")); [apply preserves_ret|apply IH]. }
  unfold TranscribeMeeting.transfer_audio.
  destruct (_ <? _)%N; [|apply preserves_ret].
  apply preserves_bind; [|intros fileUri; apply preserves_ret].
  unfold TranscribeMeeting.upload_file.
  apply preserves_bind; [apply preserves_fetch; reflexivity|]. intros startRes.
  apply preserves_bind.
  { destruct startRes as [x|[] st txt [u|]];
      try apply preserves_throw.
    destruct (truthy u); [apply preserves_ret|apply preserves_throw]. }
  intros uploadUrl.
  apply preserves_bind; [apply preserves_fetch; reflexivity|]. intros uploadRes.
  apply preserves_bind.
  { destruct uploadRes as [x|[] st txt [x|[u|] name sfy]];
      try apply preserves_throw.
    destruct (truthy u); [apply preserves_ret|apply preserves_throw]. }
  intros [fileUri fileName].
  apply preserves_bind; [|intros _; apply preserves_ret].
  destruct fileName as [n|]; [|apply preserves_ret].
  destruct (truthy n); [apply Hwait|apply preserves_ret].
Qed.

Ltac closing :=
  repeat (apply Forall_cons;
          [first [left; eexists; reflexivity | right; eexists; reflexivity]|]);
  apply Forall_nil.

(** Steps 5 to 7 under the [catch], from the world [w] in which Gemini has
    answered [transcript]: the first request is the insert of the parsed
    segments, in one batch; what follows writes a status or removes the
    uploaded file. The batch is added to the transcripts when the store
    serves the insert, and nothing is added when it does not. With the
    store serving every call the answer is 200 with the segment count. *)
Lemma guarded_save_run (E : env) (meetingId : jsstring) (m : Meeting.row)
    (fileUri : option jsstring) (transcript : jsstring) (w : world) :
  let segments :=
    parse_transcript meetingId (Meeting.language_code m) transcript in
  let run :=
    guarded E meetingId failed
      (TranscribeMeeting.save_transcript E meetingId m fileUri transcript) w in
  (exists rest,
      log (snd run) = log w ++ InsertTranscripts segments :: rest
      /\ Forall (closing_request meetingId) rest)
  /\ (db_fault E (length (log w)) (InsertTranscripts segments) = None ->
      transcripts (db (snd run)) = transcripts (db w) ++ segments)
  /\ (db_fault E (length (log w)) (InsertTranscripts segments) <> None ->
      transcripts (db (snd run)) = transcripts (db w)
      /\ exists message,
           fst run = {| status := 500; body := BodyError message |})
  /\ ((forall n r, db_fault E n r = None) ->
      fst run = {| status := 200; body := BodyTranscribed (length segments) |}
      /\ forall x, In x (meetings (db (snd run))) -> Meeting.id x = meetingId ->
                   Meeting.status x = analyzing).
Proof.
  intros segments run. unfold run, guarded, TranscribeMeeting.save_transcript.
  fold segments.
  unfold TranscribeMeeting.insert_segments, update_status, attempt.
  cbv beta iota zeta delta [bind call ret throw emit].
  destruct (db_fault E (length (log w)) (InsertTranscripts segments))
    as [[message|message]|] eqn:Hins; cbv beta iota zeta; cbn [fst snd db log].
  - (* the insert is rejected *)
    destruct (db_fault E _ (UpdateMeetingStatus meetingId failed)) as [[x|x]|];
      cbn [fst snd db log transcripts set_meetings];
      (split; [eexists; rewrite <- ?app_assoc; split;
               [reflexivity|closing]|]);
      (split; [discriminate|]);
      (split; [intros _; split; [reflexivity|eexists; reflexivity]|]);
      intros Hs; rewrite Hs in Hins; discriminate.
  - (* the insert throws *)
    destruct (db_fault E _ (UpdateMeetingStatus meetingId failed)) as [[x|x]|];
      cbn [fst snd db log transcripts set_meetings];
      (split; [eexists; rewrite <- ?app_assoc; split;
               [reflexivity|closing]|]);
      (split; [discriminate|]);
      (split; [intros _; split; [reflexivity|eexists; reflexivity]|]);
      intros Hs; rewrite Hs in Hins; discriminate.
  - (* the insert is served *)
    destruct (db_fault E _ (UpdateMeetingStatus meetingId analyzing))
      as [[x|x]|] eqn:Hup; cbv beta iota zeta; cbn [fst snd db log].
    + destruct fileUri as [u|]; [destruct (truthy u)|];
        cbn [fst snd db log transcripts set_meetings];
        (split; [eexists; rewrite <- ?app_assoc; split;
                 [reflexivity|closing]|]);
        (split; [reflexivity|]);
        (split; [intros H; now elim H|]);
        intros Hs; rewrite Hs in Hup; discriminate.
    + destruct (db_fault E _ (UpdateMeetingStatus meetingId failed)) as [[y|y]|];
        cbn [fst snd db log transcripts set_meetings];
        (split; [eexists; rewrite <- ?app_assoc; split;
                 [reflexivity|closing]|]);
        (split; [reflexivity|]);
        (split; [intros H; now elim H|]);
        intros Hs; rewrite Hs in Hup; discriminate.
    + destruct fileUri as [u|]; [destruct (truthy u)|];
        cbn [fst snd db log transcripts meetings set_meetings];
        (split; [eexists; rewrite <- ?app_assoc; split;
                 [reflexivity|closing]|]);
        (split; [reflexivity|]);
        (split; [intros H; now elim H|]);
        intros _; (split; [reflexivity|]);
        intros x Hx Hid; exact (set_status_sets _ _ _ _ Hx Hid).
Qed.

(** C7. When Gemini answers a transcript that is empty after trimming, or is
    exactly [[inaudible]] after trimming, the run of the handler persists one
    segment only: parsing gives the one segment with the text
    [[No speech detected in this recording]] and a null speaker label; the
    request that follows the one to Gemini is the insert of that one
    segment, and it is the only insert of the run (before it the run reads
    the meeting, downloads the audio and talks to the File API, after it the
    run writes a status or removes the uploaded file). When the store serves
    the insert the transcripts are those of before and that one row; when it
    does not they are those of before. With the store serving every call
    the answer is 200 with a segment count of 1. *)
Theorem C7_silent_transcript_one_sentinel_segment :
  forall (E : env) (req : http_request) (meetingId : jsstring) (w : world)
         (m : Meeting.row) (audio_path : jsstring) (audioBytes : list Byte.byte)
         (fileUri audioBase64 : option jsstring) (w3 : world)
         (st : N) (resText transcript : jsstring),
    method req <> str "OPTIONS" -> body_meeting_id req = Some meetingId ->
    meetingId <> [] ->
    downloads E meetingId w m audio_path audioBytes ->
    let mime := TranscribeMeeting.mime_of audio_path in
    let asked :=
      GenerateTranscription
        (TranscribeMeeting.audio_part_of mime fileUri audioBase64)
        (TranscribeMeeting.lang_of (Meeting.language_code m))
        (Meeting.language_code m) in
    TranscribeMeeting.transfer_audio E meetingId mime audioBytes
      {| db := db w;
         log := log w ++ [SelectMeeting meetingId; DownloadAudio audio_path] |}
    = (inr (fileUri, audioBase64), w3) ->
    generate_transcription E
      (TranscribeMeeting.audio_part_of mime fileUri audioBase64)
      (TranscribeMeeting.lang_of (Meeting.language_code m))
      (Meeting.language_code m)
    = Fetched true st resText (CandidateText transcript) ->
    trim transcript = [] \/ trim transcript = str "[inaudible]" ->
    let sentinel :=
      {| Transcript.meeting_id := meetingId;
         Transcript.speaker_label := None;
         Transcript.text := str "[No speech detected in this recording]";
         Transcript.start_seconds := 0; Transcript.end_seconds := 0;
         Transcript.confidence := None;
         Transcript.language := Meeting.language_code m |} in
    let run := TranscribeMeeting.handler E req w in
    parse_transcript meetingId (Meeting.language_code m) transcript = [sentinel]
    /\ (exists sent rest,
          log (snd run)
          = log w ++ [SelectMeeting meetingId; DownloadAudio audio_path]
              ++ sent ++ asked :: InsertTranscripts [sentinel] :: rest
          /\ Forall (fun r => upload_request r = true) sent
          /\ Forall (closing_request meetingId) rest)
    /\ (db_fault E (S (length (log w3))) (InsertTranscripts [sentinel]) = None ->
        transcripts (db (snd run)) = transcripts (db w) ++ [sentinel])
    /\ (db_fault E (S (length (log w3))) (InsertTranscripts [sentinel]) <> None ->
        transcripts (db (snd run)) = transcripts (db w))
    /\ ((forall n r, db_fault E n r = None) ->
        fst run = {| status := 200; body := BodyTranscribed 1 |}
        /\ transcripts (db (snd run)) = transcripts (db w) ++ [sentinel]).
Proof.
  intros E req meetingId w m audio_path audioBytes fileUri audioBase64 w3 st
    resText transcript Hmethod Hbody Hid Hd mime asked Htr Hgen Hsilent sentinel
    run.
  assert (Hs : parse_transcript meetingId (Meeting.language_code m) transcript
               = [sentinel])
    by (apply parse_transcript_silent; exact Hsilent).
  split; [exact Hs|].
  unfold run, TranscribeMeeting.handler.
  rewrite (serve_accepted _ _ _ _ Hmethod Hbody Hid).
  rewrite (stage_run E meetingId m audio_path audioBytes w Hd).
  fold mime. cbv zeta. rewrite Htr, Hgen. cbn [transcript_of].
  destruct (transfer_audio_requests E meetingId mime audioBytes (db w)
              {| db := db w;
                 log := log w ++ [SelectMeeting meetingId;
                                  DownloadAudio audio_path] |}
              {| db := db w;
                 log := log w ++ [SelectMeeting meetingId;
                                  DownloadAudio audio_path] |})
    as (Hdb & sent & Hsent & Hall).
  { apply holds_refl. reflexivity. }
  rewrite Htr in Hdb, Hsent. cbn [snd log] in Hdb, Hsent.
  match goal with
  | |- context [guarded E meetingId failed _ ?W] =>
      pose proof (guarded_save_run E meetingId m fileUri transcript W) as Hsave
  end.
  cbv zeta in Hsave. rewrite Hs in Hsave. cbn [log db] in Hsave.
  fold asked in Hsave. fold asked.
  replace (length (log w3 ++ [asked])) with (S (length (log w3))) in Hsave
    by (rewrite length_app, Nat.add_1_r; reflexivity).
  destruct Hsave as ((rest & Hlog & Hrest) & Hserved & Hfault & Hall200).
  split.
  { exists sent, rest. split; [|split; trivial].
    rewrite Hlog, Hsent. rewrite <- !app_assoc. reflexivity. }
  rewrite <- Hdb.
  split; [exact Hserved|]. split.
  { intros Hf. exact (proj1 (Hfault Hf)). }
  intros Hev. split; [exact (proj1 (Hall200 Hev))|].
  apply Hserved. apply Hev.
Qed.

(** A short recording on which Gemini hears nothing. *)
Definition silent_recording : env :=
  {| db_fault := db_fault quiet;
     single_error := single_error quiet;
     gen_random_uuid := gen_random_uuid quiet;
     storage_object := fun _ => Data [Byte.x52; Byte.x49; Byte.x46];
     file_api_start := file_api_start quiet;
     file_api_upload := file_api_upload quiet;
     file_api_poll := file_api_poll quiet;
     generate_transcription :=
       fun _ _ _ => Fetched true 200 [] (CandidateText (str "  [inaudible] "));
     generate_analysis := generate_analysis quiet;
     embed_content := embed_content quiet;
     search_nodes := search_nodes quiet;
     btoa := btoa quiet;
     JSON_parse := JSON_parse quiet |}.

Lemma C7_silent_transcript_witness :
  fst (TranscribeMeeting.handler silent_recording (post (str "m1"))
         (world_of [a_meeting processing (Some (str "u1/m1.m4a"))]))
  = {| status := 200; body := BodyTranscribed 1 |}
  /\ transcripts
       (db (snd (TranscribeMeeting.handler silent_recording (post (str "m1"))
                   (world_of [a_meeting processing (Some (str "u1/m1.m4a"))]))))
     = [new_segment (str "m1") (str "en-US") None
          (str "[No speech detected in this recording]")].
Proof.
  apply (C7_silent_transcript_one_sentinel_segment silent_recording
           (post (str "m1")) (str "m1")
           (world_of [a_meeting processing (Some (str "u1/m1.m4a"))])
           (a_meeting processing (Some (str "u1/m1.m4a")))
           (str "u1/m1.m4a") [Byte.x52; Byte.x49; Byte.x46]
           None (Some (btoa silent_recording [Byte.x52; Byte.x49; Byte.x46]))
           {| db := db (world_of [a_meeting processing (Some (str "u1/m1.m4a"))]);
              log := [SelectMeeting (str "m1"); DownloadAudio (str "u1/m1.m4a")] |}
           200%N [] (str "  [inaudible] ")).
  - discriminate.
  - reflexivity.
  - discriminate.
  - repeat split.
  - reflexivity.
  - reflexivity.
  - right. reflexivity.
  - intros n r. reflexivity.
Defined.

(** ** analyze-meeting: the parsed analysis and the note *)

Lemma or_string_nonempty (x : option jsstring) (dflt : jsstring) :
  dflt <> [] -> AnalyzeMeeting.or_string x dflt <> [].
Proof.
  intros Hd. unfold AnalyzeMeeting.or_string.
  destruct x as [s|]; trivial.
  destruct (truthy s) eqn:Hs; trivial. now apply truthy_true.
Qed.

Lemma note_summary_nonempty (meetingId : jsstring) (analysis : Analysis.t) :
  MeetingNote.summary (AnalyzeMeeting.note_of meetingId analysis) <> [].
Proof. simpl. apply or_string_nonempty. discriminate. Qed.

Lemma upsert_in (r n : MeetingNote.row) (rows : list MeetingNote.row) :
  In n (AnalyzeMeeting.upsert r rows) -> n = r \/ In n rows.
Proof.
  induction rows as [|x rows IH]; simpl.
  - intros [H|[]]. now left.
  - destruct (Js.eqb (MeetingNote.meeting_id x) (MeetingNote.meeting_id r)).
    + intros [H|H]; auto.
    + intros [H|H]; auto. destruct (IH H); auto.
Qed.

Section NoteSummaries.

Variable E : env.
Variable before : list MeetingNote.row.

(** Every note is one that was there before or has a summary. *)
Definition notes_db (d : database) : Prop :=
  forall n, In n (meeting_notes d) -> In n before \/ MeetingNote.summary n <> [].

(** Every note sent to the store has a summary. *)
Definition notes_req (r : request) : Prop :=
  forall n, r = UpsertMeetingNote n -> MeetingNote.summary n <> [].

Ltac note_req :=
  let H := fresh "H" in
  intros ? H;
  first [ discriminate H
        | injection H as <-; apply note_summary_nonempty ].

Ltac note_tables :=
  let d := fresh "d" in let H := fresh "H" in
  intros d H; unfold notes_db in *; simpl;
  first [ exact H
        | let n := fresh "n" in let Hn := fresh "Hn" in
          intros n Hn; apply upsert_in in Hn as [->|Hn];
          [ right; apply note_summary_nonempty | now apply H ] ].

Lemma persist_notes (meetingId : jsstring) (analysis : Analysis.t) :
  preserves notes_db notes_req (AnalyzeMeeting.persist E meetingId analysis).
Proof.
  unfold AnalyzeMeeting.persist, AnalyzeMeeting.upsert_note,
    AnalyzeMeeting.insert_action_items.
  repeat step_with note_req note_tables.
Qed.

Lemma analyze_body_notes (meetingId : jsstring) :
  preserves notes_db notes_req (AnalyzeMeeting.stage_body E meetingId).
Proof.
  unfold AnalyzeMeeting.stage_body.
  apply preserves_bind; [repeat step_with note_req note_tables|]. intros r.
  apply preserves_bind; [repeat step_with note_req note_tables|]. intros [first rows].
  apply preserves_bind; [repeat step_with note_req note_tables|]. intros res.
  apply preserves_bind; [repeat step_with note_req note_tables|]. intros rawText.
  destruct (AnalyzeMeeting.parse_analysis E rawText) as [analysis|].
  - apply persist_notes.
  - apply preserves_throw.
Qed.

Lemma analyze_stage_notes (meetingId : jsstring) (w : world) :
  meeting_notes (db w) = before ->
  holds notes_db notes_req w (snd (AnalyzeMeeting.stage E meetingId w)).
Proof.
  intros Hw. apply guarded_holds.
  - apply analyze_body_notes.
  - repeat step_with note_req note_tables.
  - intros n Hn. left. now rewrite <- Hw.
Qed.

End NoteSummaries.

(** ** analyze-meeting: the persistence steps *)

(** What follows the upsert of the note: the insert of the action items, or
    a status write on the meeting. *)
Definition after_note (meetingId : jsstring) (r : request) : Prop :=
  (exists st, r = UpdateMeetingStatus meetingId st)
  \/ exists items, r = InsertActionItems items.

Ltac after_note_requests :=
  repeat (apply Forall_cons;
          [first [left; eexists; reflexivity | right; eexists; reflexivity]|]);
  apply Forall_nil.

Lemma upsert_has (r : MeetingNote.row) (rows : list MeetingNote.row) :
  In r (AnalyzeMeeting.upsert r rows).
Proof.
  induction rows as [|x rows IH]; simpl; auto.
  destruct (Js.eqb _ _); simpl; auto.
Qed.

(** Steps 4 to 6 under the [catch], from the world [w] in which the analysis
    is parsed: the first request is the upsert of the note made of the
    analysis; what follows inserts the action items or writes a status.
    The note is upserted when the store serves that request, and the notes
    and the action items stay as they were when it does not. With the store
    serving every call the answer is 200, the action items of the analysis
    are added and the meeting is [linking]. *)
Lemma guarded_persist_run (E : env) (meetingId : jsstring) (analysis : Analysis.t)
    (w : world) :
  let note := AnalyzeMeeting.note_of meetingId analysis in
  let items :=
    map (AnalyzeMeeting.action_item_of meetingId)
        (AnalyzeMeeting.or_empty (Analysis.action_items analysis)) in
  let run :=
    guarded E meetingId failed (AnalyzeMeeting.persist E meetingId analysis) w in
  (exists rest,
      log (snd run) = log w ++ UpsertMeetingNote note :: rest
      /\ Forall (after_note meetingId) rest)
  /\ (db_fault E (length (log w)) (UpsertMeetingNote note) = None ->
      meeting_notes (db (snd run))
      = AnalyzeMeeting.upsert note (meeting_notes (db w)))
  /\ (db_fault E (length (log w)) (UpsertMeetingNote note) <> None ->
      meeting_notes (db (snd run)) = meeting_notes (db w)
      /\ action_items (db (snd run)) = action_items (db w)
      /\ exists message,
           fst run = {| status := 500; body := BodyError message |})
  /\ ((forall n r, db_fault E n r = None) ->
      fst run
      = {| status := 200;
           body := BodyAnalyzed
                     (length (AnalyzeMeeting.or_string (Analysis.summary analysis) []))
                     (length items)
                     (length (AnalyzeMeeting.or_empty (Analysis.decisions analysis))) |}
      /\ action_items (db (snd run)) = action_items (db w) ++ items
      /\ forall x, In x (meetings (db (snd run))) -> Meeting.id x = meetingId ->
                   Meeting.status x = linking).
Proof.
  intros note items run. unfold run, guarded, AnalyzeMeeting.persist.
  fold note. fold items.
  unfold AnalyzeMeeting.upsert_note, AnalyzeMeeting.insert_action_items,
    update_status, attempt.
  cbv beta iota zeta delta [bind call ret throw].
  destruct (db_fault E (length (log w)) (UpsertMeetingNote note))
    as [[message|message]|] eqn:Hnote; cbv beta iota zeta; cbn [fst snd db log].
  - destruct (db_fault E _ (UpdateMeetingStatus meetingId failed)) as [[x|x]|];
      cbn [fst snd db log meeting_notes action_items set_meetings];
      (split; [eexists; rewrite <- ?app_assoc; split;
               [reflexivity|after_note_requests]|]);
      (split; [discriminate|]);
      (split; [intros _; split; [reflexivity|split;
                                  [reflexivity|eexists; reflexivity]]|]);
      intros Hs; rewrite Hs in Hnote; discriminate.
  - destruct (db_fault E _ (UpdateMeetingStatus meetingId failed)) as [[x|x]|];
      cbn [fst snd db log meeting_notes action_items set_meetings];
      (split; [eexists; rewrite <- ?app_assoc; split;
               [reflexivity|after_note_requests]|]);
      (split; [discriminate|]);
      (split; [intros _; split; [reflexivity|split;
                                  [reflexivity|eexists; reflexivity]]|]);
      intros Hs; rewrite Hs in Hnote; discriminate.
  - destruct items as [|item items'] eqn:Hitems.
    + cbv beta iota zeta.
      destruct (db_fault E _ (UpdateMeetingStatus meetingId linking))
        as [[x|x]|] eqn:Hup; cbv beta iota zeta; cbn [fst snd db log].
      * split; [eexists; rewrite <- ?app_assoc; split;
                [reflexivity|after_note_requests]|].
        split; [reflexivity|]. split; [intros H; now elim H|].
        intros Hs. rewrite Hs in Hup. discriminate.
      * destruct (db_fault E _ (UpdateMeetingStatus meetingId failed))
          as [[y|y]|];
          cbn [fst snd db log meeting_notes action_items set_meetings];
          (split; [eexists; rewrite <- ?app_assoc; split;
                   [reflexivity|after_note_requests]|]);
          (split; [reflexivity|]); (split; [intros H; now elim H|]);
          intros Hs; rewrite Hs in Hup; discriminate.
      * cbn [fst snd db log meeting_notes action_items meetings set_meetings].
        split; [eexists; rewrite <- ?app_assoc; split;
                [reflexivity|after_note_requests]|].
        split; [reflexivity|]. split; [intros H; now elim H|].
        intros _. split; [reflexivity|]. split; [now rewrite app_nil_r|].
        intros x Hx Hid. exact (set_status_sets _ _ _ _ Hx Hid).
    + cbv beta iota zeta.
      destruct (db_fault E _ (InsertActionItems (item :: items')))
        as [[x|x]|] eqn:Hai; cbv beta iota zeta; cbn [fst snd db log].
      * destruct (db_fault E _ (UpdateMeetingStatus meetingId failed))
          as [[y|y]|];
          cbn [fst snd db log meeting_notes action_items set_meetings];
          (split; [eexists; rewrite <- ?app_assoc; split;
                   [reflexivity|after_note_requests]|]);
          (split; [reflexivity|]); (split; [intros H; now elim H|]);
          intros Hs; rewrite Hs in Hai; discriminate.
      * destruct (db_fault E _ (UpdateMeetingStatus meetingId failed))
          as [[y|y]|];
          cbn [fst snd db log meeting_notes action_items set_meetings];
          (split; [eexists; rewrite <- ?app_assoc; split;
                   [reflexivity|after_note_requests]|]);
          (split; [reflexivity|]); (split; [intros H; now elim H|]);
          intros Hs; rewrite Hs in Hai; discriminate.
      * destruct (db_fault E _ (UpdateMeetingStatus meetingId linking))
          as [[x|x]|] eqn:Hup; cbv beta iota zeta; cbn [fst snd db log].
        -- split; [eexists; rewrite <- ?app_assoc; split;
                   [reflexivity|after_note_requests]|].
           split; [reflexivity|]. split; [intros H; now elim H|].
           intros Hs. rewrite Hs in Hup. discriminate.
        -- destruct (db_fault E _ (UpdateMeetingStatus meetingId failed))
             as [[y|y]|];
             cbn [fst snd db log meeting_notes action_items set_meetings];
             (split; [eexists; rewrite <- ?app_assoc; split;
                      [reflexivity|after_note_requests]|]);
             (split; [reflexivity|]); (split; [intros H; now elim H|]);
             intros Hs; rewrite Hs in Hup; discriminate.
        -- cbn [fst snd db log meeting_notes action_items meetings set_meetings].
           split; [eexists; rewrite <- ?app_assoc; split;
                   [reflexivity|after_note_requests]|].
           split; [reflexivity|]. split; [intros H; now elim H|].
           intros _. split; [reflexivity|]. split; [reflexivity|].
           intros x Hx Hid. exact (set_status_sets _ _ _ _ Hx Hid).
Qed.

(** The run of the analysis stage that reaches the persistence steps: the
    store serves the read of the transcripts, there is one at least, Gemini
    answers [rawText] and an analysis is parsed from it. *)
Lemma analyze_stage_run (E : env) (meetingId : jsstring) (w : world)
    (t : Transcript.row) (ts : list Transcript.row) (st : N)
    (resText rawText : jsstring) (analysis : Analysis.t) :
  db_fault E (length (log w)) (SelectTranscripts meetingId) = None ->
  filter (fun x => Js.eqb (Transcript.meeting_id x) meetingId)
         (transcripts (db w)) = t :: ts ->
  let fullTranscript :=
    join [LF] (map AnalyzeMeeting.transcript_line (t :: ts)) in
  let langName :=
    AnalyzeMeeting.langName_of
      (AnalyzeMeeting.or_string (Some (Transcript.language t)) (str "en-US")) in
  generate_analysis E langName fullTranscript
  = Fetched true st resText (CandidateText rawText) ->
  AnalyzeMeeting.parse_analysis E rawText = Some analysis ->
  AnalyzeMeeting.stage E meetingId w
  = guarded E meetingId failed (AnalyzeMeeting.persist E meetingId analysis)
      {| db := db w;
         log := log w ++ [SelectTranscripts meetingId;
                          GenerateAnalysis langName fullTranscript] |}.
Proof.
  intros Hsel Hrows fullTranscript langName Hgen Hparse.
  unfold AnalyzeMeeting.stage, guarded, AnalyzeMeeting.stage_body.
  unfold bind at 1. unfold call at 1. rewrite Hsel. cbv beta iota zeta.
  rewrite Hrows. unfold bind at 1. unfold ret at 1. cbv beta iota zeta.
  fold fullTranscript. fold langName.
  unfold bind at 1. unfold fetch at 1. unfold bind at 1, emit at 1, ret at 1.
  rewrite Hgen. unfold bind at 1. unfold ret at 1. rewrite Hparse.
  cbn [db log]. rewrite <- app_assoc. reflexivity.
Qed.

(** C10. A run of the analysis handler that reaches the persistence step
    (the transcripts are read, Gemini answers, an analysis is parsed or made
    up by the fallback) sends the store, right after the request to Gemini,
    the upsert of the note made of that analysis, and no other upsert; the
    notes are upserted with that note when the store serves the request and
    stay as they were when it does not. The summary of that note is not
    empty: it is the text [No summary generated] when the summary of the
    analysis is missing or empty, and the summary of the analysis
    otherwise. Whatever a run does, every note it upserts and every note of
    the table that was not there before has a summary. *)
Theorem C10_stored_summary_never_empty :
  forall (E : env) (req : http_request) (meetingId : jsstring) (w : world)
         (t : Transcript.row) (ts : list Transcript.row) (st : N)
         (resText rawText : jsstring) (analysis : Analysis.t),
    method req <> str "OPTIONS" -> body_meeting_id req = Some meetingId ->
    meetingId <> [] ->
    db_fault E (length (log w)) (SelectTranscripts meetingId) = None ->
    filter (fun x => Js.eqb (Transcript.meeting_id x) meetingId)
           (transcripts (db w)) = t :: ts ->
    let fullTranscript :=
      join [LF] (map AnalyzeMeeting.transcript_line (t :: ts)) in
    let langName :=
      AnalyzeMeeting.langName_of
        (AnalyzeMeeting.or_string (Some (Transcript.language t)) (str "en-US")) in
    generate_analysis E langName fullTranscript
    = Fetched true st resText (CandidateText rawText) ->
    AnalyzeMeeting.parse_analysis E rawText = Some analysis ->
    let note := AnalyzeMeeting.note_of meetingId analysis in
    let stored := MeetingNote.summary note in
    let run := AnalyzeMeeting.handler E req w in
    (exists rest,
        log (snd run)
        = log w ++ SelectTranscripts meetingId
                :: GenerateAnalysis langName fullTranscript
                :: UpsertMeetingNote note :: rest
        /\ Forall (after_note meetingId) rest)
    /\ (db_fault E (S (S (length (log w)))) (UpsertMeetingNote note) = None ->
        meeting_notes (db (snd run))
        = AnalyzeMeeting.upsert note (meeting_notes (db w))
        /\ In note (meeting_notes (db (snd run))))
    /\ (db_fault E (S (S (length (log w)))) (UpsertMeetingNote note) <> None ->
        meeting_notes (db (snd run)) = meeting_notes (db w))
    /\ stored <> []
    /\ (Analysis.summary analysis = None \/ Analysis.summary analysis = Some [] ->
        stored = str "No summary generated")
    /\ (forall s, Analysis.summary analysis = Some s -> s <> [] -> stored = s)
    /\ (forall (req' : http_request) (w0 : world),
          (exists issued,
              log (snd (AnalyzeMeeting.handler E req' w0)) = log w0 ++ issued
              /\ forall n, In (UpsertMeetingNote n) issued ->
                           MeetingNote.summary n <> [])
          /\ forall n,
               In n (meeting_notes (db (snd (AnalyzeMeeting.handler E req' w0)))) ->
               In n (meeting_notes (db w0)) \/ MeetingNote.summary n <> []).
Proof.
  intros E req meetingId w t ts st resText rawText analysis Hmethod Hbody Hid
    Hsel Hrows fullTranscript langName Hgen Hparse note stored run.
  unfold run, AnalyzeMeeting.handler.
  rewrite (serve_accepted _ _ _ _ Hmethod Hbody Hid).
  rewrite (analyze_stage_run E meetingId w t ts st resText rawText analysis
             Hsel Hrows Hgen Hparse).
  fold fullTranscript. fold langName.
  match goal with
  | |- context [guarded E meetingId failed _ ?W] =>
      pose proof (guarded_persist_run E meetingId analysis W) as Hrun
  end.
  cbv zeta in Hrun. fold note in Hrun. cbn [db log] in Hrun.
  replace (length (log w ++ [SelectTranscripts meetingId;
                             GenerateAnalysis langName fullTranscript]))
    with (S (S (length (log w)))) in Hrun
    by (rewrite length_app; cbn [length]; lia).
  destruct Hrun as ((rest & Hlog & Hrest) & Hserved & Hfault & _).
  split.
  { exists rest. split; [|exact Hrest].
    rewrite Hlog. rewrite <- app_assoc. reflexivity. }
  split.
  { intros Hs. rewrite (Hserved Hs). split; [reflexivity|apply upsert_has]. }
  split; [intros Hf; exact (proj1 (Hfault Hf))|].
  split; [apply note_summary_nonempty|].
  split.
  { unfold stored. simpl. intros [H|H]; rewrite H; reflexivity. }
  split.
  { unfold stored. simpl. intros s H Hs. rewrite H. simpl.
    apply truthy_true in Hs. now rewrite Hs. }
  intros req' w0.
  assert (Hnone : (exists issued,
                      log w0 = log w0 ++ issued
                      /\ forall n, In (UpsertMeetingNote n) issued ->
                                   MeetingNote.summary n <> [])
                  /\ forall n, In n (meeting_notes (db w0)) ->
                               In n (meeting_notes (db w0))
                               \/ MeetingNote.summary n <> []).
  { split; [|auto]. exists []. split; [now rewrite app_nil_r|]. intros n []. }
  unfold AnalyzeMeeting.handler, serve.
  destruct (Js.eqb (method req') (str "OPTIONS")); [exact Hnone|].
  destruct (body_meeting_id req') as [id|]; [|exact Hnone].
  destruct (truthy id); [|exact Hnone].
  destruct (analyze_stage_notes E (meeting_notes (db w0)) id w0 eq_refl)
    as (Hdb & issued & Hlog' & Hreq).
  split.
  - exists issued. split; trivial. intros n Hn.
    rewrite Forall_forall in Hreq. exact (Hreq _ Hn n eq_refl).
  - exact Hdb.
Qed.

Lemma length_or_string (s : jsstring) :
  length (AnalyzeMeeting.or_string (Some s) []) = length s.
Proof. destruct s; reflexivity. Qed.

(** The steps after the parse, when the store serves every call: they end
    in the 200 answer, with the note upserted. *)
Lemma persist_served (E : env) (meetingId : jsstring) (analysis : Analysis.t)
    (w : world) :
  (forall n r, db_fault E n r = None) ->
  Analysis.action_items analysis = Some [] ->
  exists w',
    AnalyzeMeeting.persist E meetingId analysis w
    = (inr {| status := 200;
              body := BodyAnalyzed
                        (length (AnalyzeMeeting.or_string (Analysis.summary analysis) []))
                        0
                        (length (AnalyzeMeeting.or_empty (Analysis.decisions analysis))) |},
       w')
    /\ meeting_notes (db w')
       = AnalyzeMeeting.upsert (AnalyzeMeeting.note_of meetingId analysis)
           (meeting_notes (db w))
    /\ action_items (db w') = action_items (db w).
Proof.
  intros Hserved Hitems.
  unfold AnalyzeMeeting.persist, AnalyzeMeeting.upsert_note, update_status.
  rewrite Hitems.
  cbv beta iota zeta delta [bind call ret map AnalyzeMeeting.or_empty].
  repeat (rewrite Hserved; cbv beta iota zeta).
  eexists. split; [reflexivity|]. split; reflexivity.
Qed.

(** C8. A generation response that does not parse as JSON once the code
    fences are stripped does not make the analysis stage throw: the parse
    step gives the note whose summary is the first 500 units of the raw
    response and whose action items, decisions and open questions are
    empty, and with the store serving its calls the stage answers 200 and
    upserts that note. *)
Theorem C8_unparseable_response_degrades :
  forall (E : env) (meetingId rawText message : jsstring),
    JSON_parse E (AnalyzeMeeting.jsonStr rawText) = SyntaxError message ->
    let analysis :=
      {| Analysis.summary := Some (firstn 500 rawText);
         Analysis.action_items := Some [];
         Analysis.decisions := Some [];
         Analysis.open_questions := Some [] |} in
    AnalyzeMeeting.parse_analysis E rawText = Some analysis
    /\ forall (w : world) (t : Transcript.row) (ts : list Transcript.row)
              (st : N) (resText : jsstring),
         filter (fun x => Js.eqb (Transcript.meeting_id x) meetingId)
                (transcripts (db w)) = t :: ts ->
         (forall n r, db_fault E n r = None) ->
         (forall langName fullTranscript,
             generate_analysis E langName fullTranscript
             = Fetched true st resText (CandidateText rawText)) ->
         fst (AnalyzeMeeting.stage E meetingId w)
         = {| status := 200;
              body := BodyAnalyzed (length (firstn 500 rawText)) 0 0 |}
         /\ meeting_notes (db (snd (AnalyzeMeeting.stage E meetingId w)))
            = AnalyzeMeeting.upsert (AnalyzeMeeting.note_of meetingId analysis)
                (meeting_notes (db w))
         /\ action_items (db (snd (AnalyzeMeeting.stage E meetingId w)))
            = action_items (db w).
Proof.
  intros E meetingId rawText message Hparse analysis.
  assert (Hp : AnalyzeMeeting.parse_analysis E rawText = Some analysis)
    by (unfold AnalyzeMeeting.parse_analysis; now rewrite Hparse).
  split; [exact Hp|].
  intros w t ts st resText Hrows Hserved Hgen.
  unfold AnalyzeMeeting.stage, guarded, AnalyzeMeeting.stage_body.
  cbv beta iota zeta delta [bind call fetch emit ret].
  rewrite Hserved. cbv beta iota zeta. rewrite Hrows. cbv beta iota zeta.
  rewrite Hgen. cbv beta iota zeta. rewrite Hp.
  match goal with
  | |- context [AnalyzeMeeting.persist E meetingId analysis ?w1] =>
      destruct (persist_served E meetingId analysis w1 Hserved eq_refl)
        as (w' & Hrun & Hnotes & Hitems)
  end.
  rewrite Hrun. cbv beta iota zeta. cbn [fst snd].
  rewrite Hnotes, Hitems.
  change (Analysis.summary analysis) with (Some (firstn 500 rawText)).
  rewrite length_or_string. repeat split.
Qed.

Definition a_transcript (label : option jsstring) (txt : jsstring) : Transcript.row :=
  new_segment (str "m1") (str "en-US") label txt.

(** Gemini answers the analysis prompt with prose instead of JSON. *)
Definition prose_reply : env :=
  {| db_fault := db_fault quiet;
     single_error := single_error quiet;
     gen_random_uuid := gen_random_uuid quiet;
     storage_object := storage_object quiet;
     file_api_start := file_api_start quiet;
     file_api_upload := file_api_upload quiet;
     file_api_poll := file_api_poll quiet;
     generate_transcription := generate_transcription quiet;
     generate_analysis :=
       fun _ _ => Fetched true 200 [] (CandidateText (str "Sorry, no JSON today."));
     embed_content := embed_content quiet;
     search_nodes := search_nodes quiet;
     btoa := btoa quiet;
     JSON_parse := JSON_parse quiet |}.

Definition world_with_transcript : world :=
  {| db := {| meetings := [a_meeting analyzing (Some (str "u1/m1.m4a"))];
              transcripts := [a_transcript (Some (str "Speaker 1")) (str "Hello")];
              meeting_notes := []; action_items := []; nodes := []; edges := [] |};
     log := [] |}.

Lemma C8_unparseable_response_witness :
  fst (AnalyzeMeeting.stage prose_reply (str "m1") world_with_transcript)
  = {| status := 200; body := BodyAnalyzed 21 0 0 |}
  /\ map MeetingNote.summary
       (meeting_notes
          (db (snd (AnalyzeMeeting.stage prose_reply (str "m1") world_with_transcript))))
     = [str "Sorry, no JSON today."].
Proof.
  pose proof (proj2 (C8_unparseable_response_degrades prose_reply (str "m1")
                       (str "Sorry, no JSON today.")
                       (str "Unexpected end of JSON input") eq_refl)
                world_with_transcript
                (a_transcript (Some (str "Speaker 1")) (str "Hello")) []
                200%N [] eq_refl (fun _ _ => eq_refl) (fun _ _ => eq_refl)) as H.
  split; [exact (proj1 H)|].
  rewrite (proj1 (proj2 H)). reflexivity.
Defined.

(** Gemini answers the analysis prompt with an object that has no summary. *)
Definition no_summary_reply : env :=
  {| db_fault := db_fault quiet;
     single_error := single_error quiet;
     gen_random_uuid := gen_random_uuid quiet;
     storage_object := storage_object quiet;
     file_api_start := file_api_start quiet;
     file_api_upload := file_api_upload quiet;
     file_api_poll := file_api_poll quiet;
     generate_transcription := generate_transcription quiet;
     generate_analysis :=
       fun _ _ => Fetched true 200 [] (CandidateText (str "{}"));
     embed_content := embed_content quiet;
     search_nodes := search_nodes quiet;
     btoa := btoa quiet;
     JSON_parse :=
       fun _ => Parsed {| Analysis.summary := None;
                          Analysis.action_items := None;
                          Analysis.decisions := None;
                          Analysis.open_questions := None |} |}.

Lemma C10_stored_summary_witness :
  map MeetingNote.summary
    (meeting_notes
       (db (snd (AnalyzeMeeting.handler no_summary_reply (post (str "m1"))
                   world_with_transcript))))
  = [str "No summary generated"].
Proof.
  pose proof (C10_stored_summary_never_empty no_summary_reply (post (str "m1"))
                (str "m1") world_with_transcript
                (a_transcript (Some (str "Speaker 1")) (str "Hello")) []
                200%N [] (str "{}")
                {| Analysis.summary := None; Analysis.action_items := None;
                   Analysis.decisions := None; Analysis.open_questions := None |}
                ltac:(discriminate) eq_refl ltac:(discriminate) eq_refl eq_refl
                eq_refl eq_refl) as H.
  cbv zeta in H. destruct H as (_ & Hserved & _).
  rewrite (proj1 (Hserved eq_refl)). reflexivity.
Defined.

(** ** link-meeting: the edges *)

(** [e] joins the unordered pair [{a, b}]. *)
Definition connects (a b : jsstring) (e : Edge.row) : bool :=
  (Js.eqb (Edge.from_node e) a && Js.eqb (Edge.to_node e) b)
  || (Js.eqb (Edge.from_node e) b && Js.eqb (Edge.to_node e) a).

(** No unordered pair of nodes is joined by two edges of the list. *)
Definition pairs_once (edges : list Edge.row) : Prop :=
  forall a b, (length (filter (connects a b) edges) <= 1)%nat.

Lemma alreadyHasEdge_connects (edges : list Edge.row) (a b : jsstring) :
  LinkMeeting.alreadyHasEdge edges a b = existsb (connects a b) edges.
Proof. reflexivity. Qed.

Lemma filter_existsb_false {A} (f : A -> bool) (l : list A) :
  existsb f l = false -> filter f l = [].
Proof.
  induction l as [|x l IH]; simpl; trivial.
  intros H. apply orb_false_iff in H as [Hx Hl]. rewrite Hx. now apply IH.
Qed.

(** The pair an edge joins is the pair of its ends. *)
Lemma connects_ends (a b : jsstring) (e : Edge.row) :
  connects a b e = true ->
  connects a b = connects (Edge.from_node e) (Edge.to_node e)
  \/ connects a b = connects (Edge.to_node e) (Edge.from_node e).
Proof.
  unfold connects. intros H. apply orb_true_iff in H as [H|H];
    apply andb_true_iff in H as [H1 H2];
    apply eqb_eq in H1; apply eqb_eq in H2; subst; auto.
Qed.

Lemma connects_swap (a b : jsstring) (l : list Edge.row) :
  filter (connects b a) l = filter (connects a b) l.
Proof.
  apply filter_ext. intros e. unfold connects. apply orb_comm.
Qed.

Lemma pairs_once_push (edges : list Edge.row) (node : Node.row) (m : Match.row) :
  pairs_once edges ->
  LinkMeeting.alreadyHasEdge edges (Node.id node) (Match.id m) = false ->
  pairs_once (edges ++ [LinkMeeting.new_edge node m]).
Proof.
  intros Hp Hno a b. rewrite filter_app, length_app. simpl.
  destruct (connects a b (LinkMeeting.new_edge node m)) eqn:Hc; simpl.
  - rewrite alreadyHasEdge_connects in Hno.
    apply filter_existsb_false in Hno.
    apply connects_ends in Hc as [Hc|Hc]; rewrite Hc; simpl.
    + rewrite Hno. simpl. lia.
    + rewrite connects_swap, Hno. simpl. lia.
  - specialize (Hp a b). lia.
Qed.

Lemma link_matches_pairs (cap : nat) (node : Node.row) (similar : list Match.row)
    (edgesToInsert : list Edge.row) :
  pairs_once edgesToInsert ->
  pairs_once (LinkMeeting.link_matches cap node similar edgesToInsert).
Proof.
  revert edgesToInsert.
  induction similar as [|m rest IH]; intros edgesToInsert Hp; simpl; trivial.
  destruct (Js.eqb (Match.id m) (Node.id node)); [now apply IH|].
  destruct (LinkMeeting.alreadyHasEdge edgesToInsert (Node.id node) (Match.id m))
    eqn:Hhas; [now apply IH|].
  pose proof (pairs_once_push edgesToInsert node m Hp Hhas) as Hp'.
  destruct (cap <=? _)%nat; trivial. now apply IH.
Qed.

Lemma link_nodes_pairs (E : env) (user_id : jsstring) (cap : nat)
    (insertedNodes : list Node.row) (edgesToInsert edges : list Edge.row)
    (w w' : world) :
  pairs_once edgesToInsert ->
  LinkMeeting.link_nodes E user_id cap insertedNodes edgesToInsert w = (inr edges, w') ->
  pairs_once edges.
Proof.
  revert edgesToInsert w.
  induction insertedNodes as [|node rest IH]; intros edgesToInsert w Hp; simpl.
  - unfold ret. intros H. injection H as <- _. exact Hp.
  - destruct (Node.embedding (Node.data node)) as [emb|]; [|now apply IH].
    unfold bind, call.
    destruct (db_fault E _ _) as [[message|message]|]; simpl;
      try discriminate; apply IH;
      first [exact Hp | now apply link_matches_pairs].
Qed.

(** The loop over the nodes ends in a list of edges unless the store
    rejects the promise of a search. *)
Lemma link_nodes_returns (E : env) (user_id : jsstring) (cap : nat)
    (insertedNodes : list Node.row) (edgesToInsert : list Edge.row) (w : world) :
  (forall n r message, db_fault E n r <> Some (Thrown message)) ->
  exists edges w',
    LinkMeeting.link_nodes E user_id cap insertedNodes edgesToInsert w
    = (inr edges, w').
Proof.
  intros Hserved. revert edgesToInsert w.
  induction insertedNodes as [|node rest IH]; intros edgesToInsert w; simpl.
  - now exists edgesToInsert, w.
  - destruct (Node.embedding (Node.data node)) as [emb|]; [|apply IH].
    unfold bind, call.
    destruct (db_fault E _ _) as [[message|message]|] eqn:Hf; simpl;
      try apply IH.
    now apply Hserved in Hf.
Qed.

(** [preserves_bind] when the rest of the run needs to know something
    about the value it is given. *)
Lemma preserves_bind_value (on_db : database -> Prop) (on_req : request -> Prop)
    {A B} (P : A -> Prop) (m : M A) (k : A -> M B) :
  (forall w a w', m w = (inr a, w') -> P a) ->
  preserves on_db on_req m ->
  (forall a, P a -> preserves on_db on_req (k a)) ->
  preserves on_db on_req (bind m k).
Proof.
  intros HP Hm Hk w0 w H. unfold bind.
  specialize (Hm w0 w H). specialize (HP w).
  destruct (m w) as [[e|a] w']; simpl in *; trivial.
  apply Hk; trivial. now apply (HP a w').
Qed.

Section EdgeBatches.

Variable E : env.

(** Every batch of edges sent to the store joins no pair twice. *)
Definition edges_req (r : request) : Prop :=
  forall batch, r = InsertEdges batch -> pairs_once batch.

Ltac not_edges := let H := fresh "H" in intros ? H; discriminate H.

Ltac quiet_step := step_with not_edges ltac:(intros; exact I).

Let ok {A} (m : M A) : Prop := preserves (fun _ => True) edges_req m.

Lemma embed_edges (text : jsstring) : ok (LinkMeeting.embed E text).
Proof. unfold ok, LinkMeeting.embed. repeat quiet_step. Qed.

Lemma decision_nodes_edges (meetingId user_id : jsstring) (decisions : list jsstring)
    (nodesToInsert : list Node.fields) :
  ok (LinkMeeting.decision_nodes E meetingId user_id decisions nodesToInsert).
Proof.
  unfold ok. revert nodesToInsert.
  induction decisions as [|dec rest IH]; intros nodesToInsert; simpl.
  - repeat quiet_step.
  - apply preserves_bind; [apply embed_edges|]. intros decEmbed. apply IH.
Qed.

Lemma action_nodes_edges (meetingId user_id : jsstring) (actions : list ActionItem.row)
    (nodesToInsert : list Node.fields) :
  ok (LinkMeeting.action_nodes E meetingId user_id actions nodesToInsert).
Proof.
  unfold ok. revert nodesToInsert.
  induction actions as [|a rest IH]; intros nodesToInsert; simpl.
  - repeat quiet_step.
  - apply preserves_bind; [apply embed_edges|]. intros actEmbed. apply IH.
Qed.

Lemma link_nodes_edges (user_id : jsstring) (cap : nat)
    (insertedNodes : list Node.row) (edgesToInsert : list Edge.row) :
  ok (LinkMeeting.link_nodes E user_id cap insertedNodes edgesToInsert).
Proof.
  unfold ok. revert edgesToInsert.
  induction insertedNodes as [|node rest IH]; intros edgesToInsert; simpl.
  - repeat quiet_step.
  - destruct (Node.embedding (Node.data node)); [|apply IH].
    apply preserves_bind; [repeat quiet_step|]. intros r. apply IH.
Qed.

Lemma link_body_edges (meetingId : jsstring) :
  ok (LinkMeeting.stage_body E meetingId).
Proof.
  unfold ok, LinkMeeting.stage_body, select_meeting.
  apply preserves_bind; [repeat quiet_step|]. intros r.
  apply preserves_bind; [repeat quiet_step|]. intros m.
  apply preserves_bind; [repeat quiet_step|]. intros noteRes.
  apply preserves_bind; [repeat quiet_step|]. intros actionsRes.
  apply preserves_bind; [repeat quiet_step|]. intros transcriptsRes.
  apply preserves_bind;
    [unfold LinkMeeting.remove_old; repeat quiet_step|]. intros _.
  apply preserves_bind; [apply embed_edges|]. intros meetingEmbed.
  apply preserves_bind.
  { destruct (LinkMeeting.summary_of _); [|repeat quiet_step].
    apply preserves_bind; [apply embed_edges|]. intros; repeat quiet_step. }
  intros nodes1.
  apply preserves_bind; [apply decision_nodes_edges|]. intros nodes2.
  apply preserves_bind; [apply action_nodes_edges|]. intros nodesToInsert.
  apply preserves_bind; [unfold LinkMeeting.insert_nodes; repeat quiet_step|].
  intros insRes.
  apply preserves_bind; [repeat quiet_step|]. intros insertedNodes.
  apply (preserves_bind_value _ _ pairs_once).
  - intros w edges w' H.
    apply (link_nodes_pairs _ _ _ _ [] _ _ _) in H; trivial.
    intros a b. simpl. lia.
  - apply link_nodes_edges.
  - intros edgesToInsert Hp.
    apply preserves_bind; [|intros; repeat quiet_step].
    destruct edgesToInsert as [|e es]; [repeat quiet_step|].
    apply preserves_bind; [|intros; repeat quiet_step].
    unfold LinkMeeting.insert_edges. apply preserves_call.
    + intros batch H. injection H as <-. exact Hp.
    + intros; exact I.
Qed.

Lemma link_stage_edges (meetingId : jsstring) (w : world) :
  holds (fun _ => True) edges_req w (snd (LinkMeeting.stage E meetingId w)).
Proof.
  apply guarded_holds; trivial.
  - apply link_body_edges.
  - repeat quiet_step.
Qed.

End EdgeBatches.

(** C2. Within one run of the linking stage the accumulated edges never
    join the same unordered pair of nodes twice: for every pair [(a, b)] at
    most one edge has the ends [{a, b}], in either direction. The inner loop
    keeps the property, the loop over the nodes starts from no edge and so
    ends with it (and it does end with a list unless a search rejects its
    promise), and every batch of edges a run sends to the store has it. *)
Theorem C2_no_pair_linked_twice :
  (forall (cap : nat) (node : Node.row) (similar : list Match.row)
          (edgesToInsert : list Edge.row),
      pairs_once edgesToInsert ->
      pairs_once (LinkMeeting.link_matches cap node similar edgesToInsert))
  /\ (forall (E : env) (user_id : jsstring) (cap : nat)
             (insertedNodes : list Node.row) (w w' : world) (edges : list Edge.row),
         LinkMeeting.link_nodes E user_id cap insertedNodes [] w = (inr edges, w') ->
         forall a b, (length (filter (connects a b) edges) <= 1)%nat)
  /\ (forall (E : env) (user_id : jsstring) (cap : nat)
             (insertedNodes : list Node.row) (w : world),
         (forall n r message, db_fault E n r <> Some (Thrown message)) ->
         exists edges w',
           LinkMeeting.link_nodes E user_id cap insertedNodes [] w = (inr edges, w'))
  /\ (forall (E : env) (meetingId : jsstring) (w : world),
         exists issued,
           log (snd (LinkMeeting.stage E meetingId w)) = log w ++ issued
           /\ forall batch, In (InsertEdges batch) issued ->
                forall a b, (length (filter (connects a b) batch) <= 1)%nat).
Proof.
  split; [exact link_matches_pairs|]. split.
  - intros E user_id cap insertedNodes w w' edges H.
    apply (link_nodes_pairs E user_id cap insertedNodes [] edges w w'); trivial.
    intros a b. simpl. lia.
  - split.
    { intros E user_id cap insertedNodes w Hserved.
      now apply link_nodes_returns. }
    intros E meetingId w.
    destruct (link_stage_edges E meetingId w) as (_ & issued & Hlog & Hreq).
    exists issued. split; trivial. intros batch Hin.
    rewrite Forall_forall in Hreq. exact (Hreq _ Hin batch eq_refl).
Qed.


(** ** Doubles: rounding to binary64 *)

Lemma nearest_even_bounds (q : Q) :
  q - (1 # 2) <= inject_Z (Binary64.nearest_even q)
  /\ inject_Z (Binary64.nearest_even q) <= q + (1 # 2).
Proof.
  unfold Binary64.nearest_even.
  pose proof (Qfloor_le q) as Hlo. pose proof (Qlt_floor q) as Hhi.
  rewrite inject_Z_plus in Hhi. change (inject_Z 1) with 1 in Hhi.
  destruct (Qcompare_spec (q - inject_Z (Qfloor q)) (1 # 2)) as [H|H|H];
    [destruct (Z.even (Qfloor q))| |];
    rewrite ?inject_Z_plus; change (inject_Z 1) with 1; lra.
Qed.

Lemma nearest_even_le (q : Q) (n : Z) :
  q <= inject_Z n -> (Binary64.nearest_even q <= n)%Z.
Proof.
  intros Hq. unfold Binary64.nearest_even.
  pose proof (Qfloor_le q) as Hlo.
  assert (Hf : (Qfloor q <= n)%Z) by (rewrite Zle_Qle; lra).
  destruct (Qcompare_spec (q - inject_Z (Qfloor q)) (1 # 2)) as [H|H|H].
  - destruct (Z.even (Qfloor q)); trivial.
    destruct (Z.eq_dec (Qfloor q) n) as [Heq|]; [exfalso; rewrite Heq in *; lra|lia].
  - exact Hf.
  - destruct (Z.eq_dec (Qfloor q) n) as [Heq|]; [exfalso; rewrite Heq in *; lra|lia].
Qed.

Lemma nearest_even_nonneg (q : Q) : 0 <= q -> (0 <= Binary64.nearest_even q)%Z.
Proof.
  intros Hq. unfold Binary64.nearest_even.
  assert (Hf : (0 <= Qfloor q)%Z).
  { change 0%Z with (Qfloor 0). now apply Qfloor_resp_le. }
  destruct (Qcompare _ _); [destruct (Z.even _)| |]; lia.
Qed.

Lemma two_power_pos (e : Z) : 0 < 2 ^ e.
Proof. now apply Qpower_0_lt. Qed.

Lemma floor_log2_le (x : Q) : 0 < x -> 2 ^ Binary64.floor_log2 x <= x.
Proof.
  intros Hx. unfold Binary64.floor_log2.
  set (d := (Z.log2 (Qnum x) - Z.log2 (Zpos (Qden x)))%Z).
  destruct (Qle_bool (2 ^ d) x) eqn:Ht; [now apply Qle_bool_iff|].
  destruct x as [a b]. cbn [Qnum Qden] in d.
  assert (Ha : (0 < a)%Z) by (unfold Qlt in Hx; simpl in Hx; lia).
  destruct (Z.log2_spec a Ha) as [Ha1 _].
  destruct (Z.log2_spec (Zpos b) eq_refl) as [_ Hb2].
  pose proof (Z.log2_nonneg a) as Hla.
  pose proof (Z.log2_nonneg (Zpos b)) as Hlb.
  assert (Hq1 : 2 ^ Z.log2 a <= inject_Z a).
  { rewrite <- (Zpower_Qpower 2) by exact Hla. now rewrite <- Zle_Qle. }
  assert (Hq2 : inject_Z (Zpos b) <= 2 ^ (Z.log2 (Zpos b) + 1)).
  { rewrite <- (Zpower_Qpower 2) by lia. rewrite <- Zle_Qle.
    change (Z.succ (Z.log2 (Zpos b))) with (Z.log2 (Zpos b) + 1)%Z in Hb2. lia. }
  assert (Hsplit : 2 ^ (d - 1) * 2 ^ (Z.log2 (Zpos b) + 1) == 2 ^ Z.log2 a).
  { rewrite <- Qpower_plus by discriminate. apply Qpower_comp; [reflexivity|].
    unfold d. lia. }
  assert (Hab : a # b == inject_Z a / inject_Z (Zpos b)) by apply Qmake_Qdiv.
  rewrite Hab. apply Qle_shift_div_l; [reflexivity|].
  apply Qle_trans with (2 ^ (d - 1) * 2 ^ (Z.log2 (Zpos b) + 1)).
  - apply Qmult_le_l; [apply two_power_pos|exact Hq2].
  - rewrite Hsplit. exact Hq1.
Qed.

Lemma floor_log2_below (x : Q) (k : Z) :
  0 < x -> x < 2 ^ k -> (Binary64.floor_log2 x < k)%Z.
Proof.
  intros Hx Hk. apply (Qpower_lt_compat_l_inv 2); [|reflexivity].
  eapply Qle_lt_trans; [apply floor_log2_le; exact Hx|exact Hk].
Qed.

(** The last place of a number below [2 ^ k] in magnitude. *)
Lemma last_place_below (x : Q) (k : Z) :
  ~ x == 0 -> Qabs x < 2 ^ k -> (-1074 <= k - 53)%Z ->
  (Binary64.last_place x <= k - 53)%Z.
Proof.
  intros Hx Hk Hmin. unfold Binary64.last_place.
  assert (Hpos : 0 < Qabs x).
  { destruct (Qlt_le_dec 0 (Qabs x)) as [H|H]; trivial.
    exfalso. apply Hx. pose proof (Qabs_nonneg x) as H0.
    assert (Hz : Qabs x == 0) by lra.
    revert Hz. apply Qabs_case; intros; lra. }
  pose proof (floor_log2_below (Qabs x) k Hpos Hk). lia.
Qed.

Lemma round_error (x : Q) :
  Qabs (Binary64.round x - x) <= 2 ^ Binary64.last_place x * (1 # 2).
Proof.
  unfold Binary64.round. set (u := 2 ^ Binary64.last_place x).
  assert (Hu : 0 < u) by apply two_power_pos.
  destruct (nearest_even_bounds (x / u)) as [Hlo Hhi].
  set (n := inject_Z (Binary64.nearest_even (x / u))) in *.
  assert (Hx : x == x / u * u) by (field; lra).
  apply Qabs_Qle_condition. split.
  - assert (H : (x / u - (1 # 2)) * u <= n * u) by (apply Qmult_le_compat_r; lra).
    lra.
  - assert (H : n * u <= (x / u + (1 # 2)) * u) by (apply Qmult_le_compat_r; lra).
    lra.
Qed.

Lemma round_nonneg (x : Q) : 0 <= x -> 0 <= Binary64.round x.
Proof.
  intros Hx. unfold Binary64.round.
  apply Qmult_le_0_compat; [|apply Qlt_le_weak, two_power_pos].
  change 0 with (inject_Z 0). rewrite <- Zle_Qle. apply nearest_even_nonneg.
  apply Qle_shift_div_l; [apply two_power_pos|]. lra.
Qed.

(** Rounding does not pass a double: [c] is [m] units of a place no finer
    than the last place of [x]. *)
Lemma round_le (x c : Q) (m ec : Z) :
  x <= c -> c == inject_Z m * 2 ^ ec -> (Binary64.last_place x <= ec)%Z ->
  Binary64.round x <= c.
Proof.
  intros Hx Hc He. unfold Binary64.round.
  set (e := Binary64.last_place x) in *.
  assert (Hu : 0 < 2 ^ e) by apply two_power_pos.
  assert (Hunits : c / 2 ^ e == inject_Z (m * 2 ^ (ec - e))).
  { rewrite inject_Z_mult, (Zpower_Qpower 2) by lia.
    rewrite Hc, Qpower_minus by discriminate. change (inject_Z 2) with 2.
    generalize Hu. generalize (2 ^ e), (2 ^ ec), (inject_Z m).
    intros B A M HB. field. lra. }
  assert (Hn : (Binary64.nearest_even (x / 2 ^ e) <= m * 2 ^ (ec - e))%Z).
  { apply nearest_even_le. rewrite <- Hunits.
    apply Qmult_le_compat_r; [exact Hx|]. apply Qlt_le_weak, Qinv_lt_0_compat, Hu. }
  apply Qle_trans with (inject_Z (m * 2 ^ (ec - e)) * 2 ^ e).
  - apply Qmult_le_compat_r; [now rewrite <- Zle_Qle|lra].
  - rewrite <- Hunits. apply Qle_lteq. right.
    generalize Hu. generalize (2 ^ e). intros B HB. field. lra.
Qed.

Lemma round_zero (x : Q) : x == 0 -> Binary64.round x == 0.
Proof.
  intros Hx. apply Qle_antisym.
  - apply (round_le x 0 0 (Binary64.last_place x)); [lra|ring|lia].
  - apply round_nonneg. lra.
Qed.

(** [Math.round(x * 100) / 100] keeps a number of [0, 1] in [0, 1]. *)
Lemma product_range (similarity : Q) :
  0 <= similarity -> similarity <= 1 ->
  0 <= Binary64.mul similarity (100 # 1)
  /\ Binary64.mul similarity (100 # 1) <= 100 # 1.
Proof.
  intros Hlo Hhi. unfold Binary64.mul. split; [apply round_nonneg; lra|].
  destruct (Qeq_dec (similarity * (100 # 1)) 0) as [Hz|Hz].
  - rewrite (round_zero _ Hz). discriminate.
  - apply (round_le _ _ (100 * 2 ^ 46) (-46)); [lra|reflexivity|].
    apply (last_place_below _ 7); [exact Hz| |lia].
    rewrite Qabs_pos by lra. apply Qle_lt_trans with (100 # 1); [lra|reflexivity].
Qed.

Lemma Math_round_bounds (p : Q) :
  p - (1 # 2) < inject_Z (LinkMeeting.Math_round p)
  /\ inject_Z (LinkMeeting.Math_round p) <= p + (1 # 2).
Proof.
  unfold LinkMeeting.Math_round.
  pose proof (Qfloor_le (p + (1 # 2))) as Hlo.
  pose proof (Qlt_floor (p + (1 # 2))) as Hhi.
  rewrite inject_Z_plus in Hhi. change (inject_Z 1) with 1 in Hhi. lra.
Qed.

Lemma Math_round_range (p : Q) (hi : Z) :
  0 <= p -> p <= inject_Z hi -> (0 <= LinkMeeting.Math_round p <= hi)%Z.
Proof.
  intros Hlo Hhi. destruct (Math_round_bounds p) as [H1 H2]. split.
  - unfold LinkMeeting.Math_round. change 0%Z with (Qfloor 0). apply Qfloor_resp_le. lra.
  - assert (H : (LinkMeeting.Math_round p < hi + 1)%Z); [|lia].
    rewrite Zlt_Qlt, inject_Z_plus. change (inject_Z 1) with 1.
    unfold LinkMeeting.Math_round in *.
    pose proof (Qfloor_le (p + (1 # 2))) as Hf.
    destruct (Qlt_le_dec (inject_Z (Qfloor (p + (1 # 2)))) (inject_Z hi + 1))
      as [Hlt|Hge]; trivial.
    exfalso.
    assert (Hz : (hi + 1 <= Qfloor (p + (1 # 2)))%Z).
    { rewrite Zle_Qle, inject_Z_plus. exact Hge. }
    assert (Hq : inject_Z hi + 1 <= p + (1 # 2)) by lra. lra.
Qed.

(** A number below [2 ^ k] in magnitude is rounded by at most half a unit
    of the place [k - 53]. *)
Lemma round_close (x : Q) (k : Z) :
  Qabs x < 2 ^ k -> (-1074 <= k - 53)%Z ->
  x - 2 ^ (k - 53) * (1 # 2) <= Binary64.round x
  /\ Binary64.round x <= x + 2 ^ (k - 53) * (1 # 2).
Proof.
  intros Hk Hmin.
  pose proof (two_power_pos (k - 53)) as Hu.
  destruct (Qeq_dec x 0) as [Hz|Hz].
  - pose proof (round_zero x Hz). lra.
  - pose proof (round_error x) as Herr.
    apply Qabs_Qle_condition in Herr.
    assert (Hle : 2 ^ Binary64.last_place x <= 2 ^ (k - 53)).
    { apply Qpower_le_compat_l; [|discriminate].
      now apply last_place_below. }
    lra.
Qed.

(** The strength stored for a similarity of [0, 1]. The product with 100
    is off by [2 ^ (-47)] at most, [Math.round] takes it to the nearest
    integer [k], halves upwards, [k] is one of 0..100, and the strength is
    the double nearest to [k / 100]: a number of [0, 1] within
    [1/200 + 2 ^ (-52)] of the similarity. *)
Lemma strength_of_shape (similarity : Q) :
  0 <= similarity -> similarity <= 1 ->
  let p := Binary64.mul similarity (100 # 1) in
  let k := LinkMeeting.Math_round p in
  Qabs (p - similarity * (100 # 1)) <= 2 ^ (-47)
  /\ p - (1 # 2) < inject_Z k /\ inject_Z k <= p + (1 # 2)
  /\ (0 <= k <= 100)%Z
  /\ LinkMeeting.strength_of similarity = Binary64.round (inject_Z k / (100 # 1))
  /\ 0 <= LinkMeeting.strength_of similarity
  /\ LinkMeeting.strength_of similarity <= 1
  /\ Qabs (LinkMeeting.strength_of similarity - similarity)
     <= (1 # 200) + 2 ^ (-52).
Proof.
  intros Hlo Hhi p k.
  destruct (product_range similarity Hlo Hhi) as [Hp0 Hp1]. fold p in Hp0, Hp1.
  destruct (Math_round_range p 100 Hp0 Hp1) as [Hk0 Hk1].
  destruct (Math_round_bounds p) as [Hb1 Hb2]. fold k in Hk0, Hk1, Hb1, Hb2.
  assert (Hclose : similarity * (100 # 1) - 2 ^ (-47) <= p
                   /\ p <= similarity * (100 # 1) + 2 ^ (-47)).
  { destruct (round_close (similarity * (100 # 1)) 7) as [H1 H2]; [|lia|].
    - rewrite Qabs_pos by lra. apply Qle_lt_trans with (100 # 1); [lra|reflexivity].
    - change (2 ^ (7 - 53) * (1 # 2)) with (1 # 140737488355328) in H1, H2.
      change (2 ^ (-47)) with (1 # 140737488355328).
      unfold p, Binary64.mul. lra. }
  assert (Hq0 : 0 <= inject_Z k)
    by (change 0 with (inject_Z 0); now rewrite <- Zle_Qle).
  assert (Hq1 : inject_Z k <= 100 # 1)
    by (change (100 # 1) with (inject_Z 100); now rewrite <- Zle_Qle).
  assert (Hs : LinkMeeting.strength_of similarity
               = Binary64.round (inject_Z k / (100 # 1))) by reflexivity.
  assert (Hround : inject_Z k / (100 # 1) - 2 ^ (-53)
                   <= Binary64.round (inject_Z k / (100 # 1))
                   /\ Binary64.round (inject_Z k / (100 # 1))
                      <= inject_Z k / (100 # 1) + 2 ^ (-53)).
  { destruct (round_close (inject_Z k / (100 # 1)) 1) as [H1 H2]; [|lia|].
    - rewrite Qabs_pos by (apply Qle_shift_div_l; [reflexivity|lra]).
      apply Qle_lt_trans with 1; [|reflexivity].
      apply Qle_shift_div_r; [reflexivity|lra].
    - change (2 ^ (1 - 53) * (1 # 2)) with (1 # 9007199254740992) in H1, H2.
      change (2 ^ (-53)) with (1 # 9007199254740992). lra. }
  assert (Hdiv : inject_Z k / (100 # 1) == inject_Z k * (1 # 100)) by field.
  split.
  { apply Qabs_Qle_condition.
    change (2 ^ (-47)) with (1 # 140737488355328) in *. lra. }
  split; [exact Hb1|]. split; [exact Hb2|]. split; [lia|]. split; [exact Hs|].
  split; [rewrite Hs; apply round_nonneg; rewrite Hdiv; lra|]. split.
  { rewrite Hs.
    destruct (Qeq_dec (inject_Z k / (100 # 1)) 0) as [Hz|Hz].
    - rewrite (round_zero _ Hz). discriminate.
    - apply (round_le _ _ (2 ^ 52) (-52)); [rewrite Hdiv; lra|reflexivity|].
      apply (last_place_below _ 1); [exact Hz| |lia].
      rewrite Qabs_pos by (rewrite Hdiv; lra).
      apply Qle_lt_trans with 1; [rewrite Hdiv; lra|reflexivity]. }
  rewrite Hs. apply Qabs_Qle_condition.
  change (2 ^ (-47)) with (1 # 140737488355328) in *.
  change (2 ^ (-53)) with (1 # 9007199254740992) in *.
  change (2 ^ (-52)) with (1 # 4503599627370496).
  destruct Hround as [Hr1 Hr2]. lra.
Qed.




(** The rounding of [Binary64] is that of the kernel's binary64 numbers:
    on these operands the product and the quotient of two floats denote the
    rationals that [mul] and [div] give. *)
Lemma binary64_agrees_with_floats :
  Binary64.of_float 0x1.68f5c28f5c28fp-1%float
  == 6350075474592399 # 9007199254740992
  /\ Binary64.of_float (0x1.68f5c28f5c28fp-1 * 100)%float
     == Binary64.mul (Binary64.of_float 0x1.68f5c28f5c28fp-1%float) (100 # 1)
  /\ Binary64.of_float (71 / 100)%float == Binary64.div (71 # 1) (100 # 1)
  /\ Binary64.of_float (0x1.ccccccccccccdp-1 * 100)%float
     == Binary64.mul (Binary64.of_float 0x1.ccccccccccccdp-1%float) (100 # 1)
  /\ Binary64.of_float (90 / 100)%float == Binary64.div (90 # 1) (100 # 1)
  /\ Binary64.of_float (1 / 3)%float == Binary64.div 1 (3 # 1)
  /\ Binary64.of_float (0x1p-1074 / 3)%float
     == Binary64.div (Binary64.of_float 0x1p-1074%float) (3 # 1)
  /\ Binary64.of_float (0x1.8p-1074 * 0x1.8p0)%float
     == Binary64.mul (Binary64.of_float 0x1.8p-1074%float) (3 # 2).
Proof. repeat split; vm_compute; reflexivity. Qed.

(** Every hundredth [k / 100] of [0, 1] as the kernel divides it. *)
Lemma hundredths_agree_with_floats :
  forallb
    (fun k =>
       Qeq_bool
         (Binary64.of_float
            (PrimFloat.div (PrimFloat.of_uint63 (Uint63.of_Z k)) 100%float))
         (Binary64.div (inject_Z k) (100 # 1)))
    (map Z.of_nat (seq 0 101)) = true.
Proof. vm_compute. reflexivity. Qed.

(** Every edge the inner loop adds is the edge of one of the neighbours. *)
Lemma link_matches_edges (cap : nat) (node : Node.row) (similar : list Match.row)
    (edgesToInsert : list Edge.row) (e : Edge.row) :
  In e (LinkMeeting.link_matches cap node similar edgesToInsert) ->
  In e edgesToInsert
  \/ exists m, In m similar /\ Match.id m <> Node.id node
               /\ e = LinkMeeting.new_edge node m.
Proof.
  revert edgesToInsert.
  induction similar as [|m rest IH]; intros edgesToInsert; simpl; auto.
  destruct (Js.eqb (Match.id m) (Node.id node)) eqn:Hself.
  { intros H. destruct (IH _ H) as [?|(x & ? & ?)]; eauto. }
  destruct (LinkMeeting.alreadyHasEdge edgesToInsert (Node.id node) (Match.id m)).
  { intros H. destruct (IH _ H) as [?|(x & ? & ?)]; eauto. }
  apply eqb_neq in Hself.
  assert (Hpush : forall x, In x (edgesToInsert ++ [LinkMeeting.new_edge node m]) ->
                  In x edgesToInsert
                  \/ exists m0, In m0 (m :: rest) /\ Match.id m0 <> Node.id node
                                /\ x = LinkMeeting.new_edge node m0).
  { intros x Hx. apply in_app_or in Hx as [Hx|[<-|[]]]; auto.
    right. exists m. simpl. auto. }
  destruct (cap <=? _)%nat; [apply Hpush|].
  intros H. destruct (IH _ H) as [Hx|(x & Hin & Hne & He)].
  - now apply Hpush.
  - right. exists x. simpl. auto.
Qed.





(** ** link-meeting: the cap on the edges *)

(** Ten earlier nodes of the user, all similar to whatever is asked. *)
Definition earlier_nodes : list Match.row :=
  map (fun i => {| Match.id := str "old-" ++ of_N i; Match.node_type := note;
                   Match.similarity := 8 # 10 |})
      [0; 1; 2; 3; 4; 5; 6; 7; 8; 9]%N.

(** Every text embeds, and every search gives the ten earlier nodes. *)
Definition busy_graph : env :=
  {| db_fault := db_fault quiet;
     single_error := single_error quiet;
     gen_random_uuid := gen_random_uuid quiet;
     storage_object := storage_object quiet;
     file_api_start := file_api_start quiet;
     file_api_upload := file_api_upload quiet;
     file_api_poll := file_api_poll quiet;
     generate_transcription := generate_transcription quiet;
     generate_analysis := generate_analysis quiet;
     embed_content := fun _ => Some [1 # 1];
     search_nodes := fun _ _ _ _ => earlier_nodes;
     btoa := btoa quiet;
     JSON_parse := JSON_parse quiet |}.

(** A meeting with a summary and one decision: three candidate nodes. *)
Definition analysed_world : world :=
  {| db :=
       {| meetings := [a_meeting linking (Some (str "u1/m1.m4a"))];
          transcripts := [a_transcript None (str "We ship in May.")];
          meeting_notes :=
            [ {| MeetingNote.meeting_id := str "m1";
                 MeetingNote.summary := str "Release planning.";
                 MeetingNote.decisions := [str "Ship in May"];
                 MeetingNote.open_questions := [];
                 MeetingNote.raw_analysis :=
                   {| Analysis.summary := Some (str "Release planning.");
                      Analysis.action_items := Some [];
                      Analysis.decisions := Some [str "Ship in May"];
                      Analysis.open_questions := Some [] |};
                 MeetingNote.model_version := str "gemini-2.5-flash" |} ];
          action_items := []; nodes := []; edges := [] |};
     log := [] |}.

(** C3, on the code. With three candidate nodes the cap is 15 edges, and
    the run inserts 16: the [break] at the cap leaves the inner loop only,
    so each later node still adds one edge. *)
Theorem C3_edge_cap_exceeded :
  fst (LinkMeeting.stage busy_graph (str "m1") analysed_world)
  = {| status := 200; body := BodyLinked 3 16 |}
  /\ length (edges (db (snd (LinkMeeting.stage busy_graph (str "m1") analysed_world))))
     = 16%nat
  /\ (LinkMeeting.MAX_RELATED * 3 = 15)%nat.
Proof.
  split; [vm_compute; reflexivity|].
  split; [vm_compute; reflexivity|reflexivity].
Qed.

(** What the inner loop does bound: it stops at the cap when it starts
    below it, and adds one edge at most when it starts at or above it. *)
Lemma link_matches_length (cap : nat) (node : Node.row) (similar : list Match.row)
    (edgesToInsert : list Edge.row) :
  (length (LinkMeeting.link_matches cap node similar edgesToInsert)
   <= Nat.max cap (S (length edgesToInsert)))%nat.
Proof.
  revert edgesToInsert.
  induction similar as [|m rest IH]; intros edgesToInsert; simpl; [lia|].
  destruct (Js.eqb (Match.id m) (Node.id node)); [apply IH|].
  destruct (LinkMeeting.alreadyHasEdge _ _ _); [apply IH|].
  destruct (cap <=? _)%nat eqn:Hcap.
  - rewrite length_app. simpl. lia.
  - apply Nat.leb_gt in Hcap. specialize (IH (edgesToInsert ++ [LinkMeeting.new_edge node m])).
    rewrite length_app in *. simpl in *. lia.
Qed.

(** So a run of the loop over [n] nodes ends with at most [cap + n - 1]
    edges (and none without nodes). *)
Lemma link_nodes_length (E : env) (user_id : jsstring) (cap : nat)
    (insertedNodes : list Node.row) (edgesToInsert edges : list Edge.row)
    (w w' : world) :
  LinkMeeting.link_nodes E user_id cap insertedNodes edgesToInsert w = (inr edges, w') ->
  (length edges
   <= Nat.max (length edgesToInsert)
              (Nat.max cap (S (length edgesToInsert)) + length insertedNodes - 1))%nat.
Proof.
  revert edgesToInsert w.
  induction insertedNodes as [|node rest IH]; intros edgesToInsert w;
    cbn [LinkMeeting.link_nodes length].
  - unfold ret. intros H. injection H as <- _. lia.
  - destruct (Node.embedding (Node.data node)) as [emb|].
    + unfold bind, call.
      destruct (db_fault E _ _) as [[message|message]|]; cbn beta iota zeta;
        try discriminate; intros H; apply IH in H.
      * cbn [LinkMeeting.link_matches] in H. lia.
      * pose proof (link_matches_length cap node
                      (search_nodes E emb user_id (LinkMeeting.MAX_RELATED + 5)
                         LinkMeeting.SIMILARITY_THRESHOLD) edgesToInsert).
        lia.
    + intros H. apply IH in H. lia.
Qed.

(** The cap as the code enforces it: over [n] candidate nodes, all of them
    inserted, a run accumulates at most [MAX_RELATED * n + n - 1] edges. *)
Theorem link_edges_soft_cap :
  forall (E : env) (user_id : jsstring) (insertedNodes : list Node.row)
         (w w' : world) (edges : list Edge.row),
    insertedNodes <> [] ->
    LinkMeeting.link_nodes E user_id
      (LinkMeeting.MAX_RELATED * length insertedNodes) insertedNodes [] w
    = (inr edges, w') ->
    (length edges
     <= LinkMeeting.MAX_RELATED * length insertedNodes + length insertedNodes - 1)%nat.
Proof.
  intros E user_id insertedNodes w w' edges Hne H.
  apply link_nodes_length in H. cbn [length] in H.
  destruct insertedNodes as [|node rest]; [congruence|].
  cbn [length] in *. unfold LinkMeeting.MAX_RELATED in *. lia.
Qed.

Definition three_nodes : list Node.row :=
  map (fun i => {| Node.id := str "node-" ++ of_N i;
                   Node.data :=
                     {| Node.user_id := str "u1"; Node.node_type := decision;
                        Node.title := str "t"; Node.content := str "c";
                        Node.embedding := Some [1 # 1];
                        Node.source_meeting_id := Some (str "m1") |} |})
      [0; 1; 2]%N.

Lemma link_edges_soft_cap_witness :
  exists edges,
    fst (LinkMeeting.link_nodes busy_graph (str "u1") 15 three_nodes []
           (world_of [])) = inr edges
    /\ (length edges <= 17)%nat.
Proof.
  eexists. split; [vm_compute; reflexivity|].
  apply (link_edges_soft_cap busy_graph (str "u1") three_nodes (world_of [])
           (snd (LinkMeeting.link_nodes busy_graph (str "u1") 15 three_nodes []
                   (world_of []))));
    [discriminate | vm_compute; reflexivity].
Defined.

(** * Further properties of the handlers *)

(** ** Computations that only read *)

(** The requests that change a table of the store. *)
Definition writes_store (r : request) : bool :=
  match r with
  | InsertTranscripts _ | UpdateMeetingStatus _ _ | UpsertMeetingNote _
  | InsertActionItems _ | DeleteEdgesFrom _ | DeleteEdgesTo _ | DeleteNodes _
  | InsertNodes _ | InsertEdges _ => true
  | _ => false
  end.

(** A computation that keeps every invariant which allows the requests
    that do not write. *)
Definition reads_only {A} (m : M A) : Prop :=
  forall (on_db : database -> Prop) (on_req : request -> Prop),
    (forall r, writes_store r = false -> on_req r) ->
    preserves on_db on_req m.

Ltac read_step H :=
  step_with ltac:(apply H; reflexivity)
            ltac:(let d := fresh "d" in let Hd := fresh "Hd" in
                  intros d Hd; simpl; exact Hd).

Lemma reads_only_db {A} (m : M A) (w : world) :
  reads_only m -> db (snd (m w)) = db w.
Proof.
  intros H.
  destruct (H (fun d => d = db w) (fun _ => True) (fun _ _ => I) w w
              (holds_refl _ _ w eq_refl)) as [Hdb _].
  exact Hdb.
Qed.

Lemma reads_only_log {A} (m : M A) (w : world) :
  reads_only m ->
  exists issued, log (snd (m w)) = log w ++ issued
                 /\ Forall (fun r => writes_store r = false) issued.
Proof.
  intros H.
  destruct (H (fun _ => True) (fun r => writes_store r = false) (fun _ Hr => Hr)
              w w (holds_refl _ _ w I)) as (_ & issued & Hl & Hi).
  now exists issued.
Qed.

Lemma wait_active_reads (E : env) (fileName : jsstring) (i remaining : nat) :
  reads_only (TranscribeMeeting.wait_active E fileName i remaining).
Proof.
  intros on_db on_req H. revert i.
  induction remaining as [|k IH]; intros i; simpl.
  - repeat read_step H.
  - apply preserves_bind; [repeat read_step H|]. intros checkRes.
    destruct checkRes as [message|[] st txt [message|[s|]]];
      try apply IH; repeat read_step H.
    apply IH.
Qed.

Lemma upload_file_reads (E : env) (meetingId mime : jsstring)
    (audioBytes : list Byte.byte) :
  reads_only (TranscribeMeeting.upload_file E meetingId mime audioBytes).
Proof.
  intros on_db on_req H. unfold TranscribeMeeting.upload_file.
  apply preserves_bind; [repeat read_step H|]. intros startRes.
  apply preserves_bind; [repeat read_step H|]. intros uploadUrl.
  apply preserves_bind; [repeat read_step H|]. intros uploadRes.
  apply preserves_bind; [repeat read_step H|]. intros [fileUri fileName].
  apply preserves_bind; [|intros; repeat read_step H].
  destruct fileName as [n|]; [|repeat read_step H].
  destruct (truthy n); [|repeat read_step H].
  now apply wait_active_reads.
Qed.

Lemma transfer_audio_reads (E : env) (meetingId mime : jsstring)
    (audioBytes : list Byte.byte) :
  reads_only (TranscribeMeeting.transfer_audio E meetingId mime audioBytes).
Proof.
  intros on_db on_req H. unfold TranscribeMeeting.transfer_audio.
  destruct (_ <? _)%N; [|repeat read_step H].
  apply preserves_bind; [now apply upload_file_reads|].
  intros; repeat read_step H.
Qed.

(** Steps 1 to 4 of the transcription write nothing to the store. *)
Lemma obtain_transcript_reads (E : env) (meetingId : jsstring) :
  reads_only (TranscribeMeeting.obtain_transcript E meetingId).
Proof.
  intros on_db on_req H.
  unfold TranscribeMeeting.obtain_transcript, select_meeting.
  apply preserves_bind; [repeat read_step H|]. intros r.
  apply preserves_bind; [repeat read_step H|]. intros m.
  apply preserves_bind; [repeat read_step H|]. intros audio_path.
  apply preserves_bind; [repeat read_step H|]. intros dl.
  apply preserves_bind; [repeat read_step H|]. intros audioBytes.
  apply preserves_bind; [now apply transfer_audio_reads|]. intros [fileUri b64].
  apply preserves_bind; [repeat read_step H|]. intros res.
  apply preserves_bind; [repeat read_step H|]. intros transcript.
  repeat read_step H.
Qed.

(** ** transcribe-meeting: what a run leaves behind *)

Lemma parse_transcript_nonempty (meetingId language_code transcript : jsstring) :
  parse_transcript meetingId language_code transcript <> [].
Proof.
  unfold parse_transcript. cbv zeta.
  match goal with
  | |- context [(length ?x =? 0)%nat] => destruct x as [|s l]
  end; simpl; discriminate.
Qed.

(** The best-effort status write of a [catch]: the tables are as they were,
    or the status is written. *)
Lemma attempt_status_db (E : env) (meetingId : jsstring) (st : meeting_status)
    (w : world) :
  db (snd (attempt (update_status E meetingId st) w)) = db w
  \/ db (snd (attempt (update_status E meetingId st) w))
     = set_meetings (set_status meetingId st) (db w).
Proof.
  unfold attempt, update_status, call. simpl.
  destruct (db_fault E _ _) as [[?|?]|]; simpl; auto.
Qed.

(** Steps 5 to 7, outcome by outcome. *)
Lemma save_transcript_outcome (E : env) (meetingId : jsstring) (m : Meeting.row)
    (fileUri : option jsstring) (transcript : jsstring) (w w' : world)
    (res : jsstring + response) :
  TranscribeMeeting.save_transcript E meetingId m fileUri transcript w = (res, w') ->
  let segments := parse_transcript meetingId (Meeting.language_code m) transcript in
  meeting_notes (db w') = meeting_notes (db w)
  /\ action_items (db w') = action_items (db w)
  /\ nodes (db w') = nodes (db w)
  /\ edges (db w') = edges (db w)
  /\ match res with
     | inr r =>
         r = {| status := 200; body := BodyTranscribed (length segments) |}
         /\ transcripts (db w') = transcripts (db w) ++ segments
         /\ (meetings (db w') = meetings (db w)
             \/ meetings (db w') = set_status meetingId analyzing (meetings (db w)))
     | inl _ =>
         meetings (db w') = meetings (db w)
         /\ (transcripts (db w') = transcripts (db w)
             \/ transcripts (db w') = transcripts (db w) ++ segments)
     end.
Proof.
  unfold TranscribeMeeting.save_transcript, TranscribeMeeting.insert_segments,
    update_status.
  cbv beta iota zeta delta [bind call ret throw].
  destruct (db_fault E _ _) as [[msg|msg]|]; cbv beta iota zeta;
    try (intros H; injection H as <- <-; simpl; tauto).
  destruct (db_fault E _ _) as [[msg|msg]|]; cbv beta iota zeta;
    try (intros H; injection H as <- <-; simpl; tauto);
    destruct fileUri as [u|]; try destruct (truthy u);
      cbv beta iota zeta delta [attempt emit];
      intros H; injection H as <- <-; simpl; tauto.
Qed.

(** Once the [meeting_id] is accepted, a run of the transcription handler
    answers 200 or 500 and leaves the notes, action items, nodes and edges
    alone. With 200 it has appended exactly the parsed segments (at least
    one) and the meeting is [analyzing] unless the store refused that write;
    with 500 the segments that were there are still there and the meeting is
    [failed] unless the store refused that write. *)
Theorem transcribe_run_outcome :
  forall (E : env) (req : http_request) (meetingId : jsstring) (w : world),
    method req <> str "OPTIONS" -> body_meeting_id req = Some meetingId ->
    meetingId <> [] ->
    let r := fst (TranscribeMeeting.handler E req w) in
    let w' := snd (TranscribeMeeting.handler E req w) in
    meeting_notes (db w') = meeting_notes (db w)
    /\ action_items (db w') = action_items (db w)
    /\ nodes (db w') = nodes (db w)
    /\ edges (db w') = edges (db w)
    /\ ((status r = 200%N
         /\ (exists segments,
               segments <> []
               /\ body r = BodyTranscribed (length segments)
               /\ transcripts (db w') = transcripts (db w) ++ segments)
         /\ (meetings (db w') = meetings (db w)
             \/ meetings (db w') = set_status meetingId analyzing (meetings (db w))))
        \/ (status r = 500%N
            /\ (exists segments, transcripts (db w') = transcripts (db w) ++ segments)
            /\ (meetings (db w') = meetings (db w)
                \/ meetings (db w') = set_status meetingId failed (meetings (db w))))).
Proof.
  intros E req meetingId w Hm Hb Hne.
  unfold TranscribeMeeting.handler.
  rewrite (serve_accepted _ req meetingId w Hm Hb Hne). cbv zeta.
  unfold TranscribeMeeting.stage, guarded, TranscribeMeeting.stage_body, bind.
  pose proof (reads_only_db (TranscribeMeeting.obtain_transcript E meetingId) w
                (obtain_transcript_reads E meetingId)) as Hread.
  destruct (TranscribeMeeting.obtain_transcript E meetingId w)
    as [[e|[[m fileUri] transcript]] w1]; simpl in Hread.
  - (* steps 1 to 4 threw *)
    cbn [fst snd status].
    destruct (attempt_status_db E meetingId failed w1) as [Hs|Hs];
      rewrite Hs, ?Hread; simpl; repeat (split; trivial);
      right; (split; [reflexivity|]); (split; [exists []; now rewrite app_nil_r|]);
      auto.
  - destruct (TranscribeMeeting.save_transcript E meetingId m fileUri transcript w1)
      as [[e|r] w2] eqn:Hsave;
      apply save_transcript_outcome in Hsave; cbv zeta in Hsave;
      rewrite Hread in Hsave;
      destruct Hsave as (Hn & Ha & Hno & He & Hres).
    + destruct Hres as (Hmt & Htr). cbn [fst snd status].
      destruct (attempt_status_db E meetingId failed w2) as [Hs|Hs];
        rewrite Hs; simpl; repeat (split; trivial);
        right; (split; [reflexivity|]); rewrite Hmt;
        (split; [|auto]);
        (destruct Htr as [Htr|Htr]; rewrite Htr;
         [exists []; now rewrite app_nil_r | eexists; reflexivity]).
    + destruct Hres as (-> & Htr & Hmt). cbn [fst snd status].
      repeat (split; trivial). left. split; [reflexivity|]. split; trivial.
      eexists. split; [apply parse_transcript_nonempty|]. split; [reflexivity|].
      exact Htr.
Qed.

Lemma transcribe_run_outcome_witness :
  edges (db (snd (TranscribeMeeting.handler quiet (post (str "m1"))
                    (world_of [a_meeting processing None]))))
  = edges (db (world_of [a_meeting processing None])).
Proof.
  exact (proj1 (proj2 (proj2 (proj2
           (transcribe_run_outcome quiet (post (str "m1")) (str "m1")
              (world_of [a_meeting processing None])
              ltac:(discriminate) eq_refl ltac:(discriminate)))))).
Defined.

(** ** analyze-meeting: what a run leaves behind *)

(** Steps 4 to 6, outcome by outcome. *)
Lemma persist_outcome (E : env) (meetingId : jsstring) (analysis : Analysis.t)
    (w w' : world) (res : jsstring + response) :
  AnalyzeMeeting.persist E meetingId analysis w = (res, w') ->
  let r := AnalyzeMeeting.note_of meetingId analysis in
  let items := map (AnalyzeMeeting.action_item_of meetingId)
                   (AnalyzeMeeting.or_empty (Analysis.action_items analysis)) in
  transcripts (db w') = transcripts (db w)
  /\ nodes (db w') = nodes (db w)
  /\ edges (db w') = edges (db w)
  /\ match res with
     | inr resp =>
         status resp = 200%N
         /\ meeting_notes (db w') = AnalyzeMeeting.upsert r (meeting_notes (db w))
         /\ action_items (db w') = action_items (db w) ++ items
         /\ (meetings (db w') = meetings (db w)
             \/ meetings (db w') = set_status meetingId linking (meetings (db w)))
     | inl _ =>
         meetings (db w') = meetings (db w)
         /\ (meeting_notes (db w') = meeting_notes (db w)
             \/ meeting_notes (db w') = AnalyzeMeeting.upsert r (meeting_notes (db w)))
         /\ (action_items (db w') = action_items (db w)
             \/ action_items (db w') = action_items (db w) ++ items)
     end.
Proof.
  unfold AnalyzeMeeting.persist, AnalyzeMeeting.upsert_note,
    AnalyzeMeeting.insert_action_items, update_status.
  cbv beta iota zeta delta [bind call ret throw].
  destruct (db_fault E _ _) as [[msg|msg]|]; cbv beta iota zeta;
    try (intros H; injection H as <- <-; simpl; tauto).
  destruct (map _ _) as [|item items] eqn:Hitems; cbv beta iota zeta.
  - destruct (db_fault E _ _) as [[msg|msg]|]; cbv beta iota zeta;
      intros H; injection H as <- <-; simpl; rewrite ?app_nil_r; tauto.
  - destruct (db_fault E _ _) as [[msg|msg]|]; cbv beta iota zeta;
      try (intros H; injection H as <- <-; simpl; tauto).
    destruct (db_fault E _ _) as [[msg|msg]|]; cbv beta iota zeta;
      intros H; injection H as <- <-; simpl; tauto.
Qed.

(** Steps 1 to 3 write nothing: the body fails with the tables as they
    were, or goes on to persist an analysis from tables as they were. *)
Lemma analyze_body_outcome (E : env) (meetingId : jsstring) (w w' : world)
    (res : jsstring + response) :
  AnalyzeMeeting.stage_body E meetingId w = (res, w') ->
  (db w' = db w /\ exists e, res = inl e)
  \/ exists analysis w1,
       db w1 = db w
       /\ AnalyzeMeeting.persist E meetingId analysis w1 = (res, w').
Proof.
  unfold AnalyzeMeeting.stage_body.
  cbv beta iota zeta delta [bind call fetch emit ret throw].
  destruct (db_fault E _ _) as [[msg|msg]|]; cbv beta iota zeta;
    try (intros H; injection H as <- <-; left; simpl; eauto).
  destruct (filter _ _) as [|t ts]; cbv beta iota zeta;
    try (intros H; injection H as <- <-; left; simpl; eauto).
  destruct (generate_analysis E _ _) as [msg|[] st txt [msg|rawText]];
    cbv beta iota zeta;
    try (intros H; injection H as <- <-; left; simpl; eauto).
  destruct (AnalyzeMeeting.parse_analysis E rawText) as [analysis|].
  - intros H. right. eexists. eexists. split; [|exact H]. reflexivity.
  - intros H; injection H as <- <-; left; simpl; eauto.
Qed.

(** Once the [meeting_id] is accepted, a run of the analysis handler
    answers 200 or 500 and leaves the transcripts, nodes and edges alone.
    With 200 the note of the meeting is upserted, the action items of the
    analysis are appended and the meeting is [linking] unless the store
    refused that write; with 500 no action item that was there is lost and
    the meeting is [failed] unless the store refused that write. *)
Theorem analyze_run_outcome :
  forall (E : env) (req : http_request) (meetingId : jsstring) (w : world),
    method req <> str "OPTIONS" -> body_meeting_id req = Some meetingId ->
    meetingId <> [] ->
    let r := fst (AnalyzeMeeting.handler E req w) in
    let w' := snd (AnalyzeMeeting.handler E req w) in
    transcripts (db w') = transcripts (db w)
    /\ nodes (db w') = nodes (db w)
    /\ edges (db w') = edges (db w)
    /\ ((status r = 200%N
         /\ (exists analysis,
               meeting_notes (db w')
               = AnalyzeMeeting.upsert (AnalyzeMeeting.note_of meetingId analysis)
                   (meeting_notes (db w))
               /\ action_items (db w')
                  = action_items (db w)
                      ++ map (AnalyzeMeeting.action_item_of meetingId)
                           (AnalyzeMeeting.or_empty (Analysis.action_items analysis)))
         /\ (meetings (db w') = meetings (db w)
             \/ meetings (db w') = set_status meetingId linking (meetings (db w))))
        \/ (status r = 500%N
            /\ (exists items, action_items (db w') = action_items (db w) ++ items)
            /\ (meeting_notes (db w') = meeting_notes (db w)
                \/ exists note,
                     meeting_notes (db w')
                     = AnalyzeMeeting.upsert note (meeting_notes (db w)))
            /\ (meetings (db w') = meetings (db w)
                \/ meetings (db w') = set_status meetingId failed (meetings (db w))))).
Proof.
  intros E req meetingId w Hm Hb Hne.
  unfold AnalyzeMeeting.handler.
  rewrite (serve_accepted _ req meetingId w Hm Hb Hne). cbv zeta.
  unfold AnalyzeMeeting.stage, guarded.
  destruct (AnalyzeMeeting.stage_body E meetingId w) as [[e|resp] w1] eqn:Hbody;
    apply analyze_body_outcome in Hbody;
    destruct Hbody as [(Hdb & e' & He)|(analysis & w0 & Hdb & Hp)];
    try discriminate.
  - (* steps 1 to 3 threw *)
    cbn [fst snd status].
    destruct (attempt_status_db E meetingId failed w1) as [Hs|Hs];
      rewrite Hs, Hdb; simpl; repeat (split; trivial);
      right; (split; [reflexivity|]);
      (split; [exists []; now rewrite app_nil_r|]); auto.
  - (* the persistence threw *)
    apply persist_outcome in Hp. cbv zeta in Hp. rewrite Hdb in Hp.
    destruct Hp as (Ht & Hn & He & Hmt & Hnotes & Hitems).
    cbn [fst snd status].
    destruct (attempt_status_db E meetingId failed w1) as [Hs|Hs];
      rewrite Hs; simpl; repeat (split; trivial);
      right; (split; [reflexivity|]); rewrite Hmt;
      (split; [destruct Hitems as [Hi|Hi]; rewrite Hi;
               [exists []; now rewrite app_nil_r | eexists; reflexivity]|]);
      (split; [|auto]);
      (destruct Hnotes as [Hx|Hx]; rewrite Hx; [now left | right; eexists; reflexivity]).
  - apply persist_outcome in Hp. cbv zeta in Hp. rewrite Hdb in Hp.
    destruct Hp as (Ht & Hn & He & Hst & Hnotes & Hitems & Hmt).
    cbn [fst snd]. repeat (split; trivial). left. split; trivial.
    split; trivial. exists analysis. now split.
Qed.

Lemma analyze_run_outcome_witness :
  transcripts (db (snd (AnalyzeMeeting.handler prose_reply (post (str "m1"))
                          world_with_transcript)))
  = transcripts (db world_with_transcript).
Proof.
  exact (proj1 (analyze_run_outcome prose_reply (post (str "m1")) (str "m1")
                  world_with_transcript
                  ltac:(discriminate) eq_refl ltac:(discriminate))).
Defined.

(** ** link-meeting: what a run leaves alone *)

(** The nodes that do not come from the meeting. *)
Definition others (meetingId : jsstring) (l : list Node.row) : list Node.row :=
  filter (fun x => negb (LinkMeeting.from_meeting meetingId x)) l.

(** Every candidate node names the meeting as its source. *)
Definition sourced (meetingId : jsstring) (l : list Node.fields) : Prop :=
  Forall (fun f => Node.source_meeting_id f = Some meetingId) l.

Lemma others_idem (meetingId : jsstring) (l : list Node.row) :
  others meetingId (others meetingId l) = others meetingId l.
Proof.
  unfold others. induction l as [|x l IH]; simpl; trivial.
  destruct (negb (LinkMeeting.from_meeting meetingId x)) eqn:Hx; simpl;
    rewrite ?Hx, IH; reflexivity.
Qed.

Lemma others_app (meetingId : jsstring) (l1 l2 : list Node.row) :
  others meetingId (l1 ++ l2) = others meetingId l1 ++ others meetingId l2.
Proof. apply filter_app. Qed.

Lemma assign_ids_sourced (E : env) (meetingId : jsstring) (start : nat)
    (l : list Node.fields) :
  sourced meetingId l ->
  Forall (fun x => LinkMeeting.from_meeting meetingId x = true)
         (LinkMeeting.assign_ids E start l).
Proof.
  intros H. revert start. induction H as [|f l Hf Hl IH]; intros start; simpl;
    constructor; [|apply IH].
  unfold LinkMeeting.from_meeting. simpl. rewrite Hf. apply eqb_refl.
Qed.

Lemma others_of_meeting (meetingId : jsstring) (l : list Node.row) :
  Forall (fun x => LinkMeeting.from_meeting meetingId x = true) l ->
  others meetingId l = [].
Proof.
  unfold others. induction 1 as [|x l Hx Hl IH]; simpl; trivial.
  now rewrite Hx.
Qed.

Lemma sourced_snoc (meetingId : jsstring) (l : list Node.fields) (f : Node.fields) :
  sourced meetingId l -> Node.source_meeting_id f = Some meetingId ->
  sourced meetingId (l ++ [f]).
Proof.
  intros Hl Hf. apply Forall_app. split; trivial. now constructor.
Qed.

Lemma decision_nodes_sourced (E : env) (meetingId user_id : jsstring)
    (decisions : list jsstring) (nodesToInsert a : list Node.fields) (w w' : world) :
  sourced meetingId nodesToInsert ->
  LinkMeeting.decision_nodes E meetingId user_id decisions nodesToInsert w
  = (inr a, w') ->
  sourced meetingId a.
Proof.
  revert nodesToInsert w.
  induction decisions as [|dec rest IH]; intros nodesToInsert w Hs; simpl.
  - unfold ret. intros H. now injection H as <- _.
  - unfold bind at 1. unfold LinkMeeting.embed, bind, emit, ret. apply IH.
    now apply sourced_snoc.
Qed.

Lemma action_nodes_sourced (E : env) (meetingId user_id : jsstring)
    (actions : list ActionItem.row) (nodesToInsert a : list Node.fields)
    (w w' : world) :
  sourced meetingId nodesToInsert ->
  LinkMeeting.action_nodes E meetingId user_id actions nodesToInsert w
  = (inr a, w') ->
  sourced meetingId a.
Proof.
  revert nodesToInsert w.
  induction actions as [|act rest IH]; intros nodesToInsert w Hs; simpl.
  - unfold ret. intros H. now injection H as <- _.
  - unfold bind at 1. unfold LinkMeeting.embed, bind, emit, ret. apply IH.
    now apply sourced_snoc.
Qed.

Section LinkFrame.

Variable E : env.
Variable meetingId : jsstring.
Variable before : database.

(** The transcripts, the notes, the action items and the nodes of the other
    meetings are as they were. *)
Definition kept (d : database) : Prop :=
  transcripts d = transcripts before
  /\ meeting_notes d = meeting_notes before
  /\ action_items d = action_items before
  /\ others meetingId (nodes d) = others meetingId (nodes before).

Let keeps {A} (m : M A) : Prop := preserves kept (fun _ => True) m.

Ltac kept_tables :=
  let d := fresh "d" in
  let Ho := fresh "Ho" in
  intros d (? & ? & ? & Ho);
  unfold kept, LinkMeeting.set_edges, LinkMeeting.set_nodes;
  cbn [snd transcripts meeting_notes action_items nodes];
  repeat split; trivial;
  try (etransitivity; [apply others_idem | exact Ho]).

Ltac keep := repeat step_with ltac:(exact I) kept_tables.

Lemma embed_keeps (text : jsstring) : keeps (LinkMeeting.embed E text).
Proof. unfold keeps, LinkMeeting.embed. keep. Qed.

Lemma decision_nodes_keeps (user_id : jsstring) (decisions : list jsstring)
    (nodesToInsert : list Node.fields) :
  keeps (LinkMeeting.decision_nodes E meetingId user_id decisions nodesToInsert).
Proof.
  unfold keeps. revert nodesToInsert.
  induction decisions as [|dec rest IH]; intros nodesToInsert; simpl.
  - keep.
  - apply preserves_bind; [apply embed_keeps|]. intros decEmbed. apply IH.
Qed.

Lemma action_nodes_keeps (user_id : jsstring) (actions : list ActionItem.row)
    (nodesToInsert : list Node.fields) :
  keeps (LinkMeeting.action_nodes E meetingId user_id actions nodesToInsert).
Proof.
  unfold keeps. revert nodesToInsert.
  induction actions as [|a rest IH]; intros nodesToInsert; simpl.
  - keep.
  - apply preserves_bind; [apply embed_keeps|]. intros actEmbed. apply IH.
Qed.

Lemma link_nodes_keeps (user_id : jsstring) (cap : nat)
    (insertedNodes : list Node.row) (edgesToInsert : list Edge.row) :
  keeps (LinkMeeting.link_nodes E user_id cap insertedNodes edgesToInsert).
Proof.
  unfold keeps. revert edgesToInsert.
  induction insertedNodes as [|node rest IH]; intros edgesToInsert; simpl.
  - keep.
  - destruct (Node.embedding (Node.data node)); [|apply IH].
    apply preserves_bind; [keep|]. intros r. apply IH.
Qed.

Lemma link_body_keeps : keeps (LinkMeeting.stage_body E meetingId).
Proof.
  unfold keeps, LinkMeeting.stage_body, select_meeting.
  apply preserves_bind; [keep|]. intros r.
  apply preserves_bind; [keep|]. intros m.
  apply preserves_bind; [keep|]. intros noteRes.
  apply preserves_bind; [keep|]. intros actionsRes.
  apply preserves_bind; [keep|]. intros transcriptsRes.
  apply preserves_bind; [unfold LinkMeeting.remove_old; keep|]. intros _.
  apply preserves_bind; [apply embed_keeps|]. intros meetingEmbed.
  apply (preserves_bind_value _ _ (sourced meetingId)).
  { intros w a w'. destruct (LinkMeeting.summary_of _).
    - unfold bind, LinkMeeting.embed, emit, ret. intros H. injection H as <- _.
      repeat constructor.
    - unfold ret. intros H. injection H as <- _. repeat constructor. }
  { destruct (LinkMeeting.summary_of _); [|keep].
    apply preserves_bind; [apply embed_keeps|]. intros; keep. }
  intros nodes1 H1.
  apply (preserves_bind_value _ _ (sourced meetingId)).
  { intros w a w'. now apply decision_nodes_sourced. }
  { apply decision_nodes_keeps. }
  intros nodes2 H2.
  apply (preserves_bind_value _ _ (sourced meetingId)).
  { intros w a w'. now apply action_nodes_sourced. }
  { apply action_nodes_keeps. }
  intros nodesToInsert Hs.
  apply preserves_bind.
  { unfold LinkMeeting.insert_nodes. apply preserves_call; [exact I|].
    intros d (Ht & Hn & Ha & Ho). unfold kept. simpl.
    rewrite others_app, Ho.
    rewrite (others_of_meeting meetingId (LinkMeeting.assign_ids E _ _)).
    - rewrite app_nil_r. repeat split; trivial.
    - now apply assign_ids_sourced. }
  intros insRes.
  apply preserves_bind; [keep|]. intros insertedNodes.
  apply preserves_bind; [apply link_nodes_keeps|]. intros edgesToInsert.
  unfold LinkMeeting.insert_edges. keep.
Qed.

Lemma link_stage_keeps (w : world) :
  kept (db w) -> kept (db (snd (LinkMeeting.stage E meetingId w))).
Proof.
  intros Hw.
  apply (guarded_holds E kept (fun _ => True) meetingId done
           (LinkMeeting.stage_body E meetingId) w link_body_keeps); trivial.
  unfold update_status. keep.
Qed.

End LinkFrame.

(** A run of the linking handler writes no transcript, no note and no
    action item, and it neither adds, drops nor changes a node of another
    meeting: what it replaces are the nodes whose source is the meeting of
    the request. *)
Theorem link_run_keeps_other_meetings :
  forall (E : env) (req : http_request) (meetingId : jsstring) (w : world),
    body_meeting_id req = Some meetingId ->
    let w' := snd (LinkMeeting.handler E req w) in
    transcripts (db w') = transcripts (db w)
    /\ meeting_notes (db w') = meeting_notes (db w)
    /\ action_items (db w') = action_items (db w)
    /\ others meetingId (nodes (db w')) = others meetingId (nodes (db w)).
Proof.
  intros E req meetingId w Hb. cbv zeta.
  unfold LinkMeeting.handler, serve. rewrite Hb.
  destruct (Js.eqb (method req) (str "OPTIONS")); [simpl; auto|].
  destruct (truthy meetingId); [|simpl; auto].
  apply (link_stage_keeps E meetingId (db w) w).
  unfold kept. auto.
Qed.

Lemma link_run_keeps_other_meetings_witness :
  meeting_notes (db (snd (LinkMeeting.handler busy_graph (post (str "m1"))
                            analysed_world)))
  = meeting_notes (db analysed_world).
Proof.
  exact (proj1 (proj2
           (link_run_keeps_other_meetings busy_graph (post (str "m1")) (str "m1")
              analysed_world eq_refl))).
Defined.

(** ** link-meeting: a run on a store that serves every call *)

(** The store serves every call of the run. *)
Definition serves (E : env) : Prop := forall n r, db_fault E n r = None.

Lemma bind_call_served {A B} (E : env) (r : request)
    (op : database -> reply A * database) (k : reply A -> M B) (w : world) :
  serves E ->
  bind (call E r op) k w
  = k (fst (op (db w))) {| db := snd (op (db w)); log := log w ++ [r] |}.
Proof.
  intros Hs. unfold bind, call. rewrite Hs. destruct (op (db w)); reflexivity.
Qed.

Lemma bind_ret {A B} (a : A) (k : A -> M B) (w : world) :
  bind (ret a) k w = k a w.
Proof. reflexivity. Qed.

Lemma bind_value {A B} (m : M A) (k : A -> M B) (w w1 : world) (a : A) :
  m w = (inr a, w1) -> bind m k w = k a w1.
Proof. intros H. unfold bind. now rewrite H. Qed.

Lemma bind_embed {B} (E : env) (text : jsstring) (k : option embedding -> M B)
    (w : world) :
  bind (LinkMeeting.embed E text) k w
  = k (embed_content E (firstn 4000 text))
      {| db := db w; log := log w ++ [EmbedContent (firstn 4000 text)] |}.
Proof. reflexivity. Qed.

(** The two loops that build candidate nodes never throw; they add one
    node per element, each with the meeting as its source. *)
Lemma decision_nodes_run (E : env) (meetingId user_id : jsstring)
    (decisions : list jsstring) (nodesToInsert : list Node.fields) (w : world) :
  exists rows w1,
    LinkMeeting.decision_nodes E meetingId user_id decisions nodesToInsert w
    = (inr (nodesToInsert ++ rows), w1)
    /\ db w1 = db w /\ length rows = length decisions
    /\ sourced meetingId rows.
Proof.
  revert nodesToInsert w.
  induction decisions as [|dec rest IH]; intros nodesToInsert w; simpl.
  - exists [], w. rewrite app_nil_r. repeat split. constructor.
  - rewrite bind_embed.
    destruct (IH (nodesToInsert ++
                    [ {| Node.user_id := user_id; Node.node_type := decision;
                         Node.title := LinkMeeting.truncate_title dec;
                         Node.content := dec;
                         Node.embedding := embed_content E (firstn 4000 dec);
                         Node.source_meeting_id := Some meetingId |} ])
                 {| db := db w; log := log w ++ [EmbedContent (firstn 4000 dec)] |})
      as (rows & w1 & Heq & Hdb & Hlen & Hsrc).
    rewrite <- app_assoc in Heq. simpl in Heq.
    eexists. exists w1. split; [exact Heq|].
    split; [exact Hdb|]. split; [simpl; now rewrite Hlen|].
    constructor; trivial.
Qed.

Lemma action_nodes_run (E : env) (meetingId user_id : jsstring)
    (actions : list ActionItem.row) (nodesToInsert : list Node.fields) (w : world) :
  exists rows w1,
    LinkMeeting.action_nodes E meetingId user_id actions nodesToInsert w
    = (inr (nodesToInsert ++ rows), w1)
    /\ db w1 = db w /\ length rows = length actions
    /\ sourced meetingId rows.
Proof.
  revert nodesToInsert w.
  induction actions as [|a rest IH]; intros nodesToInsert w; simpl.
  - exists [], w. rewrite app_nil_r. repeat split. constructor.
  - rewrite bind_embed.
    destruct (IH (nodesToInsert ++
                    [ {| Node.user_id := user_id; Node.node_type := action;
                         Node.title := LinkMeeting.truncate_title (ActionItem.task a);
                         Node.content := LinkMeeting.action_text a;
                         Node.embedding :=
                           embed_content E (firstn 4000 (LinkMeeting.action_text a));
                         Node.source_meeting_id := Some meetingId |} ])
                 {| db := db w;
                    log := log w ++ [EmbedContent (firstn 4000 (LinkMeeting.action_text a))] |})
      as (rows & w1 & Heq & Hdb & Hlen & Hsrc).
    rewrite <- app_assoc in Heq. simpl in Heq.
    eexists. exists w1. split; [exact Heq|].
    split; [exact Hdb|]. split; [simpl; now rewrite Hlen|].
    constructor; trivial.
Qed.

Lemma link_nodes_served (E : env) (user_id : jsstring) (cap : nat)
    (insertedNodes : list Node.row) (edgesToInsert : list Edge.row) (w : world) :
  serves E ->
  exists batch w1,
    LinkMeeting.link_nodes E user_id cap insertedNodes edgesToInsert w
    = (inr batch, w1)
    /\ db w1 = db w.
Proof.
  intros Hs. revert edgesToInsert w.
  induction insertedNodes as [|node rest IH]; intros edgesToInsert w; simpl.
  - now exists edgesToInsert, w.
  - destruct (Node.embedding (Node.data node)) as [emb|]; [|apply IH].
    rewrite bind_call_served by exact Hs. cbn [fst snd].
    match goal with
    | |- context [LinkMeeting.link_nodes E user_id cap rest ?es ?w0] =>
        destruct (IH es w0) as (batch & w1 & Heq & Hdb)
    end.
    exists batch, w1. split; [exact Heq|]. now rewrite Hdb.
Qed.

Lemma filter_none {A} (f : A -> bool) (l : list A) :
  filter f l = [] -> filter (fun x => negb (f x)) l = l.
Proof.
  induction l as [|x l IH]; simpl; trivial.
  destruct (f x); [discriminate|]. intros H. simpl. now rewrite IH.
Qed.

Lemma filter_all {A} (l : list A) : filter (fun _ => true) l = l.
Proof. induction l as [|x l IH]; simpl; congruence. Qed.

(** The edges that touch none of the nodes [oldIds]. *)
Definition apart (oldIds : list jsstring) (e : Edge.row) : bool :=
  negb (LinkMeeting.mem (Edge.from_node e) oldIds)
  && negb (LinkMeeting.mem (Edge.to_node e) oldIds).

Lemma filter_filter {A} (f g : A -> bool) (l : list A) :
  filter g (filter f l) = filter (fun x => f x && g x) l.
Proof.
  induction l as [|x l IH]; simpl; trivial.
  destruct (f x); simpl; [destruct (g x)|]; now rewrite IH.
Qed.

(** Step 2 on a store that serves: the nodes of the meeting are gone, and
    so is every edge that touched one of them. *)
Lemma remove_old_served (E : env) (meetingId : jsstring) (w : world) :
  serves E ->
  exists w1,
    LinkMeeting.remove_old E meetingId w = (inr tt, w1)
    /\ meetings (db w1) = meetings (db w)
    /\ nodes (db w1) = others meetingId (nodes (db w))
    /\ edges (db w1)
       = filter (apart (map Node.id
                          (filter (LinkMeeting.from_meeting meetingId) (nodes (db w)))))
                (edges (db w)).
Proof.
  intros Hs. unfold LinkMeeting.remove_old.
  rewrite bind_call_served by exact Hs. cbn [fst snd db].
  destruct (filter (LinkMeeting.from_meeting meetingId) (nodes (db w)))
    as [|x xs] eqn:Hold.
  - eexists. split; [reflexivity|]. cbn [db]. split; trivial. split.
    + unfold others. now rewrite filter_none.
    + unfold apart. simpl. now rewrite filter_all.
  - repeat (rewrite bind_call_served by exact Hs; cbn [fst snd db]).
    eexists. split; [reflexivity|]. cbn [db]. unfold LinkMeeting.set_nodes,
      LinkMeeting.set_edges. cbn [meetings nodes edges].
    split; trivial. split; trivial.
    rewrite filter_filter. reflexivity.
Qed.


Lemma assign_ids_length (E : env) (start : nat) (l : list Node.fields) :
  length (LinkMeeting.assign_ids E start l) = length l.
Proof. revert start. induction l as [|f l IH]; intros start; simpl; auto. Qed.

Lemma link_body_served (E : env) (meetingId : jsstring) (w : world) (m : Meeting.row) :
  serves E ->
  filter (fun x => Js.eqb (Meeting.id x) meetingId) (meetings (db w)) = [m] ->
  let n := match filter (fun x => Js.eqb (MeetingNote.meeting_id x) meetingId)
                        (meeting_notes (db w)) with
           | [x] => Some x
           | _ => None
           end in
  let actions := filter (fun a => Js.eqb (ActionItem.meeting_id a) meetingId)
                        (action_items (db w)) in
  let oldIds := map Node.id
                    (filter (LinkMeeting.from_meeting meetingId) (nodes (db w))) in
  exists rows batch w',
    LinkMeeting.stage_body E meetingId w
    = (inr {| status := 200; body := BodyLinked (length rows) (length batch) |}, w')
    /\ length rows
       = (1 + (match LinkMeeting.summary_of n with Some _ => 1 | None => 0 end)
          + length (match n with Some x => MeetingNote.decisions x | None => [] end)
          + length actions)%nat
    /\ Forall (fun x => LinkMeeting.from_meeting meetingId x = true) rows
    /\ nodes (db w') = others meetingId (nodes (db w)) ++ rows
    /\ edges (db w') = filter (apart oldIds) (edges (db w)) ++ batch
    /\ meetings (db w') = set_status meetingId done (meetings (db w)).
Proof.
  intros Hs Hm n actions oldIds.
  unfold LinkMeeting.stage_body, select_meeting.
  rewrite bind_call_served by exact Hs. cbn [fst snd db]. rewrite Hm, bind_ret.
  do 3 (rewrite bind_call_served by exact Hs; cbn [fst snd db]).
  assert (Hn : forall message : jsstring,
             match
               match filter (fun x => Js.eqb (MeetingNote.meeting_id x) meetingId)
                            (meeting_notes (db w)) with
               | [] => Data None
               | [x] => Data (Some x)
               | _ :: _ :: _ => Error message
               end
             with
             | Data x => x
             | Error _ => None
             end = n).
  { intros message. subst n.
    destruct (filter _ (meeting_notes (db w))) as [|x [|y l]]; reflexivity. }
  rewrite !Hn. fold actions.
  match goal with
  | |- context [bind (LinkMeeting.remove_old E meetingId) ?k ?w0] =>
      destruct (remove_old_served E meetingId w0 Hs) as (w1 & Heq & Hmt & Hnd & Hed);
      rewrite (bind_value _ k w0 w1 tt Heq); clear Heq
  end.
  cbn [db] in Hmt, Hnd, Hed. fold oldIds in Hed.
  rewrite bind_embed.
  (* the meeting node and the summary node *)
  lazymatch goal with
  | |- exists rows batch w', bind ?m1 ?k ?w0 = _ /\ _ =>
      assert (H1 : exists nodes1 w2,
                 m1 w0 = (inr nodes1, w2) /\ db w2 = db w1
                 /\ sourced meetingId nodes1
                 /\ length nodes1
                    = (1 + match LinkMeeting.summary_of n with
                           | Some _ => 1 | None => 0 end)%nat)
  end.
  { destruct (LinkMeeting.summary_of n) as [s|].
    - rewrite bind_embed. eexists. eexists. split; [reflexivity|].
      split; [reflexivity|]. split; [|reflexivity].
      repeat constructor.
    - eexists. eexists. split; [reflexivity|].
      split; [reflexivity|]. split; [|reflexivity]. repeat constructor. }
  destruct H1 as (nodes1 & w2 & Heq & Hdb2 & Hsrc1 & Hlen1).
  rewrite (bind_value _ _ _ _ _ Heq). clear Heq.
  (* the decision nodes *)
  lazymatch goal with
  | |- exists rows batch w', bind (LinkMeeting.decision_nodes _ _ ?u ?ds ?acc) ?k ?w0 = _ /\ _ =>
      destruct (decision_nodes_run E meetingId u ds acc w0)
        as (drows & w3 & Heq & Hdb3 & Hlen2 & Hsrc2)
  end.
  rewrite (bind_value _ _ _ _ _ Heq). clear Heq.
  (* the action nodes *)
  lazymatch goal with
  | |- exists rows batch w', bind (LinkMeeting.action_nodes _ _ ?u ?acts ?acc) ?k ?w0 = _ /\ _ =>
      destruct (action_nodes_run E meetingId u acts acc w0)
        as (arows & w4 & Heq & Hdb4 & Hlen3 & Hsrc3)
  end.
  rewrite (bind_value _ _ _ _ _ Heq). clear Heq.
  (* 4. Saving nodes *)
  unfold LinkMeeting.insert_nodes.
  rewrite bind_call_served by exact Hs. cbn [fst snd db]. rewrite bind_ret.
  (* 5. Finding related nodes *)
  lazymatch goal with
  | |- exists rows batch w', bind (LinkMeeting.link_nodes _ ?u ?cap ?ins ?es) ?k ?w0 = _ /\ _ =>
      destruct (link_nodes_served E u cap ins es w0 Hs) as (batch & w5 & Heq & Hdb5)
  end.
  rewrite (bind_value _ _ _ _ _ Heq). clear Heq. cbn [db] in Hdb5.
  (* 6. Saving edges *)
  lazymatch goal with
  | |- exists rows batch w', bind ?m6 ?k ?w0 = _ /\ _ =>
      assert (H6 : exists w6,
                 m6 w0 = (inr tt, w6)
                 /\ meetings (db w6) = meetings (db w5)
                 /\ nodes (db w6) = nodes (db w5)
                 /\ edges (db w6) = edges (db w5) ++ batch)
  end.
  { destruct batch as [|e es].
    - exists w5. rewrite app_nil_r. now repeat split.
    - unfold LinkMeeting.insert_edges.
      rewrite bind_call_served by exact Hs. cbn [fst snd db].
      eexists. split; [reflexivity|]. now repeat split. }
  destruct H6 as (w6 & Heq & Hmt6 & Hnd6 & Hed6).
  rewrite (bind_value _ _ _ _ _ Heq). clear Heq.
  (* 7. Updating status to done *)
  unfold update_status.
  rewrite bind_call_served by exact Hs. cbn [fst snd db].
  eexists. exists batch. eexists. split; [reflexivity|].
  cbn [db set_meetings meetings nodes edges].
  rewrite Hmt6, Hnd6, Hed6, Hdb5. unfold LinkMeeting.set_nodes.
  cbn [meetings nodes edges].
  rewrite Hdb4, Hdb3, Hdb2. cbn [db]. rewrite Hmt, Hnd, Hed.
  split.
  { rewrite assign_ids_length, !length_app, Hlen1, Hlen2, Hlen3. lia. }
  split.
  { apply assign_ids_sourced. apply Forall_app. split; trivial.
    apply Forall_app. now split. }
  repeat split.
Qed.

Lemma from_meeting_others (meetingId : jsstring) (l : list Node.row) :
  filter (LinkMeeting.from_meeting meetingId) (others meetingId l) = [].
Proof.
  unfold others. induction l as [|x l IH]; simpl; trivial.
  destruct (LinkMeeting.from_meeting meetingId x) eqn:Hx; simpl; trivial.
  now rewrite Hx.
Qed.

Lemma from_meeting_all (meetingId : jsstring) (l : list Node.row) :
  Forall (fun x => LinkMeeting.from_meeting meetingId x = true) l ->
  filter (LinkMeeting.from_meeting meetingId) l = l.
Proof.
  induction 1 as [|x l Hx Hl IH]; simpl; trivial. now rewrite Hx, IH.
Qed.

(** On a store that serves every call, linking a meeting that exists
    always succeeds and replaces the meeting's part of the graph: the answer
    is 200 and counts one meeting node, one summary node when the note has a
    summary, one node per decision and one per action item; the nodes of the
    meeting are exactly those new rows, the other nodes are as they were;
    every edge that touched an old node of the meeting is gone and the new
    edges are appended; the meeting is [done]. *)
Theorem link_run_replaces_graph :
  forall (E : env) (req : http_request) (meetingId : jsstring) (w : world)
         (m : Meeting.row),
    method req <> str "OPTIONS" -> body_meeting_id req = Some meetingId ->
    meetingId <> [] ->
    serves E ->
    filter (fun x => Js.eqb (Meeting.id x) meetingId) (meetings (db w)) = [m] ->
    let r := fst (LinkMeeting.handler E req w) in
    let w' := snd (LinkMeeting.handler E req w) in
    let n := match filter (fun x => Js.eqb (MeetingNote.meeting_id x) meetingId)
                          (meeting_notes (db w)) with
             | [x] => Some x
             | _ => None
             end in
    let actions := filter (fun a => Js.eqb (ActionItem.meeting_id a) meetingId)
                          (action_items (db w)) in
    let oldIds := map Node.id
                      (filter (LinkMeeting.from_meeting meetingId) (nodes (db w))) in
    exists rows batch,
      r = {| status := 200; body := BodyLinked (length rows) (length batch) |}
      /\ length rows
         = (1 + (match LinkMeeting.summary_of n with Some _ => 1 | None => 0 end)
            + length (match n with Some x => MeetingNote.decisions x | None => [] end)
            + length actions)%nat
      /\ filter (LinkMeeting.from_meeting meetingId) (nodes (db w')) = rows
      /\ others meetingId (nodes (db w')) = others meetingId (nodes (db w))
      /\ edges (db w') = filter (apart oldIds) (edges (db w)) ++ batch
      /\ meetings (db w') = set_status meetingId done (meetings (db w)).
Proof.
  intros E req meetingId w m Hm Hb Hne Hs Hrow.
  unfold LinkMeeting.handler.
  rewrite (serve_accepted _ req meetingId w Hm Hb Hne). cbv zeta.
  destruct (link_body_served E meetingId w m Hs Hrow)
    as (rows & batch & w' & Heq & Hlen & Hfrom & Hnodes & Hedges & Hmt).
  exists rows, batch.
  unfold LinkMeeting.stage, guarded. rewrite Heq. cbn [fst snd].
  split; [reflexivity|]. split; [exact Hlen|].
  rewrite Hnodes. split; [|split; [|now split]].
  - now rewrite filter_app, from_meeting_others, from_meeting_all.
  - rewrite others_app, others_idem, (others_of_meeting meetingId rows Hfrom).
    apply app_nil_r.
Qed.

Lemma link_run_replaces_graph_witness :
  meetings (db (snd (LinkMeeting.handler busy_graph (post (str "m1")) analysed_world)))
  = set_status (str "m1") done (meetings (db analysed_world)).
Proof.
  destruct (link_run_replaces_graph busy_graph (post (str "m1")) (str "m1")
              analysed_world (a_meeting linking (Some (str "u1/m1.m4a")))
              ltac:(discriminate) eq_refl ltac:(discriminate)
              (fun _ _ => eq_refl) eq_refl)
    as (rows & batch & _ & _ & _ & _ & _ & H).
  exact H.
Defined.

Lemma filter_set_status (meetingId : jsstring) (st : meeting_status)
    (ms : list Meeting.row) :
  filter (fun x => Js.eqb (Meeting.id x) meetingId) (set_status meetingId st ms)
  = set_status meetingId st
      (filter (fun x => Js.eqb (Meeting.id x) meetingId) ms).
Proof.
  unfold set_status. induction ms as [|x ms IH]; simpl; trivial.
  destruct (Js.eqb (Meeting.id x) meetingId) eqn:Hx; simpl; rewrite Hx, IH; trivial.
Qed.

(** Linking the same meeting again does not pile up nodes: on stores that
    serve every call, the meeting has as many nodes after the second run as
    after the first (the counts the two answers give are equal), and the
    nodes of the other meetings are still those of the start. *)
Theorem link_rerun_same_node_count :
  forall (E1 E2 : env) (req : http_request) (meetingId : jsstring) (w : world)
         (m : Meeting.row),
    method req <> str "OPTIONS" -> body_meeting_id req = Some meetingId ->
    meetingId <> [] ->
    serves E1 -> serves E2 ->
    filter (fun x => Js.eqb (Meeting.id x) meetingId) (meetings (db w)) = [m] ->
    let w1 := snd (LinkMeeting.handler E1 req w) in
    let r2 := fst (LinkMeeting.handler E2 req w1) in
    let w2 := snd (LinkMeeting.handler E2 req w1) in
    length (filter (LinkMeeting.from_meeting meetingId) (nodes (db w2)))
    = length (filter (LinkMeeting.from_meeting meetingId) (nodes (db w1)))
    /\ others meetingId (nodes (db w2)) = others meetingId (nodes (db w))
    /\ exists edges_count,
         r2 = {| status := 200;
                 body := BodyLinked
                           (length (filter (LinkMeeting.from_meeting meetingId)
                                           (nodes (db w1))))
                           edges_count |}.
Proof.
  intros E1 E2 req meetingId w m Hm Hb Hne Hs1 Hs2 Hrow.
  unfold LinkMeeting.handler.
  rewrite (serve_accepted _ req meetingId w Hm Hb Hne).
  rewrite (serve_accepted _ req meetingId _ Hm Hb Hne). cbv zeta.
  pose proof (link_stage_keeps E1 meetingId (db w) w
                (conj eq_refl (conj eq_refl (conj eq_refl eq_refl))))
    as (_ & Hnotes & Hitems & _).
  destruct (link_body_served E1 meetingId w m Hs1 Hrow)
    as (rows1 & batch1 & w1 & Heq1 & Hlen1 & Hfrom1 & Hnodes1 & _ & Hmt1).
  unfold LinkMeeting.stage, guarded in *. rewrite Heq1 in *. cbn [fst snd] in *.
  assert (Hrow1 : filter (fun x => Js.eqb (Meeting.id x) meetingId) (meetings (db w1))
                  = set_status meetingId done [m]).
  { now rewrite Hmt1, filter_set_status, Hrow. }
  destruct (link_body_served E2 meetingId w1 _ Hs2 Hrow1)
    as (rows2 & batch2 & w2 & Heq2 & Hlen2 & Hfrom2 & Hnodes2 & _ & _).
  rewrite Heq2. cbn [fst snd].
  rewrite Hnotes, Hitems in Hlen2. rewrite <- Hlen1 in Hlen2.
  assert (Hcount : forall l rows,
             Forall (fun x => LinkMeeting.from_meeting meetingId x = true) rows ->
             filter (LinkMeeting.from_meeting meetingId) (others meetingId l ++ rows)
             = rows).
  { intros l rows Hf. now rewrite filter_app, from_meeting_others, from_meeting_all. }
  rewrite Hnodes2, Hnodes1, !Hcount by trivial.
  split; [exact Hlen2|]. split.
  - rewrite !others_app, !others_idem,
      (others_of_meeting meetingId rows1 Hfrom1),
      (others_of_meeting meetingId rows2 Hfrom2).
    now rewrite !app_nil_r.
  - exists (length batch2). now rewrite Hlen2.
Qed.

Lemma link_rerun_same_node_count_witness :
  others (str "m1")
    (nodes (db (snd (LinkMeeting.handler busy_graph (post (str "m1"))
                       (snd (LinkMeeting.handler busy_graph (post (str "m1"))
                               analysed_world))))))
  = others (str "m1") (nodes (db analysed_world)).
Proof.
  exact (proj1 (proj2
           (link_rerun_same_node_count busy_graph busy_graph (post (str "m1"))
              (str "m1") analysed_world (a_meeting linking (Some (str "u1/m1.m4a")))
              ltac:(discriminate) eq_refl ltac:(discriminate)
              (fun _ _ => eq_refl) (fun _ _ => eq_refl) eq_refl))).
Defined.

(** ** link-meeting: the rows of an edge batch *)

Section EdgeRows.

Variable E : env.
Variable P : Edge.row -> Prop.

(** [P] holds of the edge to any neighbour a search can give. *)
Hypothesis new_edge_ok :
  forall (node : Node.row) (emb : embedding) (user_id : jsstring) (k : nat)
         (th : Q) (m : Match.row),
    In m (search_nodes E emb user_id k th) -> Match.id m <> Node.id node ->
    P (LinkMeeting.new_edge node m).

Lemma link_nodes_all (user_id : jsstring) (cap : nat)
    (insertedNodes : list Node.row) (edgesToInsert batch : list Edge.row)
    (w w' : world) :
  Forall P edgesToInsert ->
  LinkMeeting.link_nodes E user_id cap insertedNodes edgesToInsert w
  = (inr batch, w') ->
  Forall P batch.
Proof.
  revert edgesToInsert w.
  induction insertedNodes as [|node rest IH]; intros edgesToInsert w Hp; simpl.
  - unfold ret. intros H. now injection H as <- _.
  - destruct (Node.embedding (Node.data node)) as [emb|]; [|now apply IH].
    unfold bind, call.
    destruct (db_fault E _ _) as [[message|message]|]; simpl;
      try discriminate; apply IH; trivial.
    apply Forall_forall. intros e He.
    apply link_matches_edges in He as [He|(m & Hin & Hne & ->)].
    + rewrite Forall_forall in Hp. now apply Hp.
    + eapply new_edge_ok; eassumption.
Qed.

Definition rows_req (r : request) : Prop :=
  forall batch, r = InsertEdges batch -> Forall P batch.

Let ok {A} (m : M A) : Prop := preserves (fun _ => True) rows_req m.

Ltac no_batch := let H := fresh "H" in intros ? H; discriminate H.

Ltac pass := repeat step_with no_batch ltac:(intros; exact I).

Lemma link_nodes_rows (user_id : jsstring) (cap : nat)
    (insertedNodes : list Node.row) (edgesToInsert : list Edge.row) :
  ok (LinkMeeting.link_nodes E user_id cap insertedNodes edgesToInsert).
Proof.
  unfold ok. revert edgesToInsert.
  induction insertedNodes as [|node rest IH]; intros edgesToInsert; simpl.
  - pass.
  - destruct (Node.embedding (Node.data node)); [|apply IH].
    apply preserves_bind; [pass|]. intros r. apply IH.
Qed.

Lemma decision_nodes_rows (meetingId user_id : jsstring) (decisions : list jsstring)
    (nodesToInsert : list Node.fields) :
  ok (LinkMeeting.decision_nodes E meetingId user_id decisions nodesToInsert).
Proof.
  unfold ok. revert nodesToInsert.
  induction decisions as [|dec rest IH]; intros nodesToInsert; simpl.
  - pass.
  - apply preserves_bind; [unfold LinkMeeting.embed; pass|].
    intros decEmbed. apply IH.
Qed.

Lemma action_nodes_rows (meetingId user_id : jsstring) (actions : list ActionItem.row)
    (nodesToInsert : list Node.fields) :
  ok (LinkMeeting.action_nodes E meetingId user_id actions nodesToInsert).
Proof.
  unfold ok. revert nodesToInsert.
  induction actions as [|a rest IH]; intros nodesToInsert; simpl.
  - pass.
  - apply preserves_bind; [unfold LinkMeeting.embed; pass|].
    intros actEmbed. apply IH.
Qed.

Lemma link_body_rows (meetingId : jsstring) :
  ok (LinkMeeting.stage_body E meetingId).
Proof.
  unfold ok, LinkMeeting.stage_body, select_meeting.
  apply preserves_bind; [pass|]. intros r.
  apply preserves_bind; [pass|]. intros m.
  apply preserves_bind; [pass|]. intros noteRes.
  apply preserves_bind; [pass|]. intros actionsRes.
  apply preserves_bind; [pass|]. intros transcriptsRes.
  apply preserves_bind; [unfold LinkMeeting.remove_old; pass|]. intros _.
  apply preserves_bind; [unfold LinkMeeting.embed; pass|]. intros meetingEmbed.
  apply preserves_bind.
  { destruct (LinkMeeting.summary_of _); unfold LinkMeeting.embed; pass. }
  intros nodes1.
  apply preserves_bind; [apply decision_nodes_rows|]. intros nodes2.
  apply preserves_bind; [apply action_nodes_rows|]. intros nodesToInsert.
  apply preserves_bind; [unfold LinkMeeting.insert_nodes; pass|].
  intros insRes.
  apply preserves_bind; [pass|]. intros insertedNodes.
  apply (preserves_bind_value _ _ (Forall P)).
  - intros w batch w' H. now apply link_nodes_all in H.
  - apply link_nodes_rows.
  - intros edgesToInsert Hp.
    apply preserves_bind; [|intros; pass].
    destruct edgesToInsert as [|e es]; [pass|].
    apply preserves_bind; [|intros; pass].
    unfold LinkMeeting.insert_edges. apply preserves_call.
    + intros batch H. injection H as <-. exact Hp.
    + intros; exact I.
Qed.

Lemma link_stage_rows (meetingId : jsstring) (w : world) :
  holds (fun _ => True) rows_req w (snd (LinkMeeting.stage E meetingId w)).
Proof.
  apply guarded_holds; trivial.
  - apply link_body_rows.
  - unfold update_status. pass.
Qed.

End EdgeRows.

Lemma relation_of_no_contradiction (a b : node_type) (similarity : Q) :
  LinkMeeting.relation_of a b similarity <> contradicts.
Proof.
  unfold LinkMeeting.relation_of.
  destruct (_ && _); [discriminate|].
  destruct (_ && _); [|discriminate].
  destruct (LinkMeeting.gt _ _); discriminate.
Qed.

Lemma strength_of_range (similarity : Q) :
  0 <= similarity -> similarity <= 1 ->
  0 <= LinkMeeting.strength_of similarity
  /\ LinkMeeting.strength_of similarity <= 1.
Proof.
  intros Hlo Hhi.
  destruct (strength_of_shape similarity Hlo Hhi)
    as (_ & _ & _ & _ & _ & H0 & H1 & _).
  now split.
Qed.

(** Every edge a run of the linking handler sends to the store joins two
    different nodes and has a relation other than [contradicts], whatever
    the search reports; and when the search reports similarities between 0
    and 1, the strength of every edge of every batch lies between 0 and 1,
    as the [edges] table checks. *)
Theorem link_edges_pass_table_checks :
  forall (E : env) (req : http_request) (w : world),
    exists issued,
      log (snd (LinkMeeting.handler E req w)) = log w ++ issued
      /\ (forall batch e,
             In (InsertEdges batch) issued -> In e batch ->
             Edge.from_node e <> Edge.to_node e
             /\ Edge.relation e <> contradicts)
      /\ ((forall emb user_id k th m,
              In m (search_nodes E emb user_id k th) ->
              0 <= Match.similarity m /\ Match.similarity m <= 1) ->
          forall batch e,
            In (InsertEdges batch) issued -> In e batch ->
            0 <= Edge.strength e /\ Edge.strength e <= 1).
Proof.
  intros E req w.
  assert (Hnone : exists issued,
             log w = log w ++ issued
             /\ (forall batch e,
                    In (InsertEdges batch) issued -> In e batch ->
                    Edge.from_node e <> Edge.to_node e
                    /\ Edge.relation e <> contradicts)
             /\ ((forall emb user_id k th m,
                     In m (search_nodes E emb user_id k th) ->
                     0 <= Match.similarity m /\ Match.similarity m <= 1) ->
                 forall batch e,
                   In (InsertEdges batch) issued -> In e batch ->
                   0 <= Edge.strength e /\ Edge.strength e <= 1)).
  { exists []. split; [now rewrite app_nil_r|].
    split; [intros batch e []|intros _ batch e []]. }
  unfold LinkMeeting.handler, serve.
  destruct (Js.eqb (method req) (str "OPTIONS")); [exact Hnone|].
  destruct (body_meeting_id req) as [meetingId|]; [|exact Hnone].
  destruct (truthy meetingId); [|exact Hnone].
  destruct (link_stage_rows E
              (fun e => Edge.from_node e <> Edge.to_node e
                        /\ Edge.relation e <> contradicts))
    with (meetingId := meetingId) (w := w) as (_ & issued & Hlog & Hreq).
  { intros node emb user_id k th m Hin Hne. simpl.
    split; [congruence|apply relation_of_no_contradiction]. }
  exists issued. split; [exact Hlog|]. split.
  - intros batch e Hb He.
    rewrite Forall_forall in Hreq. specialize (Hreq _ Hb batch eq_refl).
    rewrite Forall_forall in Hreq. now apply Hreq.
  - intros Hsim.
    destruct (link_stage_rows E
                (fun e => 0 <= Edge.strength e /\ Edge.strength e <= 1))
      with (meetingId := meetingId) (w := w) as (_ & issued' & Hlog' & Hreq').
    { intros node emb user_id k th m Hin Hne. simpl.
      destruct (Hsim _ _ _ _ _ Hin). now apply strength_of_range. }
    rewrite Hlog in Hlog'. apply app_inv_head in Hlog'. subst issued'.
    intros batch e Hb He.
    rewrite Forall_forall in Hreq'. specialize (Hreq' _ Hb batch eq_refl).
    rewrite Forall_forall in Hreq'. now apply Hreq'.
Qed.

(** On the busy graph: one batch of sixteen edges is sent, and its edges
    pass the three checks. *)
Lemma link_edges_pass_table_checks_witness :
  exists issued batch,
    log (snd (LinkMeeting.handler busy_graph (post (str "m1")) analysed_world))
    = log analysed_world ++ issued
    /\ In (InsertEdges batch) issued /\ length batch = 16%nat
    /\ forall e,
         In e batch ->
         Edge.from_node e <> Edge.to_node e
         /\ Edge.relation e <> contradicts
         /\ 0 <= Edge.strength e /\ Edge.strength e <= 1.
Proof.
  destruct (link_edges_pass_table_checks busy_graph (post (str "m1"))
              analysed_world) as (issued & Hlog & Hpair & Hstrength).
  exists issued.
  assert (Hsim : forall emb user_id k th m,
             In m (search_nodes busy_graph emb user_id k th) ->
             0 <= Match.similarity m /\ Match.similarity m <= 1).
  { intros emb user_id k th m Hin. unfold busy_graph, earlier_nodes in Hin.
    cbn [search_nodes] in Hin. apply in_map_iff in Hin as (i & <- & _).
    split; discriminate. }
  assert (Hbatch : exists batch,
             In (InsertEdges batch) issued /\ length batch = 16%nat).
  { clear Hpair Hstrength Hsim. revert Hlog. vm_compute. intros <-.
    eexists. split.
    - repeat (first [left; reflexivity | right]).
    - reflexivity. }
  destruct Hbatch as (batch & Hin & Hlen).
  exists batch. split; [exact Hlog|]. split; [exact Hin|]. split; [exact Hlen|].
  intros e He. destruct (Hpair batch e Hin He) as [H1 H2].
  destruct (Hstrength Hsim batch e Hin He) as [H3 H4]. auto.
Defined.

(** ** analyze-meeting: the rows of a batch of action items *)

(** What the [action_items] table checks of a row, and what the handler
    puts in it besides. *)
Definition item_passes (meetingId : jsstring) (a : ActionItem.row) : Prop :=
  ActionItem.meeting_id a = meetingId
  /\ (ActionItem.priority a = str "high" \/ ActionItem.priority a = str "medium"
      \/ ActionItem.priority a = str "low")
  /\ ActionItem.status a = str "open"
  /\ ActionItem.deadline a <> Some [].

Lemma action_item_passes (meetingId : jsstring) (item : Analysis.item) :
  item_passes meetingId (AnalyzeMeeting.action_item_of meetingId item).
Proof.
  unfold item_passes, AnalyzeMeeting.action_item_of. simpl.
  split; trivial. split; [|split; trivial].
  - destruct (AnalyzeMeeting.is_priority (Analysis.priority item)) eqn:Hp; auto.
    unfold AnalyzeMeeting.is_priority in Hp.
    apply orb_true_iff in Hp as [Hp|Hp]; [apply orb_true_iff in Hp as [Hp|Hp]|];
      apply eqb_eq in Hp; auto.
  - destruct (Analysis.deadline item) as [dl|]; [|discriminate].
    destruct dl; simpl; discriminate.
Qed.

Section ItemBatches.

Variable E : env.
Variable meetingId : jsstring.

Definition items_req (r : request) : Prop :=
  (forall batch, r = InsertActionItems batch ->
                 batch <> [] /\ Forall (item_passes meetingId) batch)
  /\ (forall n, r = UpsertMeetingNote n ->
                MeetingNote.meeting_id n = meetingId
                /\ MeetingNote.model_version n = str "gemini-2.5-flash").

Ltac other_req :=
  split; [ let H := fresh "H" in intros ? H; discriminate H
         | let H := fresh "H" in intros ? H; discriminate H ].

Ltac pass := repeat step_with other_req ltac:(intros; exact I).

Lemma persist_items (analysis : Analysis.t) :
  preserves (fun _ => True) items_req (AnalyzeMeeting.persist E meetingId analysis).
Proof.
  unfold AnalyzeMeeting.persist.
  apply preserves_bind.
  { unfold AnalyzeMeeting.upsert_note. apply preserves_call; [|intros; exact I].
    split; [intros ? H; discriminate H|].
    intros n H. injection H as <-. now split. }
  intros noteRes. apply preserves_bind; [pass|]. intros _.
  cbv zeta. apply preserves_bind; [|intros; unfold update_status; pass].
  destruct (map _ _) as [|a l] eqn:Hmap; [pass|].
  apply preserves_bind; [|intros; pass].
  unfold AnalyzeMeeting.insert_action_items.
  apply preserves_call; [|intros; exact I].
  split; [|intros ? H; discriminate H].
  intros batch H. injection H as <-. split; [discriminate|].
  rewrite <- Hmap. apply Forall_forall. intros x Hx.
  apply in_map_iff in Hx as (item & <- & _). apply action_item_passes.
Qed.

Lemma analyze_body_items :
  preserves (fun _ => True) items_req (AnalyzeMeeting.stage_body E meetingId).
Proof.
  unfold AnalyzeMeeting.stage_body.
  apply preserves_bind; [pass|]. intros r.
  apply preserves_bind; [pass|]. intros [first rows].
  apply preserves_bind; [pass|]. intros res.
  apply preserves_bind; [pass|]. intros rawText.
  destruct (AnalyzeMeeting.parse_analysis E rawText) as [analysis|].
  - apply persist_items.
  - apply preserves_throw.
Qed.

Lemma analyze_stage_items (w : world) :
  holds (fun _ => True) items_req w (snd (AnalyzeMeeting.stage E meetingId w)).
Proof.
  apply guarded_holds; trivial.
  - apply analyze_body_items.
  - unfold update_status. pass.
Qed.

End ItemBatches.

(** Every row an analysis run sends to the store belongs to the meeting of
    the request and passes the checks of its table: a batch of action items
    is never empty, each of its rows has a priority among high, medium and
    low (whatever priority the model gave), the status [open], and a
    deadline that is a non-empty text or null; the note names the meeting
    and the model. *)
Theorem analyze_rows_pass_table_checks :
  forall (E : env) (req : http_request) (w : world),
  exists issued,
    log (snd (AnalyzeMeeting.handler E req w)) = log w ++ issued
    /\ (forall batch,
          In (InsertActionItems batch) issued ->
          batch <> []
          /\ forall a, In a batch ->
               body_meeting_id req = Some (ActionItem.meeting_id a)
               /\ (ActionItem.priority a = str "high"
                   \/ ActionItem.priority a = str "medium"
                   \/ ActionItem.priority a = str "low")
               /\ ActionItem.status a = str "open"
               /\ ActionItem.deadline a <> Some [])
    /\ (forall n,
          In (UpsertMeetingNote n) issued ->
          body_meeting_id req = Some (MeetingNote.meeting_id n)
          /\ MeetingNote.model_version n = str "gemini-2.5-flash").
Proof.
  intros E req w.
  assert (Hnone : exists issued : list request,
             log w = log w ++ issued
             /\ (forall batch,
                   In (InsertActionItems batch) issued ->
                   batch <> []
                   /\ forall a, In a batch ->
                        body_meeting_id req = Some (ActionItem.meeting_id a)
                        /\ (ActionItem.priority a = str "high"
                            \/ ActionItem.priority a = str "medium"
                            \/ ActionItem.priority a = str "low")
                        /\ ActionItem.status a = str "open"
                        /\ ActionItem.deadline a <> Some [])
             /\ (forall n,
                   In (UpsertMeetingNote n) issued ->
                   body_meeting_id req = Some (MeetingNote.meeting_id n)
                   /\ MeetingNote.model_version n = str "gemini-2.5-flash")).
  { exists []. split; [now rewrite app_nil_r|]. split; intros ? []. }
  unfold AnalyzeMeeting.handler, serve.
  destruct (Js.eqb (method req) (str "OPTIONS")); [exact Hnone|].
  destruct (body_meeting_id req) as [meetingId|]; [|exact Hnone].
  destruct (truthy meetingId); [|exact Hnone].
  destruct (analyze_stage_items E meetingId w) as (_ & issued & Hlog & Hreq).
  rewrite Forall_forall in Hreq.
  exists issued. split; [exact Hlog|]. split.
  - intros batch Hin. destruct (proj1 (Hreq _ Hin) batch eq_refl) as [Hne Hall].
    split; [exact Hne|]. intros a Ha. rewrite Forall_forall in Hall.
    destruct (Hall a Ha) as (Hid & Hrest). now rewrite Hid.
  - intros n Hin. destruct (proj2 (Hreq _ Hin) n eq_refl) as [Hid Hv].
    now rewrite Hid.
Qed.

(** ** transcribe-meeting: the rows of a batch of segments *)

Lemma trimStart_incl (s : jsstring) (c : N) : In c (trimStart s) -> In c s.
Proof.
  induction s as [|x s IH]; simpl; trivial.
  destruct (isWhiteSpace x); simpl; auto.
Qed.

Lemma trim_incl (s : jsstring) (c : N) : In c (trim s) -> In c s.
Proof.
  unfold trim, trimEnd. intros H.
  apply in_rev in H. apply trimStart_incl in H. apply in_rev in H.
  now apply trimStart_incl.
Qed.

(** No piece of a split holds the separator. *)
Lemma split_pieces (sep : N) (s p : jsstring) :
  In p (split sep s) -> ~ In sep p.
Proof.
  revert p. induction s as [|c s IH]; intros p; simpl.
  - intros [<-|[]] [].
  - destruct (c =? sep)%N eqn:Hc.
    + intros [<-|H]; [intros []|now apply IH].
    + apply N.eqb_neq in Hc.
      destruct (split sep s) as [|h t] eqn:Hs.
      * intros [<-|[]] [H|[]]. congruence.
      * intros [<-|H].
        -- intros [H|H]; [congruence|]. apply (IH h); simpl; auto.
        -- apply IH. simpl. auto.
Qed.

Lemma spells_length (ic : bool) (pat m : jsstring) :
  spells ic pat m -> length m = length pat.
Proof. induction 1; simpl; congruence. Qed.

(** What the handler puts in a segment. *)
Definition segment_passes (meetingId language_code : jsstring) (s : Transcript.row)
  : Prop :=
  Transcript.meeting_id s = meetingId
  /\ Transcript.language s = language_code
  /\ Transcript.start_seconds s = 0%Z /\ Transcript.end_seconds s = 0%Z
  /\ Transcript.confidence s = None
  /\ trim (Transcript.text s) = Transcript.text s
  /\ ~ In LF (Transcript.text s)
  /\ match Transcript.speaker_label s with
     | Some l => l <> [] /\ ~ In LF l
     | None => Transcript.text s <> []
     end.

Lemma parse_line_passes (meetingId language_code raw : jsstring) (s : Transcript.row) :
  ~ In LF raw ->
  In s (parse_line meetingId language_code [] raw) ->
  segment_passes meetingId language_code s.
Proof.
  intros Hlf Hin.
  pose proof (parse_line_yields meetingId language_code raw) as Hy.
  destruct Hy as [Hblank|label rest Hs|Hne Hnone]; simpl in Hin.
  - destruct Hin.
  - destruct Hin as [<-|[]].
    pose proof (trim_no_trailing raw) as Htr.
    destruct Hs as [kw ws1 ds ws2 ws3 Hline Hkw A1 Hds A2 A3 A4 L ->].
    unfold segment_passes. simpl. repeat split.
    + apply trim_id; trivial.
      rewrite Hline in Htr. rewrite !app_assoc in Htr.
      now apply no_trailing_suffix in Htr.
    + intros H. apply Hlf. apply trim_incl. rewrite Hline.
      rewrite !in_app_iff. auto 10.
    + apply spells_length in Hkw. destruct kw; discriminate.
    + intros H. apply Hlf. apply trim_incl. rewrite Hline.
      rewrite !in_app_iff in *. tauto.
  - destruct Hin as [<-|[]].
    unfold segment_passes. simpl. repeat split; trivial.
    + apply trim_id; [apply trim_no_leading|apply trim_no_trailing].
    + intros H. apply Hlf. now apply trim_incl.
Qed.

Lemma not_in_unit (c : N) (s : jsstring) :
  existsb (N.eqb c) s = false -> ~ In c s.
Proof.
  intros H Hin. assert (Ht : existsb (N.eqb c) s = true).
  { apply existsb_exists. exists c. split; trivial. apply N.eqb_refl. }
  congruence.
Qed.

Lemma parse_transcript_passes (meetingId language_code transcript : jsstring) :
  Forall (segment_passes meetingId language_code)
         (parse_transcript meetingId language_code transcript).
Proof.
  destruct (truthy (trim transcript)
            && negb (Js.eqb (trim transcript) (str "[inaudible]"))) eqn:Hs.
  - apply andb_true_iff in Hs as [H1 H2].
    apply truthy_true in H1. apply negb_true_iff in H2. apply eqb_neq in H2.
    rewrite (parse_transcript_lines _ _ _ H1 H2).
    apply Forall_forall. intros s Hin.
    apply in_concat in Hin as (l & Hl & Hin).
    apply in_map_iff in Hl as (raw & <- & Hraw).
    apply (parse_line_passes meetingId language_code raw); trivial.
    now apply (split_pieces LF (trim transcript)).
  - rewrite parse_transcript_silent.
    + constructor; [|constructor]. unfold segment_passes, new_segment.
      cbn [Transcript.meeting_id Transcript.language Transcript.start_seconds
           Transcript.end_seconds Transcript.confidence Transcript.text
           Transcript.speaker_label].
      repeat split; try reflexivity.
      * now apply not_in_unit.
      * discriminate.
    + apply andb_false_iff in Hs as [H|H].
      * left. now apply truthy_false.
      * right. apply negb_false_iff in H. now apply eqb_eq.
Qed.

Section SegmentBatches.

Variable E : env.
Variable meetingId : jsstring.

Definition segments_req (r : request) : Prop :=
  forall batch, r = InsertTranscripts batch ->
    batch <> []
    /\ exists language_code,
         Forall (segment_passes meetingId language_code) batch.

Lemma not_a_batch (r : request) : writes_store r = false -> segments_req r.
Proof. intros H batch ->. discriminate H. Qed.

Ltac other_req := let H := fresh "H" in intros ? H; discriminate H.

Ltac pass := repeat step_with other_req ltac:(intros; exact I).

Lemma save_transcript_segments (m : Meeting.row) (fileUri : option jsstring)
    (transcript : jsstring) :
  preserves (fun _ => True) segments_req
            (TranscribeMeeting.save_transcript E meetingId m fileUri transcript).
Proof.
  unfold TranscribeMeeting.save_transcript. cbv zeta.
  apply preserves_bind.
  { unfold TranscribeMeeting.insert_segments.
    apply preserves_call; [|intros; exact I].
    intros batch H. injection H as <-.
    split; [apply parse_transcript_nonempty|].
    exists (Meeting.language_code m). apply parse_transcript_passes. }
  intros insertRes. apply preserves_bind; [pass|]. intros _.
  apply preserves_bind; [unfold update_status; pass|]. intros _.
  apply preserves_bind; [|intros; pass].
  destruct fileUri as [u|]; [|pass]. destruct (truthy u); pass.
Qed.

Lemma transcribe_stage_segments (w : world) :
  holds (fun _ => True) segments_req w (snd (TranscribeMeeting.stage E meetingId w)).
Proof.
  apply guarded_holds; trivial.
  - unfold TranscribeMeeting.stage_body. apply preserves_bind.
    + apply obtain_transcript_reads. exact not_a_batch.
    + intros [[m fileUri] transcript]. apply save_transcript_segments.
  - unfold update_status. pass.
Qed.

End SegmentBatches.

(** Every batch of segments a transcription run sends to the store holds
    at least one row, and each row names the meeting of the request, spans
    no time (both bounds 0), has no confidence, and carries one language
    for the whole batch; its text is trimmed and holds no line feed; a row
    without a speaker label has a text, a label is never empty. *)
Theorem transcribe_rows_well_formed :
  forall (E : env) (req : http_request) (w : world),
  exists issued,
    log (snd (TranscribeMeeting.handler E req w)) = log w ++ issued
    /\ forall batch,
         In (InsertTranscripts batch) issued ->
         batch <> []
         /\ exists language_code,
              forall s, In s batch ->
                body_meeting_id req = Some (Transcript.meeting_id s)
                /\ Transcript.language s = language_code
                /\ Transcript.start_seconds s = 0%Z
                /\ Transcript.end_seconds s = 0%Z
                /\ Transcript.confidence s = None
                /\ trim (Transcript.text s) = Transcript.text s
                /\ ~ In LF (Transcript.text s)
                /\ match Transcript.speaker_label s with
                   | Some l => l <> [] /\ ~ In LF l
                   | None => Transcript.text s <> []
                   end.
Proof.
  intros E req w.
  assert (Hnone : exists issued : list request,
             log w = log w ++ issued
             /\ forall batch,
                  In (InsertTranscripts batch) issued ->
                  batch <> []
                  /\ exists language_code,
                       forall s, In s batch ->
                         body_meeting_id req = Some (Transcript.meeting_id s)
                         /\ Transcript.language s = language_code
                         /\ Transcript.start_seconds s = 0%Z
                         /\ Transcript.end_seconds s = 0%Z
                         /\ Transcript.confidence s = None
                         /\ trim (Transcript.text s) = Transcript.text s
                         /\ ~ In LF (Transcript.text s)
                         /\ match Transcript.speaker_label s with
                            | Some l => l <> [] /\ ~ In LF l
                            | None => Transcript.text s <> []
                            end).
  { exists []. split; [now rewrite app_nil_r|]. intros ? []. }
  unfold TranscribeMeeting.handler, serve.
  destruct (Js.eqb (method req) (str "OPTIONS")); [exact Hnone|].
  destruct (body_meeting_id req) as [meetingId|]; [|exact Hnone].
  destruct (truthy meetingId); [|exact Hnone].
  destruct (transcribe_stage_segments E meetingId w) as (_ & issued & Hlog & Hreq).
  rewrite Forall_forall in Hreq.
  exists issued. split; [exact Hlog|].
  intros batch Hin. destruct (Hreq _ Hin batch eq_refl) as (Hne & lang & Hall).
  split; [exact Hne|]. exists lang. intros s Hs.
  rewrite Forall_forall in Hall. destruct (Hall s Hs) as (Hid & Hrest).
  rewrite Hid. now split.
Qed.

(** ** transcribe-meeting: how many requests a run sends *)

Section Budget.

Variable E : env.

(** What a request costs. *)
Variable cost : request -> nat.

Definition spent (issued : list request) : nat := list_sum (map cost issued).

(** A computation that spends at most [ok] when it returns and at most
    [err] when it throws. *)
Definition within {A} (ok err : nat) (m : M A) : Prop :=
  forall w, exists issued,
    log (snd (m w)) = log w ++ issued
    /\ match fst (m w) with
       | inr _ => (spent issued <= ok)%nat
       | inl _ => (spent issued <= err)%nat
       end.

Lemma spent_app (a b : list request) : spent (a ++ b) = (spent a + spent b)%nat.
Proof. unfold spent. now rewrite map_app, list_sum_app. Qed.

Lemma within_ret {A} (a : A) : within 0 0 (ret a).
Proof. intros w. exists []. simpl. now rewrite app_nil_r. Qed.

Lemma within_throw {A} (message : jsstring) : within 0 0 (@throw A message).
Proof. intros w. exists []. simpl. now rewrite app_nil_r. Qed.

Lemma within_weaken {A} (ok err ok' err' : nat) (m : M A) :
  (ok <= ok')%nat -> (err <= err')%nat -> within ok err m -> within ok' err' m.
Proof.
  intros H1 H2 H w. destruct (H w) as (issued & Hl & Hc).
  exists issued. split; trivial. destruct (fst (m w)); lia.
Qed.

Lemma within_bind {A B} (a a' b b' : nat) (m : M A) (k : A -> M B) :
  within a a' m -> (forall x, within b b' (k x)) ->
  within (a + b) (Nat.max a' (a + b')) (bind m k).
Proof.
  intros Hm Hk w. unfold bind.
  destruct (Hm w) as (i1 & Hl1 & Hc1).
  destruct (m w) as [[e|x] w1]; simpl in *.
  - exists i1. split; trivial. lia.
  - destruct (Hk x w1) as (i2 & Hl2 & Hc2).
    exists (i1 ++ i2). rewrite Hl2, Hl1, app_assoc. split; trivial.
    rewrite spent_app. destruct (fst (k x w1)); lia.
Qed.

Lemma within_emit (r : request) : within (cost r) 0 (emit r).
Proof.
  intros w. exists [r]. simpl. split; trivial. unfold spent. simpl. lia.
Qed.

Lemma within_fetch {A} (r : request) (answer : fetched A) :
  within (cost r) 0 (fetch r answer).
Proof.
  intros w. exists [r]. simpl. split; trivial. unfold spent. simpl. lia.
Qed.

Lemma within_call {A} (r : request) (op : database -> reply A * database) :
  within (cost r) (cost r) (call E r op).
Proof.
  intros w. exists [r]. unfold call.
  assert (Hs : spent [r] = cost r) by (unfold spent; simpl; lia).
  destruct (db_fault E _ _) as [[message|message]|];
    [| |destruct (op (db w))]; cbn [fst snd log]; (split; [reflexivity|lia]).
Qed.

Lemma within_attempt {A} (ok err : nat) (m : M A) :
  within ok err m -> within (Nat.max ok err) 0 (attempt m).
Proof.
  intros H w. destruct (H w) as (issued & Hl & Hc).
  exists issued. unfold attempt. simpl. split; trivial.
  destruct (fst (m w)); lia.
Qed.

(** The rules in the form a budget is checked with: what is left for the
    rest of a sequence is the budget less what its first part may spend. *)
Lemma within_any_ret {A} (ok err : nat) (a : A) : within ok err (ret a).
Proof. eapply within_weaken; [| |apply within_ret]; lia. Qed.

Lemma within_any_throw {A} (ok err : nat) (message : jsstring) :
  within ok err (@throw A message).
Proof. eapply within_weaken; [| |apply within_throw]; lia. Qed.

Lemma within_any_fetch {A} (ok err : nat) (r : request) (answer : fetched A) :
  (cost r <= ok)%nat -> within ok err (fetch r answer).
Proof. intros H. eapply within_weaken; [| |apply within_fetch]; lia. Qed.

Lemma within_any_emit (ok err : nat) (r : request) :
  (cost r <= ok)%nat -> within ok err (emit r).
Proof. intros H. eapply within_weaken; [| |apply within_emit]; lia. Qed.

Lemma within_any_call {A} (ok err : nat) (r : request)
    (op : database -> reply A * database) :
  (cost r <= ok)%nat -> (cost r <= err)%nat -> within ok err (call E r op).
Proof. intros H1 H2. eapply within_weaken; [| |apply within_call]; lia. Qed.

Lemma within_then {A B} (a a' ok err : nat) (m : M A) (k : A -> M B) :
  within a a' m ->
  (a <= ok)%nat -> (a <= err)%nat -> (a' <= err)%nat ->
  (forall x, within (ok - a) (err - a) (k x)) ->
  within ok err (bind m k).
Proof.
  intros Hm H1 H2 H3 Hk.
  eapply within_weaken; [| |apply (within_bind a a' (ok - a) (err - a)); eassumption];
    lia.
Qed.

Lemma within_last {A B} (ok err : nat) (m : M A) (b : B) :
  within ok err m -> within ok err (bind m (fun _ => ret b)).
Proof.
  intros H w. destruct (H w) as (issued & Hl & Hc). exists issued.
  unfold bind. destruct (m w) as [[e|a] w1]; simpl in *; auto.
Qed.

(** The polling loop sends [remaining] polls at most. *)
Lemma wait_active_within (fileName : jsstring) (i remaining : nat) :
  within (remaining * cost (FileApiPoll fileName))
         (remaining * cost (FileApiPoll fileName))
         (TranscribeMeeting.wait_active E fileName i remaining).
Proof.
  revert i. induction remaining as [|k IH]; intros i; cbn [TranscribeMeeting.wait_active].
  - apply within_ret.
  - apply (within_then (cost (FileApiPoll fileName)) 0);
      [apply within_fetch|simpl; lia..|].
    intros checkRes.
    replace (S k * cost (FileApiPoll fileName) - cost (FileApiPoll fileName))%nat
      with (k * cost (FileApiPoll fileName))%nat by (simpl; lia).
    destruct checkRes as [message|[] st txt [message|[s|]]];
      try apply IH; try apply within_any_throw.
    destruct (Js.eqb s (str "ACTIVE")); [apply within_any_ret|apply IH].
Qed.

(** A request that is not a poll costs [c] at most, a poll [p] at most. *)
Variables c p : nat.
Hypothesis cost_poll : forall fileName, (cost (FileApiPoll fileName) <= p)%nat.
Hypothesis cost_other :
  forall r, (forall fileName, r <> FileApiPoll fileName) -> (cost r <= c)%nat.

Ltac priced :=
  match goal with
  | |- (cost ?r <= _)%nat =>
      let H := fresh "H" in
      assert (H : (cost r <= c)%nat) by (apply cost_other; intros; discriminate);
      lia
  end.

Ltac spend :=
  lazymatch goal with
  | |- within _ _ (ret _) => apply within_any_ret
  | |- within _ _ (throw _) => apply within_any_throw
  | |- within _ _ (fetch _ _) => apply within_any_fetch; priced
  | |- within _ _ (emit _) => apply within_any_emit; priced
  | |- within _ _ (call _ _ _) => apply within_any_call; priced
  | |- within _ _ (update_status _ _ _) => unfold update_status
  | |- within _ _ (select_meeting _ _) => unfold select_meeting
  | |- within _ _ (bind (fetch _ _) _) =>
      apply (within_then c 0); [apply within_any_fetch; priced|lia..|intros ?]
  | |- within _ _ (bind (call _ _ _) _) =>
      apply (within_then c c); [apply within_any_call; priced|lia..|intros ?]
  | |- within _ _ (bind (update_status _ _ _) _) => unfold update_status
  | |- within _ _ (bind (select_meeting _ _) _) => unfold select_meeting
  | |- within _ _ (bind (match _ with _ => _ end) _) =>
      apply (within_then 0 0); [|lia..|intros ?]
  | |- within _ _ (match ?x with _ => _ end) => destruct x
  end.

Lemma upload_file_within (meetingId mime : jsstring) (audioBytes : list Byte.byte) :
  within (2 * c + 30 * p) (2 * c + 30 * p)
         (TranscribeMeeting.upload_file E meetingId mime audioBytes).
Proof.
  unfold TranscribeMeeting.upload_file. cbv zeta.
  spend. spend; [repeat spend|]. spend. spend; [repeat spend|].
  destruct x2 as [fileUri fileName].
  assert (Hwait : forall n, within (30 * p) (30 * p)
                              (TranscribeMeeting.wait_active E n 0 30)).
  { intros n. eapply within_weaken; [| |apply wait_active_within];
      pose proof (cost_poll n); lia. }
  apply (within_then (30 * p) (30 * p)); [|lia..|intros; spend].
  destruct fileName as [n|]; [|spend]. destruct (truthy n); [apply Hwait|spend].
Qed.

Lemma obtain_transcript_within (meetingId : jsstring) :
  within (5 * c + 30 * p) (5 * c + 30 * p)
         (TranscribeMeeting.obtain_transcript E meetingId).
Proof.
  unfold TranscribeMeeting.obtain_transcript. cbv zeta.
  spend. spend. spend; [repeat spend|]. spend; [repeat spend|].
  spend. spend; [repeat spend|].
  apply (within_then (2 * c + 30 * p) (2 * c + 30 * p)); [|lia..|].
  { unfold TranscribeMeeting.transfer_audio.
    destruct (_ <? _)%N; [|spend].
    apply (within_then (2 * c + 30 * p) (2 * c + 30 * p));
      [apply upload_file_within|lia..|intros; spend]. }
  intros [fileUri audioBase64].
  spend. spend; [repeat spend|]. spend.
Qed.

Lemma save_transcript_within (meetingId : jsstring) (m : Meeting.row)
    (fileUri : option jsstring) (transcript : jsstring) :
  within (3 * c) (2 * c)
         (TranscribeMeeting.save_transcript E meetingId m fileUri transcript).
Proof.
  unfold TranscribeMeeting.save_transcript, TranscribeMeeting.insert_segments.
  cbv zeta.
  spend. spend; [repeat spend|]. spend. spend.
  apply within_last.
  destruct fileUri as [u|]; [|spend]. destruct (truthy u); [|spend].
  eapply within_weaken; [| |apply (within_attempt c 0)].
  - lia.
  - lia.
  - spend.
Qed.

(** A whole run: eight requests that are not polls and thirty polls, the
    status write of the [catch] included. *)
Lemma transcribe_stage_within (meetingId : jsstring) (w : world) :
  exists issued,
    log (snd (TranscribeMeeting.stage E meetingId w)) = log w ++ issued
    /\ (spent issued <= 8 * c + 30 * p)%nat.
Proof.
  assert (Hbody : within (8 * c + 30 * p) (7 * c + 30 * p)
                         (TranscribeMeeting.stage_body E meetingId)).
  { unfold TranscribeMeeting.stage_body.
    apply (within_then (5 * c + 30 * p) (5 * c + 30 * p));
      [apply obtain_transcript_within|lia..|].
    intros [[m fileUri] transcript].
    eapply within_weaken; [| |apply save_transcript_within]; lia. }
  unfold TranscribeMeeting.stage, guarded.
  destruct (Hbody w) as (issued & Hlog & Hcost).
  destruct (TranscribeMeeting.stage_body E meetingId w) as [[e|r] w1];
    cbn [fst snd] in *.
  - assert (Hcatch : within c c (update_status E meetingId failed))
      by (unfold update_status; spend).
    destruct (Hcatch w1) as (last & Hlast & Hc).
    exists (issued ++ last). unfold attempt. cbn [snd].
    rewrite Hlast, Hlog, app_assoc. split; trivial.
    rewrite spent_app.
    destruct (fst (update_status E meetingId failed w1)); lia.
  - exists issued. now split.
Qed.

End Budget.

(** A transcription run sends at most thirty-eight requests, and at most
    thirty of them are polls of the File API: the wait for an uploaded file
    gives up after thirty polls, and every other step sends one request. *)
Theorem transcribe_run_requests_bounded :
  forall (E : env) (req : http_request) (w : world),
  exists issued,
    log (snd (TranscribeMeeting.handler E req w)) = log w ++ issued
    /\ (length issued <= 38)%nat
    /\ (length (filter (fun r => match r with FileApiPoll _ => true | _ => false end)
                       issued) <= 30)%nat.
Proof.
  intros E req w.
  assert (Hnone : exists issued : list request,
             log w = log w ++ issued
             /\ (length issued <= 38)%nat
             /\ (length (filter (fun r => match r with
                                          | FileApiPoll _ => true
                                          | _ => false
                                          end) issued) <= 30)%nat).
  { exists []. rewrite app_nil_r. simpl. repeat split; lia. }
  unfold TranscribeMeeting.handler, serve.
  destruct (Js.eqb (method req) (str "OPTIONS")); [exact Hnone|].
  destruct (body_meeting_id req) as [meetingId|]; [|exact Hnone].
  destruct (truthy meetingId); [|exact Hnone].
  destruct (transcribe_stage_within E (fun _ => 1%nat) 1 1) 
    with (meetingId := meetingId) (w := w) as (issued & Hlog & Hall);
    [intros; lia..|].
  destruct (transcribe_stage_within E
              (fun r => match r with FileApiPoll _ => 1%nat | _ => 0%nat end) 0 1)
    with (meetingId := meetingId) (w := w) as (issued' & Hlog' & Hpolls).
  { intros; lia. }
  { intros r Hr. destruct r; try lia. now destruct (Hr fileName). }
  rewrite Hlog in Hlog'. apply app_inv_head in Hlog'. subst issued'.
  exists issued. split; [exact Hlog|]. split.
  - unfold spent in Hall. clear -Hall.
    assert (H : forall l : list request,
               list_sum (map (fun _ => 1%nat) l) = length l).
    { induction l; simpl; congruence. }
    rewrite H in Hall. lia.
  - unfold spent in Hpolls. clear -Hpolls.
    assert (H : forall l : list request,
               list_sum (map (fun r => match r with
                                       | FileApiPoll _ => 1%nat
                                       | _ => 0%nat
                                       end) l)
               = length (filter (fun r => match r with
                                          | FileApiPoll _ => true
                                          | _ => false
                                          end) l)).
    { induction l as [|r l IH]; simpl; trivial. destruct r; simpl; congruence. }
    rewrite H in Hpolls. lia.
Qed.

(** ** transcribe-meeting: the wait for an uploaded file *)

(** The wait for an uploaded file never fails as long as the polls are
    answered, whether or not the file becomes ACTIVE: it sends [k] polls,
    [k] at most the number allowed, none of the polls before the last found
    the file ACTIVE, and when it stops early the last poll did. A file that
    is never ACTIVE is polled the full number of times and the run goes on. *)
Theorem wait_active_stops :
  forall (E : env) (fileName : jsstring) (remaining i : nat) (w : world),
  (forall j, (j < remaining)%nat -> answered E fileName (i + j)) ->
  exists k,
    (k <= remaining)%nat
    /\ TranscribeMeeting.wait_active E fileName i remaining w
       = (inr tt, {| db := db w; log := log w ++ repeat (FileApiPoll fileName) k |})
    /\ (forall j, (j + 1 < k)%nat -> ~ active E fileName (i + j))
    /\ ((k < remaining)%nat ->
        (1 <= k)%nat /\ active E fileName (i + k - 1)).
Proof.
  intros E fileName remaining.
  induction remaining as [|n IH]; intros i w Hans;
    cbn [TranscribeMeeting.wait_active].
  - exists 0%nat. simpl. rewrite app_nil_r. repeat split; try lia.
    now destruct w.
  - pose proof (Hans 0%nat ltac:(lia)) as (ok & st & txt & state & H0).
    rewrite Nat.add_0_r in H0.
    unfold bind at 1. unfold fetch, bind, emit, ret. rewrite H0.
    assert (Hnext : forall j, (j < n)%nat -> answered E fileName (S i + j)).
    { intros j Hj. replace (S i + j)%nat with (i + S j)%nat by lia.
      apply Hans. lia. }
    assert (Hgo : (forall st' txt', file_api_poll E fileName i
                     <> Fetched true st' txt' (PollState (Some (str "ACTIVE")))) ->
                  exists k : nat,
                    (k <= S n)%nat
                    /\ TranscribeMeeting.wait_active E fileName (S i) n
                         {| db := db w; log := log w ++ [FileApiPoll fileName] |}
                       = (inr tt,
                          {| db := db w;
                             log := log w ++ repeat (FileApiPoll fileName) k |})
                    /\ (forall j, (j + 1 < k)%nat -> ~ active E fileName (i + j))
                    /\ ((k < S n)%nat ->
                        (1 <= k)%nat /\ active E fileName (i + k - 1))).
    { intros Hnot.
      destruct (IH (S i) {| db := db w; log := log w ++ [FileApiPoll fileName] |}
                  Hnext) as (k & Hk & Heq & Hbefore & Hat).
      exists (S k). split; [lia|]. split.
      - rewrite Heq. cbn [db log]. now rewrite <- app_assoc.
      - split.
        + intros j Hj. destruct j as [|j].
          * rewrite Nat.add_0_r. intros (st' & txt' & Ha). now apply (Hnot st' txt').
          * replace (i + S j)%nat with (S i + j)%nat by lia. apply Hbefore. lia.
        + intros Hlt. split; [lia|].
          destruct (Hat ltac:(lia)) as [H1 Ha].
          replace (i + S k - 1)%nat with (S i + k - 1)%nat by lia. exact Ha. }
    destruct ok.
    + destruct state as [s|].
      * destruct (Js.eqb s (str "ACTIVE")) eqn:Hs.
        -- apply eqb_eq in Hs. subst s.
           exists 1%nat. split; [lia|]. split; [reflexivity|]. split.
           ++ intros j Hj. lia.
           ++ intros _. split; [lia|].
              replace (i + 1 - 1)%nat with i by lia. now exists st, txt.
        -- apply Hgo. intros st' txt' Heq. rewrite Heq in H0.
           injection H0 as _ _ <-. now rewrite eqb_refl in Hs.
      * apply Hgo. intros st' txt' Heq. rewrite Heq in H0. discriminate.
    + apply Hgo. intros st' txt' Heq. rewrite Heq in H0. discriminate.
Qed.

(** A file that is ACTIVE at the third poll. *)
Definition slow_file : env :=
  {| db_fault := db_fault quiet;
     single_error := single_error quiet;
     gen_random_uuid := gen_random_uuid quiet;
     storage_object := storage_object quiet;
     file_api_start := file_api_start quiet;
     file_api_upload := file_api_upload quiet;
     file_api_poll :=
       fun _ j => Fetched true 200 []
                    (PollState (Some (if (j <? 2)%nat then str "PROCESSING"
                                      else str "ACTIVE")));
     generate_transcription := generate_transcription quiet;
     generate_analysis := generate_analysis quiet;
     embed_content := embed_content quiet;
     search_nodes := search_nodes quiet;
     btoa := btoa quiet;
     JSON_parse := JSON_parse quiet |}.

Lemma wait_active_stops_witness :
  exists k,
    (k <= 30)%nat
    /\ TranscribeMeeting.wait_active slow_file (str "files/a1") 0 30 (world_of [])
       = (inr tt, {| db := db (world_of []);
                     log := log (world_of [])
                            ++ repeat (FileApiPoll (str "files/a1")) k |})
    /\ (forall j, (j + 1 < k)%nat -> ~ active slow_file (str "files/a1") (0 + j))
    /\ ((k < 30)%nat ->
        (1 <= k)%nat /\ active slow_file (str "files/a1") (0 + k - 1)).
Proof.
  apply (wait_active_stops slow_file (str "files/a1") 30 0 (world_of [])).
  intros j _. unfold answered. simpl. now repeat eexists.
Defined.

(** ** From the segments back to the text: what the analysis reads *)

(** The segments of a text, line by line, without the trimming of the
    whole text. *)
Definition segments_of (meetingId language_code s : jsstring) : list Transcript.row :=
  concat (map (parse_line meetingId language_code []) (split LF s)).

Lemma white_LF : isWhiteSpace LF = true.
Proof. reflexivity. Qed.

Lemma trim_cons_ws (c : N) (s : jsstring) :
  isWhiteSpace c = true -> trim (c :: s) = trim s.
Proof. intros Hc. unfold trim. simpl. now rewrite Hc. Qed.

Lemma trimStart_app_blank (a b : jsstring) :
  trimStart a = [] -> trimStart (a ++ b) = trimStart b.
Proof.
  induction a as [|x a IH]; simpl; trivial.
  destruct (isWhiteSpace x); [exact IH|discriminate].
Qed.

Lemma trimStart_app_text (a b : jsstring) :
  trimStart a <> [] -> trimStart (a ++ b) = trimStart a ++ b.
Proof.
  induction a as [|x a IH]; simpl; [congruence|].
  destruct (isWhiteSpace x); [exact IH|reflexivity].
Qed.

Lemma trim_snoc_ws (s : jsstring) (c : N) :
  isWhiteSpace c = true -> trim (s ++ [c]) = trim s.
Proof.
  intros Hc. unfold trim, trimEnd.
  destruct (trimStart s) as [|y ys] eqn:Hs.
  - rewrite trimStart_app_blank by exact Hs. simpl. now rewrite Hc.
  - rewrite trimStart_app_text by (rewrite Hs; discriminate). rewrite Hs.
    rewrite rev_app_distr. simpl rev at 1. simpl app at 1.
    simpl trimStart at 1. now rewrite Hc.
Qed.

Lemma trim_snoc_text (s : jsstring) (c : N) :
  isWhiteSpace c = false -> trim (s ++ [c]) <> [].
Proof.
  intros Hc. unfold trim, trimEnd.
  destruct (trimStart_snoc_shape s c Hc) as [l Hl]. rewrite Hl.
  rewrite rev_app_distr. simpl. rewrite Hc.
  intros H. apply (f_equal (@length N)) in H.
  simpl in H. rewrite length_app in H. simpl in H. lia.
Qed.

(** A line depends on its trimmed text only. *)
Lemma parse_line_trim (meetingId language_code a b : jsstring) :
  trim a = trim b ->
  parse_line meetingId language_code [] a = parse_line meetingId language_code [] b.
Proof. intros H. unfold parse_line. now rewrite H. Qed.

Lemma parse_line_blank (meetingId language_code : jsstring) :
  parse_line meetingId language_code [] [] = [].
Proof. reflexivity. Qed.

Lemma split_snoc (sep : N) (s : jsstring) :
  exists init l,
    split sep s = init ++ [l]
    /\ forall c, split sep (s ++ [c])
                 = if (c =? sep)%N then init ++ [l; []] else init ++ [l ++ [c]].
Proof.
  induction s as [|x s (init & l & Hs & Hc)].
  - exists [], []. split; [reflexivity|]. intros c. simpl.
    destruct (c =? sep)%N; reflexivity.
  - simpl. destruct (x =? sep)%N.
    + exists ([] :: init), l. split; [now rewrite Hs|].
      intros c. rewrite Hc. destruct (c =? sep)%N; reflexivity.
    + rewrite Hs. destruct init as [|h t]; simpl.
      * exists [], (x :: l). split; [reflexivity|]. intros c. rewrite Hc.
        destruct (c =? sep)%N; reflexivity.
      * exists ((x :: h) :: t), l. split; [reflexivity|]. intros c. rewrite Hc.
        destruct (c =? sep)%N; reflexivity.
Qed.

Lemma segments_of_cons_ws (meetingId language_code : jsstring) (c : N) (s : jsstring) :
  isWhiteSpace c = true ->
  segments_of meetingId language_code (c :: s) = segments_of meetingId language_code s.
Proof.
  intros Hc. unfold segments_of. simpl split.
  destruct (c =? LF)%N; [reflexivity|].
  destruct (split_cons LF s) as (h & t & ->). simpl.
  now rewrite (parse_line_trim _ _ (c :: h) h (trim_cons_ws c h Hc)).
Qed.

Lemma segments_of_snoc_ws (meetingId language_code : jsstring) (s : jsstring) (c : N) :
  isWhiteSpace c = true ->
  segments_of meetingId language_code (s ++ [c]) = segments_of meetingId language_code s.
Proof.
  intros Hc. unfold segments_of.
  destruct (split_snoc LF s) as (init & l & Hs & Hsnoc).
  rewrite Hsnoc, Hs. destruct (c =? LF)%N.
  - rewrite !map_app, !concat_app. simpl. now rewrite !app_nil_r.
  - rewrite !map_app, !concat_app. simpl.
    now rewrite (parse_line_trim _ _ (l ++ [c]) l (trim_snoc_ws l c Hc)).
Qed.

Lemma segments_of_trimStart (meetingId language_code s : jsstring) :
  segments_of meetingId language_code (trimStart s)
  = segments_of meetingId language_code s.
Proof.
  induction s as [|c s IH]; simpl; trivial.
  destruct (isWhiteSpace c) eqn:Hc; trivial.
  now rewrite IH, segments_of_cons_ws.
Qed.

Lemma segments_of_trimEnd (meetingId language_code s : jsstring) :
  segments_of meetingId language_code (trimEnd s)
  = segments_of meetingId language_code s.
Proof.
  unfold trimEnd. induction s as [|c s IH] using rev_ind; trivial.
  rewrite rev_app_distr. simpl.
  destruct (isWhiteSpace c) eqn:Hc.
  - now rewrite IH, segments_of_snoc_ws.
  - simpl. now rewrite rev_involutive.
Qed.

(** Trimming the whole text changes no segment. *)
Lemma segments_of_trim (meetingId language_code s : jsstring) :
  segments_of meetingId language_code (trim s)
  = segments_of meetingId language_code s.
Proof. unfold trim. now rewrite segments_of_trimEnd, segments_of_trimStart. Qed.

Lemma split_whole (sep : N) (p : jsstring) : ~ In sep p -> split sep p = [p].
Proof.
  induction p as [|c p IH]; simpl; trivial. intros H.
  destruct (c =? sep)%N eqn:Hc.
  - apply N.eqb_eq in Hc. tauto.
  - rewrite IH by tauto. reflexivity.
Qed.

Lemma split_app_sep (sep : N) (p s : jsstring) :
  ~ In sep p -> split sep (p ++ sep :: s) = p :: split sep s.
Proof.
  induction p as [|c p IH]; simpl; intros H.
  - now rewrite N.eqb_refl.
  - destruct (c =? sep)%N eqn:Hc.
    + apply N.eqb_eq in Hc. tauto.
    + rewrite IH by tauto. reflexivity.
Qed.

Lemma split_join (sep : N) (lines : list jsstring) :
  lines <> [] -> Forall (fun p => ~ In sep p) lines ->
  split sep (join [sep] lines) = lines.
Proof.
  intros Hne H. revert Hne.
  induction H as [|p rest Hp Hrest IH]; intros Hne; [now destruct Hne|].
  destruct rest as [|q rest].
  - simpl. now apply split_whole.
  - change (join [sep] (p :: q :: rest)) with (p ++ sep :: join [sep] (q :: rest)).
    rewrite split_app_sep by exact Hp. rewrite IH; [reflexivity|discriminate].
Qed.

Lemma join_split (sep : N) (s : jsstring) : join [sep] (split sep s) = s.
Proof.
  induction s as [|c s IH]; [reflexivity|]. simpl split.
  destruct (split_cons sep s) as (h & t & Hs). rewrite Hs in IH |- *.
  destruct (c =? sep)%N eqn:Hc.
  - apply N.eqb_eq in Hc. subst c.
    change (join [sep] ([] :: h :: t)) with (sep :: join [sep] (h :: t)).
    now rewrite IH.
  - destruct t as [|q t].
    + simpl in *. now rewrite IH.
    + change (join [sep] ((c :: h) :: q :: t))
        with (c :: (h ++ [sep] ++ join [sep] (q :: t))).
      change (join [sep] (h :: q :: t))
        with (h ++ [sep] ++ join [sep] (q :: t)) in IH.
      now rewrite IH.
Qed.

Lemma speaker_head (kw : jsstring) :
  spells true (str "Speaker") kw ->
  exists c r, kw = c :: r /\ isWhiteSpace c = false.
Proof.
  unfold spells, str. simpl. intros H.
  inversion H as [|p c pat' r Hc Hrest]; subst.
  exists c, r. split; trivial.
  unfold char_eqb in Hc. apply N.eqb_eq in Hc.
  unfold fold_case in Hc. simpl in Hc.
  destruct ((97 <=? c) && (c <=? 122))%N eqn:Hrange.
  - apply andb_true_iff in Hrange as [H1 H2]. apply N.leb_le in H1.
    assert (c = 115%N) by lia. now subst c.
  - now subst c.
Qed.

Lemma no_trailing_app (a b : jsstring) :
  b <> [] -> no_trailing_ws b -> no_trailing_ws (a ++ b).
Proof.
  unfold no_trailing_ws. intros Hne Hb. rewrite rev_app_distr.
  apply no_leading_app; trivial.
  intros H. apply (f_equal (@rev N)) in H. rewrite rev_involutive in H.
  now apply Hne.
Qed.

(** The line the analysis prints for a speaker's turn parses back to the
    turn. *)
Lemma speaker_canonical (meetingId language_code kw ws1 ds ws3 rest : jsstring) :
  spells true (str "Speaker") kw ->
  all isWhiteSpace ws1 -> ds <> [] -> all isDigit ds ->
  all isWhiteSpace ws3 ->
  no_leading isWhiteSpace rest -> no_trailing_ws rest ->
  (rest = [] -> ws3 = []) ->
  parse_line meetingId language_code []
    (kw ++ ws1 ++ ds ++ [COLON] ++ ws3 ++ rest)
  = [new_segment meetingId language_code (Some (kw ++ ws1 ++ ds)) rest].
Proof.
  intros Hkw A1 Hds A2 A4 L T Hws3.
  set (B := kw ++ ws1 ++ ds ++ [COLON] ++ ws3 ++ rest).
  destruct (speaker_head kw Hkw) as (c0 & kr & Hk & Hc0).
  assert (HB : trim B = B).
  { apply trim_id.
    - unfold B. rewrite Hk. exact Hc0.
    - destruct rest as [|r0 rr].
      + unfold B. rewrite (Hws3 eq_refl). cbn [app].
        rewrite !app_assoc. unfold no_trailing_ws. rewrite rev_app_distr.
        simpl. apply colon_not_space.
      + unfold B. rewrite !app_assoc. apply no_trailing_app; [discriminate|exact T]. }
  assert (Hline : speaker_line true B (kw ++ ws1 ++ ds) rest).
  { apply SpeakerLine with (kw := kw) (ws1 := ws1) (ds := ds) (ws2 := [])
                           (ws3 := ws3); trivial.
    constructor. }
  apply match_speaker_complete in Hline as (m & Hm & Hlabel & Hsplit).
  unfold parse_line. fold B. rewrite HB.
  assert (Ht : truthy B = true) by (unfold B; rewrite Hk; reflexivity).
  rewrite Ht. unfold match_speaker. rewrite Hm. simpl.
  rewrite Hlabel. rewrite Hsplit at 1. rewrite replace_prefix.
  now rewrite (trim_id rest L T).
Qed.

Lemma trim_trim (s : jsstring) : trim (trim s) = trim s.
Proof. apply trim_id; [apply trim_no_leading|apply trim_no_trailing]. Qed.

(** What the analysis prints for a segment of the transcription parses
    back to the segment, holds no line feed and starts with text. *)
Lemma print_line (meetingId language_code raw : jsstring) (seg : Transcript.row) :
  ~ In LF raw ->
  In seg (parse_line meetingId language_code [] raw) ->
  parse_line meetingId language_code [] (AnalyzeMeeting.transcript_line seg) = [seg]
  /\ ~ In LF (AnalyzeMeeting.transcript_line seg)
  /\ exists c r, AnalyzeMeeting.transcript_line seg = c :: r
                 /\ isWhiteSpace c = false.
Proof.
  intros Hlf Hin.
  pose proof (parse_line_yields meetingId language_code raw) as Hy.
  remember (parse_line meetingId language_code [] raw) as out eqn:Hout.
  destruct Hy as [Hblank|label rest Hs|Hne Hnone].
  - destruct Hin.
  - destruct Hin as [<-|[]].
    pose proof (trim_no_trailing raw) as Htr.
    destruct Hs as [kw ws1 ds ws2 ws3 Hline Hkw A1 Hds A2 A3 A4 L ->].
    destruct (speaker_head kw Hkw) as (c0 & kr & Hk & Hc0).
    assert (T : no_trailing_ws rest).
    { rewrite Hline in Htr. rewrite !app_assoc in Htr.
      now apply no_trailing_suffix in Htr. }
    match goal with
    | |- context [AnalyzeMeeting.transcript_line ?s] =>
        replace (AnalyzeMeeting.transcript_line s)
          with ((kw ++ ws1 ++ ds) ++ str ": " ++ rest)
          by (unfold AnalyzeMeeting.transcript_line; simpl; now rewrite Hk)
    end.
    split; [|split].
    + destruct rest as [|r0 rr].
      * rewrite (parse_line_trim _ _ _ (kw ++ ws1 ++ ds ++ [COLON] ++ [] ++ [])).
        -- apply speaker_canonical; trivial; constructor.
        -- change ((kw ++ ws1 ++ ds) ++ str ": " ++ [])
             with ((kw ++ ws1 ++ ds) ++ [COLON] ++ [32%N]).
           rewrite !app_assoc. rewrite trim_snoc_ws by reflexivity.
           now rewrite !app_nil_r, <- !app_assoc.
      * change ((kw ++ ws1 ++ ds) ++ str ": " ++ r0 :: rr)
          with ((kw ++ ws1 ++ ds) ++ [COLON] ++ [32%N] ++ r0 :: rr).
        rewrite <- !app_assoc.
        apply speaker_canonical; trivial.
        -- repeat constructor.
        -- discriminate.
    + intros H. apply in_app_or in H as [H|H].
      * apply Hlf. apply trim_incl. rewrite Hline. rewrite !in_app_iff in *. tauto.
      * apply in_app_or in H as [H|H].
        -- simpl in H. destruct H as [H|[H|[]]]; discriminate H.
        -- apply Hlf. apply trim_incl. rewrite Hline. rewrite !in_app_iff. auto 10.
    + exists c0, (kr ++ ws1 ++ ds ++ str ": " ++ rest). split; trivial.
      rewrite Hk. now rewrite <- !app_assoc.
  - destruct Hin as [<-|[]].
    change (AnalyzeMeeting.transcript_line
              (new_segment meetingId language_code None (trim raw)))
      with (trim raw).
    split; [|split].
    + rewrite (parse_line_trim _ _ (trim raw) raw (trim_trim raw)). now symmetry.
    + intros H. apply Hlf. now apply trim_incl.
    + pose proof (trim_no_leading raw) as Hl.
      destruct (trim raw) as [|c r]; [congruence|]. now exists c, r.
Qed.

Lemma concat_singletons {A} (l : list A) : concat (map (fun x => [x]) l) = l.
Proof. induction l as [|x l IH]; simpl; congruence. Qed.

(** A line with text gives one segment. *)
Lemma parse_line_text (meetingId language_code raw : jsstring) :
  trim raw <> [] ->
  exists seg,
    parse_line meetingId language_code [] raw = [seg]
    /\ (Transcript.speaker_label seg = None -> Transcript.text seg = trim raw).
Proof.
  intros H. apply truthy_true in H. unfold parse_line. rewrite H. simpl.
  eexists. split; [reflexivity|]. simpl.
  destruct (match_speaker (trim raw)); [discriminate|reflexivity].
Qed.

Lemma parse_line_short (meetingId language_code raw : jsstring) :
  (length (parse_line meetingId language_code [] raw) <= 1)%nat.
Proof. unfold parse_line. destruct (negb _); simpl; lia. Qed.

(** The segments of every transcript are those of lines without line
    feed. *)
Lemma parse_transcript_from_lines (meetingId language_code transcript : jsstring) :
  exists lines,
    Forall (fun p => ~ In LF p) lines
    /\ parse_transcript meetingId language_code transcript
       = concat (map (parse_line meetingId language_code []) lines).
Proof.
  destruct (truthy (trim transcript)
            && negb (Js.eqb (trim transcript) (str "[inaudible]"))) eqn:Hs.
  - apply andb_true_iff in Hs as [H1 H2].
    apply truthy_true in H1. apply negb_true_iff in H2. apply eqb_neq in H2.
    exists (split LF (trim transcript)). split.
    + apply Forall_forall. intros p Hp. now apply (split_pieces LF (trim transcript)).
    + now apply parse_transcript_lines.
  - exists [no_speech]. split.
    + constructor; [|constructor]. now apply not_in_unit.
    + rewrite parse_transcript_silent; [reflexivity|].
      apply andb_false_iff in Hs as [H|H].
      * left. now apply truthy_false.
      * right. apply negb_false_iff in H. now apply eqb_eq.
Qed.

(** No transcript gives the single segment [[inaudible]]: that text is
    taken for silence. *)
Lemma no_inaudible_segment (meetingId language_code transcript : jsstring) :
  parse_transcript meetingId language_code transcript
  <> [new_segment meetingId language_code None (str "[inaudible]")].
Proof.
  destruct (truthy (trim transcript)
            && negb (Js.eqb (trim transcript) (str "[inaudible]"))) eqn:Hs.
  - apply andb_true_iff in Hs as [H1 H2].
    apply truthy_true in H1. apply negb_true_iff in H2. apply eqb_neq in H2.
    rewrite (parse_transcript_lines _ _ _ H1 H2).
    pose proof (trim_no_leading transcript) as Hl.
    pose proof (trim_no_trailing transcript) as Ht.
    pose proof (trim_trim transcript) as Htt.
    remember (trim transcript) as T eqn:HT. clear HT transcript.
    destruct T as [|c r]; [congruence|]. simpl in Hl.
    assert (Hlast : exists s d, c :: r = s ++ [d] /\ isWhiteSpace d = false).
    { unfold no_trailing_ws in Ht.
      destruct (rev (c :: r)) as [|d s'] eqn:Hrev.
      - apply (f_equal (@rev N)) in Hrev. rewrite rev_involutive in Hrev.
        discriminate.
      - exists (rev s'), d. split; trivial.
        apply (f_equal (@rev N)) in Hrev. now rewrite rev_involutive in Hrev. }
    destruct Hlast as (s & d & Hsd & Hd).
    assert (Hdlf : (d =? LF)%N = false).
    { apply N.eqb_neq. intros ->. rewrite white_LF in Hd. discriminate. }
    destruct (split_snoc LF s) as (init & l & _ & Hsplit).
    specialize (Hsplit d). rewrite Hdlf, <- Hsd in Hsplit.
    destruct (parse_line_text meetingId language_code (l ++ [d])
                (trim_snoc_text l d Hd)) as (last_seg & Hlast & _).
    destruct init as [|h t].
    + (* one line: the text itself *)
      pose proof (join_split LF (c :: r)) as Hj. rewrite Hsplit in Hj.
      simpl in Hj. rewrite Hsplit. simpl. rewrite app_nil_r. rewrite Hj.
      destruct (parse_line_text meetingId language_code (c :: r))
        as (seg & Hseg & Htext); [rewrite Htt; discriminate|].
      rewrite Hseg. intros H. injection H as ->.
      simpl in Htext. specialize (Htext eq_refl). congruence.
    + (* several lines: the first and the last have text *)
      assert (Hc : (c =? LF)%N = false).
      { apply N.eqb_neq. intros ->. rewrite white_LF in Hl. discriminate. }
      assert (Hh : exists h0, h = c :: h0).
      { simpl in Hsplit. rewrite Hc in Hsplit.
        destruct (split_cons LF r) as (h0 & t0 & Hr). rewrite Hr in Hsplit.
        injection Hsplit as <- _. now exists h0. }
      destruct Hh as (h0 & ->).
      destruct (parse_line_text meetingId language_code (c :: h0)
                  (trim_cons_nonempty c h0 Hl)) as (first_seg & Hfirst & _).
      rewrite Hsplit. intros H. apply (f_equal (@length _)) in H.
      simpl in H. rewrite Hfirst, map_app, concat_app in H. simpl in H.
      rewrite Hlast in H. rewrite !length_app in H. simpl in H. lia.
  - rewrite parse_transcript_silent.
    + intros H. injection H as H. discriminate H.
    + apply andb_false_iff in Hs as [H|H].
      * left. now apply truthy_false.
      * right. apply negb_false_iff in H. now apply eqb_eq.
Qed.

Lemma parse_printed (meetingId language_code transcript : jsstring) :
  parse_transcript meetingId language_code
    (join [LF] (map AnalyzeMeeting.transcript_line
                    (parse_transcript meetingId language_code transcript)))
  = parse_transcript meetingId language_code transcript.
Proof.
  set (segments := parse_transcript meetingId language_code transcript).
  set (fullTranscript := join [LF] (map AnalyzeMeeting.transcript_line segments)).
  destruct (parse_transcript_from_lines meetingId language_code transcript)
    as (lines & Hlf & Hsegs). fold segments in Hsegs.
  assert (Hprinted : forall seg, In seg segments ->
             parse_line meetingId language_code []
               (AnalyzeMeeting.transcript_line seg) = [seg]
             /\ ~ In LF (AnalyzeMeeting.transcript_line seg)
             /\ exists c r, AnalyzeMeeting.transcript_line seg = c :: r
                            /\ isWhiteSpace c = false).
  { intros seg Hin. rewrite Hsegs in Hin.
    apply in_concat in Hin as (out & Hout & Hin).
    apply in_map_iff in Hout as (raw & <- & Hraw).
    rewrite Forall_forall in Hlf. now apply (print_line _ _ raw); [apply Hlf|]. }
  assert (Hne : segments <> []) by apply parse_transcript_nonempty.
  assert (Hlines : segments_of meetingId language_code fullTranscript = segments).
  { unfold segments_of, fullTranscript. rewrite split_join.
    - rewrite map_map. rewrite <- (concat_singletons segments) at 2.
      f_equal. apply map_ext_in. intros seg Hin. now apply Hprinted.
    - destruct segments; [congruence|discriminate].
    - apply Forall_forall. intros p Hp.
      apply in_map_iff in Hp as (seg & <- & Hin). now apply Hprinted. }
  assert (Htext : trim fullTranscript <> []).
  { unfold fullTranscript. destruct segments as [|seg rest]; [congruence|].
    destruct (Hprinted seg (or_introl eq_refl)) as (_ & _ & c & r & Hc & Hws).
    simpl map. rewrite Hc.
    destruct (map AnalyzeMeeting.transcript_line rest);
      now apply trim_cons_nonempty. }
  assert (Hheard : trim fullTranscript <> str "[inaudible]").
  { intros H.
    apply (no_inaudible_segment meetingId language_code transcript).
    fold segments. rewrite <- Hlines, <- segments_of_trim, H. reflexivity. }
  rewrite (parse_transcript_lines _ _ _ Htext Hheard).
  fold (segments_of meetingId language_code (trim fullTranscript)).
  now rewrite segments_of_trim.
Qed.

(** The text the analysis builds from the stored segments of a
    transcription, speaker labels put back, parses to those very segments:
    storing the segments loses nothing that the parse of the text kept. *)
Theorem printed_transcript_parses_back :
  forall (meetingId language_code transcript : jsstring),
    let segments := parse_transcript meetingId language_code transcript in
    let fullTranscript := join [LF] (map AnalyzeMeeting.transcript_line segments) in
    parse_transcript meetingId language_code fullTranscript = segments.
Proof.
  intros meetingId language_code transcript. cbv zeta. apply parse_printed.
Qed.


(** ** The triggers of the client over the handlers *)

Lemma ok_200 (b : response_body) : Client.ok {| status := 200; body := b |} = true.
Proof. reflexivity. Qed.

Lemma ok_500 (b : response_body) : Client.ok {| status := 500; body := b |} = false.
Proof. reflexivity. Qed.

Lemma set_status_twice (meetingId : jsstring) (a b : meeting_status)
    (ms : list Meeting.row) :
  set_status meetingId a (set_status meetingId b ms) = set_status meetingId a ms.
Proof.
  unfold set_status. rewrite map_map. apply map_ext. intros m.
  destruct (Js.eqb (Meeting.id m) meetingId) eqn:Hm; simpl; rewrite Hm; reflexivity.
Qed.

Lemma invocation_accepted (stage : jsstring -> world -> response * world)
    (meetingId : jsstring) (w : world) :
  meetingId <> [] ->
  serve stage (Client.invocation meetingId) w = stage meetingId w.
Proof.
  intros Hne. apply serve_accepted; trivial. discriminate.
Qed.

(** The number of attempts, out of [remaining] from [attempt] on, whose
    request reaches the function. *)
Fixpoint reaching (delivers : nat -> Client.delivery) (attempt remaining : nat)
  : nat :=
  match remaining with
  | O => 0
  | S remaining' =>
      (match delivers attempt with Client.Unreached => 0 | _ => 1 end
       + reaching delivers (S attempt) remaining')%nat
  end.

Lemma reaching_bound (delivers : nat -> Client.delivery) (attempt remaining : nat) :
  (reaching delivers attempt remaining <= remaining)%nat.
Proof.
  revert attempt. induction remaining as [|k IH]; intros attempt; simpl; trivial.
  specialize (IH (S attempt)). destruct (delivers attempt); lia.
Qed.

(** The loop of attempts, counting the runs of the function: [kept n] holds
    after [n] runs and [won n] after [n] runs the last of which was answered
    [ok]. The loop makes [k] runs, as many as requests reach the function
    at most, and one at least when one does. *)
Lemma attempts_runs (fn : http_request -> world -> response * world)
    (delivers : nat -> Client.delivery) (meetingId : jsstring)
    (kept won : nat -> world -> Prop) :
  (forall n w, kept n w -> kept (S n) (snd (fn (Client.invocation meetingId) w))) ->
  (forall n w, kept n w ->
               Client.ok (fst (fn (Client.invocation meetingId) w)) = true ->
               won (S n) (snd (fn (Client.invocation meetingId) w))) ->
  forall remaining attempt n w,
    kept n w ->
    exists k,
      (k <= reaching delivers attempt remaining)%nat
      /\ (reaching delivers attempt remaining <> 0%nat -> k <> 0%nat)
      /\ if fst (Client.attempts fn delivers meetingId attempt remaining w)
         then won (n + k)%nat
                (snd (Client.attempts fn delivers meetingId attempt remaining w))
         else kept (n + k)%nat
                (snd (Client.attempts fn delivers meetingId attempt remaining w)).
Proof.
  intros Hkeep Hwin remaining.
  induction remaining as [|r IH]; intros attempt n w Hw;
    cbn [Client.attempts reaching].
  - exists 0%nat. rewrite Nat.add_0_r. cbn [fst snd]. auto.
  - destruct (delivers attempt).
    + destruct (IH (S attempt) n w Hw) as (k & Hk & Hk0 & Hend).
      exists k. auto.
    + specialize (Hkeep n w Hw).
      destruct (fn (Client.invocation meetingId) w) as [res w1]. cbn [snd] in Hkeep.
      destruct (IH (S attempt) (S n) w1 Hkeep) as (k & Hk & Hk0 & Hend).
      exists (S k). split; [lia|]. split; [lia|].
      replace (n + S k)%nat with (S n + k)%nat by lia. exact Hend.
    + specialize (Hkeep n w Hw). specialize (Hwin n w Hw).
      destruct (fn (Client.invocation meetingId) w) as [res w1].
      cbn [fst snd] in Hkeep, Hwin.
      destruct (Client.ok res).
      * exists 1%nat. cbn [fst snd]. split; [lia|]. split; [lia|].
        replace (n + 1)%nat with (S n) by lia. now apply Hwin.
      * destruct (IH (S attempt) (S n) w1 Hkeep) as (k & Hk & Hk0 & Hend).
        exists (S k). split; [lia|]. split; [lia|].
        replace (n + S k)%nat with (S n + k)%nat by lia. exact Hend.
Qed.

(** What every run keeps is kept to the end of the loop. *)
Lemma attempts_keep (fn : http_request -> world -> response * world)
    (delivers : nat -> Client.delivery) (meetingId : jsstring)
    (kept : world -> Prop) :
  (forall w, kept w -> kept (snd (fn (Client.invocation meetingId) w))) ->
  forall remaining attempt w,
    kept w -> kept (snd (Client.attempts fn delivers meetingId attempt remaining w)).
Proof.
  intros Hkeep remaining attempt w Hw.
  destruct (attempts_runs fn delivers meetingId (fun _ => kept) (fun _ => kept)
              (fun _ => Hkeep) (fun _ w0 H0 _ => Hkeep w0 H0)
              remaining attempt 0%nat w Hw) as (k & _ & _ & Hend).
  now destruct (fst _).
Qed.

(** When no answer is lost, a run that is not answered [ok] is a run whose
    outcome the client knows: what every failed run keeps is kept until the
    loop ends or a run succeeds. *)
Lemma attempts_lossless (fn : http_request -> world -> response * world)
    (delivers : nat -> Client.delivery) (meetingId : jsstring)
    (kept won : world -> Prop) :
  (forall a, delivers a <> Client.Lost) ->
  (forall w, kept w ->
             if Client.ok (fst (fn (Client.invocation meetingId) w))
             then won (snd (fn (Client.invocation meetingId) w))
             else kept (snd (fn (Client.invocation meetingId) w))) ->
  forall remaining attempt w,
    kept w ->
    if fst (Client.attempts fn delivers meetingId attempt remaining w)
    then won (snd (Client.attempts fn delivers meetingId attempt remaining w))
    else kept (snd (Client.attempts fn delivers meetingId attempt remaining w)).
Proof.
  intros Hno Hstep remaining.
  induction remaining as [|k IH]; intros attempt w Hw; simpl; trivial.
  destruct (delivers attempt) eqn:Hd; [now apply IH|now elim (Hno attempt)|].
  specialize (Hstep w Hw).
  destruct (fn (Client.invocation meetingId) w) as [res w1]. simpl in Hstep.
  destruct (Client.ok res); simpl; trivial. now apply IH.
Qed.

(** No request reaches the function: the loop gives up and nothing has
    changed. *)
Lemma attempts_unreached (fn : http_request -> world -> response * world)
    (delivers : nat -> Client.delivery) (meetingId : jsstring) :
  forall remaining attempt w,
    reaching delivers attempt remaining = 0%nat ->
    Client.attempts fn delivers meetingId attempt remaining w = (false, w).
Proof.
  induction remaining as [|k IH]; intros attempt w H; simpl in *; trivial.
  destruct (delivers attempt); [now apply IH|discriminate|discriminate].
Qed.

Lemma reaching_three (delivers : nat -> Client.delivery) :
  (reaching delivers 1 3 = 0%nat
   <-> delivers 1%nat = Client.Unreached /\ delivers 2%nat = Client.Unreached
       /\ delivers 3%nat = Client.Unreached)
  /\ (reaching delivers 1 3 <= 3)%nat.
Proof.
  split; [|apply reaching_bound]. simpl.
  destruct (delivers 1%nat), (delivers 2%nat), (delivers 3%nat);
    simpl; split; try discriminate; try tauto;
    intros (H1 & H2 & H3); discriminate.
Qed.


(** *** The runs in the log *)

(** A function whose runs only add to the log. *)
Definition logs_on (fn : http_request -> world -> response * world) : Prop :=
  forall req w, exists issued, log (snd (fn req w)) = log w ++ issued.

Lemma serve_logs_on (stage : jsstring -> world -> response * world) :
  (forall meetingId w,
      exists issued, log (snd (stage meetingId w)) = log w ++ issued) ->
  logs_on (serve stage).
Proof.
  intros Hstage req w.
  assert (Hnone : exists issued : list request, log w = log w ++ issued)
    by (exists []; now rewrite app_nil_r).
  unfold serve.
  destruct (Js.eqb (method req) (str "OPTIONS")); [exact Hnone|].
  destruct (body_meeting_id req) as [meetingId|]; [|exact Hnone].
  destruct (truthy meetingId); [apply Hstage|exact Hnone].
Qed.

Lemma transcribe_handler_logs_on (E : env) : logs_on (TranscribeMeeting.handler E).
Proof.
  apply serve_logs_on. intros meetingId w.
  destruct (transcribe_stage_within E (fun _ => 1%nat) 1 1)
    with (meetingId := meetingId) (w := w) as (issued & Hlog & _);
    [intros; lia..|].
  now exists issued.
Qed.


Lemma link_handler_logs_on (E : env) : logs_on (LinkMeeting.handler E).
Proof.
  apply serve_logs_on. intros meetingId w.
  destruct (link_stage_rows E (fun _ => True) (fun _ _ _ _ _ _ _ _ => I)
              meetingId w) as (_ & issued & Hlog & _).
  now exists issued.
Qed.

Section TriggerRuns.

Variable E : env.
Variable fn : http_request -> world -> response * world.
Variable delivers : nat -> Client.delivery.
Variable meetingId : jsstring.
Variable on_failure : meeting_status.

(** The first attempt is answered [ok]: the trigger is that one run. *)
Lemma trigger_answered_first (w : world) :
  delivers 1%nat = Client.Answered ->
  Client.ok (fst (fn (Client.invocation meetingId) w)) = true ->
  Client.trigger E fn delivers meetingId on_failure w
  = (inr tt, snd (fn (Client.invocation meetingId) w)).
Proof.
  intros Hd Hok. unfold Client.trigger, Client.callEdgeFunction.
  cbn [Client.attempts]. rewrite Hd.
  destruct (fn (Client.invocation meetingId) w) as [res w1]. cbn [fst snd] in *.
  now rewrite Hok.
Qed.

(** No request reaches the function: the trigger is the status write of
    the client. *)
Lemma trigger_unreached (w : world) :
  reaching delivers 1 3 = 0%nat ->
  Client.trigger E fn delivers meetingId on_failure w
  = (Client.updateMeetingStatus E meetingId on_failure ;;; ret tt) w.
Proof.
  intros H. unfold Client.trigger, Client.callEdgeFunction.
  now rewrite (attempts_unreached fn delivers meetingId _ _ _ H).
Qed.

Hypothesis fn_logs_on : logs_on fn.

Lemma attempts_log (remaining attempt : nat) (w : world) :
  exists issued,
    log (snd (Client.attempts fn delivers meetingId attempt remaining w))
    = log w ++ issued.
Proof.
  apply (attempts_keep fn delivers meetingId
           (fun w1 => exists issued, log w1 = log w ++ issued)).
  - intros w1 (issued & Hw1).
    destruct (fn_logs_on (Client.invocation meetingId) w1) as (more & Hmore).
    exists (issued ++ more). now rewrite Hmore, Hw1, app_assoc.
  - exists []. now rewrite app_nil_r.
Qed.

(** The first request that reaches the function starts a run of it on the
    world as the trigger found it: the log of the trigger opens with the log
    of that run. *)
Lemma attempts_first_run (remaining attempt : nat) (w : world) :
  reaching delivers attempt remaining <> 0%nat ->
  exists rest,
    log (snd (Client.attempts fn delivers meetingId attempt remaining w))
    = log (snd (fn (Client.invocation meetingId) w)) ++ rest.
Proof.
  revert attempt. induction remaining as [|k IH]; intros attempt;
    cbn [Client.attempts reaching]; [intros H; now elim H|].
  destruct (delivers attempt).
  - intros H. apply IH. exact H.
  - intros _. destruct (fn (Client.invocation meetingId) w) as [res w1].
    cbn [snd]. apply attempts_log.
  - intros _. destruct (fn (Client.invocation meetingId) w) as [res w1].
    cbn [snd]. destruct (Client.ok res); cbn [snd].
    + exists []. now rewrite app_nil_r.
    + apply attempts_log.
Qed.

Lemma trigger_first_run (w : world) :
  reaching delivers 1 3 <> 0%nat ->
  exists rest,
    log (snd (Client.trigger E fn delivers meetingId on_failure w))
    = log (snd (fn (Client.invocation meetingId) w)) ++ rest.
Proof.
  intros H. unfold Client.trigger, Client.callEdgeFunction.
  destruct (attempts_first_run 3 1 w H) as (rest & Hrest).
  destruct (Client.attempts fn delivers meetingId 1 3 w) as [[|] w1];
    cbn [snd] in *; [now exists rest|].
  unfold Client.updateMeetingStatus, bind, call, ret, throw.
  destruct (db_fault E _ _) as [[x|x]|]; cbn [snd log];
    try (exists (rest ++ [UpdateMeetingStatus meetingId on_failure]);
         now rewrite Hrest, app_assoc).
  destruct (filter _ _) as [|y [|z l]]; cbn [snd log];
    exists (rest ++ [UpdateMeetingStatus meetingId on_failure]);
    now rewrite Hrest, app_assoc.
Qed.

End TriggerRuns.

Lemma some_reaches (delivers : nat -> Client.delivery) :
  delivers 1%nat <> Client.Unreached \/ delivers 2%nat <> Client.Unreached
  \/ delivers 3%nat <> Client.Unreached ->
  reaching delivers 1 3 <> 0%nat.
Proof.
  intros Hsome H0. apply (proj1 (reaching_three delivers)) in H0.
  destruct H0 as (H1 & H2 & H3). destruct Hsome as [H|[H|H]]; auto.
Qed.

(** The status write of the client is one request, whatever it meets. *)
Lemma updateMeetingStatus_log (E : env) (meetingId : jsstring)
    (st : meeting_status) (w : world) :
  log (snd ((Client.updateMeetingStatus E meetingId st ;;; ret tt) w))
  = log w ++ [UpdateMeetingStatus meetingId st].
Proof.
  unfold Client.updateMeetingStatus, bind, call, ret, throw.
  destruct (db_fault E _ _) as [[x|x]|]; cbn [snd log]; trivial.
  destruct (filter _ _) as [|y [|z l]]; reflexivity.
Qed.

(** The status write of the client on a store that serves, for a meeting
    that is there. *)
Lemma updateMeetingStatus_served (E : env) (meetingId : jsstring)
    (st : meeting_status) (w : world) (m : Meeting.row) :
  serves E ->
  filter (fun x => Js.eqb (Meeting.id x) meetingId) (meetings (db w)) = [m] ->
  exists m' w',
    Client.updateMeetingStatus E meetingId st w = (inr m', w')
    /\ db w' = set_meetings (set_status meetingId st) (db w).
Proof.
  intros Hs Hm. unfold Client.updateMeetingStatus.
  rewrite bind_call_served by exact Hs. cbn [fst snd].
  rewrite filter_set_status, Hm. cbn [set_status map].
  eexists. eexists. split; reflexivity.
Qed.

Lemma attempt_status_served (E : env) (meetingId : jsstring) (st : meeting_status)
    (w : world) :
  serves E ->
  db (snd (attempt (update_status E meetingId st) w))
  = set_meetings (set_status meetingId st) (db w).
Proof.
  intros Hs. unfold attempt, update_status, call. rewrite Hs. reflexivity.
Qed.

Lemma bind_inr {A B} (m : M A) (k : A -> M B) (w w' : world) (b : B) :
  bind m k w = (inr b, w') ->
  exists a w1, m w = (inr a, w1) /\ k a w1 = (inr b, w').
Proof.
  unfold bind. destruct (m w) as [[e|a] w1]; [discriminate|]. eauto.
Qed.

(** *** Transcription *)

Lemma save_transcript_served (E : env) (meetingId : jsstring) (m : Meeting.row)
    (fileUri : option jsstring) (transcript : jsstring) (w : world) :
  serves E ->
  let segments := parse_transcript meetingId (Meeting.language_code m) transcript in
  exists w',
    TranscribeMeeting.save_transcript E meetingId m fileUri transcript w
    = (inr {| status := 200; body := BodyTranscribed (length segments) |}, w')
    /\ db w'
       = set_meetings (set_status meetingId analyzing)
           {| meetings := meetings (db w);
              transcripts := transcripts (db w) ++ segments;
              meeting_notes := meeting_notes (db w);
              action_items := action_items (db w);
              nodes := nodes (db w); edges := edges (db w) |}.
Proof.
  intros Hs segments.
  unfold TranscribeMeeting.save_transcript, TranscribeMeeting.insert_segments,
    update_status. cbv zeta. fold segments.
  rewrite bind_call_served by exact Hs. cbn [fst snd]. rewrite bind_ret.
  rewrite bind_call_served by exact Hs. cbn [fst snd].
  destruct fileUri as [u|]; [destruct (truthy u)|];
    (eexists; split; [reflexivity|reflexivity]).
Qed.


(** On a store that serves, the meeting steps 1 to 4 give is the row of
    that id. *)
Lemma obtain_transcript_meeting (E : env) (meetingId : jsstring) (w w1 : world)
    (m m0 : Meeting.row) (fileUri : option jsstring) (transcript : jsstring) :
  serves E ->
  filter (fun x => Js.eqb (Meeting.id x) meetingId) (meetings (db w)) = [m] ->
  TranscribeMeeting.obtain_transcript E meetingId w
  = (inr (m0, fileUri, transcript), w1) ->
  m0 = m.
Proof.
  intros Hs Hm. unfold TranscribeMeeting.obtain_transcript, select_meeting.
  rewrite bind_call_served by exact Hs. cbn [fst snd db]. rewrite Hm, bind_ret.
  intros H.
  apply bind_inr in H as (audio_path & w2 & _ & H).
  apply bind_inr in H as (dl & w3 & _ & H).
  apply bind_inr in H as (audioBytes & w4 & _ & H).
  apply bind_inr in H as ([f b64] & w5 & _ & H).
  apply bind_inr in H as (res & w6 & _ & H).
  apply bind_inr in H as (t & w7 & _ & H).
  unfold ret in H. now injection H as <- _ _ _.
Qed.

(** One run of the transcription stage on a store that serves: answered
    200, it has stored one batch, the segments parsed from a transcript, and
    the meeting is [analyzing]; answered otherwise, it has stored nothing
    and the meeting is [failed]. *)
Lemma transcribe_stage_served (E : env) (meetingId : jsstring) (w : world)
    (m : Meeting.row) :
  serves E ->
  filter (fun x => Js.eqb (Meeting.id x) meetingId) (meetings (db w)) = [m] ->
  let r := fst (TranscribeMeeting.stage E meetingId w) in
  let w' := snd (TranscribeMeeting.stage E meetingId w) in
  meeting_notes (db w') = meeting_notes (db w)
  /\ action_items (db w') = action_items (db w)
  /\ nodes (db w') = nodes (db w)
  /\ edges (db w') = edges (db w)
  /\ ((Client.ok r = true
       /\ meetings (db w') = set_status meetingId analyzing (meetings (db w))
       /\ exists transcript,
            transcripts (db w')
            = transcripts (db w)
                ++ parse_transcript meetingId (Meeting.language_code m) transcript)
      \/ (Client.ok r = false
          /\ meetings (db w') = set_status meetingId failed (meetings (db w))
          /\ transcripts (db w') = transcripts (db w))).
Proof.
  intros Hs Hm. cbv zeta.
  unfold TranscribeMeeting.stage, guarded, TranscribeMeeting.stage_body, bind.
  pose proof (reads_only_db (TranscribeMeeting.obtain_transcript E meetingId) w
                (obtain_transcript_reads E meetingId)) as Hread.
  destruct (TranscribeMeeting.obtain_transcript E meetingId w)
    as [[e|[[m0 fileUri] transcript]] w1] eqn:Hobtain; simpl in Hread.
  - cbn [fst snd]. rewrite (attempt_status_served E meetingId failed w1 Hs), Hread.
    cbn [set_meetings meetings transcripts meeting_notes action_items nodes edges].
    repeat (split; trivial). right. repeat split.
  - pose proof (obtain_transcript_meeting E meetingId w w1 m m0 fileUri transcript
                  Hs Hm Hobtain) as ->.
    destruct (save_transcript_served E meetingId m fileUri transcript w1 Hs)
      as (w2 & Heq & Hdb).
    rewrite Heq. cbn [fst snd]. rewrite Hdb, Hread.
    cbn [set_meetings meetings transcripts meeting_notes action_items nodes edges].
    repeat (split; trivial). left. split; [reflexivity|]. split; trivial.
    now exists transcript.
Qed.

(** The row of a meeting whose status was written. *)
Lemma written_row (meetingId : jsstring) (before now : list Meeting.row)
    (m : Meeting.row) :
  filter (fun x => Js.eqb (Meeting.id x) meetingId) before = [m] ->
  now = before \/ (exists st, now = set_status meetingId st before) ->
  exists m1,
    filter (fun x => Js.eqb (Meeting.id x) meetingId) now = [m1]
    /\ Meeting.language_code m1 = Meeting.language_code m
    /\ forall st, set_status meetingId st now = set_status meetingId st before.
Proof.
  intros Hm [->|(st0 & ->)].
  - exists m. auto.
  - rewrite filter_set_status, Hm. cbn [set_status map].
    destruct (Js.eqb (Meeting.id m) meetingId); eexists;
      (split; [reflexivity|split; [reflexivity|]]);
      intros st; apply set_status_twice.
Qed.


(** The trigger of the transcription, on a store that serves and for a
    meeting that is there. It returns, and touches neither notes, action
    items, nodes nor edges. Every run of the function that succeeds stores
    one batch, the segments parsed from the transcript of that run: the
    transcripts are those of before followed by one batch per run that
    succeeded, and there are no more runs than attempts that reach the
    function, three at most. The meeting is [analyzing], with one batch
    at least stored, when an attempt was answered 200, and [failed]
    otherwise, by the hand of the client. When no answer is lost, one batch
    was stored with the meeting [analyzing], or none with the meeting
    [failed]: retrying stores no transcript twice. When an answer is lost
    the run it came from has stored its batch, the retry stores another,
    and a meeting can end [failed] with segments stored. When no attempt
    reaches the function nothing is stored, the meeting is [failed] and
    the status write of the client is the only request. When one does, the
    log of the trigger opens with the log of a run of the handler on the
    world as it was; and when the first attempt is answered 200 the trigger
    is that one run. *)
Theorem trigger_transcription_outcome :
  forall (E : env) (delivers : nat -> Client.delivery) (meetingId : jsstring)
         (w : world) (m : Meeting.row),
    serves E -> meetingId <> [] ->
    filter (fun x => Js.eqb (Meeting.id x) meetingId) (meetings (db w)) = [m] ->
    let res := fst (Client.triggerTranscription E delivers meetingId w) in
    let w' := snd (Client.triggerTranscription E delivers meetingId w) in
    let batch := parse_transcript meetingId (Meeting.language_code m) in
    res = inr tt
    /\ meeting_notes (db w') = meeting_notes (db w)
    /\ action_items (db w') = action_items (db w)
    /\ nodes (db w') = nodes (db w)
    /\ edges (db w') = edges (db w)
    /\ (exists given : list jsstring,
          (length given <= reaching delivers 1 3)%nat
          /\ (length given <= 3)%nat
          /\ transcripts (db w') = transcripts (db w) ++ concat (map batch given)
          /\ ((meetings (db w') = set_status meetingId analyzing (meetings (db w))
               /\ given <> [])
              \/ meetings (db w') = set_status meetingId failed (meetings (db w))))
    /\ ((forall a, delivers a <> Client.Lost) ->
        (meetings (db w') = set_status meetingId analyzing (meetings (db w))
         /\ exists transcript,
              transcripts (db w') = transcripts (db w) ++ batch transcript)
        \/ (meetings (db w') = set_status meetingId failed (meetings (db w))
            /\ transcripts (db w') = transcripts (db w)))
    /\ (delivers 1%nat = Client.Unreached /\ delivers 2%nat = Client.Unreached
        /\ delivers 3%nat = Client.Unreached ->
        meetings (db w') = set_status meetingId failed (meetings (db w))
        /\ transcripts (db w') = transcripts (db w)
        /\ log w' = log w ++ [UpdateMeetingStatus meetingId failed])
    /\ (delivers 1%nat <> Client.Unreached \/ delivers 2%nat <> Client.Unreached
        \/ delivers 3%nat <> Client.Unreached ->
        exists rest,
          log w'
          = log (snd (TranscribeMeeting.handler E (Client.invocation meetingId) w))
              ++ rest)
    /\ (delivers 1%nat = Client.Answered ->
        Client.ok (fst (TranscribeMeeting.handler E (Client.invocation meetingId) w))
        = true ->
        w' = snd (TranscribeMeeting.handler E (Client.invocation meetingId) w)).
Proof.
  intros E delivers meetingId w m Hs Hne Hm. cbv zeta.
  set (batch := parse_transcript meetingId (Meeting.language_code m)).
  unfold Client.triggerTranscription, Client.trigger, Client.callEdgeFunction.
  pose (frame := fun w1 : world =>
          meeting_notes (db w1) = meeting_notes (db w)
          /\ action_items (db w1) = action_items (db w)
          /\ nodes (db w1) = nodes (db w)
          /\ edges (db w1) = edges (db w)).
  pose (kept := fun (n : nat) (w1 : world) =>
          frame w1
          /\ (meetings (db w1) = meetings (db w)
              \/ exists st, meetings (db w1) = set_status meetingId st (meetings (db w)))
          /\ exists given,
               (length given <= n)%nat
               /\ transcripts (db w1)
                  = transcripts (db w) ++ concat (map batch given)).
  pose (won := fun (n : nat) (w1 : world) =>
          frame w1
          /\ meetings (db w1) = set_status meetingId analyzing (meetings (db w))
          /\ exists given,
               given <> [] /\ (length given <= n)%nat
               /\ transcripts (db w1)
                  = transcripts (db w) ++ concat (map batch given)).
  (* one run *)
  assert (Hrun : forall n w1, kept n w1 ->
             let r := fst (TranscribeMeeting.handler E
                             (Client.invocation meetingId) w1) in
             let w2 := snd (TranscribeMeeting.handler E
                              (Client.invocation meetingId) w1) in
             kept (S n) w2 /\ (Client.ok r = true -> won (S n) w2)).
  { intros n w1 ((Hn & Ha & Hno & He) & Hmt & given & Hlen & Ht).
    unfold TranscribeMeeting.handler. rewrite invocation_accepted by exact Hne.
    destruct (written_row meetingId (meetings (db w)) (meetings (db w1)) m Hm Hmt)
      as (m1 & Hm1 & Hcode & Hstatus).
    destruct (transcribe_stage_served E meetingId w1 m1 Hs Hm1)
      as (Hn' & Ha' & Hno' & He' & [(Hok & Hmt' & transcript & Ht')
                                   |(Hok & Hmt' & Ht')]);
      cbv zeta; rewrite Hok; unfold won, kept, frame;
      rewrite Hn', Ha', Hno', He', Hmt', Ht', Hstatus, Ht.
    - assert (Hgiven : (transcripts (db w) ++ concat (map batch given))
                         ++ parse_transcript meetingId (Meeting.language_code m1)
                              transcript
                       = transcripts (db w)
                           ++ concat (map batch (given ++ [transcript]))).
      { rewrite map_app, concat_app. cbn [map concat]. rewrite app_nil_r.
        unfold batch. rewrite Hcode. now rewrite app_assoc. }
      split.
      + split; [auto|]. split; [right; now exists analyzing|].
        exists (given ++ [transcript]). split; [|exact Hgiven].
        rewrite length_app. simpl. lia.
      + intros _. split; [auto|]. split; [reflexivity|].
        exists (given ++ [transcript]). split; [now destruct given|].
        split; [|exact Hgiven]. rewrite length_app. simpl. lia.
    - split; [|discriminate].
      split; [auto|]. split; [right; now exists failed|].
      exists given. split; [lia|reflexivity]. }
  assert (Hw : kept 0%nat w).
  { unfold kept, frame. split; [auto|]. split; [now left|].
    exists []. simpl. now rewrite app_nil_r. }
  (* the status write of the client once the loop has given up *)
  assert (Hfailed : forall w1,
             (meetings (db w1) = meetings (db w)
              \/ exists st, meetings (db w1) = set_status meetingId st (meetings (db w))) ->
             exists w2,
               (Client.updateMeetingStatus E meetingId failed ;;; ret tt) w1
               = (inr tt, w2)
               /\ db w2 = set_meetings (set_status meetingId failed) (db w1)
               /\ meetings (db w2) = set_status meetingId failed (meetings (db w))).
  { intros w1 Hmt.
    destruct (written_row meetingId (meetings (db w)) (meetings (db w1)) m Hm Hmt)
      as (m1 & Hm1 & _ & Hstatus).
    destruct (updateMeetingStatus_served E meetingId failed w1 m1 Hs Hm1)
      as (m' & w2 & Heq & Hdb).
    exists w2. rewrite (bind_value _ _ _ _ _ Heq). split; [reflexivity|].
    split; [exact Hdb|]. rewrite Hdb. cbn [set_meetings meetings]. apply Hstatus. }
  split; [|split; [|split; [|split; [|split; [|split; [|split; [|split; [|split]]]]]]]].
  1-6: destruct (attempts_runs (TranscribeMeeting.handler E) delivers meetingId
                   kept won (fun n w1 H => proj1 (Hrun n w1 H))
                   (fun n w1 H => proj2 (Hrun n w1 H)) 3 1 0%nat w Hw)
         as (k & Hk & _ & Hloop);
       pose proof (reaching_bound delivers 1 3) as Hthree;
       destruct (Client.attempts (TranscribeMeeting.handler E) delivers meetingId
                   1 3 w) as [[|] w1]; cbn [fst snd] in *;
       [destruct Hloop as ((Hn & Ha & Hno & He) & Hmt & given & Hgiven & Hlen & Ht)
       |destruct Hloop as ((Hn & Ha & Hno & He) & Hmt & given & Hlen & Ht);
        destruct (Hfailed w1 Hmt) as (w2 & Heq & Hdb & Hmt2);
        rewrite Heq; cbn [fst snd]; rewrite ?Hdb;
        cbn [set_meetings meetings transcripts meeting_notes action_items
               nodes edges]];
       trivial.
  - exists given. split; [lia|]. split; [lia|]. split; [exact Ht|]. now left.
  - exists given. split; [lia|]. split; [lia|]. split; [exact Ht|].
    right. rewrite <- Hmt2, Hdb. reflexivity.
  - (* no answer is lost *)
    intros Hno.
    pose (kept0 := fun w1 : world =>
            transcripts (db w1) = transcripts (db w)
            /\ (meetings (db w1) = meetings (db w)
                \/ exists st, meetings (db w1)
                              = set_status meetingId st (meetings (db w)))).
    pose (won0 := fun w1 : world =>
            meetings (db w1) = set_status meetingId analyzing (meetings (db w))
            /\ exists transcript,
                 transcripts (db w1) = transcripts (db w) ++ batch transcript).
    assert (Hstep : forall w1, kept0 w1 ->
               if Client.ok (fst (TranscribeMeeting.handler E
                                    (Client.invocation meetingId) w1))
               then won0 (snd (TranscribeMeeting.handler E
                                 (Client.invocation meetingId) w1))
               else kept0 (snd (TranscribeMeeting.handler E
                                  (Client.invocation meetingId) w1))).
    { intros w1 (Ht & Hmt).
      unfold TranscribeMeeting.handler. rewrite invocation_accepted by exact Hne.
      destruct (written_row meetingId (meetings (db w)) (meetings (db w1)) m Hm Hmt)
        as (m1 & Hm1 & Hcode & Hstatus).
      destruct (transcribe_stage_served E meetingId w1 m1 Hs Hm1)
        as (_ & _ & _ & _ & [(Hok & Hmt' & transcript & Ht')
                            |(Hok & Hmt' & Ht')]);
        rewrite Hok; unfold won0, kept0; rewrite Hmt', Ht', Hstatus, Ht.
      - split; [reflexivity|]. exists transcript. unfold batch. now rewrite Hcode.
      - split; [reflexivity|]. right. now exists failed. }
    pose proof (attempts_lossless (TranscribeMeeting.handler E) delivers meetingId
                  kept0 won0 Hno Hstep 3 1 w
                  (conj eq_refl (or_introl eq_refl))) as Hloop.
    destruct (Client.attempts (TranscribeMeeting.handler E) delivers meetingId
                1 3 w) as [[|] w1]; cbn [fst snd] in *.
    + left. exact Hloop.
    + destruct Hloop as (Ht & Hmt).
      destruct (Hfailed w1 Hmt) as (w2 & Heq & Hdb & Hmt2).
      rewrite Heq. cbn [fst snd]. right. split; [exact Hmt2|].
      rewrite Hdb. exact Ht.
  - (* no attempt reaches the function *)
    intros Hnone. apply (proj1 (reaching_three delivers)) in Hnone.
    rewrite (attempts_unreached _ _ _ _ _ _ Hnone).
    pose proof (updateMeetingStatus_log E meetingId failed w) as Hlog.
    destruct (Hfailed w (or_introl eq_refl)) as (w2 & Heq & Hdb & Hmt2).
    rewrite Heq in Hlog |- *. cbn [fst snd] in Hlog |- *.
    split; [exact Hmt2|]. split; [now rewrite Hdb|exact Hlog].
  - (* a request reaches the function *)
    intros Hsome.
    exact (trigger_first_run E (TranscribeMeeting.handler E) delivers meetingId
             failed (transcribe_handler_logs_on E) w (some_reaches delivers Hsome)).
  - (* the first attempt is answered 200 *)
    intros Hd Hok.
    change (Client.attempts (TranscribeMeeting.handler E) delivers meetingId 1 3 w)
      with (Client.callEdgeFunction (TranscribeMeeting.handler E) delivers
              meetingId 3 w).
    fold (Client.trigger E (TranscribeMeeting.handler E) delivers meetingId failed w).
    now rewrite (trigger_answered_first E (TranscribeMeeting.handler E) delivers
                   meetingId failed w Hd Hok).
Qed.

(** *** Analysis *)








(** *** Linking *)

(** The trigger of the linking, with the linking handler deployed under the
    name the client calls, on a store that serves and for a meeting that is
    there: it returns and the meeting is [done] whatever happened;
    transcripts, notes and action items are never touched. When the request
    of one attempt at least reaches the handler, be its answer read or
    lost, the handler has run and the nodes of the meeting are replaced by
    one new node at least, the nodes of the other meetings staying as they
    were, and the log of the trigger opens with the log of a run of the
    handler on the world as it was; the trigger is that one run when the
    first attempt is answered. When no request reaches it, the graph is as
    it was and the status write of the client is the only request. *)
Theorem trigger_linking_outcome :
  forall (E : env) (delivers : nat -> Client.delivery) (meetingId : jsstring)
         (w : world) (m : Meeting.row),
    serves E -> meetingId <> [] ->
    filter (fun x => Js.eqb (Meeting.id x) meetingId) (meetings (db w)) = [m] ->
    let res := fst (Client.triggerLinking E (LinkMeeting.handler E) delivers
                      meetingId w) in
    let w' := snd (Client.triggerLinking E (LinkMeeting.handler E) delivers
                     meetingId w) in
    res = inr tt
    /\ meetings (db w') = set_status meetingId done (meetings (db w))
    /\ transcripts (db w') = transcripts (db w)
    /\ meeting_notes (db w') = meeting_notes (db w)
    /\ action_items (db w') = action_items (db w)
    /\ (delivers 1%nat <> Client.Unreached \/ delivers 2%nat <> Client.Unreached
        \/ delivers 3%nat <> Client.Unreached ->
        exists rows,
          rows <> []
          /\ Forall (fun x => LinkMeeting.from_meeting meetingId x = true) rows
          /\ nodes (db w') = others meetingId (nodes (db w)) ++ rows)
    /\ (delivers 1%nat = Client.Unreached /\ delivers 2%nat = Client.Unreached
        /\ delivers 3%nat = Client.Unreached ->
        nodes (db w') = nodes (db w) /\ edges (db w') = edges (db w)
        /\ log w' = log w ++ [UpdateMeetingStatus meetingId done])
    /\ (delivers 1%nat <> Client.Unreached \/ delivers 2%nat <> Client.Unreached
        \/ delivers 3%nat <> Client.Unreached ->
        exists rest,
          log w'
          = log (snd (LinkMeeting.handler E (Client.invocation meetingId) w))
              ++ rest)
    /\ (delivers 1%nat = Client.Answered ->
        w' = snd (LinkMeeting.handler E (Client.invocation meetingId) w)).
Proof.
  intros E delivers meetingId w m Hs Hne Hm. cbv zeta.
  assert (Hruns :
            (delivers 1%nat <> Client.Unreached \/ delivers 2%nat <> Client.Unreached
             \/ delivers 3%nat <> Client.Unreached ->
             exists rest,
               log (snd (Client.triggerLinking E (LinkMeeting.handler E) delivers
                           meetingId w))
               = log (snd (LinkMeeting.handler E (Client.invocation meetingId) w))
                   ++ rest)
            /\ (delivers 1%nat = Client.Answered ->
                snd (Client.triggerLinking E (LinkMeeting.handler E) delivers
                       meetingId w)
                = snd (LinkMeeting.handler E (Client.invocation meetingId) w))).
  { split.
    - intros Hsome.
      exact (trigger_first_run E (LinkMeeting.handler E) delivers meetingId
               done (link_handler_logs_on E) w (some_reaches delivers Hsome)).
    - intros Hd. unfold Client.triggerLinking.
      rewrite (trigger_answered_first E (LinkMeeting.handler E) delivers
                 meetingId done w Hd); [reflexivity|].
      unfold LinkMeeting.handler. rewrite invocation_accepted by exact Hne.
      destruct (link_body_served E meetingId w m Hs Hm)
        as (rows & batch & w2 & Heq & _).
      unfold LinkMeeting.stage, guarded. rewrite Heq. apply ok_200. }
  cut (fst (Client.triggerLinking E (LinkMeeting.handler E) delivers meetingId w)
       = inr tt
       /\ meetings (db (snd (Client.triggerLinking E (LinkMeeting.handler E)
                               delivers meetingId w)))
          = set_status meetingId done (meetings (db w))
       /\ transcripts (db (snd (Client.triggerLinking E (LinkMeeting.handler E)
                                  delivers meetingId w)))
          = transcripts (db w)
       /\ meeting_notes (db (snd (Client.triggerLinking E (LinkMeeting.handler E)
                                    delivers meetingId w)))
          = meeting_notes (db w)
       /\ action_items (db (snd (Client.triggerLinking E (LinkMeeting.handler E)
                                   delivers meetingId w)))
          = action_items (db w)
       /\ (delivers 1%nat <> Client.Unreached
           \/ delivers 2%nat <> Client.Unreached
           \/ delivers 3%nat <> Client.Unreached ->
           exists rows,
             rows <> []
             /\ Forall (fun x => LinkMeeting.from_meeting meetingId x = true) rows
             /\ nodes (db (snd (Client.triggerLinking E (LinkMeeting.handler E)
                                  delivers meetingId w)))
                = others meetingId (nodes (db w)) ++ rows)
       /\ (delivers 1%nat = Client.Unreached /\ delivers 2%nat = Client.Unreached
           /\ delivers 3%nat = Client.Unreached ->
           nodes (db (snd (Client.triggerLinking E (LinkMeeting.handler E)
                             delivers meetingId w)))
           = nodes (db w)
           /\ edges (db (snd (Client.triggerLinking E (LinkMeeting.handler E)
                                delivers meetingId w)))
              = edges (db w)
           /\ log (snd (Client.triggerLinking E (LinkMeeting.handler E)
                          delivers meetingId w))
              = log w ++ [UpdateMeetingStatus meetingId done])).
  { intros (H1 & H2 & H3 & H4 & H5 & H6 & H7). destruct Hruns as [H8 H9].
    repeat (split; [assumption|]). assumption. }
  clear Hruns.
  unfold Client.triggerLinking, Client.trigger, Client.callEdgeFunction.
  pose (frame := fun w1 : world =>
          transcripts (db w1) = transcripts (db w)
          /\ meeting_notes (db w1) = meeting_notes (db w)
          /\ action_items (db w1) = action_items (db w)).
  pose (won := fun (n : nat) (w1 : world) =>
          frame w1
          /\ meetings (db w1) = set_status meetingId done (meetings (db w))
          /\ exists rows,
               rows <> []
               /\ Forall (fun x => LinkMeeting.from_meeting meetingId x = true) rows
               /\ nodes (db w1) = others meetingId (nodes (db w)) ++ rows).
  pose (kept := fun (n : nat) (w1 : world) =>
          (n = 0%nat /\ db w1 = db w) \/ (n <> 0%nat /\ won n w1)).
  assert (Hrun : forall n w1, kept n w1 ->
             let r := fst (LinkMeeting.handler E (Client.invocation meetingId) w1) in
             let w2 := snd (LinkMeeting.handler E (Client.invocation meetingId) w1) in
             won (S n) w2).
  { intros n w1 Hkept. cbv zeta.
    unfold LinkMeeting.handler. rewrite invocation_accepted by exact Hne.
    assert (Hbefore : frame w1
                      /\ (meetings (db w1) = meetings (db w)
                          \/ exists st, meetings (db w1)
                                        = set_status meetingId st (meetings (db w)))
                      /\ others meetingId (nodes (db w1))
                         = others meetingId (nodes (db w))).
    { destruct Hkept as [(_ & Hdb)|(_ & Hf & Hmt & rows & _ & Hfrom & Hnodes)].
      - unfold frame. rewrite Hdb. repeat split; auto.
      - split; [exact Hf|]. split; [right; now exists done|].
        rewrite Hnodes, others_app, others_idem, (others_of_meeting _ _ Hfrom).
        apply app_nil_r. }
    destruct Hbefore as ((Ht & Hn & Ha) & Hmt & Hothers).
    destruct (written_row meetingId (meetings (db w)) (meetings (db w1)) m Hm Hmt)
      as (m1 & Hm1 & _ & Hstatus).
    pose proof (link_stage_keeps E meetingId (db w1) w1
                  (conj eq_refl (conj eq_refl (conj eq_refl eq_refl))))
      as (Ht' & Hn' & Ha' & _).
    destruct (link_body_served E meetingId w1 m1 Hs Hm1)
      as (rows & batch & w2 & Heq & Hlen & Hfrom & Hnodes & _ & Hmt').
    unfold LinkMeeting.stage, guarded in *. rewrite Heq in *. cbn [fst snd] in *.
    unfold won, frame. rewrite Hmt', Ht', Hn', Ha', Hnodes, Hstatus, Hothers.
    repeat (split; trivial). exists rows. repeat split; trivial.
    intros ->. simpl in Hlen. lia. }
  assert (Hkeep : forall n w1, kept n w1 ->
             kept (S n) (snd (LinkMeeting.handler E (Client.invocation meetingId) w1))).
  { intros n w1 H. right. split; [discriminate|]. exact (Hrun n w1 H). }
  assert (Hwin : forall n w1, kept n w1 ->
             Client.ok (fst (LinkMeeting.handler E (Client.invocation meetingId) w1))
             = true ->
             won (S n) (snd (LinkMeeting.handler E (Client.invocation meetingId) w1))).
  { intros n w1 H _. exact (Hrun n w1 H). }
  assert (Hw : kept 0%nat w) by (left; auto).
  assert (Hdone : forall w1,
             (meetings (db w1) = meetings (db w)
              \/ exists st, meetings (db w1) = set_status meetingId st (meetings (db w))) ->
             exists w2,
               (Client.updateMeetingStatus E meetingId done ;;; ret tt) w1
               = (inr tt, w2)
               /\ db w2 = set_meetings (set_status meetingId done) (db w1)
               /\ meetings (db w2) = set_status meetingId done (meetings (db w))).
  { intros w1 Hmt.
    destruct (written_row meetingId (meetings (db w)) (meetings (db w1)) m Hm Hmt)
      as (m1 & Hm1 & _ & Hstatus).
    destruct (updateMeetingStatus_served E meetingId done w1 m1 Hs Hm1)
      as (m' & w2 & Heq & Hdb).
    exists w2. rewrite (bind_value _ _ _ _ _ Heq). split; [reflexivity|].
    split; [exact Hdb|]. rewrite Hdb. cbn [set_meetings meetings]. apply Hstatus. }
  assert (Hall : forall w1 n,
             kept n w1 ->
             frame w1
             /\ (meetings (db w1) = meetings (db w)
                 \/ exists st, meetings (db w1)
                               = set_status meetingId st (meetings (db w)))).
  { intros w1 n [(_ & Hdb)|(_ & Hf & Hmt & _)].
    - unfold frame. rewrite Hdb. repeat split; auto.
    - split; [exact Hf|]. right. now exists done. }
  assert (Hreach : delivers 1%nat <> Client.Unreached
                   \/ delivers 2%nat <> Client.Unreached
                   \/ delivers 3%nat <> Client.Unreached ->
                   reaching delivers 1 3 <> 0%nat).
  { intros Hsome H0. apply (proj1 (reaching_three delivers)) in H0.
    destruct H0 as (H1 & H2 & H3). destruct Hsome as [H|[H|H]]; auto. }
  destruct (attempts_runs (LinkMeeting.handler E) delivers meetingId
              kept won Hkeep Hwin 3 1 0%nat w Hw) as (k & Hk & Hk0 & Hloop).
  destruct (Client.attempts (LinkMeeting.handler E) delivers meetingId 1 3 w)
    as [[|] w1] eqn:Hattempts; cbn [fst snd] in Hloop |- *.
  - destruct Hloop as ((Ht & Hn & Ha) & Hmt & Hrows).
    split; [reflexivity|]. split; [exact Hmt|].
    split; [exact Ht|]. split; [exact Hn|]. split; [exact Ha|]. split.
    + intros _. exact Hrows.
    + intros Hnone. apply (proj1 (reaching_three delivers)) in Hnone.
      rewrite (attempts_unreached _ _ _ _ _ _ Hnone) in Hattempts. discriminate.
  - destruct (Hall w1 k Hloop) as ((Ht & Hn & Ha) & Hmt).
    destruct (Hdone w1 Hmt) as (w2 & Heq & Hdb & Hmt2).
    rewrite Heq. cbn [fst snd]. rewrite Hdb.
    cbn [set_meetings meetings transcripts meeting_notes action_items nodes edges].
    split; [reflexivity|]. split; [now rewrite <- Hmt2, Hdb|].
    split; [exact Ht|]. split; [exact Hn|]. split; [exact Ha|]. split.
    + intros Hsome.
      destruct Hloop as [(Hz & _)|(_ & _ & _ & Hrows)]; [|exact Hrows].
      exfalso. exact (Hk0 (Hreach Hsome) Hz).
    + intros Hnone. apply (proj1 (reaching_three delivers)) in Hnone.
      rewrite (attempts_unreached _ _ _ _ _ _ Hnone) in Hattempts.
      injection Hattempts as <-. split; [reflexivity|]. split; [reflexivity|].
      pose proof (updateMeetingStatus_log E meetingId done w) as Hlog.
      rewrite Heq in Hlog. exact Hlog.
Qed.

(** The answer of the first attempt is lost; the later ones are read. *)
Definition lost_once (attempt : nat) : Client.delivery :=
  match attempt with
  | 1%nat => Client.Lost
  | _ => Client.Answered
  end.

(** A short recording, transcribed in two lines. *)
Definition short_recording : env :=
  {| db_fault := db_fault quiet;
     single_error := single_error quiet;
     gen_random_uuid := gen_random_uuid quiet;
     storage_object := fun _ => Data [Byte.x52; Byte.x49; Byte.x46];
     file_api_start := file_api_start quiet;
     file_api_upload := file_api_upload quiet;
     file_api_poll := file_api_poll quiet;
     generate_transcription :=
       fun _ _ _ => Fetched true 200 []
                      (CandidateText (str "Speaker 1: Hello" ++ [LF] ++ str "Hello back"));
     generate_analysis := generate_analysis quiet;
     embed_content := embed_content quiet;
     search_nodes := search_nodes quiet;
     btoa := btoa quiet;
     JSON_parse := JSON_parse quiet |}.


(** With the answer of the first attempt lost, the recording is
    transcribed twice and both batches are stored. *)
Lemma trigger_transcription_outcome_witness :
  fst (Client.triggerTranscription short_recording lost_once (str "m1")
         (world_of [a_meeting processing (Some (str "u1/m1.m4a"))]))
  = inr tt
  /\ map Transcript.text
       (transcripts
          (db (snd (Client.triggerTranscription short_recording lost_once (str "m1")
                      (world_of [a_meeting processing (Some (str "u1/m1.m4a"))])))))
     = [str "Hello"; str "Hello back"; str "Hello"; str "Hello back"]
  /\ map Meeting.status
       (meetings
          (db (snd (Client.triggerTranscription short_recording lost_once (str "m1")
                      (world_of [a_meeting processing (Some (str "u1/m1.m4a"))])))))
     = [analyzing].
Proof.
  split.
  - exact (proj1 (trigger_transcription_outcome short_recording lost_once (str "m1")
                    (world_of [a_meeting processing (Some (str "u1/m1.m4a"))])
                    (a_meeting processing (Some (str "u1/m1.m4a")))
                    (fun _ _ => eq_refl) ltac:(discriminate) eq_refl)).
  - split; vm_compute; reflexivity.
Defined.


(** With the answer of the first attempt lost, the graph of the meeting is
    built twice and holds the three nodes of the second run. *)
Lemma trigger_linking_outcome_witness :
  exists rows,
    rows <> []
    /\ Forall (fun x => LinkMeeting.from_meeting (str "m1") x = true) rows
    /\ nodes (db (snd (Client.triggerLinking busy_graph
                         (LinkMeeting.handler busy_graph) lost_once (str "m1")
                         analysed_world)))
       = others (str "m1") (nodes (db analysed_world)) ++ rows.
Proof.
  apply (trigger_linking_outcome busy_graph lost_once (str "m1")
           analysed_world (a_meeting linking (Some (str "u1/m1.m4a")))
           (fun _ _ => eq_refl) ltac:(discriminate) eq_refl).
  left. discriminate.
Defined.

(** ** The related meetings *)

Lemma mem_In (x : jsstring) (l : list jsstring) :
  LinkMeeting.mem x l = true <-> In x l.
Proof.
  unfold LinkMeeting.mem. rewrite existsb_exists. split.
  - intros (y & Hy & Heq). apply eqb_eq in Heq. now subst.
  - intros H. exists x. split; trivial. apply eqb_refl.
Qed.

Lemma mem_not_In (x : jsstring) (l : list jsstring) :
  LinkMeeting.mem x l = false <-> ~ In x l.
Proof.
  rewrite <- mem_In. destruct (LinkMeeting.mem x l); split; congruence.
Qed.

Lemma add_In (x y : jsstring) (s : list jsstring) :
  In y (GraphService.add x s) <-> y = x \/ In y s.
Proof.
  unfold GraphService.add. destruct (LinkMeeting.mem x s) eqn:Hx.
  - apply mem_In in Hx. split; auto. intros [->|H]; trivial.
  - rewrite in_app_iff. simpl. split.
    + intros [H|[H|[]]]; auto.
    + intros [->|H]; auto.
Qed.

Lemma insert_desc_In {A} (key : A -> Q) (x y : A) (l : list A) :
  In y (GraphService.insert_desc key x l) <-> y = x \/ In y l.
Proof.
  induction l as [|z l IH]; simpl.
  - split; [intros [H|[]]; auto|intros [H|[]]; auto].
  - destruct (Qle_bool (key z) (key x)); simpl.
    + split; [intros [H|H]; auto|intros [H|H]; auto].
    + rewrite IH. split; [intros [H|[H|H]]; auto|intros [H|[H|H]]; auto].
Qed.

Lemma order_desc_In {A} (key : A -> Q) (y : A) (l : list A) :
  In y (GraphService.order_desc key l) <-> In y l.
Proof.
  unfold GraphService.order_desc. induction l as [|x l IH]; simpl; [tauto|].
  rewrite insert_desc_In, IH. split; [intros [H|H]; auto|intros [H|H]; auto].
Qed.

(** [x] is not a node of [ids] and an edge joins it to one. *)
Definition other_end (ids : list jsstring) (es : list Edge.row) (x : jsstring)
  : Prop :=
  ~ In x ids
  /\ exists e, In e es
               /\ ((Edge.from_node e = x /\ In (Edge.to_node e) ids)
                   \/ (Edge.to_node e = x /\ In (Edge.from_node e) ids)).

Lemma far_ends_In (ids s : list jsstring) (e : Edge.row) (x : jsstring) :
  In x (GraphService.far_ends ids s e)
  <-> In x s
      \/ (x = Edge.from_node e /\ ~ In (Edge.from_node e) ids)
      \/ (x = Edge.to_node e /\ ~ In (Edge.to_node e) ids).
Proof.
  unfold GraphService.far_ends.
  destruct (LinkMeeting.mem (Edge.from_node e) ids) eqn:Hf;
    [apply mem_In in Hf|apply mem_not_In in Hf];
    (destruct (LinkMeeting.mem (Edge.to_node e) ids) eqn:Ht;
     [apply mem_In in Ht|apply mem_not_In in Ht]);
    simpl; rewrite ?add_In; intuition (subst; tauto).
Qed.

Lemma related_node_ids (ids : list jsstring) (l : list Edge.row)
    (s : list jsstring) (x : jsstring) :
  In x (fold_left (GraphService.far_ends ids) l s)
  <-> In x s
      \/ exists e, In e l
                   /\ ((x = Edge.from_node e /\ ~ In (Edge.from_node e) ids)
                       \/ (x = Edge.to_node e /\ ~ In (Edge.to_node e) ids)).
Proof.
  revert s. induction l as [|e l IH]; intros s; simpl.
  - split; auto. intros [H|(e & [] & _)]; trivial.
  - rewrite IH, far_ends_In. split.
    + intros [[H|H]|(e0 & He0 & H)]; auto.
      * right. exists e. auto.
      * right. exists e0. auto.
    + intros [H|(e0 & [<-|He0] & H)]; auto.
      right. exists e0. auto.
Qed.

Lemma sources_In (meetingId : jsstring) (s : list jsstring) (n : Node.row)
    (y : jsstring) :
  In y (GraphService.sources meetingId s n)
  <-> In y s
      \/ (Node.source_meeting_id (Node.data n) = Some y
          /\ y <> [] /\ y <> meetingId).
Proof.
  unfold GraphService.sources.
  destruct (Node.source_meeting_id (Node.data n)) as [src|].
  - assert (Hinj : Some src = Some y <-> src = y).
    { split; [intros H; now injection H|intros ->; trivial]. }
    rewrite Hinj.
    destruct (truthy src) eqn:Ht; [apply truthy_true in Ht|apply truthy_false in Ht];
      (destruct (Js.eqb src meetingId) eqn:He;
       [apply eqb_eq in He|apply eqb_neq in He]);
      simpl; rewrite ?add_In; intuition (subst; congruence).
  - split; auto. intros [H|(H & _)]; [trivial|discriminate].
Qed.

Lemma related_meeting_ids (meetingId : jsstring) (l : list Node.row)
    (s : list jsstring) (y : jsstring) :
  In y (fold_left (GraphService.sources meetingId) l s)
  <-> In y s
      \/ exists n, In n l
                   /\ Node.source_meeting_id (Node.data n) = Some y
                   /\ y <> [] /\ y <> meetingId.
Proof.
  revert s. induction l as [|n l IH]; intros s; simpl.
  - split; auto. intros [H|(n & [] & _)]; trivial.
  - rewrite IH, sources_In. split.
    + intros [[H|H]|(n0 & Hn0 & H)]; auto.
      * right. exists n. auto.
      * right. exists n0. auto.
    + intros [H|(n0 & [<-|Hn0] & H)]; auto.
      right. exists n0. auto.
Qed.

(** The ids of the nodes of a meeting. *)
Definition node_ids (d : database) (meetingId : jsstring) : list jsstring :=
  map Node.id (filter (LinkMeeting.from_meeting meetingId) (nodes d)).

(** [b] is related to the meeting: one of its nodes is the other end of
    an edge that touches a node of the meeting. *)
Definition related (d : database) (meetingId : jsstring) (b : Meeting.row) : Prop :=
  In b (meetings d)
  /\ Meeting.id b <> [] /\ Meeting.id b <> meetingId
  /\ exists n, In n (nodes d)
               /\ Node.source_meeting_id (Node.data n) = Some (Meeting.id b)
               /\ other_end (node_ids d meetingId) (edges d) (Node.id n).

Lemma touching_In (ids : list jsstring) (es : list Edge.row) (e : Edge.row) :
  In e (GraphService.order_desc Edge.strength
          (filter (fun e => LinkMeeting.mem (Edge.from_node e) ids
                            || LinkMeeting.mem (Edge.to_node e) ids) es))
  <-> In e es /\ (In (Edge.from_node e) ids \/ In (Edge.to_node e) ids).
Proof.
  rewrite order_desc_In, filter_In, orb_true_iff, !mem_In. reflexivity.
Qed.

(** What the call gives when every select is served. *)
Lemma related_meetings_served (created_at : jsstring -> Q) (d : database)
    (meetingId : jsstring) (b : Meeting.row) :
  In b (GraphService.getRelatedMeetings (fun _ => true) created_at d meetingId)
  <-> related d meetingId b.
Proof.
  unfold GraphService.getRelatedMeetings, related, other_end, node_ids.
  destruct (filter (LinkMeeting.from_meeting meetingId) (nodes d))
    as [|n0 ns] eqn:Hns.
  { split; [intros []|].
    intros (_ & _ & _ & n & _ & _ & _ & e & _ & Hjoin). simpl in Hjoin. tauto. }
  cbv zeta. set (ids := map Node.id (n0 :: ns)).
  destruct (GraphService.order_desc Edge.strength _) as [|e0 es] eqn:Hes.
  { split; [intros []|].
    intros (_ & _ & _ & n & _ & _ & Hn & e & He & Hjoin).
    assert (Hin : In e []).
    { rewrite <- Hes. apply touching_In. split; trivial.
      destruct Hjoin as [[_ H]|[_ H]]; auto. }
    destruct Hin. }
  destruct (fold_left (GraphService.far_ends ids) (e0 :: es) []) as [|r rs] eqn:Hrel.
  { split; [intros []|].
    intros (_ & _ & _ & n & _ & _ & Hn & e & He & Hjoin).
    assert (Hin : In (Node.id n) []).
    { rewrite <- Hrel. apply related_node_ids. right. exists e. split.
      - rewrite <- Hes. apply touching_In. split; trivial.
        destruct Hjoin as [[_ H]|[_ H]]; auto.
      - destruct Hjoin as [[Hj H]|[Hj H]]; [left|right]; rewrite Hj; now split. }
    destruct Hin. }
  assert (Hfar : forall x, In x (r :: rs) <->
             ~ In x ids
             /\ exists e, In e (edges d)
                          /\ ((Edge.from_node e = x /\ In (Edge.to_node e) ids)
                              \/ (Edge.to_node e = x /\ In (Edge.from_node e) ids))).
  { intros x. rewrite <- Hrel, related_node_ids. split.
    - intros [[]|(e & He & H)]. rewrite <- Hes in He. apply touching_In in He.
      destruct He as [He Hends].
      destruct H as [[-> Hn]|[-> Hn]]; (split; [exact Hn|]); exists e;
        (split; [exact He|]); tauto.
    - intros (Hn & e & He & Hjoin). right. exists e. split.
      + rewrite <- Hes. apply touching_In. split; trivial.
        destruct Hjoin as [[_ H]|[_ H]]; auto.
      + destruct Hjoin as [[Hj H]|[Hj H]]; [left|right]; rewrite Hj; now split. }
  assert (Hsrc : forall y,
             In y (fold_left (GraphService.sources meetingId)
                     (filter (fun x => LinkMeeting.mem (Node.id x) (r :: rs)) (nodes d))
                     [])
             <-> y <> [] /\ y <> meetingId
                 /\ exists n, In n (nodes d)
                              /\ Node.source_meeting_id (Node.data n) = Some y
                              /\ In (Node.id n) (r :: rs)).
  { intros y. rewrite related_meeting_ids. split.
    - intros [[]|(n & Hn & Hs & H1 & H2)]. apply filter_In in Hn as [Hn Hm].
      apply mem_In in Hm. split; trivial. split; trivial. now exists n.
    - intros (H1 & H2 & n & Hn & Hs & Hm). right. exists n. split; [|auto].
      apply filter_In. split; trivial. now apply mem_In. }
  destruct (fold_left (GraphService.sources meetingId) _ []) as [|s ss] eqn:Hmeet.
  { split; [intros []|].
    intros (_ & H1 & H2 & n & Hn & Hs & Hend).
    assert (Hin : In (Meeting.id b) []).
    { apply Hsrc. split; trivial. split; trivial. exists n.
      split; trivial. split; trivial. now apply Hfar. }
    destruct Hin. }
  rewrite order_desc_In, filter_In, mem_In, Hsrc. split.
  - intros (Hb & H1 & H2 & n & Hn & Hs & Hm). split; trivial. split; trivial.
    split; trivial. exists n. split; trivial. split; trivial. now apply Hfar.
  - intros (Hb & H1 & H2 & n & Hn & Hs & Hend). split; trivial. split; trivial.
    split; trivial. exists n. split; trivial. split; trivial. now apply Hfar.
Qed.

(** A select that is not served empties the answer. *)
Lemma related_meetings_unserved (served : nat -> bool) (created_at : jsstring -> Q)
    (d : database) (meetingId : jsstring) :
  GraphService.getRelatedMeetings served created_at d meetingId
  = if served 0%nat && served 1%nat && served 2%nat && served 3%nat
    then GraphService.getRelatedMeetings (fun _ => true) created_at d meetingId
    else [].
Proof.
  unfold GraphService.getRelatedMeetings.
  destruct (served 0%nat); [|reflexivity].
  destruct (filter (LinkMeeting.from_meeting meetingId) (nodes d)) as [|n0 ns];
    [now destruct (_ && _)|].
  destruct (served 1%nat); [|reflexivity]. cbv zeta.
  destruct (GraphService.order_desc Edge.strength _) as [|e0 es];
    [now destruct (_ && _)|].
  destruct (fold_left _ (e0 :: es) []) as [|r rs]; [now destruct (_ && _)|].
  destruct (served 2%nat); [|reflexivity].
  destruct (fold_left _ _ []) as [|s ss]; [now destruct (_ && _)|].
  now destruct (served 3%nat).
Qed.

(** The meetings [getRelatedMeetings] gives are related to the meeting
    through the graph, whatever selects are served: each is a row of the
    table, is not the meeting itself, and owns a node that is not a node of
    the meeting and that an edge joins, in either direction, to a node of
    the meeting. When every select is served, every such meeting is given. *)
Theorem related_meetings_through_graph :
  forall (served : nat -> bool) (created_at : jsstring -> Q) (d : database)
         (meetingId : jsstring),
    (forall b,
        In b (GraphService.getRelatedMeetings served created_at d meetingId) ->
        In b (meetings d)
        /\ Meeting.id b <> meetingId
        /\ exists n e,
             In n (nodes d) /\ In e (edges d)
             /\ Node.source_meeting_id (Node.data n) = Some (Meeting.id b)
             /\ ~ In (Node.id n) (node_ids d meetingId)
             /\ ((Edge.from_node e = Node.id n
                  /\ In (Edge.to_node e) (node_ids d meetingId))
                 \/ (Edge.to_node e = Node.id n
                     /\ In (Edge.from_node e) (node_ids d meetingId))))
    /\ ((forall k, served k = true) ->
        forall b, related d meetingId b ->
                  In b (GraphService.getRelatedMeetings served created_at d meetingId)).
Proof.
  intros served created_at d meetingId. split.
  - intros b Hb. rewrite related_meetings_unserved in Hb.
    destruct (_ && _); [|destruct Hb].
    apply related_meetings_served in Hb
      as (Hin & _ & Hne & n & Hn & Hs & Hfar & e & He & Hjoin).
    split; trivial. split; trivial. exists n, e. auto 10.
  - intros Hserved b Hb. rewrite related_meetings_unserved, !Hserved. simpl.
    now apply related_meetings_served.
Qed.

Lemma same_id_same_node (l : list Node.row) (x y : Node.row) :
  NoDup (map Node.id l) -> In x l -> In y l -> Node.id x = Node.id y -> x = y.
Proof.
  induction l as [|z l IH]; simpl; [tauto|].
  intros Hnd Hx Hy Hid. inversion Hnd as [|? ? Hz Hl]; subst.
  destruct Hx as [<-|Hx], Hy as [<-|Hy]; trivial.
  - exfalso. apply Hz. rewrite Hid. now apply in_map.
  - exfalso. apply Hz. rewrite <- Hid. now apply in_map.
  - now apply IH.
Qed.

Lemma node_ids_In (d : database) (meetingId x : jsstring) :
  In x (node_ids d meetingId)
  <-> exists n, In n (nodes d) /\ Node.id n = x
                /\ Node.source_meeting_id (Node.data n) = Some meetingId.
Proof.
  unfold node_ids. rewrite in_map_iff. split.
  - intros (n & Hid & Hn). apply filter_In in Hn as [Hn Hf].
    exists n. split; trivial. split; trivial.
    unfold LinkMeeting.from_meeting in Hf.
    destruct (Node.source_meeting_id (Node.data n)) as [s|]; [|discriminate].
    apply eqb_eq in Hf. now subst.
  - intros (n & Hn & Hid & Hs). exists n. split; trivial.
    apply filter_In. split; trivial.
    unfold LinkMeeting.from_meeting. rewrite Hs. apply eqb_refl.
Qed.

Lemma related_symmetric (d : database) (a b : Meeting.row) :
  NoDup (map Node.id (nodes d)) ->
  In a (meetings d) -> Meeting.id a <> [] ->
  related d (Meeting.id a) b -> related d (Meeting.id b) a.
Proof.
  intros Hnd Ha Hane (Hb & Hbne & Hab & n & Hn & Hs & Hfar & e & He & Hjoin).
  assert (Hend : exists x, In x (node_ids d (Meeting.id a))
                           /\ ((Edge.from_node e = Node.id n /\ Edge.to_node e = x)
                               \/ (Edge.to_node e = Node.id n /\ Edge.from_node e = x))).
  { destruct Hjoin as [[H1 H2]|[H1 H2]]; eexists; split; eauto. }
  destruct Hend as (x & Hx & Hends).
  apply node_ids_In in Hx as (na & Hna & Hid & Hsa).
  split; trivial. split; trivial. split; [congruence|].
  exists na. split; trivial. split; trivial. split.
  - intros Hin. apply node_ids_In in Hin as (n' & Hn' & Hid' & Hs').
    assert (n' = na) by (apply (same_id_same_node (nodes d)); trivial).
    subst n'. rewrite Hsa in Hs'. injection Hs' as Heq. congruence.
  - exists e. split; trivial.
    assert (Hnb : In (Node.id n) (node_ids d (Meeting.id b)))
      by (apply node_ids_In; now exists n).
    destruct Hends as [[H1 H2]|[H1 H2]]; [right|left]; split; congruence.
Qed.

(** Being related is mutual: when node ids are unique and every select is
    served, a meeting that [getRelatedMeetings] gives for [a] has [a] among
    its own related meetings. *)
Theorem related_meetings_mutual :
  forall (created_at : jsstring -> Q) (d : database) (a b : Meeting.row),
    NoDup (map Node.id (nodes d)) ->
    In a (meetings d) -> Meeting.id a <> [] ->
    In b (GraphService.getRelatedMeetings (fun _ => true) created_at d (Meeting.id a)) ->
    In a (GraphService.getRelatedMeetings (fun _ => true) created_at d (Meeting.id b)).
Proof.
  intros created_at d a b Hnd Ha Hne Hb.
  apply related_meetings_served. apply related_symmetric; trivial.
  now apply (related_meetings_served created_at).
Qed.

(** Two meetings, a node each, and one edge between the nodes. *)
Definition two_meetings : database :=
  {| meetings :=
       [ {| Meeting.id := str "m1"; Meeting.user_id := str "u1";
            Meeting.title := str "Weekly sync"; Meeting.language_code := str "en-US";
            Meeting.status := done; Meeting.audio_path := None |};
         {| Meeting.id := str "m2"; Meeting.user_id := str "u1";
            Meeting.title := str "Planning"; Meeting.language_code := str "en-US";
            Meeting.status := done; Meeting.audio_path := None |} ];
     transcripts := []; meeting_notes := []; action_items := [];
     nodes :=
       [ {| Node.id := str "n1";
            Node.data := {| Node.user_id := str "u1"; Node.node_type := meeting;
                            Node.title := str "Weekly sync"; Node.content := [];
                            Node.embedding := None;
                            Node.source_meeting_id := Some (str "m1") |} |};
         {| Node.id := str "n2";
            Node.data := {| Node.user_id := str "u1"; Node.node_type := meeting;
                            Node.title := str "Planning"; Node.content := [];
                            Node.embedding := None;
                            Node.source_meeting_id := Some (str "m2") |} |} ];
     edges := [ {| Edge.from_node := str "n2"; Edge.to_node := str "n1";
                   Edge.relation := continues; Edge.strength := 8 # 10 |} ] |}.

Lemma related_meetings_mutual_witness :
  exists a b,
    In b (GraphService.getRelatedMeetings (fun _ => true) (fun _ => 0)
            two_meetings (Meeting.id a))
    /\ In a (GraphService.getRelatedMeetings (fun _ => true) (fun _ => 0)
               two_meetings (Meeting.id b)).
Proof.
  exists (nth 0 (meetings two_meetings) (a_meeting done None)),
         (nth 1 (meetings two_meetings) (a_meeting done None)).
  assert (Hb : In (nth 1 (meetings two_meetings) (a_meeting done None))
                  (GraphService.getRelatedMeetings (fun _ => true) (fun _ => 0)
                     two_meetings
                     (Meeting.id (nth 0 (meetings two_meetings)
                                    (a_meeting done None)))))
    by (vm_compute; auto).
  split; [exact Hb|].
  apply (related_meetings_mutual (fun _ => 0) two_meetings
           (nth 0 (meetings two_meetings) (a_meeting done None))
           (nth 1 (meetings two_meetings) (a_meeting done None))).
  - repeat constructor; simpl; intuition discriminate.
  - simpl. auto.
  - discriminate.
  - exact Hb.
Defined.

(** ** From transcription to analysis *)

(** An answer 200 of the transcription stage: the parsed segments of some
    transcript were appended. *)
Lemma transcribe_stage_200 (E : env) (meetingId : jsstring) (w : world) :
  status (fst (TranscribeMeeting.stage E meetingId w)) = 200%N ->
  exists m transcript,
    transcripts (db (snd (TranscribeMeeting.stage E meetingId w)))
    = transcripts (db w)
        ++ parse_transcript meetingId (Meeting.language_code m) transcript.
Proof.
  unfold TranscribeMeeting.stage, guarded, TranscribeMeeting.stage_body, bind.
  pose proof (reads_only_db (TranscribeMeeting.obtain_transcript E meetingId) w
                (obtain_transcript_reads E meetingId)) as Hread.
  destruct (TranscribeMeeting.obtain_transcript E meetingId w)
    as [[e|[[m fileUri] transcript]] w1]; simpl in Hread.
  - cbn [fst status]. discriminate.
  - destruct (TranscribeMeeting.save_transcript E meetingId m fileUri transcript w1)
      as [[e|r] w2] eqn:Hsave.
    + cbn [fst status]. discriminate.
    + intros _. apply save_transcript_outcome in Hsave. cbv zeta in Hsave.
      destruct Hsave as (_ & _ & _ & _ & _ & Htr & _).
      exists m, transcript. cbn [snd]. now rewrite Htr, Hread.
Qed.

Lemma persist_grows (E : env) (meetingId : jsstring) (analysis : Analysis.t) :
  grows (AnalyzeMeeting.persist E meetingId analysis).
Proof.
  unfold grows, AnalyzeMeeting.persist, AnalyzeMeeting.upsert_note,
    AnalyzeMeeting.insert_action_items. grow.
Qed.

(** The analysis stage, once its read gave rows: the two requests it opens
    with. *)
Lemma analyze_stage_asks (E : env) (meetingId : jsstring) (w : world)
    (t : Transcript.row) (ts : list Transcript.row) :
  db_fault E (length (log w)) (SelectTranscripts meetingId) = None ->
  filter (fun x => Js.eqb (Transcript.meeting_id x) meetingId) (transcripts (db w))
  = t :: ts ->
  exists rest,
    log (snd (AnalyzeMeeting.stage E meetingId w))
    = log w
        ++ SelectTranscripts meetingId
        :: GenerateAnalysis
             (AnalyzeMeeting.langName_of
                (AnalyzeMeeting.or_string (Some (Transcript.language t)) (str "en-US")))
             (join [LF] (map AnalyzeMeeting.transcript_line (t :: ts)))
        :: rest.
Proof.
  intros Hserved Hrows.
  assert (Hbody : exists rest,
             log (snd (AnalyzeMeeting.stage_body E meetingId w))
             = log w
                 ++ SelectTranscripts meetingId
                 :: GenerateAnalysis
                      (AnalyzeMeeting.langName_of
                         (AnalyzeMeeting.or_string (Some (Transcript.language t))
                            (str "en-US")))
                      (join [LF] (map AnalyzeMeeting.transcript_line (t :: ts)))
                 :: rest).
  { unfold AnalyzeMeeting.stage_body.
    unfold bind at 1. unfold call. rewrite Hserved. cbv beta iota zeta.
    rewrite Hrows. rewrite bind_ret. cbv beta iota zeta.
    match goal with
    | |- context [bind (fetch ?r ?a) ?k ?w0] =>
        destruct (fetch_then_log r a k w0) as [rest Hrest]
    end.
    - unfold grows. apply preserves_bind; [grow|]. intros rawText.
      destruct (AnalyzeMeeting.parse_analysis E rawText);
        [apply persist_grows|apply preserves_throw].
    - exists rest. rewrite Hrest. cbn [log]. now rewrite <- app_assoc. }
  destruct Hbody as [rest Hrest].
  unfold AnalyzeMeeting.stage, guarded.
  destruct (AnalyzeMeeting.stage_body E meetingId w) as [[e|r] w1]; cbn [snd] in *.
  - unfold attempt, update_status, call. cbn [snd].
    exists (rest ++ [UpdateMeetingStatus meetingId failed]).
    destruct (db_fault E _ (UpdateMeetingStatus meetingId failed)) as [[?|?]|];
      cbn [snd log]; rewrite Hrest; rewrite <- app_assoc; reflexivity.
  - now exists rest.
Qed.

Lemma filter_keeps_all {A} (f : A -> bool) (l : list A) :
  Forall (fun x => f x = true) l -> filter f l = l.
Proof. induction 1 as [|x l Hx Hl IH]; simpl; trivial. now rewrite Hx, IH. Qed.

(** What the analysis stage sends to Gemini after a transcription: for a
    meeting without earlier segments, once the transcription stage has
    answered 200 and the analysis is served its read, the analysis asks
    about a text that parses to exactly the segments the transcription
    stored, in the language name of those segments. *)
Theorem analysis_reads_what_transcription_wrote :
  forall (E : env) (meetingId : jsstring) (w : world),
    filter (fun x => Js.eqb (Transcript.meeting_id x) meetingId)
           (transcripts (db w)) = [] ->
    status (fst (TranscribeMeeting.stage E meetingId w)) = 200%N ->
    db_fault E (length (log (snd (TranscribeMeeting.stage E meetingId w))))
             (SelectTranscripts meetingId) = None ->
    let w1 := snd (TranscribeMeeting.stage E meetingId w) in
    exists segments language_code rest,
      segments <> []
      /\ filter (fun x => Js.eqb (Transcript.meeting_id x) meetingId)
                (transcripts (db w1)) = segments
      /\ log (snd (AnalyzeMeeting.stage E meetingId w1))
         = log w1
             ++ SelectTranscripts meetingId
             :: GenerateAnalysis
                  (AnalyzeMeeting.langName_of
                     (AnalyzeMeeting.or_string (Some language_code) (str "en-US")))
                  (join [LF] (map AnalyzeMeeting.transcript_line segments))
             :: rest
      /\ parse_transcript meetingId language_code
           (join [LF] (map AnalyzeMeeting.transcript_line segments))
         = segments.
Proof.
  intros E meetingId w Hnone H200 Hserved w1.
  destruct (transcribe_stage_200 E meetingId w H200) as (m & transcript & Htr).
  fold w1 in Htr, Hserved.
  set (segments := parse_transcript meetingId (Meeting.language_code m) transcript)
    in *.
  pose proof (parse_transcript_passes meetingId (Meeting.language_code m) transcript)
    as Hpass. fold segments in Hpass.
  assert (Hrows : filter (fun x => Js.eqb (Transcript.meeting_id x) meetingId)
                         (transcripts (db w1)) = segments).
  { rewrite Htr, filter_app, Hnone. simpl. apply filter_keeps_all.
    eapply Forall_impl; [|exact Hpass]. intros s (Hid & _).
    rewrite Hid. apply eqb_refl. }
  assert (Hne : segments <> []) by apply parse_transcript_nonempty.
  exists segments, (Meeting.language_code m).
  destruct segments as [|t ts] eqn:Hsegs; [congruence|].
  destruct (analyze_stage_asks E meetingId w1 t ts Hserved Hrows) as [rest Hlog].
  exists rest. split; trivial. split; trivial. split.
  - inversion Hpass as [|? ? (_ & Hlang & _) _]; subst. now rewrite <- Hlang.
  - rewrite <- Hsegs. apply parse_printed.
Qed.

Definition recorded : world :=
  world_of [a_meeting processing (Some (str "u1/m1.m4a"))].

Lemma analysis_reads_what_transcription_wrote_witness :
  exists segments language_code rest,
    segments <> []
    /\ filter (fun x => Js.eqb (Transcript.meeting_id x) (str "m1"))
              (transcripts
                 (db (snd (TranscribeMeeting.stage short_recording (str "m1") recorded))))
       = segments
    /\ log (snd (AnalyzeMeeting.stage short_recording (str "m1")
                   (snd (TranscribeMeeting.stage short_recording (str "m1") recorded))))
       = log (snd (TranscribeMeeting.stage short_recording (str "m1") recorded))
           ++ SelectTranscripts (str "m1")
           :: GenerateAnalysis
                (AnalyzeMeeting.langName_of
                   (AnalyzeMeeting.or_string (Some language_code) (str "en-US")))
                (join [LF] (map AnalyzeMeeting.transcript_line segments))
           :: rest
    /\ parse_transcript (str "m1") language_code
         (join [LF] (map AnalyzeMeeting.transcript_line segments))
       = segments.
Proof.
  apply (analysis_reads_what_transcription_wrote short_recording (str "m1") recorded).
  - reflexivity.
  - vm_compute. reflexivity.
  - reflexivity.
Defined.

(** ** The text handed to [JSON.parse] *)

Lemma span_snd_length (p : N -> bool) (s : jsstring) :
  (length (snd (span p s)) <= length s)%nat.
Proof.
  destruct (span_spec p s) as (Hs & _).
  rewrite Hs at 2. rewrite length_app. lia.
Qed.

Lemma literal_rest_length (ic : bool) (pat s m r : jsstring) :
  literal ic pat s = Some (m, r) -> (length r <= length s)%nat.
Proof.
  intros H. apply literal_spec in H as [-> _]. rewrite length_app. lia.
Qed.

(** The scan does not depend on its fuel once there is enough of it. *)
Lemma remove_all_from_fuel (ic : bool) (lit : jsstring) (f1 f2 : nat) (s : jsstring) :
  (length s <= f1)%nat -> (length s <= f2)%nat ->
  remove_all_from f1 ic lit s = remove_all_from f2 ic lit s.
Proof.
  revert f2 s. induction f1 as [|f1 IH]; intros f2 s H1 H2.
  - destruct s; [|simpl in H1; lia]. destruct f2; reflexivity.
  - destruct f2 as [|f2].
    + destruct s; [reflexivity|simpl in H2; lia].
    + destruct s as [|c r]; [reflexivity|]. cbn [remove_all_from].
      simpl in H1, H2.
      destruct lit as [|p lit']; [f_equal; apply IH; lia|].
      destruct (literal ic (p :: lit') (c :: r)) as [[m after]|] eqn:Hl.
      * pose proof (literal_rest_length _ _ _ _ _ Hl) as Hlen.
        apply literal_spec in Hl as [Hs Hm].
        assert (length after <= length r)%nat.
        { inversion Hm as [|? c' ? m' ? ?]; subst.
          apply (f_equal (@length N)) in Hs. simpl in Hs.
          rewrite length_app in Hs. lia. }
        pose proof (span_snd_length isWhiteSpace after).
        apply IH; lia.
      * f_equal; apply IH; lia.
Qed.

Lemma remove_all_nil (ic : bool) (lit : jsstring) : remove_all ic lit [] = [].
Proof. reflexivity. Qed.

(** One position of the scan. *)
Lemma remove_all_cons (ic : bool) (p : N) (lit' : jsstring) (c : N) (r : jsstring) :
  remove_all ic (p :: lit') (c :: r)
  = match literal ic (p :: lit') (c :: r) with
    | Some (_, after) => remove_all ic (p :: lit') (snd (span isWhiteSpace after))
    | None => c :: remove_all ic (p :: lit') r
    end.
Proof.
  unfold remove_all at 1. cbn [length remove_all_from].
  destruct (literal ic (p :: lit') (c :: r)) as [[m after]|] eqn:Hl.
  - apply literal_spec in Hl as [Hs Hm].
    assert (length after <= length r)%nat.
    { inversion Hm as [|? c' ? m' ? ?]; subst.
      apply (f_equal (@length N)) in Hs. simpl in Hs.
      rewrite length_app in Hs. lia. }
    pose proof (span_snd_length isWhiteSpace after).
    apply remove_all_from_fuel; lia.
  - reflexivity.
Qed.

(** Units that cannot open a match are copied. *)
Lemma remove_all_skip (ic : bool) (p : N) (lit' x y : jsstring) :
  Forall (fun c => char_eqb ic p c = false) x ->
  remove_all ic (p :: lit') (x ++ y) = x ++ remove_all ic (p :: lit') y.
Proof.
  induction 1 as [|c x Hc Hx IH]; [reflexivity|].
  cbn [app]. rewrite remove_all_cons. cbn [literal]. rewrite Hc. now rewrite IH.
Qed.

Lemma remove_all_free (ic : bool) (p : N) (lit' x : jsstring) :
  Forall (fun c => char_eqb ic p c = false) x ->
  remove_all ic (p :: lit') x = x.
Proof.
  intros H. rewrite <- (app_nil_r x) at 1.
  rewrite remove_all_skip by exact H. now rewrite remove_all_nil, app_nil_r.
Qed.

(** The code unit of the backtick. *)
Definition tick : N := 96%N.

Definition fence : jsstring := [tick; tick; tick].

Definition has_fence (s : jsstring) : Prop :=
  exists pre post, s = pre ++ fence ++ post.

Lemma has_fence_cons (c : N) (s : jsstring) :
  has_fence (c :: s) ->
  (c = tick /\ exists post, s = tick :: tick :: post) \/ has_fence s.
Proof.
  intros (pre & post & H). destruct pre as [|c' pre].
  - left. injection H as -> ->. split; trivial. now exists post.
  - right. injection H as _ ->. now exists pre, post.
Qed.

Section Scan.

Let R := remove_all false fence.

(** What the second replacement leaves: no fence, and no backtick at the
    front that the text did not have there. *)
Definition scanned (s : jsstring) : Prop :=
  ~ has_fence (R s)
  /\ (forall t, R s = tick :: t -> exists t', s = tick :: t')
  /\ (forall t, R s = tick :: tick :: t -> exists t', s = tick :: tick :: t').

Lemma scanned_all (n : nat) (s : jsstring) : (length s <= n)%nat -> scanned s.
Proof.
  revert s. induction n as [|n IH]; intros s Hn.
  - destruct s; [|simpl in Hn; lia]. unfold scanned, R. rewrite remove_all_nil.
    repeat split; try discriminate.
    intros (pre & post & H). destruct pre; discriminate.
  - destruct s as [|c r].
    + unfold scanned, R. rewrite remove_all_nil.
      repeat split; try discriminate.
      intros (pre & post & H). destruct pre; discriminate.
    + simpl in Hn. unfold scanned, R, fence. rewrite remove_all_cons.
      fold fence. fold R.
      destruct (literal false fence (c :: r)) as [[m after]|] eqn:Hl.
      * assert (Hr : exists after', c :: r = tick :: tick :: tick :: after'
                                    /\ (length after' <= length r)%nat).
        { apply literal_spec in Hl as [Hs Hm].
          inversion Hm as [|? c1 ? m1 H1 Hm1]; subst.
          inversion Hm1 as [|? c2 ? m2 H2 Hm2]; subst.
          inversion Hm2 as [|? c3 ? m3 H3 Hm3]; subst.
          inversion Hm3; subst.
          unfold char_eqb in H1, H2, H3.
          apply N.eqb_eq in H1, H2, H3. subst c1 c2 c3.
          exists after. split; [exact Hs|].
          simpl in Hs. injection Hs as _ ->. simpl. lia. }
        apply literal_spec in Hl as [Hs Hm].
        assert (Hlen : (length after <= length r)%nat).
        { inversion Hm as [|? c' ? m' ? ?]; subst.
          apply (f_equal (@length N)) in Hs. simpl in Hs.
          rewrite length_app in Hs. lia. }
        pose proof (span_snd_length isWhiteSpace after) as Hsp.
        destruct (IH (snd (span isWhiteSpace after))) as (Ha & _); [lia|].
        destruct Hr as (after' & Hr & _). rewrite Hr.
        split; [exact Ha|]. split; intros; eexists; reflexivity.
      * destruct (IH r) as (Ha & Hb & Hc); [lia|].
        split; [|split].
        -- intros Hf. apply has_fence_cons in Hf as [[-> [post Hp]]|Hf];
             [|now apply Ha].
           destruct (Hc _ Hp) as [t' ->]. discriminate.
        -- intros t H. injection H as -> _. eexists; reflexivity.
        -- intros t H. injection H as -> H.
           destruct (Hb _ H) as [t' ->]. eexists; reflexivity.
Qed.

End Scan.

Lemma trimStart_suffix (s : jsstring) : exists a, s = a ++ trimStart s.
Proof.
  induction s as [|c s [a IH]]; [now exists []|]. simpl.
  destruct (isWhiteSpace c).
  - exists (c :: a). simpl. now f_equal.
  - now exists [].
Qed.

Lemma trim_infix (s : jsstring) : exists a b, s = a ++ trim s ++ b.
Proof.
  destruct (trimStart_suffix s) as [a Ha].
  destruct (trimStart_suffix (rev (trimStart s))) as [b Hb].
  exists a, (rev b). unfold trim, trimEnd.
  rewrite <- rev_app_distr, <- Hb, rev_involutive. exact Ha.
Qed.

(** No code fence reaches [JSON.parse]: whatever Gemini answered, the text
    that is parsed holds no three backticks in a row. *)
Theorem json_text_has_no_fence :
  forall (rawText pre post : jsstring),
    AnalyzeMeeting.jsonStr rawText <> pre ++ str "```" ++ post.
Proof.
  intros rawText pre post H. unfold AnalyzeMeeting.jsonStr in H.
  set (s := remove_all true (str "```json") rawText) in H.
  destruct (scanned_all (length s) s (le_n _)) as (Hf & _).
  apply Hf.
  destruct (trim_infix (remove_all false (str "```") s)) as (a & b & Hab).
  exists (a ++ pre), (post ++ b).
  change (str "```") with fence in *.
  rewrite Hab at 1. rewrite H. now rewrite <- !app_assoc.
Qed.

Lemma span_snd_trimStart (s : jsstring) : snd (span isWhiteSpace s) = trimStart s.
Proof.
  induction s as [|c s IH]; [reflexivity|]. simpl.
  destruct (isWhiteSpace c); [|reflexivity].
  destruct (span isWhiteSpace s). exact IH.
Qed.

Lemma trimStart_blank (s : jsstring) : all isWhiteSpace s -> trimStart s = [].
Proof. induction 1 as [|c s Hc _ IH]; simpl; [|rewrite Hc]; trivial. Qed.

Lemma trim_trimStart (s : jsstring) : trim (trimStart s) = trim s.
Proof.
  unfold trim. now rewrite (trimStart_id (trimStart s)) by apply trimStart_no_leading.
Qed.

Lemma fold_case_tick (c : N) : fold_case c = tick -> c = tick.
Proof.
  unfold fold_case, tick.
  destruct ((97 <=? c) && (c <=? 122))%N eqn:H; [|trivial].
  apply andb_prop in H as [H1 H2]. apply N.leb_le in H1, H2. lia.
Qed.

(** A unit that is not a backtick opens neither fence. *)
Lemma not_tick_no_match (ic : bool) (c : N) :
  c <> tick -> char_eqb ic tick c = false.
Proof.
  intros Hc. unfold char_eqb. destruct ic.
  - apply N.eqb_neq. intros H. apply Hc. apply fold_case_tick.
    now rewrite <- H.
  - apply N.eqb_neq. congruence.
Qed.

Lemma white_not_tick (c : N) : isWhiteSpace c = true -> c <> tick.
Proof. intros H ->. discriminate. Qed.

Lemma white_not_j (c : N) : isWhiteSpace c = true -> char_eqb true 106 c = false.
Proof.
  intros H. unfold char_eqb. apply N.eqb_neq. intros Hf.
  assert (Hc : c = 74%N \/ c = 106%N).
  { revert Hf. unfold fold_case.
    destruct ((97 <=? c) && (c <=? 122))%N eqn:Hr.
    - apply andb_prop in Hr as [H1 H2]. apply N.leb_le in H1, H2.
      change (if (97 <=? 106)%N && (106 <=? 122)%N then (106 - 32)%N else 106%N)
        with 74%N. lia.
    - change (if (97 <=? 106)%N && (106 <=? 122)%N then (106 - 32)%N else 106%N)
        with 74%N. lia. }
  destruct Hc as [-> | ->]; discriminate.
Qed.

Lemma trimStart_keeps (P : N -> Prop) (s : jsstring) :
  Forall P s -> Forall P (trimStart s).
Proof.
  intros H. apply Forall_forall. intros c Hc.
  apply trimStart_incl in Hc. revert c Hc. now apply Forall_forall.
Qed.

(** The first replacement on text that closes with a fence and blanks: no
    opening fence is found. *)
Lemma open_fence_absent (x tail : jsstring) :
  Forall (fun c => c <> tick) x -> all isWhiteSpace tail ->
  remove_all true (str "```json") (x ++ fence ++ tail) = x ++ fence ++ tail.
Proof.
  intros Hx Htail.
  change (str "```json") with (tick :: str "``json").
  rewrite remove_all_skip
    by (eapply Forall_impl; [|exact Hx]; intros c; apply not_tick_no_match).
  f_equal. unfold fence. cbn [app].
  destruct Htail as [|c tail Hc Htail].
  - reflexivity.
  - assert (Hj := white_not_j c Hc).
    assert (Ht := not_tick_no_match true c (white_not_tick c Hc)).
    rewrite !remove_all_cons.
    change (str "``json") with (tick :: tick :: 106%N :: str "son").
    cbn [literal].
    change (char_eqb true tick tick) with true. cbv iota.
    rewrite Hj, Ht. cbv iota.
    do 4 f_equal. apply (remove_all_free true tick (str "``json")).
    eapply Forall_impl; [|exact Htail].
    intros c' Hc'. apply not_tick_no_match. now apply white_not_tick.
Qed.

(** The second replacement on the same text: the closing fence and the
    blanks after it go. *)
Lemma close_fence_removed (x tail : jsstring) :
  Forall (fun c => c <> tick) x -> all isWhiteSpace tail ->
  remove_all false (str "```") (x ++ fence ++ tail) = x.
Proof.
  intros Hx Htail.
  change (str "```") with (tick :: [tick; tick]).
  rewrite remove_all_skip
    by (eapply Forall_impl; [|exact Hx]; intros c; apply not_tick_no_match).
  unfold fence. cbn [app]. rewrite remove_all_cons. cbn [literal].
  change (char_eqb false tick tick) with true. cbv iota.
  rewrite span_snd_trimStart, trimStart_blank by exact Htail.
  now rewrite remove_all_nil, app_nil_r.
Qed.

Lemma fenced_json (opening body tail : jsstring) :
  spells true (str "```json") opening ->
  Forall (fun c => c <> tick) body ->
  all isWhiteSpace tail ->
  AnalyzeMeeting.jsonStr (opening ++ body ++ fence ++ tail) = trim body.
Proof.
  intros Hopen Hbody Htail. unfold AnalyzeMeeting.jsonStr.
  assert (Hfirst : remove_all true (str "```json") (opening ++ body ++ fence ++ tail)
                   = trimStart body ++ fence ++ tail).
  { assert (Hl : literal true (str "```json") (opening ++ body ++ fence ++ tail)
                 = Some (opening, body ++ fence ++ tail))
      by (apply literal_spec; split; trivial).
    destruct opening as [|c opening]; [inversion Hopen|].
    change (str "```json") with (tick :: str "``json") in *.
    cbn [app] in *. rewrite remove_all_cons, Hl.
    rewrite span_snd_trimStart.
    assert (Hshape : trimStart (body ++ fence ++ tail) = trimStart body ++ fence ++ tail).
    { destruct (trimStart body) as [|y ys] eqn:Hb.
      - rewrite trimStart_app_blank by exact Hb. reflexivity.
      - rewrite trimStart_app_text by (rewrite Hb; discriminate). now rewrite Hb. }
    rewrite Hshape.
    change (tick :: str "``json") with (str "```json").
    apply open_fence_absent; trivial. now apply trimStart_keeps. }
  rewrite Hfirst, close_fence_removed; trivial; [|now apply trimStart_keeps].
  apply trim_trimStart.
Qed.

(** A fenced answer is unwrapped: for text without backticks between an
    opening fence (in any letter case) and a closing fence followed by
    blanks only, the text that is parsed is the text between the fences,
    trimmed; text without backticks and fences is only trimmed. *)
Theorem fenced_answer_is_unwrapped :
  forall (opening body tail : jsstring),
    spells true (str "```json") opening ->
    Forall (fun c => c <> 96%N) body ->
    all isWhiteSpace tail ->
    AnalyzeMeeting.jsonStr (opening ++ body ++ str "```" ++ tail) = trim body
    /\ AnalyzeMeeting.jsonStr body = trim body.
Proof.
  intros opening body tail Hopen Hbody Htail. split.
  - now apply fenced_json.
  - unfold AnalyzeMeeting.jsonStr.
    change (str "```json") with (tick :: str "``json").
    change (str "```") with (tick :: [tick; tick]).
    rewrite (remove_all_free true)
      by (eapply Forall_impl; [|exact Hbody]; intros c; apply not_tick_no_match).
    rewrite (remove_all_free false)
      by (eapply Forall_impl; [|exact Hbody]; intros c; apply not_tick_no_match).
    reflexivity.
Qed.

Lemma fenced_answer_is_unwrapped_witness :
  AnalyzeMeeting.jsonStr
    (str "```JSON" ++ (LF :: str "{ }" ++ [LF]) ++ str "```" ++ [LF])
  = trim (LF :: str "{ }" ++ [LF])
  /\ AnalyzeMeeting.jsonStr (LF :: str "{ }" ++ [LF]) = trim (LF :: str "{ }" ++ [LF]).
Proof.
  apply fenced_answer_is_unwrapped.
  - repeat constructor.
  - repeat constructor; discriminate.
  - repeat constructor.
Defined.

(** ** From the upload to the transcription *)

Lemma endsWith_app (s suffix pat : jsstring) :
  length pat = length suffix ->
  endsWith (s ++ suffix) pat = endsWith suffix pat.
Proof.
  intros Hlen. unfold endsWith, startsWith. rewrite rev_app_distr.
  assert (Hgen : forall p a x, length p = length a ->
             literal false p (a ++ x)
             = match literal false p a with
               | Some (m, r) => Some (m, r ++ x)
               | None => None
               end).
  { induction p as [|q p IH]; intros a x Hl.
    - destruct a; [reflexivity|discriminate].
    - destruct a as [|c a]; [discriminate|]. cbn [app literal].
      destruct (char_eqb false q c); trivial.
      injection Hl as Hl. rewrite (IH a x Hl).
      destruct (literal false p a) as [[? ?]|]; reflexivity. }
  rewrite Hgen by (now rewrite !length_rev).
  destruct (literal false (rev pat) (rev suffix)) as [[? ?]|]; reflexivity.
Qed.

Lemma mime_of_storagePath (userId meetingId : jsstring) :
  TranscribeMeeting.mime_of (StorageService.storagePath userId meetingId)
  = StorageService.contentType.
Proof.
  unfold TranscribeMeeting.mime_of, StorageService.storagePath.
  rewrite !app_assoc. rewrite endsWith_app by reflexivity. reflexivity.
Qed.

Lemma filter_id_set_status (meetingId id : jsstring) (st : meeting_status)
    (ms : list Meeting.row) :
  filter (fun x => Js.eqb (Meeting.id x) meetingId) (set_status id st ms)
  = set_status id st (filter (fun x => Js.eqb (Meeting.id x) meetingId) ms).
Proof.
  unfold set_status. induction ms as [|x ms IH]; simpl; trivial.
  destruct (Js.eqb (Meeting.id x) id) eqn:Hx; simpl;
    destruct (Js.eqb (Meeting.id x) meetingId) eqn:Hy; simpl;
    rewrite ?Hx, IH; reflexivity.
Qed.

Lemma preserves_bind_read (on_db : database -> Prop) (on_req : request -> Prop)
    {A B} (P : A -> Prop) (m : M A) (k : A -> M B) :
  (forall w a w', on_db (db w) -> m w = (inr a, w') -> P a) ->
  preserves on_db on_req m ->
  (forall a, P a -> preserves on_db on_req (k a)) ->
  preserves on_db on_req (bind m k).
Proof.
  intros HP Hm Hk w0 w H. unfold bind.
  specialize (Hm w0 w H). specialize (HP w).
  destruct (m w) as [[e|a] w']; simpl in *; trivial.
  apply Hk; trivial. apply (HP a w'); trivial. apply H.
Qed.

Section Uploaded.

Variable E : env.
Variables userId meetingId : jsstring.

Let path := StorageService.storagePath userId meetingId.

(** The row of the meeting names the uploaded object. *)
Definition names_upload (d : database) : Prop :=
  forall m, filter (fun x => Js.eqb (Meeting.id x) meetingId) (meetings d) = [m] ->
            Meeting.audio_path m = Some path.

Definition mimeType (a : audio_part) : jsstring :=
  match a with InlineData m _ | FileData m _ => m end.

(** The request is about the object as it was stored. *)
Definition as_stored (r : request) : Prop :=
  match r with
  | DownloadAudio p => p = path
  | FileApiStart _ content_type displayName =>
      content_type = StorageService.contentType
      /\ displayName = meetingId ++ str ".m4a"
  | GenerateTranscription a _ _ => mimeType a = StorageService.contentType
  | _ => True
  end.

Let inv {A} (m : M A) : Prop := preserves names_upload as_stored m.

Lemma set_status_names (id : jsstring) (st : meeting_status) (d : database) :
  names_upload d -> names_upload (set_meetings (set_status id st) d).
Proof.
  intros H m Hm. cbn [set_meetings meetings] in Hm.
  rewrite filter_id_set_status in Hm.
  destruct (filter (fun x => Js.eqb (Meeting.id x) meetingId) (meetings d))
    as [|x [|y l]] eqn:Hf; try discriminate.
  specialize (H x Hf). cbn [set_status map] in Hm. injection Hm as <-.
  now destruct (Js.eqb (Meeting.id x) id).
Qed.

Ltac plain := exact I.
Ltac same_tables := let d := fresh "d" in let H := fresh "H" in
                    intros d H; first [exact H | now apply set_status_names].
Ltac stored_step := step_with plain same_tables.

Lemma update_status_stored (id : jsstring) (st : meeting_status) :
  inv (update_status E id st).
Proof.
  unfold inv, update_status. apply preserves_call; [exact I|].
  intros d H. now apply set_status_names.
Qed.

Lemma wait_active_stored (fileName : jsstring) (remaining i : nat) :
  inv (TranscribeMeeting.wait_active E fileName i remaining).
Proof.
  unfold inv. revert i. induction remaining as [|k IH]; intros i; simpl.
  - apply preserves_ret.
  - apply preserves_bind; [apply preserves_fetch; exact I|].
    intros checkRes.
    destruct checkRes as [message|[|] st t [message|[s|]]];
      try apply preserves_throw; try apply IH.
    destruct (Js.eqb s (str "ACTIVE")); [apply preserves_ret|apply IH].
Qed.

Lemma upload_file_stored (audioBytes : list Byte.byte) :
  inv (TranscribeMeeting.upload_file E meetingId StorageService.contentType audioBytes).
Proof.
  unfold inv, TranscribeMeeting.upload_file.
  apply preserves_bind; [apply preserves_fetch; now split|]. intros startRes.
  apply preserves_bind; [repeat stored_step|]. intros uploadUrl.
  apply preserves_bind; [apply preserves_fetch; exact I|]. intros uploadRes.
  apply preserves_bind; [repeat stored_step|]. intros [fileUri fileName].
  apply preserves_bind; [|intros; apply preserves_ret].
  destruct fileName as [n|]; [|apply preserves_ret].
  destruct (truthy n); [apply wait_active_stored|apply preserves_ret].
Qed.

Lemma save_transcript_stored (m : Meeting.row) (fileUri : option jsstring)
    (transcript : jsstring) :
  inv (TranscribeMeeting.save_transcript E meetingId m fileUri transcript).
Proof.
  unfold inv, TranscribeMeeting.save_transcript, TranscribeMeeting.insert_segments.
  apply preserves_bind; [apply preserves_call; [exact I|intros d H; exact H]|].
  intros insertRes.
  apply preserves_bind;
    [destruct insertRes; [apply preserves_ret|apply preserves_throw]|].
  intros _. apply preserves_bind; [apply update_status_stored|]. intros _.
  apply preserves_bind; [|intros; apply preserves_ret].
  destruct fileUri as [u|]; [|apply preserves_ret].
  destruct (truthy u); [|apply preserves_ret].
  apply preserves_attempt, preserves_emit. exact I.
Qed.

Lemma select_meeting_names (w w' : world) (r : reply Meeting.row) :
  names_upload (db w) -> select_meeting E meetingId w = (inr r, w') ->
  forall m, r = Data m -> Meeting.audio_path m = Some path.
Proof.
  intros Hdb Hsel m ->. unfold select_meeting, call in Hsel.
  destruct (db_fault E (length (log w)) (SelectMeeting meetingId)) as [[?|?]|];
    try discriminate.
  destruct (filter (fun x => Js.eqb (Meeting.id x) meetingId) (meetings (db w)))
    as [|x [|y l]] eqn:Hf; try discriminate.
  injection Hsel as Hx _. subst x. now apply Hdb.
Qed.

Lemma obtain_transcript_stored :
  inv (TranscribeMeeting.obtain_transcript E meetingId).
Proof.
  unfold inv, TranscribeMeeting.obtain_transcript.
  apply (preserves_bind_read _ _
           (fun r => forall m, r = Data m -> Meeting.audio_path m = Some path)).
  { intros w r w' Hdb Hsel. eapply select_meeting_names; eassumption. }
  { unfold select_meeting. apply preserves_call; [exact I|intros d H; exact H]. }
  intros r Hr.
  apply (preserves_bind_value _ _ (fun m => Meeting.audio_path m = Some path)).
  { intros w m w' H. destruct r as [m'|message]; [|discriminate].
    injection H as <- _. now apply Hr. }
  { destruct r; [apply preserves_ret|apply preserves_throw]. }
  intros meeting Hmeeting. rewrite Hmeeting.
  apply (preserves_bind_value _ _ (fun p => p = path)).
  { intros w p w' H. destruct (truthy path); [|discriminate].
    now injection H as <- _. }
  { destruct (truthy path); [apply preserves_ret|apply preserves_throw]. }
  intros audio_path ->.
  apply preserves_bind; [apply preserves_call; [reflexivity|intros d H; exact H]|].
  intros dl.
  apply preserves_bind;
    [destruct dl; [apply preserves_ret|apply preserves_throw]|].
  intros audioBytes. cbv zeta. unfold path. rewrite mime_of_storagePath.
  apply preserves_bind.
  { unfold TranscribeMeeting.transfer_audio.
    destruct (TranscribeMeeting.INLINE_LIMIT <? TranscribeMeeting.byteLength audioBytes)%N;
      [|apply preserves_ret].
    apply preserves_bind; [apply upload_file_stored|intros; apply preserves_ret]. }
  intros [fileUri audioBase64].
  apply preserves_bind.
  { apply preserves_fetch. unfold TranscribeMeeting.audio_part_of.
    destruct fileUri as [u|]; [destruct (truthy u)|]; reflexivity. }
  intros res. apply preserves_bind; [|intros; apply preserves_ret].
  destruct res as [message|[|] st t [message|txt]];
    first [apply preserves_throw | apply preserves_ret].
Qed.

Lemma transcribe_stage_stored (w0 w : world) :
  holds names_upload as_stored w0 w ->
  holds names_upload as_stored w0 (snd (TranscribeMeeting.stage E meetingId w)).
Proof.
  intros H. unfold TranscribeMeeting.stage, guarded.
  assert (Hbody : inv (TranscribeMeeting.stage_body E meetingId)).
  { unfold inv, TranscribeMeeting.stage_body.
    apply preserves_bind; [apply obtain_transcript_stored|].
    intros [[m fileUri] transcript]. apply save_transcript_stored. }
  specialize (Hbody w0 w H).
  destruct (TranscribeMeeting.stage_body E meetingId w) as [[e|r] w1];
    cbn [snd] in *; trivial.
  now apply (preserves_attempt _ _ _ (update_status_stored meetingId failed)).
Qed.

Lemma transcribe_handler_stored (w0 w : world) :
  holds names_upload as_stored w0 w ->
  holds names_upload as_stored w0
    (snd (TranscribeMeeting.handler E (Client.invocation meetingId) w)).
Proof.
  intros H. unfold TranscribeMeeting.handler, serve, Client.invocation.
  cbn [method body_meeting_id].
  change (Js.eqb (str "POST") (str "OPTIONS")) with false. cbv iota.
  destruct (truthy meetingId); [now apply transcribe_stage_stored|exact H].
Qed.

Lemma trigger_transcription_stored (delivers : nat -> Client.delivery)
    (w : world) :
  names_upload (db w) ->
  holds names_upload as_stored w
    (snd (Client.triggerTranscription E delivers meetingId w)).
Proof.
  intros Hdb.
  unfold Client.triggerTranscription, Client.trigger, Client.callEdgeFunction.
  pose proof (attempts_keep (TranscribeMeeting.handler E) delivers meetingId
                (holds names_upload as_stored w)
                (fun w1 H1 => transcribe_handler_stored w w1 H1)
                3%nat 1%nat w (holds_refl _ _ w Hdb)) as Hkept.
  destruct (Client.attempts (TranscribeMeeting.handler E) delivers meetingId 1 3 w)
    as [succeeded w1]. cbn [snd] in Hkept.
  destruct succeeded; [exact Hkept|].
  assert (Hup : inv (Client.updateMeetingStatus E meetingId failed ;;; ret tt)).
  { unfold inv, Client.updateMeetingStatus.
    apply preserves_bind; [|intros; apply preserves_ret].
    apply preserves_bind.
    - apply preserves_call; [exact I|]. intros d H. now apply set_status_names.
    - intros [m|message]; [apply preserves_ret|apply preserves_throw]. }
  exact (Hup w w1 Hkept).
Qed.

End Uploaded.

Lemma upload_names (caller : jsstring) (failure : nat -> option jsstring)
    (single_error : jsstring) (userId meetingId path : jsstring) (d d' : database) :
  StorageService.uploadMeetingAudio caller failure single_error userId meetingId d
  = (inr path, d') ->
  path = StorageService.storagePath userId meetingId
  /\ names_upload userId meetingId d'.
Proof.
  unfold StorageService.uploadMeetingAudio.
  destruct (failure 0%nat); [discriminate|].
  destruct (failure 1%nat); [discriminate|].
  destruct (failure 2%nat); [discriminate|].
  destruct (filter _ _) as [|x [|y l]] eqn:Hreached; try discriminate.
  intros H. injection H as <- <-. split; trivial.
  intros m Hm.
  assert (Hx : In x (filter (StorageService.reached caller meetingId)
                       (meetings (set_meetings
                          (StorageService.set_uploaded caller meetingId
                             (StorageService.storagePath userId meetingId)) d))))
    by (rewrite Hreached; now left).
  apply filter_In in Hx as [Hin Hr].
  assert (Hxm : In x [m]).
  { rewrite <- Hm. apply filter_In. split; trivial.
    unfold StorageService.reached in Hr. now apply andb_prop in Hr as [Hr _]. }
  destruct Hxm as [->|[]].
  cbn [set_meetings meetings] in Hin. unfold StorageService.set_uploaded in Hin.
  apply in_map_iff in Hin as (x0 & Hx0 & _).
  destruct (StorageService.reached caller meetingId x0) eqn:Hr0; subst x.
  - reflexivity.
  - congruence.
Qed.

(** The recording the app uploaded is the one that is transcribed: after
    [uploadMeetingAudio] has returned a path, whatever the attempts of
    [triggerTranscription] meet, every download they ask for is the uploaded
    object, and every announcement of the audio to Gemini (File API start,
    transcription request) carries the content type the object was stored
    with. *)
Theorem uploaded_recording_is_sent_as_stored :
  forall (E : env) (caller : jsstring) (failure : nat -> option jsstring)
         (single_error : jsstring) (delivers : nat -> Client.delivery)
         (userId meetingId path : jsstring)
         (d d' : database) (issued_before : list request),
    StorageService.uploadMeetingAudio caller failure single_error userId meetingId d
    = (inr path, d') ->
    path = StorageService.storagePath userId meetingId
    /\ exists issued,
         log (snd (Client.triggerTranscription E delivers meetingId
                     {| db := d'; log := issued_before |}))
         = issued_before ++ issued
         /\ Forall (as_stored userId meetingId) issued.
Proof.
  intros E caller failure single_error delivers userId meetingId path d d'
    issued_before Hup.
  apply upload_names in Hup as [-> Hnames]. split; trivial.
  destruct (trigger_transcription_stored E userId meetingId delivers
              {| db := d'; log := issued_before |} Hnames)
    as (_ & issued & Hlog & Hall).
  now exists issued.
Qed.

Lemma uploaded_recording_is_sent_as_stored_witness :
  str "u1/m1.m4a" = StorageService.storagePath (str "u1") (str "m1")
  /\ exists issued,
       log (snd (Client.triggerTranscription short_recording lost_once (str "m1")
                   {| db := db (world_of [a_meeting processing (Some (str "u1/m1.m4a"))]);
                      log := [] |}))
       = [] ++ issued
       /\ Forall (as_stored (str "u1") (str "m1")) issued.
Proof.
  apply (uploaded_recording_is_sent_as_stored short_recording (str "u1")
           (fun _ => None) (str "none") lost_once (str "u1") (str "m1")
           (str "u1/m1.m4a")
           (db (world_of [a_meeting recording None]))).
  reflexivity.
Defined.

(** ** Deleting a meeting *)

Lemma orphan_others (id : jsstring) (l : list Node.row) :
  map (MeetingService.orphan id) (others id l) = others id l.
Proof.
  unfold others. induction l as [|x l IH]; simpl; trivial.
  destruct (LinkMeeting.from_meeting id x) eqn:Hx; simpl; trivial.
  rewrite IH. f_equal. unfold MeetingService.orphan. now rewrite Hx.
Qed.

Lemma orphan_not_from (id : jsstring) (l : list Node.row) :
  filter (LinkMeeting.from_meeting id) (map (MeetingService.orphan id) l) = [].
Proof.
  induction l as [|x l IH]; simpl; trivial.
  unfold MeetingService.orphan at 1.
  destruct (LinkMeeting.from_meeting id x) eqn:Hx.
  - unfold LinkMeeting.from_meeting at 1. cbn [Node.data Node.source_meeting_id].
    exact IH.
  - now rewrite Hx.
Qed.

Lemma apart_or (ids : list jsstring) (l : list Edge.row) :
  filter (fun e => negb (LinkMeeting.mem (Edge.from_node e) ids
                         || LinkMeeting.mem (Edge.to_node e) ids)) l
  = filter (apart ids) l.
Proof. apply filter_ext. intros e. unfold apart. apply negb_orb. Qed.

(** The cascade of the node delete covers the two edge deletes before it,
    whatever the policy let them reach. *)
Lemma apart_from (ids : list jsstring) (reached : Edge.row -> bool)
    (l : list Edge.row) :
  filter (apart ids)
         (filter (fun e => negb (LinkMeeting.mem (Edge.from_node e) ids && reached e)) l)
  = filter (apart ids) l.
Proof.
  rewrite filter_filter. apply filter_ext. intros e. unfold apart.
  destruct (LinkMeeting.mem (Edge.from_node e) ids), (reached e); reflexivity.
Qed.

Lemma apart_to (ids : list jsstring) (reached : Edge.row -> bool)
    (l : list Edge.row) :
  filter (apart ids)
         (filter (fun e => negb (LinkMeeting.mem (Edge.to_node e) ids && reached e)) l)
  = filter (apart ids) l.
Proof.
  rewrite filter_filter. apply filter_ext. intros e. unfold apart.
  destruct (LinkMeeting.mem (Edge.from_node e) ids),
           (LinkMeeting.mem (Edge.to_node e) ids), (reached e); reflexivity.
Qed.

Section Deleting.

Variable caller : jsstring.
Variable failure : nat -> option fault.
Variable id : jsstring.

Hypothesis no_throw : forall k message, failure k <> Some (Thrown message).

(** A call that does not throw is served, or rejected without a write. *)
Lemma ask_cases {A} (k : nat) (op : database -> A * database) (w : world) :
  exists r w',
    MeetingService.ask failure k op w = (inr r, w')
    /\ ((failure k = None /\ r = Data (fst (op (db w))) /\ db w' = snd (op (db w)))
        \/ (failure k <> None /\ (exists message, r = Error message) /\ db w' = db w)).
Proof.
  unfold MeetingService.ask.
  destruct (failure k) as [[message|message]|] eqn:Hk.
  - eexists. eexists. split; [reflexivity|]. right.
    repeat split; [discriminate|now exists message].
  - now apply no_throw in Hk.
  - destruct (op (db w)) as [res d]. eexists. eexists. split; [reflexivity|].
    left. repeat split.
Qed.

(** The next call of the run. *)
Ltac next_ask r w' Hcase :=
  let H := fresh "Hask" in
  lazymatch goal with
  | |- exists _, bind (MeetingService.ask _ ?k ?op) _ ?w = _ /\ _ =>
      destruct (ask_cases k op w) as (r & w' & H & Hcase);
      rewrite (bind_value _ _ _ _ _ H); clear H
  end.

(** The tables outside the graph, and the nodes, as they were; the edges as
    they were up to those that touch [ids]. *)
Definition thinned (ids : list jsstring) (d d' : database) : Prop :=
  meetings d' = meetings d /\ transcripts d' = transcripts d
  /\ meeting_notes d' = meeting_notes d /\ action_items d' = action_items d
  /\ nodes d' = nodes d
  /\ filter (apart ids) (edges d') = filter (apart ids) (edges d).

Lemma thinned_refl (ids : list jsstring) (d : database) : thinned ids d d.
Proof. repeat split. Qed.

(** The nodes of the meeting are the caller's. *)
Definition owns_graph (d : database) : Prop :=
  forall x, In x (nodes d) -> LinkMeeting.from_meeting id x = true ->
            MeetingService.own_node caller x = true.

Lemma own_from (d : database) :
  owns_graph d ->
  filter (fun x => LinkMeeting.from_meeting id x && MeetingService.own_node caller x)
         (nodes d)
  = filter (LinkMeeting.from_meeting id) (nodes d).
Proof.
  intros H. apply filter_ext_in. intros x Hx.
  destruct (LinkMeeting.from_meeting id x) eqn:Hf; trivial.
  now rewrite (H x Hx Hf).
Qed.

Lemma own_others (d : database) :
  owns_graph d ->
  filter (fun x => negb (LinkMeeting.from_meeting id x
                         && MeetingService.own_node caller x)) (nodes d)
  = others id (nodes d).
Proof.
  intros H. apply filter_ext_in. intros x Hx.
  destruct (LinkMeeting.from_meeting id x) eqn:Hf; trivial.
  now rewrite (H x Hx Hf).
Qed.

(** The graph of the meeting goes when the nodes were read and their delete
    was served, whatever became of the two edge deletes. *)
Lemma remove_graph_served (w : world) :
  failure 1%nat = None -> failure 4%nat = None -> owns_graph (db w) ->
  exists w',
    MeetingService.remove_graph caller failure id w = (inr tt, w')
    /\ meetings (db w') = meetings (db w)
    /\ transcripts (db w') = transcripts (db w)
    /\ meeting_notes (db w') = meeting_notes (db w)
    /\ action_items (db w') = action_items (db w)
    /\ nodes (db w') = others id (nodes (db w))
    /\ edges (db w')
       = filter (apart (map Node.id
                          (filter (LinkMeeting.from_meeting id) (nodes (db w)))))
                (edges (db w)).
Proof.
  intros H1 H4 Hown. unfold MeetingService.remove_graph.
  next_ask r w1 Hcase1.
  destruct Hcase1 as [(_ & -> & Hdb)|(Hf & _)]; [|contradiction].
  cbn [fst snd] in *. rewrite (own_from _ Hown).
  destruct (filter (LinkMeeting.from_meeting id) (nodes (db w))) as [|n ns] eqn:Hold.
  - exists w1. rewrite Hdb. repeat split.
    + unfold others. now rewrite filter_none.
    + cbn [map]. symmetry. apply filter_all.
  - set (ids := map Node.id (n :: ns)).
    next_ask r2 w2 Hcase2.
    assert (Hw2 : thinned ids (db w) (db w2)).
    { destruct Hcase2 as [(_ & _ & ->)|(_ & _ & ->)]; rewrite Hdb;
        [|apply thinned_refl].
      unfold thinned. cbn [snd LinkMeeting.set_edges meetings transcripts
                             meeting_notes action_items nodes edges].
      repeat split. apply apart_from. }
    next_ask r3 w3 Hcase3.
    assert (Hw3 : thinned ids (db w) (db w3)).
    { destruct Hw2 as (Ha & Hb & Hc & Hd & He & Hf).
      destruct Hcase3 as [(_ & _ & ->)|(_ & _ & ->)]; [|repeat split; trivial].
      unfold thinned. cbn [snd LinkMeeting.set_edges meetings transcripts
                             meeting_notes action_items nodes edges].
      repeat split; trivial. now rewrite apart_to. }
    next_ask r4 w4 Hcase4.
    destruct Hcase4 as [(_ & _ & Hdb4)|(Hf & _)]; [|contradiction].
    exists w4. split; [reflexivity|]. rewrite Hdb4.
    destruct Hw3 as (Ha & Hb & Hc & Hd & He & Hf).
    assert (Hown3 : owns_graph (db w3)) by (unfold owns_graph; now rewrite He).
    unfold MeetingService.delete_nodes.
    cbn [snd LinkMeeting.set_edges LinkMeeting.set_nodes meetings transcripts
           meeting_notes action_items nodes edges].
    rewrite (own_from _ Hown3), (own_others _ Hown3), He, Hold.
    fold ids. rewrite apart_or, Hf.
    repeat split; trivial.
Qed.

(** A rejected select of the nodes ends the cleanup before it starts. *)
Lemma remove_graph_unread (w : world) :
  failure 1%nat <> None ->
  exists w',
    MeetingService.remove_graph caller failure id w = (inr tt, w')
    /\ db w' = db w.
Proof.
  intros H1. unfold MeetingService.remove_graph.
  next_ask r w1 Hcase1.
  destruct Hcase1 as [(Hf & _)|(_ & (message & ->) & Hdb)]; [contradiction|].
  now exists w1.
Qed.

Lemma remove_recording_keeps (meeting : reply (option Meeting.row)) (w : world) :
  exists w',
    MeetingService.remove_recording failure meeting w = (inr tt, w')
    /\ db w' = db w.
Proof.
  unfold MeetingService.remove_recording.
  destruct meeting as [[m|]|message]; try (now exists w).
  destruct (Meeting.audio_path m) as [p|]; [|now exists w].
  destruct (truthy p); [|now exists w].
  next_ask r w' Hcase.
  exists w'. split; [reflexivity|].
  destruct Hcase as [(_ & _ & ->)|(_ & _ & ->)]; reflexivity.
Qed.

(** The run around the cleanup: what the cleanup left, less the meeting. *)
Lemma delete_meeting_served (w : world) (graph : database -> database) :
  failure 6%nat = None ->
  (forall w0, db w0 = db w ->
     exists w1, MeetingService.remove_graph caller failure id w0 = (inr tt, w1)
                /\ db w1 = graph (db w)) ->
  exists w',
    MeetingService.deleteMeeting caller failure id w = (inr tt, w')
    /\ db w'
       = MeetingService.delete_meeting
           (fun m => Js.eqb (Meeting.id m) id && MeetingService.own_meeting caller m)
           id (graph (db w)).
Proof.
  intros H6 Hgraph. unfold MeetingService.deleteMeeting.
  next_ask found w0 Hcase0.
  assert (Hdb0 : db w0 = db w)
    by (destruct Hcase0 as [(_ & _ & ->)|(_ & _ & ->)]; reflexivity).
  destruct (Hgraph w0 Hdb0) as (w1 & Hrun & Hdb1).
  rewrite (bind_value _ _ _ _ _ Hrun).
  destruct (remove_recording_keeps found w1) as (w2 & Hrec & Hdb2).
  rewrite (bind_value _ _ _ _ _ Hrec).
  next_ask gone w3 Hcase6.
  destruct Hcase6 as [(_ & -> & Hdb3)|(Hf6 & _)]; [|contradiction].
  exists w3. split; [reflexivity|]. cbn [snd] in Hdb3.
  now rewrite Hdb3, Hdb2, Hdb1.
Qed.

End Deleting.

(** Deleting a meeting of one's own leaves nothing of it. When no call
    throws, the select of the nodes, the delete of the nodes and the delete
    of the meeting are served, and the nodes of the meeting are the
    caller's, [deleteMeeting] returns and the meeting's row, transcripts,
    note, action items and nodes are gone with every edge that touched one
    of its nodes; every other row of every table stays as it was. A rejected
    edge delete, an edge the policy keeps out of reach or a rejected removal
    of the recording changes nothing of this. *)
Theorem deleted_meeting_leaves_nothing :
  forall (caller : jsstring) (failure : nat -> option fault) (id : jsstring)
         (w : world),
    (forall k message, failure k <> Some (Thrown message)) ->
    failure 1%nat = None -> failure 4%nat = None -> failure 6%nat = None ->
    existsb (fun m => Js.eqb (Meeting.id m) id && MeetingService.own_meeting caller m)
            (meetings (db w)) = true ->
    (forall x, In x (nodes (db w)) -> LinkMeeting.from_meeting id x = true ->
               MeetingService.own_node caller x = true) ->
    let d := db w in
    let d' := db (snd (MeetingService.deleteMeeting caller failure id w)) in
    fst (MeetingService.deleteMeeting caller failure id w) = inr tt
    /\ meetings d'
       = filter (fun m => negb (Js.eqb (Meeting.id m) id
                                && MeetingService.own_meeting caller m)) (meetings d)
    /\ transcripts d'
       = filter (fun t => negb (Js.eqb (Transcript.meeting_id t) id)) (transcripts d)
    /\ meeting_notes d'
       = filter (fun n => negb (Js.eqb (MeetingNote.meeting_id n) id)) (meeting_notes d)
    /\ action_items d'
       = filter (fun a => negb (Js.eqb (ActionItem.meeting_id a) id)) (action_items d)
    /\ nodes d' = filter (fun x => negb (LinkMeeting.from_meeting id x)) (nodes d)
    /\ edges d'
       = filter (apart (map Node.id (filter (LinkMeeting.from_meeting id) (nodes d))))
                (edges d).
Proof.
  intros caller failure id w Hthrow H1 H4 H6 Hthere Hown. cbv zeta.
  set (ids := map Node.id (filter (LinkMeeting.from_meeting id) (nodes (db w)))).
  set (graph := fun d : database =>
         {| meetings := meetings d; transcripts := transcripts d;
            meeting_notes := meeting_notes d; action_items := action_items d;
            nodes := others id (nodes d);
            edges := filter (apart (map Node.id
                               (filter (LinkMeeting.from_meeting id) (nodes d))))
                            (edges d) |}).
  destruct (delete_meeting_served caller failure id Hthrow w graph H6)
    as (w' & Hrun & Hdb).
  { intros w0 Hdb0.
    destruct (remove_graph_served caller failure id Hthrow w0 H1 H4)
      as (w1 & Hrun & Ha & Hb & Hc & Hd & He & Hf).
    - unfold owns_graph. now rewrite Hdb0.
    - exists w1. split; trivial. rewrite Hdb0 in *. unfold graph.
      destruct (db w1) as [t1 t2 t3 t4 t5 t6].
      cbn [meetings transcripts meeting_notes action_items nodes edges] in *.
      congruence. }
  rewrite Hrun. cbn [fst snd]. split; trivial. rewrite Hdb.
  unfold MeetingService.delete_meeting, graph.
  cbn [meetings transcripts meeting_notes action_items nodes edges].
  rewrite Hthere. cbn [meetings transcripts meeting_notes action_items nodes edges].
  repeat split. apply orphan_others.
Qed.

Lemma deleted_meeting_leaves_nothing_witness :
  nodes (db (snd (MeetingService.deleteMeeting (str "u1") (fun _ => None) (str "m1")
                    {| db := two_meetings; log := [] |})))
  = filter (fun x => negb (LinkMeeting.from_meeting (str "m1") x)) (nodes two_meetings).
Proof.
  refine (proj1 (proj2 (proj2 (proj2 (proj2 (proj2
           (deleted_meeting_leaves_nothing (str "u1") (fun _ => None) (str "m1")
              {| db := two_meetings; log := [] |}
              ltac:(discriminate) eq_refl eq_refl eq_refl eq_refl _))))))).
  intros x [<-|[<-|[]]] H; [reflexivity|discriminate H].
Defined.

(** The graph cleanup is best effort. When the select of the meeting's
    nodes is rejected and the delete of the meeting is served,
    [deleteMeeting] still returns without an error: the meeting goes with
    its transcripts, note and action items, but its nodes all stay in the
    graph, cut loose from the meeting ([source_meeting_id] null), and every
    edge stays. *)
Theorem unread_nodes_outlive_their_meeting :
  forall (caller : jsstring) (failure : nat -> option fault) (id : jsstring)
         (w : world),
    (forall k message, failure k <> Some (Thrown message)) ->
    failure 1%nat <> None -> failure 6%nat = None ->
    existsb (fun m => Js.eqb (Meeting.id m) id && MeetingService.own_meeting caller m)
            (meetings (db w)) = true ->
    let d := db w in
    let d' := db (snd (MeetingService.deleteMeeting caller failure id w)) in
    fst (MeetingService.deleteMeeting caller failure id w) = inr tt
    /\ meetings d'
       = filter (fun m => negb (Js.eqb (Meeting.id m) id
                                && MeetingService.own_meeting caller m)) (meetings d)
    /\ transcripts d'
       = filter (fun t => negb (Js.eqb (Transcript.meeting_id t) id)) (transcripts d)
    /\ meeting_notes d'
       = filter (fun n => negb (Js.eqb (MeetingNote.meeting_id n) id)) (meeting_notes d)
    /\ action_items d'
       = filter (fun a => negb (Js.eqb (ActionItem.meeting_id a) id)) (action_items d)
    /\ nodes d' = map (MeetingService.orphan id) (nodes d)
    /\ map Node.id (nodes d') = map Node.id (nodes d)
    /\ filter (LinkMeeting.from_meeting id) (nodes d') = []
    /\ edges d' = edges d.
Proof.
  intros caller failure id w Hthrow H1 H6 Hthere. cbv zeta.
  destruct (delete_meeting_served caller failure id Hthrow w (fun d => d) H6)
    as (w' & Hrun & Hdb).
  { intros w0 Hdb0.
    destruct (remove_graph_unread caller failure id Hthrow w0 H1) as (w1 & Hrun & Hdb1).
    exists w1. split; trivial. congruence. }
  rewrite Hrun. cbn [fst snd]. split; trivial. rewrite Hdb.
  unfold MeetingService.delete_meeting. rewrite Hthere.
  cbn [meetings transcripts meeting_notes action_items nodes edges].
  repeat split.
  - rewrite map_map. apply map_ext. intros x. unfold MeetingService.orphan.
    now destruct (LinkMeeting.from_meeting id x).
  - apply orphan_not_from.
Qed.

Lemma unread_nodes_outlive_their_meeting_witness :
  map Node.id
      (nodes (db (snd (MeetingService.deleteMeeting (str "u1")
                         (fun k => if (k =? 1)%nat
                                   then Some (Rejected (str "timeout")) else None)
                         (str "m1") {| db := two_meetings; log := [] |}))))
  = map Node.id (nodes two_meetings).
Proof.
  exact (proj1 (proj2 (proj2 (proj2 (proj2 (proj2 (proj2
           (unread_nodes_outlive_their_meeting (str "u1")
              (fun k => if (k =? 1)%nat
                        then Some (Rejected (str "timeout")) else None)
              (str "m1") {| db := two_meetings; log := [] |}
              (fun k message =>
                 match k with
                 | 1%nat => ltac:(discriminate)
                 | _ => ltac:(discriminate)
                 end)
              ltac:(discriminate) eq_refl eq_refl)))))))).
Defined.

(** ** link-meeting: whose nodes *)

Section LinkOwner.

Variable E : env.
Variable meetingId : jsstring.
Variable owner : jsstring.

(** Every candidate node is the owner's. *)
Definition owned (l : list Node.fields) : Prop :=
  Forall (fun f => Node.user_id f = owner) l.

(** The row of the meeting names the owner, and so do the nodes of the
    meeting. *)
Definition owner_db (d : database) : Prop :=
  (forall m, filter (fun x => Js.eqb (Meeting.id x) meetingId) (meetings d) = [m] ->
             Meeting.user_id m = owner)
  /\ Forall (fun x => LinkMeeting.from_meeting meetingId x = true ->
                      Node.user_id (Node.data x) = owner) (nodes d).

(** The graph is searched and extended for the owner only. *)
Definition owner_req (r : request) : Prop :=
  match r with
  | SearchNodes _ match_user_id _ _ => match_user_id = owner
  | InsertNodes nodesToInsert => owned nodesToInsert
  | _ => True
  end.

Let inv {A} (m : M A) : Prop := preserves owner_db owner_req m.

Lemma set_status_owner (id : jsstring) (st : meeting_status) (d : database) :
  owner_db d -> owner_db (set_meetings (set_status id st) d).
Proof.
  intros [Hm Hn]. split; [|exact Hn].
  intros m H. cbn [set_meetings meetings] in H.
  rewrite filter_id_set_status in H.
  destruct (filter (fun x => Js.eqb (Meeting.id x) meetingId) (meetings d))
    as [|x [|y l]] eqn:Hf; try discriminate.
  specialize (Hm x eq_refl). cbn [set_status map] in H. injection H as <-.
  now destruct (Js.eqb (Meeting.id x) id).
Qed.

Ltac owner_tables :=
  let d := fresh "d" in
  let Hm := fresh "Hm" in
  let Hn := fresh "Hn" in
  intros d [Hm Hn]; split; [exact Hm|];
  cbn [snd LinkMeeting.set_edges LinkMeeting.set_nodes nodes];
  first [ exact Hn
        | let x := fresh "x" in
          let Hx := fresh "Hx" in
          apply Forall_forall; intros x Hx;
          apply filter_In in Hx as [Hx _];
          exact (proj1 (Forall_forall _ _) Hn x Hx) ].

Ltac own := repeat step_with ltac:(exact I) owner_tables.

Lemma embed_owner (text : jsstring) : inv (LinkMeeting.embed E text).
Proof. unfold inv, LinkMeeting.embed. own. Qed.

Lemma decision_nodes_owner (decisions : list jsstring)
    (nodesToInsert : list Node.fields) :
  inv (LinkMeeting.decision_nodes E meetingId owner decisions nodesToInsert).
Proof.
  unfold inv. revert nodesToInsert.
  induction decisions as [|dec rest IH]; intros nodesToInsert; simpl.
  - own.
  - apply preserves_bind; [apply embed_owner|]. intros decEmbed. apply IH.
Qed.

Lemma action_nodes_owner (actions : list ActionItem.row)
    (nodesToInsert : list Node.fields) :
  inv (LinkMeeting.action_nodes E meetingId owner actions nodesToInsert).
Proof.
  unfold inv. revert nodesToInsert.
  induction actions as [|a rest IH]; intros nodesToInsert; simpl.
  - own.
  - apply preserves_bind; [apply embed_owner|]. intros actEmbed. apply IH.
Qed.

Lemma decision_nodes_owned (decisions : list jsstring)
    (nodesToInsert a : list Node.fields) (w w' : world) :
  owned nodesToInsert ->
  LinkMeeting.decision_nodes E meetingId owner decisions nodesToInsert w
  = (inr a, w') ->
  owned a.
Proof.
  revert nodesToInsert w.
  induction decisions as [|dec rest IH]; intros nodesToInsert w Hs; simpl.
  - unfold ret. intros H. now injection H as <- _.
  - unfold bind at 1. unfold LinkMeeting.embed, bind, emit, ret. apply IH.
    apply Forall_app. split; trivial. now constructor.
Qed.

Lemma action_nodes_owned (actions : list ActionItem.row)
    (nodesToInsert a : list Node.fields) (w w' : world) :
  owned nodesToInsert ->
  LinkMeeting.action_nodes E meetingId owner actions nodesToInsert w
  = (inr a, w') ->
  owned a.
Proof.
  revert nodesToInsert w.
  induction actions as [|act rest IH]; intros nodesToInsert w Hs; simpl.
  - unfold ret. intros H. now injection H as <- _.
  - unfold bind at 1. unfold LinkMeeting.embed, bind, emit, ret. apply IH.
    apply Forall_app. split; trivial. now constructor.
Qed.

Lemma link_nodes_owner (cap : nat) (insertedNodes : list Node.row)
    (edgesToInsert : list Edge.row) :
  inv (LinkMeeting.link_nodes E owner cap insertedNodes edgesToInsert).
Proof.
  unfold inv. revert edgesToInsert.
  induction insertedNodes as [|node rest IH]; intros edgesToInsert; simpl.
  - own.
  - destruct (Node.embedding (Node.data node)); [|apply IH].
    apply preserves_bind; [apply preserves_call; [reflexivity|owner_tables]|].
    intros r. apply IH.
Qed.

Lemma assign_ids_owned (start : nat) (l : list Node.fields) :
  owned l ->
  Forall (fun x => LinkMeeting.from_meeting meetingId x = true ->
                   Node.user_id (Node.data x) = owner)
         (LinkMeeting.assign_ids E start l).
Proof.
  intros H. revert start. induction H as [|f l Hf Hl IH]; intros start; simpl;
    constructor; [|apply IH].
  intros _. exact Hf.
Qed.

Lemma select_meeting_owner (w w' : world) (r : reply Meeting.row) :
  owner_db (db w) -> select_meeting E meetingId w = (inr r, w') ->
  forall m, r = Data m -> Meeting.user_id m = owner.
Proof.
  intros [Hdb _] Hsel m ->. unfold select_meeting, call in Hsel.
  destruct (db_fault E (length (log w)) (SelectMeeting meetingId)) as [[?|?]|];
    try discriminate.
  destruct (filter (fun x => Js.eqb (Meeting.id x) meetingId) (meetings (db w)))
    as [|x [|y l]] eqn:Hf; try discriminate.
  injection Hsel as Hx _. subst x. now apply Hdb.
Qed.

Lemma link_body_owner : inv (LinkMeeting.stage_body E meetingId).
Proof.
  unfold inv, LinkMeeting.stage_body.
  apply (preserves_bind_read _ _
           (fun r => forall m, r = Data m -> Meeting.user_id m = owner)).
  { intros w r w' Hdb Hsel. eapply select_meeting_owner; eassumption. }
  { unfold select_meeting. own. }
  intros r Hr.
  apply (preserves_bind_value _ _ (fun m => Meeting.user_id m = owner)).
  { intros w m w' H. destruct r as [m'|message]; [|discriminate].
    injection H as <- _. now apply Hr. }
  { destruct r; own. }
  intros m Hm. rewrite Hm.
  apply preserves_bind; [own|]. intros noteRes.
  apply preserves_bind; [own|]. intros actionsRes.
  apply preserves_bind; [own|]. intros transcriptsRes.
  apply preserves_bind; [unfold LinkMeeting.remove_old; own|]. intros removed.
  apply preserves_bind; [apply embed_owner|]. intros meetingEmbed.
  apply (preserves_bind_value _ _ owned).
  { intros w a w'. destruct (LinkMeeting.summary_of _).
    - unfold bind, LinkMeeting.embed, emit, ret. intros H. injection H as <- _.
      repeat constructor.
    - unfold ret. intros H. injection H as <- _. repeat constructor. }
  { destruct (LinkMeeting.summary_of _); [|own].
    apply preserves_bind; [apply embed_owner|]. intros; own. }
  intros nodes1 H1.
  apply (preserves_bind_value _ _ owned).
  { intros w a w'. now apply decision_nodes_owned. }
  { apply decision_nodes_owner. }
  intros nodes2 H2.
  apply (preserves_bind_value _ _ owned).
  { intros w a w'. now apply action_nodes_owned. }
  { apply action_nodes_owner. }
  intros nodesToInsert Hs.
  apply preserves_bind.
  { unfold LinkMeeting.insert_nodes. apply preserves_call; [exact Hs|].
    intros d [Hmd Hnd]. split; [exact Hmd|].
    cbn [snd LinkMeeting.set_nodes nodes]. apply Forall_app. split; trivial.
    now apply assign_ids_owned. }
  intros insRes.
  apply preserves_bind; [own|]. intros insertedNodes.
  apply preserves_bind; [apply link_nodes_owner|]. intros edgesToInsert.
  apply preserves_bind.
  { destruct edgesToInsert; [own|]. unfold LinkMeeting.insert_edges. own. }
  intros saved. apply preserves_bind; [|intros; own].
  unfold update_status. apply preserves_call; [exact I|].
  intros d H. now apply set_status_owner.
Qed.

Lemma link_stage_owner (w : world) :
  owner_db (db w) ->
  holds owner_db owner_req w (snd (LinkMeeting.stage E meetingId w)).
Proof.
  intros Hw.
  apply (guarded_holds E owner_db owner_req meetingId done
           (LinkMeeting.stage_body E meetingId) w link_body_owner); trivial.
  unfold update_status. apply preserves_call; [exact I|].
  intros d H. now apply set_status_owner.
Qed.

End LinkOwner.

(** The graph of a meeting is its owner's. When the row of the meeting
    names a user and the nodes the meeting already has are that user's, a
    run of the linking handler leaves it so: every batch of nodes it
    inserts is that user's, and every similarity search it asks for is
    restricted to that user's nodes. *)
Theorem link_run_works_for_the_owner :
  forall (E : env) (req : http_request) (meetingId owner : jsstring) (w : world),
    body_meeting_id req = Some meetingId ->
    (forall m,
        filter (fun x => Js.eqb (Meeting.id x) meetingId) (meetings (db w)) = [m] ->
        Meeting.user_id m = owner) ->
    Forall (fun x => LinkMeeting.from_meeting meetingId x = true ->
                     Node.user_id (Node.data x) = owner) (nodes (db w)) ->
    let w' := snd (LinkMeeting.handler E req w) in
    Forall (fun x => LinkMeeting.from_meeting meetingId x = true ->
                     Node.user_id (Node.data x) = owner) (nodes (db w'))
    /\ exists issued,
         log w' = log w ++ issued
         /\ Forall (owner_req owner) issued.
Proof.
  intros E req meetingId owner w Hb Hm Hn. cbv zeta.
  assert (Hw : holds (owner_db meetingId owner) (owner_req owner) w w)
    by (apply holds_refl; now split).
  unfold LinkMeeting.handler, serve. rewrite Hb.
  assert (Hgoal : forall w1,
             holds (owner_db meetingId owner) (owner_req owner) w w1 ->
             Forall (fun x => LinkMeeting.from_meeting meetingId x = true ->
                              Node.user_id (Node.data x) = owner) (nodes (db w1))
             /\ exists issued,
                  log w1 = log w ++ issued /\ Forall (owner_req owner) issued).
  { intros w1 ([_ Hn1] & issued & Hl & Hi). split; trivial. now exists issued. }
  destruct (Js.eqb (method req) (str "OPTIONS")); [now apply Hgoal|].
  destruct (truthy meetingId); [|now apply Hgoal].
  apply Hgoal. apply link_stage_owner. now split.
Qed.

Lemma link_run_works_for_the_owner_witness :
  Forall (fun x => LinkMeeting.from_meeting (str "m1") x = true ->
                   Node.user_id (Node.data x) = str "u1")
         (nodes (db (snd (LinkMeeting.handler busy_graph (post (str "m1"))
                            analysed_world)))).
Proof.
  refine (proj1 (link_run_works_for_the_owner busy_graph (post (str "m1"))
                   (str "m1") (str "u1") analysed_world eq_refl _ _)).
  - intros m H. injection H as <-. reflexivity.
  - constructor.
Defined.

(** ** From analysis to linking *)






(** ** Deleting a meeting of someone else *)

Lemma existsb_filter_nil {A} (f : A -> bool) (l : list A) :
  filter f l = [] -> existsb f l = false.
Proof.
  induction l as [|x l IH]; simpl; trivial.
  destruct (f x); [discriminate|]. exact IH.
Qed.

(** Under the policies a user cannot delete what is not theirs. When the
    caller owns no meeting of that id and no node of that meeting,
    [deleteMeeting] writes nothing, whatever its calls meet; and unless a
    call throws or the last one is rejected it returns as if the meeting
    had been deleted. *)
Theorem strangers_delete_changes_nothing :
  forall (caller : jsstring) (failure : nat -> option fault) (id : jsstring)
         (w : world),
    filter (fun m => Js.eqb (Meeting.id m) id && MeetingService.own_meeting caller m)
           (meetings (db w)) = [] ->
    filter (fun x => LinkMeeting.from_meeting id x && MeetingService.own_node caller x)
           (nodes (db w)) = [] ->
    db (snd (MeetingService.deleteMeeting caller failure id w)) = db w
    /\ ((forall k message, failure k <> Some (Thrown message)) ->
        failure 6%nat = None ->
        fst (MeetingService.deleteMeeting caller failure id w) = inr tt).
Proof.
  intros caller failure id w Hmeeting Hnodes.
  assert (Hgraph : forall w0, db w0 = db w ->
             (exists message,
                 MeetingService.remove_graph caller failure id w0 = (inl message, w0))
             \/ exists w1,
                  MeetingService.remove_graph caller failure id w0 = (inr tt, w1)
                  /\ db w1 = db w).
  { intros w0 H0. unfold MeetingService.remove_graph, bind, MeetingService.ask.
    destruct (failure 1%nat) as [[message|message]|].
    - right. now exists w0.
    - left. now exists message.
    - right. rewrite H0, Hnodes. eexists. split; reflexivity. }
  assert (Hrec : forall found w0, db w0 = db w ->
             (exists message,
                 MeetingService.remove_recording failure found w0 = (inl message, w0))
             \/ exists w1,
                  MeetingService.remove_recording failure found w0 = (inr tt, w1)
                  /\ db w1 = db w).
  { intros found w0 H0. unfold MeetingService.remove_recording.
    destruct found as [[m|]|message]; try (right; now exists w0).
    destruct (Meeting.audio_path m) as [p|]; [|right; now exists w0].
    destruct (truthy p); [|right; now exists w0].
    unfold bind, MeetingService.ask.
    destruct (failure 5%nat) as [[message|message]|].
    - right. now exists w0.
    - left. now exists message.
    - right. eexists. split; reflexivity || exact H0. }
  assert (Hlast : forall w0, db w0 = db w ->
             MeetingService.delete_meeting
               (fun m => Js.eqb (Meeting.id m) id && MeetingService.own_meeting caller m)
               id (db w0) = db w).
  { intros w0 H0. unfold MeetingService.delete_meeting.
    now rewrite H0, (existsb_filter_nil _ _ Hmeeting). }
  assert (Hrest : forall found w0, db w0 = db w ->
            let run :=
              (MeetingService.remove_graph caller failure id ;;;
               MeetingService.remove_recording failure found ;;;
               gone <- MeetingService.ask failure 6
                         (fun d =>
                            (tt, MeetingService.delete_meeting
                                   (fun m => Js.eqb (Meeting.id m) id
                                             && MeetingService.own_meeting caller m)
                                   id d)) ;;
               match gone with
               | Error message => throw message
               | Data _ => ret tt
               end) w0 in
            db (snd run) = db w
            /\ ((forall k message, failure k <> Some (Thrown message)) ->
                failure 6%nat = None -> fst run = inr tt)).
  { intros found w0 H0. cbv zeta.
    destruct (Hgraph w0 H0) as [(message & Hg)|(w1 & Hg & H1)].
    { unfold bind at 1. rewrite Hg. cbn [fst snd]. split; trivial.
      intros Hthrow _. exfalso. revert Hg.
      unfold MeetingService.remove_graph, bind, MeetingService.ask.
      destruct (failure 1%nat) as [[m1|m1]|] eqn:F1; try discriminate.
      - now apply Hthrow in F1.
      - rewrite H0, Hnodes. discriminate. }
    rewrite (bind_value _ _ _ _ _ Hg).
    destruct (Hrec found w1 H1) as [(message & Hr)|(w2 & Hr & H2)].
    { unfold bind at 1. rewrite Hr. cbn [fst snd]. split; trivial.
      intros Hthrow _. exfalso. revert Hr.
      unfold MeetingService.remove_recording.
      destruct found as [[m|]|msg]; try discriminate.
      destruct (Meeting.audio_path m) as [p|]; try discriminate.
      destruct (truthy p); try discriminate.
      unfold bind, MeetingService.ask.
      destruct (failure 5%nat) as [[m5|m5]|] eqn:F5; try discriminate.
      now apply Hthrow in F5. }
    rewrite (bind_value _ _ _ _ _ Hr).
    unfold bind, MeetingService.ask.
    destruct (failure 6%nat) as [[m6|m6]|] eqn:F6; cbn [fst snd db throw ret].
    - split; trivial. intros _ H. discriminate H.
    - split; trivial. intros _ H. discriminate H.
    - split; [now apply Hlast|]. reflexivity. }
  remember (MeetingService.deleteMeeting caller failure id w) as run eqn:Hrun.
  unfold MeetingService.deleteMeeting in Hrun.
  unfold bind at 1 in Hrun. unfold MeetingService.ask at 1 in Hrun.
  destruct (failure 0%nat) as [[m0|m0]|] eqn:F0; subst run.
  - exact (Hrest (Error m0) w eq_refl).
  - cbn [fst snd]. split; trivial. intros Hthrow _. now apply Hthrow in F0.
  - exact (Hrest _ {| db := db w; log := log w |} eq_refl).
Qed.

Lemma strangers_delete_changes_nothing_witness :
  db (snd (MeetingService.deleteMeeting (str "u2") (fun _ => None) (str "m1")
             {| db := two_meetings; log := [] |}))
  = two_meetings.
Proof.
  exact (proj1 (strangers_delete_changes_nothing (str "u2") (fun _ => None) (str "m1")
                  {| db := two_meetings; log := [] |} eq_refl eq_refl)).
Defined.
